(** * Paws-Puffs visual editor: localized stylesheet compiler

    A shallow embedding of the translation core of the visual editor:

    - [visual-editor-format-parser.js]: alias dictionaries, value
      translator, localized-format parser and generator, result cache;
    - [visual-editor-generator.js]: layout preprocessing, shorthand merge,
      canonical rule generation;
    - [visual-editor-parser.js]: canonical stylesheet parser;
    - [visual-editor-css-preprocessor.js]: decoration rule engine.

    JavaScript strings are sequences of UTF-16 code units; they are modelled
    as [list N].  Object literals and [Map]s keep insertion order and are
    modelled as association lists with in-place update.  Only own properties
    are modelled: a lookup such as [this.propertyMap[name]] with [name]
    naming a member of [Object.prototype] (for instance "constructor") is
    outside the model, as are object keys that are canonical array indices
    (which JavaScript enumerates before all other keys). *)

From Stdlib Require Import String Ascii NArith ZArith List Bool Lia Arith.
From Stdlib Require Import Permutation.
From Stdlib Require Decimal DecimalPos DecimalZ.
Import ListNotations.



(* ===================================================================== *)
(** ** JavaScript strings *)
(* ===================================================================== *)

Module JS.

Definition jschar := N.
Definition jsstring := list jschar.

(** Source literals are written in UTF-8; [u] decodes them to UTF-16 code
    units (a code point above U+FFFF becomes a surrogate pair). *)
Fixpoint utf8 (bs : list N) : jsstring :=
  match bs with
  | [] => []
  | b0 :: r0 =>
    if (b0 <? 128)%N then b0 :: utf8 r0
    else if (b0 <? 224)%N then
      match r0 with
      | b1 :: r1 => ((b0 mod 32) * 64 + b1 mod 64)%N :: utf8 r1
      | [] => []
      end
    else if (b0 <? 240)%N then
      match r0 with
      | b1 :: b2 :: r2 =>
        ((b0 mod 16) * 4096 + (b1 mod 64) * 64 + b2 mod 64)%N :: utf8 r2
      | _ => []
      end
    else
      match r0 with
      | b1 :: b2 :: b3 :: r3 =>
        let cp := ((b0 mod 8) * 262144 + (b1 mod 64) * 4096
                   + (b2 mod 64) * 64 + b3 mod 64 - 65536)%N in
        (55296 + cp / 1024)%N :: (56320 + cp mod 1024)%N :: utf8 r3
      | _ => []
      end
  end.

Definition u (s : string) : jsstring :=
  utf8 (map N_of_ascii (list_ascii_of_string s)).

Fixpoint streq (a b : jsstring) : bool :=
  match a, b with
  | [], [] => true
  | x :: a', y :: b' => (x =? y)%N && streq a' b'
  | _, _ => false
  end.

(** Truthiness of a string value: the empty string is the only falsy one. *)
Definition truthy (s : jsstring) : bool :=
  match s with [] => false | _ => true end.

(** [WhiteSpace] and [LineTerminator] code units, as removed by
    [String.prototype.trim] and matched by the regular expression class
    [\s]. *)
Definition isWhiteSpace (c : jschar) : bool :=
  ((9 <=? c) && (c <=? 13) || (c =? 32) || (c =? 160) || (c =? 5760)
   || (8192 <=? c) && (c <=? 8202) || (c =? 8232) || (c =? 8233)
   || (c =? 8239) || (c =? 8287) || (c =? 12288) || (c =? 65279))%N.

(** Line terminators, which the regular expression [.] does not match. *)
Definition isLineTerminator (c : jschar) : bool :=
  ((c =? 10) || (c =? 13) || (c =? 8232) || (c =? 8233))%N.

Fixpoint dropWhile {A} (p : A -> bool) (l : list A) : list A :=
  match l with
  | [] => []
  | x :: r => if p x then dropWhile p r else l
  end.

Definition trimStart (s : jsstring) : jsstring := dropWhile isWhiteSpace s.
Definition trimEnd (s : jsstring) : jsstring :=
  rev (dropWhile isWhiteSpace (rev s)).
Definition trim (s : jsstring) : jsstring := trimEnd (trimStart s).

Fixpoint startsWith (p s : jsstring) : bool :=
  match p, s with
  | [], _ => true
  | x :: p', y :: s' => (x =? y)%N && startsWith p' s'
  | _ :: _, [] => false
  end.

Definition endsWith (p s : jsstring) : bool := startsWith (rev p) (rev s).

Fixpoint includes (p s : jsstring) : bool :=
  startsWith p s || match s with [] => false | _ :: s' => includes p s' end.

(** [s.indexOf(p)]; [None] stands for -1. *)
Fixpoint indexOf (p s : jsstring) : option nat :=
  if startsWith p s then Some 0
  else match s with
       | [] => None
       | _ :: s' => option_map S (indexOf p s')
       end.

(** [s.substring(a)] and [s.substring(0, b)] for in-range arguments. *)
Definition substringFrom (a : nat) (s : jsstring) : jsstring := skipn a s.
Definition substringTo (b : nat) (s : jsstring) : jsstring := firstn b s.

(** [s.slice(0, n)]. *)
Definition slice0 (n : nat) (s : jsstring) : jsstring := firstn n s.

(** [s.split(c)] for a one-code-unit separator; the result is never empty. *)
Fixpoint splitChar (c : jschar) (s : jsstring) : list jsstring :=
  match s with
  | [] => [[]]
  | x :: r =>
    if (x =? c)%N then [] :: splitChar c r
    else match splitChar c r with
         | l :: ls => (x :: l) :: ls
         | [] => [[x]]
         end
  end.

(** [s.split(/[...]/)] for a character class given as a predicate. *)
Fixpoint splitClass (sep : jschar -> bool) (s : jsstring) : list jsstring :=
  match s with
  | [] => [[]]
  | x :: r =>
    if sep x then [] :: splitClass sep r
    else match splitClass sep r with
         | l :: ls => (x :: l) :: ls
         | [] => [[x]]
         end
  end.

(** [s.replace(pat, rep)] with a non-empty string pattern: the first
    occurrence only.  ([rep] contains no [$] in any use below.) *)
Fixpoint replaceFirst (pat rep s : jsstring) : jsstring :=
  if startsWith pat s then rep ++ skipn (length pat) s
  else match s with
       | [] => []
       | x :: r => x :: replaceFirst pat rep r
       end.

(** [s.replace(/pat/g, rep)] for a literal non-empty pattern: every
    occurrence, scanning left to right without overlap.  [skip] counts the
    code units of a matched occurrence that are still to be passed over. *)
Fixpoint replaceAllAux (pat rep : jsstring) (skip : nat) (s : jsstring)
  : jsstring :=
  match s with
  | [] => []
  | x :: r =>
    match skip with
    | S k => replaceAllAux pat rep k r
    | O =>
      if startsWith pat s
      then rep ++ replaceAllAux pat rep (length pat - 1) r
      else x :: replaceAllAux pat rep 0 r
    end
  end.

Definition replaceAll (pat rep s : jsstring) : jsstring :=
  replaceAllAux pat rep 0 s.

(** [s.split(sep)] for a non-empty string separator. *)
Fixpoint splitStrAux (sep : jsstring) (skip : nat) (s : jsstring)
  : list jsstring :=
  match s with
  | [] => [[]]
  | x :: r =>
    match skip with
    | S k => splitStrAux sep k r
    | O =>
      if startsWith sep s
      then [] :: splitStrAux sep (length sep - 1) r
      else match splitStrAux sep 0 r with
           | l :: ls => (x :: l) :: ls
           | [] => [[x]]
           end
    end
  end.

Definition splitStr (sep s : jsstring) : list jsstring := splitStrAux sep 0 s.

Fixpoint takeWhile {A} (p : A -> bool) (l : list A) : list A :=
  match l with
  | [] => []
  | x :: r => if p x then x :: takeWhile p r else []
  end.

(** [s.substring(a, b)] for [a <= b]. *)
Definition substring (a b : nat) (s : jsstring) : jsstring :=
  firstn (b - a) (skipn a s).

(** [arr.indexOf(x)] on an array of strings. *)
Fixpoint arrayIndexOf (x : jsstring) (l : list jsstring) : option nat :=
  match l with
  | [] => None
  | y :: r => if streq y x then Some 0 else option_map S (arrayIndexOf x r)
  end.

(** [arr.join(sep)]. *)
Fixpoint join (sep : jsstring) (l : list jsstring) : jsstring :=
  match l with
  | [] => []
  | [x] => x
  | x :: r => x ++ sep ++ join sep r
  end.

(** [s.replace(/\s+/g, rep)]: every run of blanks becomes [rep]. *)
Fixpoint collapseBlanks (rep : jsstring) (inRun : bool) (s : jsstring)
  : jsstring :=
  match s with
  | [] => []
  | c :: r =>
    if isWhiteSpace c then
      if inRun then collapseBlanks rep true r
      else rep ++ collapseBlanks rep true r
    else c :: collapseBlanks rep false r
  end.

(** After an opening parenthesis: the shortest run of non-terminator code
    units that is followed by a closing parenthesis, as matched by
    [(.*?)\)]. *)
Fixpoint lazyInner (s : jsstring) : option jsstring :=
  match s with
  | [] => None
  | c :: r =>
    if (c =? 41)%N then Some []
    else if isLineTerminator c then None
    else option_map (cons c) (lazyInner r)
  end.

Definition dq : jsstring := [34%N].
Definition sq : jsstring := [39%N].
Definition nl : jsstring := [10%N].

(** [String(n)] for an integer of magnitude below 10^21 (beyond that
    JavaScript switches to exponent notation). *)
Fixpoint digitsOf (d : Decimal.uint) : jsstring :=
  match d with
  | Decimal.Nil => []
  | Decimal.D0 d' => 48%N :: digitsOf d'
  | Decimal.D1 d' => 49%N :: digitsOf d'
  | Decimal.D2 d' => 50%N :: digitsOf d'
  | Decimal.D3 d' => 51%N :: digitsOf d'
  | Decimal.D4 d' => 52%N :: digitsOf d'
  | Decimal.D5 d' => 53%N :: digitsOf d'
  | Decimal.D6 d' => 54%N :: digitsOf d'
  | Decimal.D7 d' => 55%N :: digitsOf d'
  | Decimal.D8 d' => 56%N :: digitsOf d'
  | Decimal.D9 d' => 57%N :: digitsOf d'
  end.

Definition numberToString (n : Z) : jsstring :=
  match Z.to_int n with
  | Decimal.Pos d => digitsOf d
  | Decimal.Neg d => 45%N :: digitsOf d
  end.

Definition natToString (n : nat) : jsstring := numberToString (Z.of_nat n).

Definition isDigit (c : jschar) : bool := ((48 <=? c) && (c <=? 57))%N.

(* --------------------------------------------------------------------- *)
(** *** Objects and Maps with string keys (insertion ordered) *)

Definition table (V : Type) := list (jsstring * V).

Fixpoint get {V} (k : jsstring) (o : table V) : option V :=
  match o with
  | [] => None
  | (k', v) :: r => if streq k k' then Some v else get k r
  end.

Definition has {V} (k : jsstring) (o : table V) : bool :=
  match get k o with Some _ => true | None => false end.

(** [o[k] = v] / [m.set(k, v)]: an existing key keeps its position. *)
Fixpoint set {V} (k : jsstring) (v : V) (o : table V) : table V :=
  match o with
  | [] => [(k, v)]
  | (k', v') :: r =>
    if streq k k' then (k, v) :: r else (k', v') :: set k v r
  end.

(** [delete o[k]] / [m.delete(k)]. *)
Fixpoint delete {V} (k : jsstring) (o : table V) : table V :=
  match o with
  | [] => []
  | (k', v') :: r =>
    if streq k k' then delete k r else (k', v') :: delete k r
  end.

Definition keys {V} (o : table V) : list jsstring := map fst o.

(** [Object.assign(target, source)]. *)
Definition assign {V} (target source : table V) : table V :=
  fold_left (fun acc kv => set (fst kv) (snd kv) acc) source target.

(** An object literal: later duplicates of a key overwrite the value of the
    first occurrence, which keeps its place. *)
Definition literal {V} (entries : list (jsstring * V)) : table V :=
  assign [] entries.

(** The names of the members of [Object.prototype].  A plain object that
    has no own property of such a name answers [o[k]] with the member it
    inherits, which is a function (an object for [__proto__]) and not a
    string. *)
Definition prototypeNames : list jsstring :=
  map u ["constructor"; "toString"; "toLocaleString"; "valueOf";
         "hasOwnProperty"; "isPrototypeOf"; "propertyIsEnumerable";
         "__proto__"; "__defineGetter__"; "__defineSetter__";
         "__lookupGetter__"; "__lookupSetter__"]%string.

Definition inherited (k : jsstring) : bool :=
  existsb (streq k) prototypeNames.

(** [o[k] || dflt] for the string-valued tables of the source, read at a
    key that is an own property of [o] or is not an inherited name.  For
    an inherited name that [o] does not define, the source gets the member
    of the prototype, which this model of strings does not represent: the
    properties that read a table at a key taken from a text assume
    [inherited k = false] for it. *)
Definition getOr (k : jsstring) (o : table jsstring) (dflt : jsstring)
  : jsstring :=
  match get k o with
  | Some v => if truthy v then v else dflt
  | None => dflt
  end.

End JS.

Import JS.

(* ===================================================================== *)
(** ** visual-editor-format-parser.js *)
(* ===================================================================== *)

Module FormatParser.

(** Entries of the [elementMap] literal, in source order.  The keys
    "用户头像" and "角色头像" are written twice. *)
Definition elementMapEntries : list (jsstring * jsstring) :=
  [
    (u "用户消息", (u ".mes[is_user=" ++ dq ++ u "true" ++ dq ++ u "] .mes_block"));
    (u "角色消息", (u ".mes:not([is_user=" ++ dq ++ u "true" ++ dq ++ u "]) .mes_block"));
    (u "AI消息", (u ".mes[is_user=" ++ dq ++ u "false" ++ dq ++ u "] .mes_block"));
    (u "消息文本", u ".mes_text");
    (u "角色名称", u ".ch_name");
    (u "用户头像", (u ".mes[is_user=" ++ dq ++ u "true" ++ dq ++ u "] .avatar img"));
    (u "角色头像", (u ".mes:not([is_user=" ++ dq ++ u "true" ++ dq ++ u "]) .avatar img"));
    (u "头像", u ".avatar img");
    (u "时间戳", u ".timestamp");
    (u "输入框", u "#send_textarea");
    (u "发送按钮", u "#send_but");
    (u "输入区域", u "#send_form");
    (u "停止按钮", u "#stop_generate");
    (u "聊天区域", u "#chat");
    (u "顶部栏", u "#top-bar");
    (u "侧边栏", u ".drawer-content");
    (u "页面背景", u "body");
    (u "通用按钮", u ".menu_button");
    (u "滑动按钮", u ".swipe_left, .swipe_right");
    (u "弹窗", u ".popup");
    (u "滚动条", u "::-webkit-scrollbar");
    (u "滚动条滑块", u "::-webkit-scrollbar-thumb");
    (u "角色卡片", u ".character_select");
    (u "角色标签", u ".character_tag");
    (u "世界书条目", u ".world_entry");
    (u "条目标题", u ".world_entry_title");
    (u "条目内容", u ".world_entry_content");
    (u "用户头像", (u ".mes[is_user=" ++ dq ++ u "true" ++ dq ++ u "] .avatar"));
    (u "AI角色头像", (u ".mes[is_user=" ++ dq ++ u "false" ++ dq ++ u "] .avatar"));
    (u "角色头像", (u ".mes[is_user=" ++ dq ++ u "false" ++ dq ++ u "] .avatar"));
    (u "用户消息ID", (u ".mes[is_user=" ++ dq ++ u "true" ++ dq ++ u "] .mesIDDisplay"));
    (u "用户Token计数", (u ".mes[is_user=" ++ dq ++ u "true" ++ dq ++ u "] .tokenCounterDisplay"));
    (u "AI消息ID", (u ".mes[is_user=" ++ dq ++ u "false" ++ dq ++ u "] .mesIDDisplay"));
    (u "AI计时器", (u ".mes[is_user=" ++ dq ++ u "false" ++ dq ++ u "] .mes_timer"));
    (u "AIToken计数", (u ".mes[is_user=" ++ dq ++ u "false" ++ dq ++ u "] .tokenCounterDisplay"));
    (u "AI响应配置", u "#leftNavDrawerIcon");
    (u "角色管理图标", u "#rightNavDrawerIcon");
    (u "扩展菜单图标", u "#extensionsMenuIcon");
    (u "设置图标", u "#settingsIcon")
  ].

Definition elementMap : table jsstring :=
  Eval vm_compute in literal elementMapEntries.

(** [for (const [cn, selector] of Object.entries(this.elementMap))
      this.reverseElementMap[selector] = cn;] *)
Definition buildReverseElementMap (m : table jsstring) : table jsstring :=
  fold_left (fun acc e => set (snd e) (fst e) acc) m [].

Definition reverseElementMap : table jsstring :=
  Eval vm_compute in buildReverseElementMap elementMap.

(** Entries of the [propertyMap] literal, in source order. *)
Definition propertyMapEntries : list (jsstring * jsstring) :=
  [
    (u "背景颜色", u "background-color");
    (u "背景", u "background");
    (u "背景图片", u "background-image");
    (u "背景大小", u "background-size");
    (u "背景位置", u "background-position");
    (u "背景重复", u "background-repeat");
    (u "背景附着", u "background-attachment");
    (u "文字颜色", u "color");
    (u "透明度", u "opacity");
    (u "图标颜色", u "icon-color");
    (u "图标大小", u "icon-size");
    (u "布局模式", u "avatar-layout-mode");
    (u "头像位置", u "avatar-position");
    (u "水平偏移", u "avatar-offset-x");
    (u "垂直偏移", u "avatar-offset-y");
    (u "旋转角度", u "avatar-rotate");
    (u "信息布局模式", u "info-layout-mode");
    (u "信息位置", u "info-position");
    (u "信息水平偏移", u "info-offset-x");
    (u "信息垂直偏移", u "info-offset-y");
    (u "信息旋转角度", u "info-rotate");
    (u "排列方向", u "info-direction");
    (u "边框", u "border");
    (u "圆角", u "border-radius");
    (u "边框颜色", u "border-color");
    (u "边框宽度", u "border-width");
    (u "边框样式", u "border-style");
    (u "内边距", u "padding");
    (u "外边距", u "margin");
    (u "上边距", u "margin-top");
    (u "下边距", u "margin-bottom");
    (u "左边距", u "margin-left");
    (u "右边距", u "margin-right");
    (u "上内边距", u "padding-top");
    (u "下内边距", u "padding-bottom");
    (u "左内边距", u "padding-left");
    (u "右内边距", u "padding-right");
    (u "字体大小", u "font-size");
    (u "字体", u "font-family");
    (u "字体粗细", u "font-weight");
    (u "行高", u "line-height");
    (u "字间距", u "letter-spacing");
    (u "文字对齐", u "text-align");
    (u "文字装饰", u "text-decoration");
    (u "文字变换", u "text-transform");
    (u "宽度", u "width");
    (u "高度", u "height");
    (u "最大宽度", u "max-width");
    (u "最小宽度", u "min-width");
    (u "最大高度", u "max-height");
    (u "最小高度", u "min-height");
    (u "阴影", u "box-shadow");
    (u "文字阴影", u "text-shadow");
    (u "启用阴影", u "shadow-enabled");
    (u "阴影水平偏移", u "shadow-x");
    (u "阴影垂直偏移", u "shadow-y");
    (u "阴影模糊", u "shadow-blur");
    (u "阴影扩散", u "shadow-spread");
    (u "阴影颜色", u "shadow-color");
    (u "阴影透明度", u "shadow-opacity");
    (u "滤镜", u "filter");
    (u "模糊", u "blur");
    (u "亮度", u "brightness");
    (u "对比度", u "contrast");
    (u "灰度", u "grayscale");
    (u "色相旋转", u "hue-rotate");
    (u "饱和度", u "saturate");
    (u "反转", u "invert");
    (u "褐色", u "sepia");
    (u "过渡效果", u "transition");
    (u "过渡", u "transition");
    (u "动画", u "animation");
    (u "变换", u "transform");
    (u "显示方式", u "display");
    (u "定位", u "position");
    (u "层级", u "z-index");
    (u "浮动", u "float");
    (u "溢出", u "overflow");
    (u "溢出水平", u "overflow-x");
    (u "溢出垂直", u "overflow-y");
    (u "位置", u "position");
    (u "顶部", u "top");
    (u "底部", u "bottom");
    (u "左边", u "left");
    (u "右边", u "right");
    (u "左", u "left");
    (u "右", u "right");
    (u "上", u "top");
    (u "下", u "bottom");
    (u "弹性方向", u "flex-direction");
    (u "弹性换行", u "flex-wrap");
    (u "弹性流", u "flex-flow");
    (u "主轴对齐", u "justify-content");
    (u "交叉轴对齐", u "align-items");
    (u "内容对齐", u "align-content");
    (u "弹性增长", u "flex-grow");
    (u "弹性收缩", u "flex-shrink");
    (u "弹性基础", u "flex-basis");
    (u "弹性", u "flex");
    (u "自身对齐", u "align-self");
    (u "顺序", u "order");
    (u "间距", u "gap");
    (u "行间距", u "row-gap");
    (u "列间距", u "column-gap");
    (u "网格模板列", u "grid-template-columns");
    (u "网格模板行", u "grid-template-rows");
    (u "网格模板区域", u "grid-template-areas");
    (u "网格模板", u "grid-template");
    (u "网格列间距", u "column-gap");
    (u "网格行间距", u "row-gap");
    (u "网格间距", u "gap");
    (u "网格列开始", u "grid-column-start");
    (u "网格列结束", u "grid-column-end");
    (u "网格列", u "grid-column");
    (u "网格行开始", u "grid-row-start");
    (u "网格行结束", u "grid-row-end");
    (u "网格行", u "grid-row");
    (u "网格区域", u "grid-area");
    (u "网格自动列", u "grid-auto-columns");
    (u "网格自动行", u "grid-auto-rows");
    (u "网格自动流", u "grid-auto-flow");
    (u "变换原点", u "transform-origin");
    (u "变换风格", u "transform-style");
    (u "透视", u "perspective");
    (u "透视原点", u "perspective-origin");
    (u "背面可见", u "backface-visibility");
    (u "动画名称", u "animation-name");
    (u "动画持续时间", u "animation-duration");
    (u "动画时间函数", u "animation-timing-function");
    (u "动画延迟", u "animation-delay");
    (u "动画次数", u "animation-iteration-count");
    (u "动画方向", u "animation-direction");
    (u "动画填充模式", u "animation-fill-mode");
    (u "动画播放状态", u "animation-play-state");
    (u "过渡属性", u "transition-property");
    (u "过渡持续时间", u "transition-duration");
    (u "过渡时间函数", u "transition-timing-function");
    (u "过渡延迟", u "transition-delay");
    (u "亮度", u "brightness");
    (u "对比度", u "contrast");
    (u "灰度", u "grayscale");
    (u "色相旋转", u "hue-rotate");
    (u "色相", u "hue-rotate");
    (u "饱和度", u "saturate");
    (u "反转", u "invert");
    (u "褐色", u "sepia");
    (u "模糊度", u "blur");
    (u "投影", u "drop-shadow");
    (u "混合模式", u "mix-blend-mode");
    (u "背景混合模式", u "background-blend-mode");
    (u "裁剪路径", u "clip-path");
    (u "裁剪", u "clip");
    (u "蒙版", u "mask");
    (u "蒙版图片", u "mask-image");
    (u "蒙版大小", u "mask-size");
    (u "蒙版位置", u "mask-position");
    (u "蒙版重复", u "mask-repeat");
    (u "滚动行为", u "scroll-behavior");
    (u "滚动捕捉类型", u "scroll-snap-type");
    (u "滚动捕捉对齐", u "scroll-snap-align");
    (u "滚动边距", u "scroll-margin");
    (u "滚动内边距", u "scroll-padding");
    (u "形状外部", u "shape-outside");
    (u "形状边距", u "shape-margin");
    (u "形状图片阈值", u "shape-image-threshold");
    (u "指针事件", u "pointer-events");
    (u "触摸动作", u "touch-action");
    (u "用户拖拽", u "user-drag");
    (u "用户修改", u "user-modify");
    (u "文本溢出", u "text-overflow");
    (u "单词换行", u "word-wrap");
    (u "单词断行", u "word-break");
    (u "连字符", u "hyphens");
    (u "文本方向", u "writing-mode");
    (u "文本阴影模糊", u "text-shadow-blur");
    (u "表格布局", u "table-layout");
    (u "边框合并", u "border-collapse");
    (u "边框间距", u "border-spacing");
    (u "空单元格", u "empty-cells");
    (u "标题位置", u "caption-side");
    (u "列表样式", u "list-style");
    (u "列表样式类型", u "list-style-type");
    (u "列表样式位置", u "list-style-position");
    (u "列表样式图片", u "list-style-image");
    (u "是否超出父元素显示", u "decoration-overflow-mode");
    (u "鼠标样式", u "cursor");
    (u "用户选择", u "user-select");
    (u "内容", u "content");
    (u "模糊效果", u "backdrop-filter");
    (u "计数器重置", u "counter-reset");
    (u "计数器增量", u "counter-increment");
    (u "引用", u "quotes");
    (u "孤行控制", u "orphans");
    (u "寡行控制", u "widows");
    (u "分页前", u "page-break-before");
    (u "分页后", u "page-break-after");
    (u "分页内", u "page-break-inside")
  ].

Definition propertyMap : table jsstring :=
  Eval vm_compute in literal propertyMapEntries.

(** [o[k]] used as a condition. *)
Definition lookupTruthy (k : jsstring) (o : table jsstring) : bool :=
  match get k o with Some v => truthy v | None => false end.

(** [for (const [cn, prop] of Object.entries(this.propertyMap))
      if (!this.reversePropertyMap[prop]) this.reversePropertyMap[prop] = cn;] *)
Definition buildReversePropertyMap (m : table jsstring) : table jsstring :=
  fold_left
    (fun acc e =>
       if negb (lookupTruthy (snd e) acc) then set (snd e) (fst e) acc
       else acc)
    m [].

Definition reversePropertyMap : table jsstring :=
  Eval vm_compute in buildReversePropertyMap propertyMap.

Definition presetValuesEntries : list (jsstring * jsstring) :=
  [
    (u "透明", u "transparent");
    (u "无", u "none");
    (u "包含", u "contain");
    (u "覆盖", u "cover");
    (u "自动", u "auto");
    (u "相对定位", u "relative");
    (u "绝对定位", u "absolute");
    (u "固定定位", u "fixed");
    (u "粘性定位", u "sticky");
    (u "静态定位", u "static");
    (u "块级", u "block");
    (u "行内", u "inline");
    (u "行内块", u "inline-block");
    (u "弹性盒", u "flex");
    (u "网格", u "grid");
    (u "表格", u "table");
    (u "表格行", u "table-row");
    (u "表格单元格", u "table-cell");
    (u "启用", u "enabled");
    (u "禁用", u "disabled");
    (u "毛玻璃", u "blur(8px)");
    (u "快速过渡", u "all 0.2s ease");
    (u "标准过渡", u "all 0.3s ease");
    (u "慢速过渡", u "all 0.5s ease")
  ].

Definition presetValues : table jsstring :=
  Eval vm_compute in literal presetValuesEntries.

(** Keys of [functionPatterns]; the pattern of key [k] is
    [/^k\((.*?)\)$/]. *)
Definition functionPatternNames : list jsstring :=
  Eval vm_compute in
  map u ["缩放"; "旋转"; "移动"; "倾斜"; "矩阵";
         "模糊"; "投影"; "亮度"; "对比度"; "饱和度"; "色相"; "色相旋转";
         "灰度"; "反转"; "褐色";
         "渐变"; "线性渐变"; "径向渐变"; "圆锥渐变";
         "计算"; "最小值"; "最大值"; "夹值"; "变量"]%string.

Definition getSelector (elementName : jsstring) : jsstring :=
  getOr elementName elementMap elementName.

Definition getElementName (selector : jsstring) : jsstring :=
  getOr selector reverseElementMap selector.

Definition getProperty (propName : jsstring) : jsstring :=
  getOr propName propertyMap propName.

Definition getPropertyName (prop : jsstring) : jsstring :=
  getOr prop reversePropertyMap prop.

(* --------------------------------------------------------------------- *)
(** *** parseValue and its helpers *)

Definition isQuote (c : jschar) : bool := ((c =? 34) || (c =? 39))%N.

(** [value.replace(/^["']|["']$/g, '')]: one leading and one trailing quote
    are removed. *)
Definition stripQuotes (s : jsstring) : jsstring :=
  let s1 := match s with
            | c :: r => if isQuote c then r else s
            | [] => []
            end in
  match rev s1 with
  | c :: r => if isQuote c then rev r else s1
  | [] => s1
  end.

(** [value.match(/^name\((.*?)\)$/)], returning capture group 1. *)
Definition matchCall (name value : jsstring) : option jsstring :=
  if startsWith (name ++ [40%N]) value then
    match rev (skipn (length name + 1) value) with
    | c :: r =>
      if (c =? 41)%N && forallb (fun x => negb (isLineTerminator x)) r
      then Some (rev r) else None
    | [] => None
    end
  else None.

(** The units accepted by the test in [parseValue]. *)
Definition gateUnits : list jsstring :=
  Eval vm_compute in map u ["像素"; "百分比"; "倍"; "度"; "字高"]%string.

(** [/^\d+(?:\.\d+)?(?:像素|百分比|倍|度|字高)$/.test(value)] *)
Definition isUnitValue (value : jsstring) : bool :=
  let ds := takeWhile isDigit value in
  let r := dropWhile isDigit value in
  truthy ds &&
  (existsb (streq r) gateUnits ||
   match r with
   | c :: r' =>
     (c =? 46)%N && truthy (takeWhile isDigit r')
     && existsb (streq (dropWhile isDigit r')) gateUnits
   | [] => false
   end).

Definition unitMapEntries : list (jsstring * jsstring) :=
  [
    (u "像素", u "px");
    (u "字高", u "em");
    (u "根字高", u "rem");
    (u "字符宽", u "ch");
    (u "字符高", u "ex");
    (u "英寸", u "in");
    (u "厘米", u "cm");
    (u "毫米", u "mm");
    (u "点", u "pt");
    (u "派卡", u "pc");
    (u "视口宽", u "vw");
    (u "视口高", u "vh");
    (u "视口最小", u "vmin");
    (u "视口最大", u "vmax");
    (u "百分比", u "%");
    (u "倍", []);
    (u "分数", u "fr");
    (u "度", u "deg");
    (u "弧度", u "rad");
    (u "梯度", u "grad");
    (u "圈", u "turn");
    (u "秒", u "s");
    (u "毫秒", u "ms");
    (u "赫兹", u "Hz");
    (u "千赫兹", u "kHz");
    (u "每英寸点数", u "dpi");
    (u "每厘米点数", u "dpcm");
    (u "每像素点数", u "dppx")
  ].

Definition unitMap : table jsstring :=
  Eval vm_compute in literal unitMapEntries.

Fixpoint parseUnitValueIn (m : table jsstring) (value : jsstring)
  : jsstring :=
  match m with
  | [] => value
  | (cnUnit, cssUnit) :: r =>
    if endsWith cnUnit value then replaceFirst cnUnit [] value ++ cssUnit
    else parseUnitValueIn r value
  end.

Definition parseUnitValue (value : jsstring) : jsstring :=
  parseUnitValueIn unitMap value.

Definition isHexDigit (c : jschar) : bool :=
  (isDigit c || (97 <=? c) && (c <=? 102) || (65 <=? c) && (c <=? 70))%N.

Definition hexDigitValue (c : jschar) : N :=
  if isDigit c then (c - 48)%N
  else if (97 <=? c)%N then (c - 87)%N else (c - 55)%N.

(** [parseInt(s, 16)] on a string without leading blank, sign or [0x]
    prefix: the longest prefix of hexadecimal digits, [None] (NaN) when it is
    empty. *)
Definition parseIntHex (s : jsstring) : option N :=
  match takeWhile isHexDigit s with
  | [] => None
  | ds => Some (fold_left (fun acc c => (acc * 16 + hexDigitValue c)%N) ds 0%N)
  end.

Definition showNumber (n : option N) : jsstring :=
  match n with
  | Some k => numberToString (Z.of_N k)
  | None => u "NaN"
  end.

(** [/^#[0-9a-fA-F]{3,6}$/] *)
Definition isHexColor (value : jsstring) : bool :=
  match value with
  | c :: hs =>
    (c =? 35)%N && forallb isHexDigit hs
    && (3 <=? length hs)%nat && (length hs <=? 6)%nat
  | [] => false
  end.

Definition hexToRgb (hex0 : jsstring) : jsstring :=
  let hex1 := replaceFirst (u "#") [] hex0 in
  let hex :=
    match hex1 with
    | [a; b; c] => [a; a; b; b; c; c]
    | _ => hex1
    end in
  let r := parseIntHex (substring 0 2 hex) in
  let g := parseIntHex (substring 2 4 hex) in
  let b := parseIntHex (substring 4 6 hex) in
  u "rgb(" ++ showNumber r ++ u "," ++ showNumber g ++ u ","
    ++ showNumber b ++ u ")".

Definition layoutModeMap : table jsstring :=
  Eval vm_compute in literal
  [(u "无", u "none"); (u "无布局", u "none");
   (u "挤压文字模式", u "squeeze"); (u "挤压模式", u "squeeze");
   (u "悬浮模式", u "overlay"); (u "覆盖模式", u "overlay")].

Definition infoLayoutModeMap : table jsstring :=
  Eval vm_compute in literal
  [(u "无", u "none"); (u "保持原位置", u "none");
   (u "挤压文字模式", u "squeeze"); (u "挤压模式", u "squeeze");
   (u "影响布局", u "squeeze");
   (u "悬浮模式", u "overlay"); (u "覆盖在上层", u "overlay");
   (u "覆盖模式", u "overlay")].

Definition directionMap : table jsstring :=
  Eval vm_compute in literal
  [(u "竖列", u "column"); (u "上下排列", u "column");
   (u "垂直排列", u "column");
   (u "横列", u "row"); (u "左右排列", u "row"); (u "水平排列", u "row")].

Definition positionMap : table jsstring :=
  Eval vm_compute in literal
  [(u "顶部左", u "top-left"); (u "顶部中", u "top-center");
   (u "顶部右", u "top-right");
   (u "左边上", u "left-top"); (u "左边中", u "left-middle");
   (u "左边下", u "left-bottom");
   (u "右边上", u "right-top"); (u "右边中", u "right-middle");
   (u "右边下", u "right-bottom");
   (u "底部左", u "bottom-left"); (u "底部中", u "bottom-center");
   (u "底部右", u "bottom-right");
   (u "顶左", u "top-left"); (u "顶中", u "top-center");
   (u "顶右", u "top-right");
   (u "左上", u "left-top"); (u "左中", u "left-middle");
   (u "左下", u "left-bottom");
   (u "右上", u "right-top"); (u "右中", u "right-middle");
   (u "右下", u "right-bottom");
   (u "底左", u "bottom-left"); (u "底中", u "bottom-center");
   (u "底右", u "bottom-right")].

(** The three gradient parsers differ in the emitted function name and in
    what is returned when [params] is not of the form "a 到 b":
    [parseGradient] returns [params] itself, the other two wrap it. *)
Definition parseGradientWith (pv : jsstring -> jsstring -> jsstring)
  (fn : jsstring) (wrapOtherwise : bool) (params : jsstring) : jsstring :=
  match splitStr (u " 到 ") params with
  | [p0; p1] =>
    let from := pv p0 (u "background") in
    let to := pv p1 (u "background") in
    fn ++ u "(" ++ from ++ u ", " ++ to ++ u ")"
  | _ => if wrapOtherwise then fn ++ u "(" ++ params ++ u ")" else params
  end.

Definition call (fn params : jsstring) : jsstring :=
  fn ++ u "(" ++ params ++ u ")".

Definition parseFunctionValueWith (pv : jsstring -> jsstring -> jsstring)
  (fnName params : jsstring) : jsstring :=
  if streq fnName (u "缩放") then call (u "scale") params
  else if streq fnName (u "旋转") then call (u "rotate") (parseUnitValue params)
  else if streq fnName (u "移动") then call (u "translate") params
  else if streq fnName (u "倾斜") then call (u "skew") params
  else if streq fnName (u "矩阵") then call (u "matrix") params
  else if streq fnName (u "模糊") then call (u "blur") (parseUnitValue params)
  else if streq fnName (u "投影") then call (u "drop-shadow") params
  else if streq fnName (u "亮度") then call (u "brightness") params
  else if streq fnName (u "对比度") then call (u "contrast") params
  else if streq fnName (u "饱和度") then call (u "saturate") params
  else if streq fnName (u "色相") || streq fnName (u "色相旋转")
       then call (u "hue-rotate") (parseUnitValue params)
  else if streq fnName (u "灰度") then call (u "grayscale") params
  else if streq fnName (u "反转") then call (u "invert") params
  else if streq fnName (u "褐色") then call (u "sepia") params
  else if streq fnName (u "渐变") || streq fnName (u "线性渐变")
       then parseGradientWith pv (u "linear-gradient") false params
  else if streq fnName (u "径向渐变")
       then parseGradientWith pv (u "radial-gradient") true params
  else if streq fnName (u "圆锥渐变")
       then parseGradientWith pv (u "conic-gradient") true params
  else if streq fnName (u "计算") then call (u "calc") params
  else if streq fnName (u "最小值") then call (u "min") params
  else if streq fnName (u "最大值") then call (u "max") params
  else if streq fnName (u "夹值") then call (u "clamp") params
  else if streq fnName (u "变量") then call (u "var") params
  else params.

(** The first function pattern, in table order, that matches [value]. *)
Fixpoint firstCall (names : list jsstring) (value : jsstring)
  : option (jsstring * jsstring) :=
  match names with
  | [] => None
  | n :: r =>
    match matchCall n value with
    | Some params => Some (n, params)
    | None => firstCall r value
    end
  end.

(** The part of [parseValue] after the function patterns. *)
Definition parsePlainValue (value property : jsstring) : jsstring :=
  if isUnitValue value then parseUnitValue value
  else if startsWith (u "rgb(") value || startsWith (u "rgba(") value
       then value
  else if isHexColor value then hexToRgb value
  else if endsWith (u "-enabled") property
       then (if streq value (u "启用") then u "enabled" else u "disabled")
  else if streq property (u "avatar-layout-mode")
       then getOr value layoutModeMap value
  else if streq property (u "info-layout-mode")
       then getOr value infoLayoutModeMap value
  else if streq property (u "info-direction")
       then getOr value directionMap value
  else if streq property (u "info-position")
       then getOr value positionMap value
  else if streq property (u "avatar-position")
       then getOr value positionMap value
  else value.

(** [parseValue] calls itself through the gradient parsers, on arguments
    strictly shorter than [value]; [fuel] bounds the nesting depth. *)
Fixpoint parseValueFuel (fuel : nat) (value0 property : jsstring)
  : jsstring :=
  if negb (truthy property) then value0
  else
    let value := stripQuotes value0 in
    if lookupTruthy value presetValues then getOr value presetValues value
    else
      match firstCall functionPatternNames value with
      | Some (fnName, params) =>
        match fuel with
        | O => params
        | S fuel' =>
          parseFunctionValueWith (parseValueFuel fuel') fnName params
        end
      | None => parsePlainValue value property
      end.

Definition parseValue (value property : jsstring) : jsstring :=
  parseValueFuel (length value) value property.

Definition parseFunctionValue (fnName params : jsstring) : jsstring :=
  parseFunctionValueWith parseValue fnName params.


(* --------------------------------------------------------------------- *)
(** *** formatValue *)

Definition reverseModeMap : table jsstring :=
  Eval vm_compute in literal
  [(u "none", u "无"); (u "squeeze", u "挤压文字模式");
   (u "overlay", u "悬浮模式")].

Definition reverseDirectionMap : table jsstring :=
  Eval vm_compute in literal [(u "column", u "竖列"); (u "row", u "横列")].

Definition reversePositionMap : table jsstring :=
  Eval vm_compute in literal
  [(u "top-left", u "顶部左"); (u "top-center", u "顶部中");
   (u "top-right", u "顶部右");
   (u "left-top", u "左边上"); (u "left-middle", u "左边中");
   (u "left-bottom", u "左边下");
   (u "right-top", u "右边上"); (u "right-middle", u "右边中");
   (u "right-bottom", u "右边下");
   (u "bottom-left", u "底部左"); (u "bottom-center", u "底部中");
   (u "bottom-right", u "底部右")].

(** The unit alternatives of the pattern in [formatValue]. *)
Definition cssUnits : list jsstring :=
  Eval vm_compute in
  map u ["px"; "%"; "deg"; "rad"; "grad"; "turn"; "ms"; "s"; "em"; "rem";
         "ch"; "ex"; "in"; "cm"; "mm"; "pt"; "pc"; "vh"; "vw"; "vmin";
         "vmax"; "fr"; "Hz"; "kHz"; "dpi"; "dpcm"; "dppx"]%string.

(** The [cnUnit] literal of [formatValue]. *)
Definition cnUnitMap : table jsstring :=
  Eval vm_compute in literal
  [(u "px", u "像素"); (u "em", u "字高"); (u "rem", u "根字高");
   (u "ch", u "字符宽"); (u "ex", u "字符高"); (u "in", u "英寸");
   (u "cm", u "厘米"); (u "mm", u "毫米"); (u "pt", u "点");
   (u "pc", u "派卡");
   (u "vw", u "视口宽"); (u "vh", u "视口高"); (u "vmin", u "视口最小");
   (u "vmax", u "视口最大");
   (u "%", u "百分比"); (u "fr", u "分数");
   (u "deg", u "度"); (u "rad", u "弧度"); (u "grad", u "梯度");
   (u "turn", u "圈");
   (u "s", u "秒"); (u "ms", u "毫秒");
   (u "Hz", u "赫兹"); (u "kHz", u "千赫兹");
   (u "dpi", u "每英寸点数"); (u "dpcm", u "每厘米点数");
   (u "dppx", u "每像素点数")].

(** [value.match(/^(\d+(?:\.\d+)?)(px|%|...)$/)], returning groups 1, 2. *)
Definition unitMatch (value : jsstring) : option (jsstring * jsstring) :=
  let ds := takeWhile isDigit value in
  let r := dropWhile isDigit value in
  if negb (truthy ds) then None
  else if existsb (streq r) cssUnits then Some (ds, r)
  else
    match r with
    | c :: r' =>
      let ds2 := takeWhile isDigit r' in
      let r2 := dropWhile isDigit r' in
      if (c =? 46)%N && truthy ds2 && existsb (streq r2) cssUnits
      then Some (ds ++ [c] ++ ds2, r2)
      else None
    | [] => None
    end.

(** [value.match(/name\((.*?)\)/)], returning capture group 1 of the
    leftmost match. *)
Fixpoint searchCall (name s : jsstring) : option jsstring :=
  match (if startsWith (name ++ [40%N]) s
         then lazyInner (skipn (length name + 1) s) else None) with
  | Some inner => Some inner
  | None =>
    match s with
    | [] => None
    | _ :: r => searchCall name r
    end
  end.

Definition formatGradient (value : jsstring) : jsstring :=
  match searchCall (u "linear-gradient") value with
  | Some inner =>
    let params := map trim (splitChar 44%N inner) in
    if (2 <=? length params)%nat
    then u "渐变(" ++ hd [] params ++ u " 到 " ++ last params [] ++ u ")"
    else value
  | None => value
  end.

Definition bgSizeMap : table jsstring :=
  Eval vm_compute in literal
  [(u "contain", u "包含"); (u "cover", u "覆盖"); (u "auto", u "自动")].

Definition formatPositionMap : table jsstring :=
  Eval vm_compute in literal
  [(u "relative", u "相对定位"); (u "absolute", u "绝对定位");
   (u "fixed", u "固定定位"); (u "sticky", u "粘性定位");
   (u "static", u "静态定位")].

Definition displayMap : table jsstring :=
  Eval vm_compute in literal
  [(u "block", u "块级"); (u "inline", u "行内");
   (u "inline-block", u "行内块"); (u "flex", u "弹性盒");
   (u "grid", u "网格"); (u "none", u "无")].

Definition formatValue (value property : jsstring) : jsstring :=
  if negb (truthy property) then value
  else if streq value (u "transparent") then u "透明"
  else if streq value (u "none") then u "无"
  else if streq property (u "shadow-enabled")
          || streq property (u "button-shadow-enabled")
          || streq property (u "icon-shadow-enabled")
       then (if streq value (u "enabled") then u "启用" else u "禁用")
  else if streq property (u "avatar-layout-mode")
       then getOr value reverseModeMap value
  else if streq property (u "info-layout-mode")
       then getOr value reverseModeMap value
  else if streq property (u "info-direction")
       then getOr value reverseDirectionMap value
  else if streq property (u "info-position")
       then getOr value reversePositionMap value
  else if streq property (u "avatar-position")
       then getOr value reversePositionMap value
  else if startsWith (u "rgb(") value || startsWith (u "rgba(") value
       then value
  else if isHexColor value then hexToRgb value
  else
    match unitMatch value with
    | Some (num, unit) => num ++ getOr unit cnUnitMap unit
    | None =>
      if includes (u "gradient") value then formatGradient value
      else if includes (u "drop-shadow") value
           then replaceFirst (u "drop-shadow") (u "投影") value
      else if lookupTruthy value bgSizeMap then getOr value bgSizeMap value
      else if lookupTruthy value formatPositionMap
           then getOr value formatPositionMap value
      else if lookupTruthy value displayMap then getOr value displayMap value
      else value
    end.

(* --------------------------------------------------------------------- *)
(** *** Rule maps, categories and generateChineseFormat *)

(** A [PropertyMap] is an object, a [RuleMap] a [Map] from selectors. *)
Definition PropertyMap := table jsstring.
Definition RuleMap := table PropertyMap.

Inductive category := message | input | layout | controls | icons | other.

Definition category_eqb (a b : category) : bool :=
  match a, b with
  | message, message | input, input | layout, layout
  | controls, controls | icons, icons | other, other => true
  | _, _ => false
  end.

(** Key order of the [categories] object of [categorizeStyles]. *)
Definition categoryOrder : list category :=
  [message; input; layout; controls; icons; other].

Definition detectCategory (selector : jsstring) : category :=
  if includes (u ".mes") selector || includes (u ".avatar") selector
     || includes (u ".ch_name") selector || includes (u ".timestamp") selector
  then message
  else if includes (u "#send") selector || includes (u "textarea") selector
          || includes (u "#stop") selector
  then input
  else if includes (u "#chat") selector || includes (u "#top-bar") selector
          || includes (u ".drawer") selector || streq selector (u "body")
  then layout
  else if includes (u "button") selector || includes (u ".swipe") selector
          || includes (u "scrollbar") selector
  then controls
  else if includes (u "NavDrawerIcon") selector || includes (u "Icon") selector
  then icons
  else other.

Definition getCategoryTitle (c : category) : jsstring :=
  match c with
  | message => u "消息样式"
  | input => u "输入样式"
  | layout => u "布局样式"
  | controls => u "控件样式"
  | icons => u "图标样式"
  | other => u "其他样式"
  end.

(** The rules pushed to [categories[c]], in iteration order of [styles]. *)
Definition rulesOf (c : category) (styles : RuleMap) : RuleMap :=
  filter (fun r => category_eqb (detectCategory (fst r)) c) styles.

Definition categorizeStyles (styles : RuleMap) : list (category * RuleMap) :=
  map (fun c => (c, rulesOf c styles)) categoryOrder.

(** The name written in front of a block. *)
Definition blockName (selector : jsstring) : jsstring :=
  if negb (streq selector (u "#leftNavDrawerIcon"))
     && negb (streq selector (u "#rightNavDrawerIcon"))
  then getElementName selector
  else selector.

(** The lines written for a rule, without their line feed: the header
    [`${elementName} {`], a declaration [`  ${cnProp}: ${cnValue}`]. *)
Definition headerLine (selector : jsstring) : jsstring :=
  blockName selector ++ u " {".

Definition declarationLine (decl : jsstring * jsstring) : jsstring :=
  u "  " ++ getPropertyName (fst decl) ++ u ": "
    ++ formatValue (snd decl) (fst decl).

Definition declarationText (decl : jsstring * jsstring) : jsstring :=
  declarationLine decl ++ nl.

Definition ruleText (rule : jsstring * PropertyMap) : jsstring :=
  (headerLine (fst rule) ++ nl)
    ++ concat (map declarationText (snd rule)) ++ (u "}" ++ nl).

Definition categoryText (cr : category * RuleMap) : jsstring :=
  match snd cr with
  | [] => []
  | rules =>
    (u "# " ++ getCategoryTitle (fst cr) ++ nl)
      ++ concat (map ruleText rules) ++ nl
  end.

Definition generateChineseFormat (styles : RuleMap) : jsstring :=
  match styles with
  | [] => []
  | _ => trim (concat (map categoryText (categorizeStyles styles)))
  end.

(* --------------------------------------------------------------------- *)
(** *** _actualParseChineseFormat *)

(** Loop variables of the parser; [currentElement] is [null] or a
    string. *)
Record pstate := mkPstate {
  styles : RuleMap;
  currentElement : option jsstring;
  currentStyles : PropertyMap
}.

Definition initialState : pstate := mkPstate [] None [].

(** [currentElement && Object.keys(currentStyles).length > 0] *)
Definition canSave (st : pstate) : bool :=
  match currentElement st, currentStyles st with
  | Some e, _ :: _ => truthy e
  | _, _ => false
  end.

(** [styles.set(currentElement, { ...currentStyles })] under that test. *)
Definition saveCurrent (st : pstate) : RuleMap :=
  match currentElement st with
  | Some e => if canSave st then set e (currentStyles st) (styles st)
              else styles st
  | None => styles st
  end.

(** [lines.indexOf('}', lines.indexOf(line)) !== -1]: a negative start
    index counts from the end of the array, so when the trimmed line is not
    itself an element of [lines] only the last element is inspected. *)
Definition blockEndFound (lines : list jsstring) (line : jsstring) : bool :=
  let from := match arrayIndexOf line lines with
              | Some i => i
              | None => length lines - 1
              end in
  match arrayIndexOf (u "}") (skipn from lines) with
  | Some _ => true
  | None => false
  end.

(** The test that skips blank lines, comments and marked lines. *)
Definition isSkippedLine (line : jsstring) : bool :=
  negb (truthy line)
  || startsWith (u "#") line
  || startsWith (u "//") line
  || startsWith (u "/*") line
  || includes (u "✨") line
  || includes (u "视觉样式配置") line
  || includes (u "undefined") line.

(** The property-line branch. *)
Definition parseDeclarationLine (st : pstate) (line : jsstring) : pstate :=
  match indexOf (u ":") line with
  | None => st
  | Some colonIndex =>
    let propName := trim (substringTo colonIndex line) in
    let propValue := trim (substringFrom (colonIndex + 1) line) in
    if negb (truthy propName) || negb (truthy propValue) then st
    else
      let cssProp := getProperty propName in
      if truthy cssProp then
        let cssValue := parseValue propValue cssProp in
        mkPstate (styles st) (currentElement st)
                 (set cssProp cssValue (currentStyles st))
      else st
  end.

(** One iteration of the loop over [lines]. *)
Definition parseLine (lines : list jsstring) (st : pstate)
  (rawLine : jsstring) : pstate :=
  let line := trim rawLine in
  if startsWith (u "@") line && blockEndFound lines line then st
  else if isSkippedLine line then st
  else if endsWith (u "{") line then
    let elementName := trim (replaceFirst (u "{") [] line) in
    mkPstate (saveCurrent st) (Some (getSelector elementName)) []
  else if streq line (u "}") then
    mkPstate (saveCurrent st) None []
  else if includes (u ":") line
          && match currentElement st with
             | Some e => truthy e
             | None => false
             end
  then parseDeclarationLine st line
  else st.

Definition parseLines (lines : list jsstring) : pstate :=
  fold_left (parseLine lines) lines initialState.

Definition _actualParseChineseFormat (input : jsstring) : RuleMap :=
  saveCurrent (parseLines (splitChar 10%N input)).

(* --------------------------------------------------------------------- *)
(** *** SmartCache *)

Definition maxSize : nat := 10.

Definition cacheKey (cssText : jsstring) : jsstring :=
  slice0 100 cssText ++ u "_" ++ natToString (length cssText).

(** [SmartCache.parseCSS]: the cache is threaded through; a hit returns
    the stored result without calling [actualParseFunc]. *)
Definition parseCSS {R} (cache : table R) (cssText : jsstring)
  (actualParseFunc : jsstring -> R) : R * table R :=
  let key := cacheKey cssText in
  match get key cache with
  | Some result => (result, cache)
  | None =>
    let result := actualParseFunc cssText in
    let cache1 := set key result cache in
    let cache2 :=
      if (maxSize <? length cache1)%nat then
        match keys cache1 with
        | oldestKey :: _ => delete oldestKey cache1
        | [] => cache1
        end
      else cache1 in
    (result, cache2)
  end.

Definition parseChineseFormat (cache : table RuleMap) (input : jsstring)
  : RuleMap * table RuleMap :=
  parseCSS cache input _actualParseChineseFormat.

End FormatParser.

(* ===================================================================== *)
(** ** visual-editor-generator.js *)
(* ===================================================================== *)

Module Generator.

Import FormatParser.

Record config := mkConfig {
  minify : bool;
  useImportant : bool;
  groupBySelector : bool;
  sortPropertiesFlag : bool;
  addComments : bool;
  indentSize : nat
}.

(** [this.config] *)
Definition defaultConfig : config := mkConfig false true true true true 2.

Definition propertyOrder : list jsstring :=
  Eval vm_compute in
  map u
  ["position"; "top"; "right"; "bottom"; "left"; "z-index";
   "display"; "flex"; "flex-direction"; "flex-wrap"; "justify-content";
   "align-items";
   "grid"; "grid-template-columns"; "grid-template-rows"; "gap";
   "float"; "clear";
   "width"; "height"; "min-width"; "min-height"; "max-width"; "max-height";
   "margin"; "margin-top"; "margin-right"; "margin-bottom"; "margin-left";
   "padding"; "padding-top"; "padding-right"; "padding-bottom";
   "padding-left";
   "border"; "border-width"; "border-style"; "border-color";
   "border-top"; "border-right"; "border-bottom"; "border-left";
   "border-radius"; "border-top-left-radius"; "border-top-right-radius";
   "border-bottom-left-radius"; "border-bottom-right-radius";
   "outline"; "outline-width"; "outline-style"; "outline-color";
   "background"; "background-color"; "background-image"; "background-repeat";
   "background-position"; "background-size"; "background-attachment";
   "color"; "font"; "font-family"; "font-size"; "font-weight"; "font-style";
   "line-height"; "letter-spacing"; "text-align"; "text-decoration";
   "text-transform"; "white-space"; "word-break"; "word-spacing";
   "opacity"; "visibility"; "overflow"; "overflow-x"; "overflow-y";
   "box-shadow"; "text-shadow";
   "transform"; "transition"; "animation";
   "filter"; "backdrop-filter";
   "cursor"; "user-select"; "pointer-events"]%string.

(** [x === 'literal'] for a possibly undefined [x]. *)
Definition optIs (x : option jsstring) (lit : jsstring) : bool :=
  match x with Some v => streq v lit | None => false end.

(** Truthiness of a possibly undefined string. *)
Definition optTruthy (x : option jsstring) : bool :=
  match x with Some v => truthy v | None => false end.

(** Interpolation of a possibly undefined value in a template literal. *)
Definition optText (x : option jsstring) : jsstring :=
  match x with Some v => v | None => u "undefined" end.

(* --------------------------------------------------------------------- *)
(** *** Layout computations *)

Definition calc (a op b : jsstring) : jsstring :=
  u "calc(" ++ a ++ u " " ++ op ++ u " " ++ b ++ u ")".

Definition centerTransform (axis offset : jsstring) : jsstring :=
  u "translate" ++ axis ++ u "(-50%) translate" ++ axis ++ u "("
    ++ offset ++ u ")".

Definition getOverlayPositions (position : option jsstring)
  (offsetX offsetY : jsstring) : PropertyMap :=
  let plus a b := calc a (u "+") b in
  let minus a b := calc a (u "-") b in
  if optIs position (u "top-left") then
    [(u "top", plus (u "-30px") offsetY); (u "left", plus (u "0px") offsetX)]
  else if optIs position (u "top-center") then
    [(u "top", plus (u "-30px") offsetY); (u "left", u "50%");
     (u "transform", centerTransform (u "X") offsetX)]
  else if optIs position (u "top-right") then
    [(u "top", plus (u "-30px") offsetY); (u "right", minus (u "0px") offsetX)]
  else if optIs position (u "right-top") then
    [(u "top", plus (u "0px") offsetY); (u "right", minus (u "-30px") offsetX)]
  else if optIs position (u "right-middle") then
    [(u "top", u "50%"); (u "right", minus (u "-30px") offsetX);
     (u "transform", centerTransform (u "Y") offsetY)]
  else if optIs position (u "right-bottom") then
    [(u "bottom", minus (u "0px") offsetY);
     (u "right", minus (u "-30px") offsetX)]
  else if optIs position (u "left-top") then
    [(u "top", plus (u "0px") offsetY); (u "left", plus (u "-30px") offsetX)]
  else if optIs position (u "left-middle") then
    [(u "top", u "50%"); (u "left", plus (u "-30px") offsetX);
     (u "transform", centerTransform (u "Y") offsetY)]
  else if optIs position (u "left-bottom") then
    [(u "bottom", minus (u "0px") offsetY);
     (u "left", plus (u "-30px") offsetX)]
  else if optIs position (u "bottom-left") then
    [(u "bottom", plus (u "-30px") offsetY);
     (u "left", plus (u "0px") offsetX)]
  else if optIs position (u "bottom-center") then
    [(u "bottom", plus (u "-30px") offsetY); (u "left", u "50%");
     (u "transform", centerTransform (u "X") offsetX)]
  else if optIs position (u "bottom-right") then
    [(u "bottom", plus (u "-30px") offsetY);
     (u "right", minus (u "0px") offsetX)]
  else
    [(u "bottom", plus (u "-30px") offsetY);
     (u "right", plus (u "20px") offsetX)].

Definition getSqueezePositions (position : option jsstring)
  (offsetX offsetY : jsstring) : PropertyMap :=
  let css0 : PropertyMap :=
    [(u "position", u "static"); (u "display", u "flex");
     (u "top", u "auto"); (u "right", u "auto"); (u "bottom", u "auto");
     (u "left", u "auto"); (u "z-index", u "auto")] in
  let css1 :=
    match position with
    | Some p =>
      if truthy p then
        let a :=
          if includes (u "top") p
          then set (u "align-self") (u "flex-start") css0
          else if includes (u "middle") p || includes (u "center") p
          then set (u "align-self") (u "center") css0
          else if includes (u "bottom") p
          then set (u "align-self") (u "flex-end") css0
          else css0 in
        if startsWith (u "top-") p || startsWith (u "bottom-") p then
          if endsWith (u "-left") p
          then set (u "justify-self") (u "flex-start") a
          else if endsWith (u "-center") p
          then set (u "justify-self") (u "center") a
          else if endsWith (u "-right") p
          then set (u "justify-self") (u "flex-end") a
          else a
        else a
      else css0
    | None => css0
    end in
  if negb (streq offsetX (u "0px")) || negb (streq offsetY (u "0px"))
  then set (u "margin-top") offsetY (set (u "margin-left") offsetX css1)
  else css1.

(** The rotation step shared by [generateAvatarLayoutCSS] and
    [generateInfoLayoutCSS]. *)
Definition applyRotation (layoutMode : option jsstring) (rotate : jsstring)
  (css : PropertyMap) : PropertyMap :=
  if optIs layoutMode (u "squeeze") then
    if negb (streq rotate (u "0deg"))
    then set (u "transform") (u "rotate(" ++ rotate ++ u ")") css
    else set (u "transform") (u "none") css
  else if negb (streq rotate (u "0deg")) then
    set (u "transform")
        (if optTruthy (get (u "transform") css)
         then optText (get (u "transform") css) ++ u " rotate(" ++ rotate
                ++ u ")"
         else u "rotate(" ++ rotate ++ u ")") css
  else css.

Definition generateAvatarLayoutCSS (properties : PropertyMap) : PropertyMap :=
  let layoutMode := get (u "avatar-layout-mode") properties in
  let position := get (u "avatar-position") properties in
  let offsetX := getOr (u "avatar-offset-x") properties (u "0px") in
  let offsetY := getOr (u "avatar-offset-y") properties (u "0px") in
  let rotate := getOr (u "avatar-rotate") properties (u "0deg") in
  let css :=
    if optIs layoutMode (u "overlay") then
      assign [(u "position", u "absolute"); (u "z-index", u "10")]
             (getOverlayPositions position offsetX offsetY)
    else if optIs layoutMode (u "squeeze") then
      assign [(u "position", u "static")]
             (getSqueezePositions position offsetX offsetY)
    else [] in
  applyRotation layoutMode rotate css.

Definition generateInfoLayoutCSS (properties : PropertyMap) : PropertyMap :=
  let layoutMode := get (u "info-layout-mode") properties in
  let position := get (u "info-position") properties in
  let direction := getOr (u "info-direction") properties (u "column") in
  let offsetX := getOr (u "info-offset-x") properties (u "0px") in
  let offsetY := getOr (u "info-offset-y") properties (u "0px") in
  let rotate := getOr (u "info-rotate") properties (u "0deg") in
  let css :=
    if optIs layoutMode (u "overlay") then
      assign [(u "position", u "absolute"); (u "z-index", u "10");
              (u "display", u "flex"); (u "flex-direction", direction)]
             (getOverlayPositions position offsetX offsetY)
    else if optIs layoutMode (u "squeeze") then
      assign [(u "position", u "static"); (u "display", u "flex");
              (u "flex-direction", direction)]
             (getSqueezePositions position offsetX offsetY)
    else [] in
  applyRotation layoutMode rotate css.

Definition generateInfoElementCSS (layoutProps : PropertyMap) : PropertyMap :=
  let layoutMode := get (u "info-layout-mode") layoutProps in
  let position := get (u "info-position") layoutProps in
  let offsetX := getOr (u "info-offset-x") layoutProps (u "0px") in
  let offsetY := getOr (u "info-offset-y") layoutProps (u "0px") in
  let rotate := getOr (u "info-rotate") layoutProps (u "0deg") in
  let css :=
    if optIs layoutMode (u "overlay") then
      assign [(u "position", u "absolute"); (u "z-index", u "10")]
             (getOverlayPositions position offsetX offsetY)
    else if optIs layoutMode (u "squeeze") then
      assign [(u "position", u "static"); (u "display", u "inline-block");
              (u "margin", u "0 2px")]
             (getSqueezePositions position offsetX offsetY)
    else [] in
  if negb (streq rotate (u "0deg")) then
    set (u "transform")
        (if optTruthy (get (u "transform") css)
         then optText (get (u "transform") css) ++ u " rotate(" ++ rotate
                ++ u ")"
         else u "rotate(" ++ rotate ++ u ")") css
  else css.

Definition getHorizontalAlignment (position : jsstring) : jsstring :=
  if endsWith (u "-left") position then u "flex-start"
  else if endsWith (u "-center") position then u "center"
  else if endsWith (u "-right") position then u "flex-end"
  else u "flex-start".

Definition generateSqueezeContainerCSS (position : option jsstring)
  : PropertyMap :=
  let css : PropertyMap :=
    [(u "display", u "flex"); (u "align-items", u "flex-start");
     (u "position", u "relative"); (u "z-index", u "auto")] in
  match position with
  | None => css
  | Some p =>
    if negb (truthy p) then css
    else if startsWith (u "top-") p || startsWith (u "bottom-") p then
      set (u "align-items") (getHorizontalAlignment p)
          (set (u "flex-direction") (u "column") css)
    else if startsWith (u "right-") p || startsWith (u "left-") p then
      set (u "align-items") (u "flex-start")
          (set (u "flex-direction") (u "row") css)
    else css
  end.

Definition generateAvatarWrapperOrderCSS (position : option jsstring)
  : PropertyMap :=
  match position with
  | None => []
  | Some p =>
    if truthy p
       && (startsWith (u "bottom-") p || startsWith (u "right-") p)
    then [(u "order", u "1")]
    else []
  end.

(** The remainder of [s] can be matched by [.*$]. *)
Definition noLineTerminator (s : jsstring) : bool :=
  forallb (fun c => negb (isLineTerminator c)) s.

(** [avatarSelector.replace(/\s+\.avatar.*$/, '')]: the selector is cut at
    the first blank that starts a run of blanks followed by ".avatar" and
    then by no line terminator up to the end. *)
Fixpoint getMessageContainerSelector (s : jsstring) : jsstring :=
  match s with
  | [] => []
  | c :: r =>
    if isWhiteSpace c
       && startsWith (u ".avatar") (dropWhile isWhiteSpace r)
       && noLineTerminator (dropWhile isWhiteSpace r)
    then []
    else c :: getMessageContainerSelector r
  end.

Definition isAvatarSelector (selector : jsstring) : bool :=
  includes (u ".avatar") selector
  && (includes (u "is_user=" ++ dq ++ u "true" ++ dq) selector
      || includes (u "is_user=" ++ dq ++ u "false" ++ dq) selector).

Definition isInfoElementSelector (selector : jsstring) : bool :=
  includes (u ".mesIDDisplay") selector
  || (includes (u ".mes_timer") selector
      && includes (u "is_user=" ++ dq ++ u "false" ++ dq) selector)
  || includes (u ".tokenCounterDisplay") selector.

Definition memStr (x : jsstring) (l : list jsstring) : bool :=
  existsb (streq x) l.

Definition avatarLayoutAttributes : list jsstring :=
  Eval vm_compute in
  map u ["avatar-layout-mode"; "avatar-position"; "avatar-offset-x";
         "avatar-offset-y"; "avatar-rotate"; "position"; "top"; "right";
         "bottom"; "left"; "z-index"; "transform"; "margin"; "margin-top";
         "margin-right"; "margin-bottom"; "margin-left"]%string.

Definition infoLayoutPropertyNames : list jsstring :=
  Eval vm_compute in
  map u ["info-layout-mode"; "info-position"; "info-direction";
         "info-offset-x"; "info-offset-y"; "info-rotate";
         "position"; "display"; "flex-direction"; "align-items";
         "justify-content"; "top"; "right"; "bottom"; "left";
         "transform"; "z-index"; "order"]%string.

(** Both branches for non-layout properties of [separateAvatarProperties]
    store into [styleProps]. *)
Definition separateWith (layoutNames : list jsstring)
  (properties : PropertyMap) : PropertyMap * PropertyMap :=
  fold_left
    (fun acc kv =>
       if memStr (fst kv) layoutNames
       then (set (fst kv) (snd kv) (fst acc), snd acc)
       else (fst acc, set (fst kv) (snd kv) (snd acc)))
    properties ([], []).

Definition separateAvatarProperties := separateWith avatarLayoutAttributes.
Definition separateInfoProperties := separateWith infoLayoutPropertyNames.

Definition nonEmpty {A} (l : list A) : bool :=
  match l with [] => false | _ => true end.

(** [layoutProps] after the five layout-intent keys are deleted and the
    generated layout CSS is merged in with [Object.assign]: the declarations
    of the container rule. *)
Definition avatarContainerProps (layoutProps : PropertyMap) : PropertyMap :=
  let layoutCSS := generateAvatarLayoutCSS layoutProps in
  let stripped :=
    delete (u "avatar-rotate")
      (delete (u "avatar-offset-y")
        (delete (u "avatar-offset-x")
          (delete (u "avatar-position")
            (delete (u "avatar-layout-mode") layoutProps)))) in
  assign stripped layoutCSS.

(** One iteration of the loop of [preprocessAvatarLayout]. *)
Definition preprocessAvatarRule (processedRules : RuleMap)
  (rule : jsstring * PropertyMap) : RuleMap :=
  let selector := fst rule in
  let properties := snd rule in
  if isAvatarSelector selector then
    let (layoutProps, styleProps) := separateAvatarProperties properties in
    let layoutMode := get (u "avatar-layout-mode") layoutProps in
    let position := get (u "avatar-position") layoutProps in
    let imgSelector := selector ++ u " img" in
    if optIs layoutMode (u "none") then
      if nonEmpty styleProps then set imgSelector styleProps processedRules
      else processedRules
    else
      let rules1 :=
        if optIs layoutMode (u "squeeze") && optTruthy position then
          let messageSelector := getMessageContainerSelector selector in
          let r :=
            set messageSelector (generateSqueezeContainerCSS position)
                processedRules in
          let avatarWrapperCSS := generateAvatarWrapperOrderCSS position in
          if nonEmpty avatarWrapperCSS
          then set (messageSelector ++ u " > .mesAvatarWrapper")
                   avatarWrapperCSS r
          else r
        else processedRules in
      let rules2 :=
        if nonEmpty layoutProps then
          let layoutCSS := generateAvatarLayoutCSS layoutProps in
          let merged := avatarContainerProps layoutProps in
          if nonEmpty merged || nonEmpty layoutCSS then
            set selector (if nonEmpty merged then merged else layoutCSS)
                rules1
          else rules1
        else rules1 in
      if nonEmpty styleProps then set imgSelector styleProps rules2
      else rules2
  else set selector properties processedRules.

Definition preprocessAvatarLayout (styleRules : RuleMap) : RuleMap :=
  fold_left preprocessAvatarRule styleRules [].

(** One iteration of the loop of [preprocessInfoLayout]. *)
Definition preprocessInfoRule (processedRules : RuleMap)
  (rule : jsstring * PropertyMap) : RuleMap :=
  let selector := fst rule in
  let properties := snd rule in
  if isInfoElementSelector selector then
    let (layoutProps, styleProps) := separateInfoProperties properties in
    let layoutMode := get (u "info-layout-mode") layoutProps in
    if optIs layoutMode (u "none") then
      if nonEmpty styleProps then set selector styleProps processedRules
      else processedRules
    else if optTruthy layoutMode
            && optTruthy (get (u "info-position") layoutProps) then
      let elementCSS := generateInfoElementCSS layoutProps in
      let rules1 :=
        if optIs layoutMode (u "squeeze") then
          set (getMessageContainerSelector selector)
              (generateSqueezeContainerCSS
                 (get (u "info-position") layoutProps))
              processedRules
        else processedRules in
      let finalCSS := assign (assign [] elementCSS) styleProps in
      if nonEmpty finalCSS then set selector finalCSS rules1 else rules1
    else
      if nonEmpty styleProps then set selector styleProps processedRules
      else processedRules
  else set selector properties processedRules.

Definition preprocessInfoLayout (styleRules : RuleMap) : RuleMap :=
  fold_left preprocessInfoRule styleRules [].


(* --------------------------------------------------------------------- *)
(** *** Shorthand merging ([optimize]) *)

(** [sides.every(side => `${prefix}-${side}` in properties)] *)
Definition canMergeBox (properties : PropertyMap) (prefix : jsstring) : bool :=
  forallb (fun side => has (prefix ++ u "-" ++ side) properties)
          [u "top"; u "right"; u "bottom"; u "left"].

(** [a === b] for possibly undefined strings. *)
Definition optEq (a b : option jsstring) : bool :=
  match a, b with
  | Some x, Some y => streq x y
  | None, None => true
  | _, _ => false
  end.

Definition mergeBox (properties : PropertyMap) (prefix : jsstring)
  : option jsstring :=
  let t := get (prefix ++ u "-top") properties in
  let r := get (prefix ++ u "-right") properties in
  let b := get (prefix ++ u "-bottom") properties in
  let l := get (prefix ++ u "-left") properties in
  if optEq t r && optEq t b && optEq t l then t
  else if optEq t b && optEq r l then Some (optText t ++ u " " ++ optText r)
  else if optEq r l
  then Some (optText t ++ u " " ++ optText r ++ u " " ++ optText b)
  else Some (optText t ++ u " " ++ optText r ++ u " " ++ optText b
               ++ u " " ++ optText l).

Definition deleteSides (prefix : jsstring) (o : PropertyMap) : PropertyMap :=
  delete (prefix ++ u "-left")
    (delete (prefix ++ u "-bottom")
      (delete (prefix ++ u "-right")
        (delete (prefix ++ u "-top") o))).

Definition mergeBoxInto (prefix : jsstring) (merged : PropertyMap)
  : PropertyMap :=
  if canMergeBox merged prefix then
    match mergeBox merged prefix with
    | Some value =>
      if truthy value then deleteSides prefix (set prefix value merged)
      else merged
    | None => merged
    end
  else merged.

Definition canMergeBorder (properties : PropertyMap) : bool :=
  has (u "border-width") properties && has (u "border-style") properties
  && has (u "border-color") properties.

Definition mergeBorder (properties : PropertyMap) : option jsstring :=
  let width := get (u "border-width") properties in
  let style := get (u "border-style") properties in
  let color := get (u "border-color") properties in
  if optTruthy width && optTruthy style && optTruthy color
  then Some (optText width ++ u " " ++ optText style ++ u " "
               ++ optText color)
  else None.

Definition deleteBorderParts (o : PropertyMap) : PropertyMap :=
  delete (u "border-color")
    (delete (u "border-style") (delete (u "border-width") o)).

Definition mergeProperties (properties : PropertyMap) : PropertyMap :=
  let m1 := mergeBoxInto (u "margin") properties in
  let m2 := mergeBoxInto (u "padding") m1 in
  if canMergeBorder m2 then
    match mergeBorder m2 with
    | Some value =>
      if truthy value then deleteBorderParts (set (u "border") value m2)
      else m2
    | None => m2
    end
  else m2.

Definition removeRedundant (properties : PropertyMap) : PropertyMap :=
  let c1 :=
    if optTruthy (get (u "border") properties) then
      delete (u "border-left")
        (delete (u "border-bottom")
          (delete (u "border-right")
            (delete (u "border-top") (deleteBorderParts properties))))
    else properties in
  let c2 :=
    if optTruthy (get (u "margin") c1) then deleteSides (u "margin") c1
    else c1 in
  let c3 :=
    if optTruthy (get (u "padding") c2) then deleteSides (u "padding") c2
    else c2 in
  match get (u "background") c3 with
  | Some bg =>
    if truthy bg && negb (includes (u "gradient") bg) then
      delete (u "background-size")
        (delete (u "background-position")
          (delete (u "background-repeat")
            (delete (u "background-image")
              (delete (u "background-color") c3))))
    else c3
  | None => c3
  end.

Definition optimize (styleRules : RuleMap) : RuleMap :=
  fold_left
    (fun optimized rule =>
       let cleaned := removeRedundant (mergeProperties (snd rule)) in
       if nonEmpty cleaned then set (fst rule) cleaned optimized
       else optimized)
    styleRules [].

(* --------------------------------------------------------------------- *)
(** *** Rule generation *)

Inductive gcategory :=
  gLayout | gMessage | gInput | gControls | gPopup | gOther.

Definition gcategory_eqb (a b : gcategory) : bool :=
  match a, b with
  | gLayout, gLayout | gMessage, gMessage | gInput, gInput
  | gControls, gControls | gPopup, gPopup | gOther, gOther => true
  | _, _ => false
  end.

Definition gcategoryOrder : list gcategory :=
  [gLayout; gMessage; gInput; gControls; gPopup; gOther].

Definition detectCategory (selector : jsstring) : gcategory :=
  if includes (u "#chat") selector || includes (u "#top-bar") selector
     || includes (u ".drawer") selector
  then gLayout
  else if includes (u ".mes") selector || includes (u ".avatar") selector
          || includes (u ".ch_name") selector
  then gMessage
  else if includes (u "#send") selector || includes (u "textarea") selector
  then gInput
  else if includes (u "button") selector || includes (u ".swipe") selector
  then gControls
  else if includes (u ".popup") selector || includes (u "modal") selector
  then gPopup
  else gOther.

Definition getCategoryName (c : gcategory) : jsstring :=
  match c with
  | gLayout => u "布局样式"
  | gMessage => u "消息样式"
  | gInput => u "输入样式"
  | gControls => u "控件样式"
  | gPopup => u "弹窗样式"
  | gOther => u "其他样式"
  end.

Definition categorizeRules (styleRules : RuleMap)
  : list (gcategory * RuleMap) :=
  map (fun c =>
         (c, filter (fun r => gcategory_eqb (detectCategory (fst r)) c)
                    styleRules))
      gcategoryOrder.

(** [/\/\*[\s\S]*?\*\//g] replaced by the empty string. *)
Fixpoint removeComments (skip : nat) (s : jsstring) : jsstring :=
  match s with
  | [] => []
  | c :: r =>
    match skip with
    | S k => removeComments k r
    | O =>
      if startsWith (u "/*") s then
        match indexOf (u "*/") (skipn 2 s) with
        | Some i => removeComments (i + 3) r
        | None => c :: removeComments 0 r
        end
      else c :: removeComments 0 r
    end
  end.

Definition isPunct (c : jschar) : bool :=
  ((c =? 123) || (c =? 125) || (c =? 58) || (c =? 59) || (c =? 44))%N.

(** [/\s*([{}:;,])\s*/g] replaced by [$1]. *)
Fixpoint tighten (afterPunct : bool) (s : jsstring) : jsstring :=
  match s with
  | [] => []
  | c :: r =>
    if isPunct c then c :: tighten true r
    else if isWhiteSpace c then
      if afterPunct then tighten true r
      else
        match dropWhile isWhiteSpace r with
        | d :: _ => if isPunct d then tighten false r
                    else c :: tighten false r
        | [] => c :: tighten false r
        end
    else c :: tighten false r
  end.

Definition minifyCSS (css : jsstring) : jsstring :=
  trim (replaceAll (u ";}") (u "}")
          (tighten false (collapseBlanks (u " ") false (removeComments 0 css)))).

Section WithHost.

(** [String.prototype.localeCompare] depends on the host's collation; its
    sign is all that the sort uses. *)
Variable localeCompare : jsstring -> jsstring -> Z.

(** The comparator of [sortProperties], on property names. *)
Definition compareProps (a b : jsstring) : Z :=
  match arrayIndexOf a propertyOrder, arrayIndexOf b propertyOrder with
  | Some indexA, Some indexB => Z.of_nat indexA - Z.of_nat indexB
  | Some _, None => (-1)%Z
  | None, Some _ => 1%Z
  | None, None => localeCompare a b
  end.

(** [Array.prototype.sort] is stable; with a comparator that is a
    consistent ordering it returns the entries as a stable insertion
    sort does. *)
Fixpoint insertSorted (x : jsstring * jsstring)
  (l : list (jsstring * jsstring)) : list (jsstring * jsstring) :=
  match l with
  | [] => [x]
  | y :: r =>
    if (compareProps (fst x) (fst y) <? 0)%Z then x :: l
    else y :: insertSorted x r
  end.

Definition sortProperties (properties : PropertyMap)
  : list (jsstring * jsstring) :=
  fold_left (fun acc x => insertSorted x acc) properties [].

Fixpoint repeatStr (s : jsstring) (n : nat) : jsstring :=
  match n with
  | O => []
  | S k => s ++ repeatStr s k
  end.

(** The entries that [generateRule] writes, in order. *)
Definition ruleDeclarations (properties : PropertyMap) (cfg : config)
  : list (jsstring * jsstring) :=
  if sortPropertiesFlag cfg then sortProperties properties else properties.

Definition declarationCSS (cfg : config) (decl : jsstring * jsstring)
  : jsstring :=
  let indent := if minify cfg then [] else repeatStr (u " ") (indentSize cfg) in
  let newline := if minify cfg then [] else nl in
  let space := if minify cfg then [] else u " " in
  let important := if useImportant cfg then u " !important" else [] in
  indent ++ fst decl ++ u ":" ++ space ++ snd decl ++ important ++ u ";"
    ++ newline.

Definition generateRule (selector : jsstring) (properties : PropertyMap)
  (cfg : config) : jsstring :=
  match properties with
  | [] => []
  | _ =>
    let newline := if minify cfg then [] else nl in
    let space := if minify cfg then [] else u " " in
    selector ++ space ++ u "{" ++ newline
      ++ concat (map (declarationCSS cfg) (ruleDeclarations properties cfg))
      ++ u "}" ++ newline
  end.

Definition generateFlatRules (styleRules : RuleMap) (cfg : config)
  : jsstring :=
  concat (map (fun r => generateRule (fst r) (snd r) cfg) styleRules).

Definition generateGroupedRules (styleRules : RuleMap) (cfg : config)
  : jsstring :=
  concat
    (map (fun cr =>
            match snd cr with
            | [] => []
            | rules =>
              (if addComments cfg
               then u "/* === " ++ getCategoryName (fst cr) ++ u " === */"
                      ++ nl
               else [])
              ++ generateFlatRules rules cfg ++ nl
            end)
         (categorizeRules styleRules)).

(** [now] is the text of [new Date().toLocaleString('zh-CN')]. *)
Definition generateHeader (now : jsstring) (styleRules : RuleMap)
  : jsstring :=
  u "/* " ++ nl ++ u " * Generated by Visual CSS Editor" ++ nl
    ++ u " * Time: " ++ now ++ nl
    ++ u " * Rules: " ++ natToString (length styleRules) ++ nl
    ++ u " */" ++ nl ++ nl.

(** [generate(styleRules, config)]; [cfg] is [finalConfig], the defaults
    overridden by the caller's options. *)
Definition generate (now : jsstring) (styleRules0 : RuleMap) (cfg : config)
  : jsstring :=
  let styleRules := preprocessInfoLayout (preprocessAvatarLayout styleRules0) in
  match styleRules with
  | [] => []
  | _ =>
    let css :=
      (if addComments cfg then generateHeader now styleRules else [])
      ++ (if groupBySelector cfg then generateGroupedRules styleRules cfg
          else generateFlatRules styleRules cfg) in
    if minify cfg then minifyCSS css else css
  end.

End WithHost.

(* --------------------------------------------------------------------- *)
(** *** SCSS export *)

(** The value that [buildNesting] stores under a selector:
    [{ properties, children }]. *)
Unset Elimination Schemes.
Inductive scssData :=
  ScssData (properties : PropertyMap) (children : list (jsstring * scssData)).
Set Elimination Schemes.

(** [buildNesting(styleRules)]: every rule at the top level, without
    children.  The result is an object keyed by selector, which
    [Object.entries] lists in insertion order. *)
Definition buildNesting (styleRules : RuleMap) : table scssData :=
  fold_left (fun nested rule => set (fst rule) (ScssData (snd rule) []) nested)
            styleRules [].

Fixpoint generateSCSSRule (selector : jsstring) (data : scssData)
  (indent : nat) {struct data} : jsstring :=
  match data with
  | ScssData properties children =>
    let indentStr := repeatStr (u "  ") indent in
    indentStr ++ selector ++ u " {" ++ nl
      ++ concat (map (fun d => indentStr ++ u "  " ++ fst d ++ u ": "
                                 ++ snd d ++ u ";" ++ nl) properties)
      ++ (fix childRules (cs : list (jsstring * scssData)) : jsstring :=
            match cs with
            | [] => []
            | (childSelector, childData) :: r =>
              generateSCSSRule childSelector childData (S indent)
                ++ childRules r
            end) children
      ++ indentStr ++ u "}" ++ nl
  end.

Definition generateSCSS (styleRules : RuleMap) : jsstring :=
  concat (map (fun e => generateSCSSRule (fst e) (snd e) 0)
              (buildNesting styleRules)).

End Generator.

(* ===================================================================== *)
(** ** visual-editor-parser.js *)
(* ===================================================================== *)

Module CssParser.

Import FormatParser.

(** [value.replace(/\s*!important\s*$/, '')]: the text is cut where a run
    of blanks, "!important" and blanks up to the end begins. *)
Definition importantTail (s : jsstring) : bool :=
  let t := dropWhile isWhiteSpace s in
  startsWith (u "!important") t && forallb isWhiteSpace (skipn 10 t).

Fixpoint stripImportant (s : jsstring) : jsstring :=
  if importantTail s then []
  else match s with
       | [] => []
       | c :: r => c :: stripImportant r
       end.

Definition normalizeValue (value : jsstring) : jsstring :=
  map (fun c => if FormatParser.isQuote c then 34%N else c)
      (collapseBlanks (u " ") false (trim (stripImportant value))).

(** The body of the loop of [parseDeclarations]. *)
Definition parseDeclaration (properties : PropertyMap) (part : jsstring)
  : PropertyMap :=
  match indexOf (u ":") part with
  | Some (S k) =>
    let colonIndex := S k in
    let property := trim (substringTo colonIndex part) in
    let value := trim (substringFrom (colonIndex + 1) part) in
    if truthy property && truthy value
    then set property (normalizeValue value) properties
    else properties
  | _ => properties
  end.

Definition parseDeclarations (declarations : jsstring) : PropertyMap :=
  fold_left parseDeclaration
    (filter (fun p => truthy (trim p)) (splitChar 59%N declarations)) [].

(** Capture group 2 and the closing brace of [/([^{]+)\{([^}]+)\}/], tried
    right after an opening brace: the non-empty run up to the next closing
    brace. *)
Definition matchBody (s : jsstring) : option jsstring :=
  let body := takeWhile (fun c => negb (c =? 125)%N) s in
  match body, dropWhile (fun c => negb (c =? 125)%N) s with
  | _ :: _, _ :: _ => Some body
  | _, _ => None
  end.

(** Successive matches of [/([^{]+)\{([^}]+)\}/g] as pairs of capture
    groups.  [acc] holds, reversed, the candidate for group 1 read so far;
    [skip] counts the code units of the last match still to be passed. *)
Fixpoint scanRules (skip : nat) (acc : jsstring) (s : jsstring)
  : list (jsstring * jsstring) :=
  match s with
  | [] => []
  | c :: r =>
    match skip with
    | S k => scanRules k [] r
    | O =>
      if (c =? 123)%N then
        match acc with
        | [] => scanRules 0 [] r
        | _ =>
          match matchBody r with
          | Some body => (rev acc, body) :: scanRules (S (length body)) [] r
          | None => scanRules 0 [] r
          end
        end
      else scanRules 0 (c :: acc) r
    end
  end.

(** The body of the loop of [parseCSSText]. *)
Definition addRule (rules : RuleMap) (m : jsstring * jsstring) : RuleMap :=
  let selector := trim (fst m) in
  let declarations := trim (snd m) in
  if truthy selector && truthy declarations then
    let properties := parseDeclarations declarations in
    match properties with
    | [] => rules
    | _ => set selector properties rules
    end
  else rules.

Definition parseCSSText (cssText : jsstring) : RuleMap :=
  fold_left addRule (scanRules 0 [] cssText) [].

(* --------------------------------------------------------------------- *)
(** *** Shorthands *)

(** [value.split(/\s+/)]: the pieces between the maximal runs of blanks;
    a blank at either end gives an empty piece there.  [inBlank] tells that
    the code unit before was a blank. *)
Fixpoint splitBlanksFrom (inBlank : bool) (s : jsstring) : list jsstring :=
  match s with
  | [] => [[]]
  | c :: r =>
    if isWhiteSpace c then
      if inBlank then splitBlanksFrom true r
      else [] :: splitBlanksFrom true r
    else
      match splitBlanksFrom false r with
      | l :: ls => (c :: l) :: ls
      | [] => [[c]]
      end
  end.

Definition splitBlanks (s : jsstring) : list jsstring :=
  splitBlanksFrom false s.

(** The capture groups of [/^(\S+)\s+(\S+)\s+(.+)$/].  The two words and
    the blanks between them are maximal runs.  Group 3 is what follows the
    second run of blanks when there is something, without line terminator;
    when the text ends with that run, the run gives up its last code unit
    to group 3. *)
Definition matchBorderParts (value : jsstring)
  : option (jsstring * jsstring * jsstring) :=
  let word := fun c => negb (isWhiteSpace c) in
  let w1 := takeWhile word value in
  let r1 := dropWhile word value in
  let b1 := takeWhile isWhiteSpace r1 in
  let r2 := dropWhile isWhiteSpace r1 in
  let w2 := takeWhile word r2 in
  let r3 := dropWhile word r2 in
  let b2 := takeWhile isWhiteSpace r3 in
  let r4 := dropWhile isWhiteSpace r3 in
  if truthy w1 && truthy b1 && truthy w2 && truthy b2 then
    match r4 with
    | _ :: _ =>
      if forallb (fun c => negb (isLineTerminator c)) r4
      then Some (w1, w2, r4) else None
    | [] =>
      match rev b2 with
      | c :: _ :: _ =>
        if isLineTerminator c then None else Some (w1, w2, [c])
      | _ => None
      end
    end
  else None.

Definition expandShorthand (property value : jsstring) : PropertyMap :=
  if streq property (u "padding") || streq property (u "margin") then
    match splitBlanks value with
    | [a] =>
      [(property ++ u "-top", a); (property ++ u "-right", a);
       (property ++ u "-bottom", a); (property ++ u "-left", a)]
    | [a; b] =>
      [(property ++ u "-top", a); (property ++ u "-bottom", a);
       (property ++ u "-right", b); (property ++ u "-left", b)]
    | [a; b; c] =>
      [(property ++ u "-top", a); (property ++ u "-right", b);
       (property ++ u "-left", b); (property ++ u "-bottom", c)]
    | [a; b; c; d] =>
      [(property ++ u "-top", a); (property ++ u "-right", b);
       (property ++ u "-bottom", c); (property ++ u "-left", d)]
    | _ => []
    end
  else if streq property (u "border") then
    match matchBorderParts value with
    | Some (width, style, color) =>
      [(u "border-width", width); (u "border-style", style);
       (u "border-color", color)]
    | None => []
    end
  else if streq property (u "border-radius") then
    match splitBlanks value with
    | [a] =>
      [(u "border-top-left-radius", a); (u "border-top-right-radius", a);
       (u "border-bottom-right-radius", a);
       (u "border-bottom-left-radius", a)]
    | _ => []
    end
  else [(property, value)].

(** One of the two blocks of [combineShorthand]: the test reads
    [properties], the changes go to [combined]. *)
Definition combineBox (prefix : jsstring) (properties combined : PropertyMap)
  : PropertyMap :=
  let t := get (prefix ++ u "-top") properties in
  let r := get (prefix ++ u "-right") properties in
  let b := get (prefix ++ u "-bottom") properties in
  let l := get (prefix ++ u "-left") properties in
  if Generator.optTruthy t && Generator.optTruthy r
     && Generator.optTruthy b && Generator.optTruthy l then
    if Generator.optEq t r && Generator.optEq t b && Generator.optEq t l
    then Generator.deleteSides prefix
           (set prefix (Generator.optText t) combined)
    else combined
  else combined.

Definition combineShorthand (properties : PropertyMap) : PropertyMap :=
  combineBox (u "margin") properties
    (combineBox (u "padding") properties properties).

(* --------------------------------------------------------------------- *)
(** *** Colours *)

(** [parseInt(s)] on a string of decimal digits (exact below 2^53). *)
Definition parseIntDigits (ds : jsstring) : N :=
  fold_left (fun acc c => (acc * 10 + (c - 48))%N) ds 0%N.

Fixpoint hexDigitsOf (d : Hexadecimal.uint) : jsstring :=
  match d with
  | Hexadecimal.Nil => []
  | Hexadecimal.D0 d' => 48%N :: hexDigitsOf d'
  | Hexadecimal.D1 d' => 49%N :: hexDigitsOf d'
  | Hexadecimal.D2 d' => 50%N :: hexDigitsOf d'
  | Hexadecimal.D3 d' => 51%N :: hexDigitsOf d'
  | Hexadecimal.D4 d' => 52%N :: hexDigitsOf d'
  | Hexadecimal.D5 d' => 53%N :: hexDigitsOf d'
  | Hexadecimal.D6 d' => 54%N :: hexDigitsOf d'
  | Hexadecimal.D7 d' => 55%N :: hexDigitsOf d'
  | Hexadecimal.D8 d' => 56%N :: hexDigitsOf d'
  | Hexadecimal.D9 d' => 57%N :: hexDigitsOf d'
  | Hexadecimal.Da d' => 97%N :: hexDigitsOf d'
  | Hexadecimal.Db d' => 98%N :: hexDigitsOf d'
  | Hexadecimal.Dc d' => 99%N :: hexDigitsOf d'
  | Hexadecimal.Dd d' => 100%N :: hexDigitsOf d'
  | Hexadecimal.De d' => 101%N :: hexDigitsOf d'
  | Hexadecimal.Df d' => 102%N :: hexDigitsOf d'
  end.

(** [toHex]: [n.toString(16)], with a zero before a single digit. *)
Definition toHex (n : N) : jsstring :=
  let hex := hexDigitsOf (N.to_hex_uint n) in
  match hex with
  | [_] => 48%N :: hex
  | _ => hex
  end.

(** The class [[\d.]]. *)
Definition isAlphaUnit (c : jschar) : bool := (isDigit c || (c =? 46))%N.

(** [/rgba?\((\d+),\s*(\d+),\s*(\d+)(?:,\s*([\d.]+))?\)/] tried at the
    start of [s]: the four capture groups.  The character classes that
    follow one another are disjoint, so every run is maximal. *)
Definition matchRgbHere (s : jsstring)
  : option (jsstring * jsstring * jsstring * option jsstring) :=
  if startsWith (u "rgb") s then
    let s1 := skipn 3 s in
    let s2 := match s1 with
              | c :: r => if (c =? 97)%N then r else s1
              | [] => s1
              end in
    match s2 with
    | c2 :: s3 =>
      if (c2 =? 40)%N then
        match takeWhile isDigit s3, dropWhile isDigit s3 with
        | (_ :: _) as r, c4 :: s4 =>
          if (c4 =? 44)%N then
            let s5 := dropWhile isWhiteSpace s4 in
            match takeWhile isDigit s5, dropWhile isDigit s5 with
            | (_ :: _) as g, c6 :: s6 =>
              if (c6 =? 44)%N then
                let s7 := dropWhile isWhiteSpace s6 in
                match takeWhile isDigit s7, dropWhile isDigit s7 with
                | (_ :: _) as b, c8 :: s8 =>
                  if (c8 =? 41)%N then Some (r, g, b, None)
                  else if (c8 =? 44)%N then
                    let s9 := dropWhile isWhiteSpace s8 in
                    match takeWhile isAlphaUnit s9,
                          dropWhile isAlphaUnit s9 with
                    | (_ :: _) as a, c10 :: _ =>
                      if (c10 =? 41)%N then Some (r, g, b, Some a)
                      else None
                    | _, _ => None
                    end
                  else None
                | _, _ => None
                end
              else None
            | _, _ => None
            end
          else None
        | _, _ => None
        end
      else None
    | [] => None
    end
  else None.

(** [rgb.match(...)]: the leftmost match. *)
Fixpoint matchRgb (s : jsstring)
  : option (jsstring * jsstring * jsstring * option jsstring) :=
  match matchRgbHere s with
  | Some m => Some m
  | None =>
    match s with
    | [] => None
    | _ :: r => matchRgb r
    end
  end.

Section WithNumbers.

(** [parseFloat(text) < 1] and the text of [parseFloat(text)] in a
    template literal, for a run of digits and dots. *)
Variable alphaBelowOne : jsstring -> bool.
Variable alphaText : jsstring -> jsstring.

Definition rgbToHex (rgb : jsstring) : jsstring :=
  match matchRgb rgb with
  | None => rgb
  | Some (rd, gd, bd, alpha) =>
    let r := parseIntDigits rd in
    let g := parseIntDigits gd in
    let b := parseIntDigits bd in
    let show := fun n => numberToString (Z.of_N n) in
    match alpha with
    | Some text =>
      if alphaBelowOne text
      then u "rgba(" ++ show r ++ u ", " ++ show g ++ u ", " ++ show b
             ++ u ", " ++ alphaText text ++ u ")"
      else u "#" ++ toHex r ++ toHex g ++ toHex b
    | None => u "#" ++ toHex r ++ toHex g ++ toHex b
    end
  end.

End WithNumbers.

End CssParser.

(* ===================================================================== *)
(** ** visual-editor-format-parser.js: validation, import and export *)
(* ===================================================================== *)

(** The methods of the format parser that come after the generator of the
    localized text; [importTheme] calls the parser of
    [visual-editor-parser.js]. *)
Module Themes.

Import FormatParser.

Record validation := mkValidation {
  inBlock : bool;
  inDecorationBlock : bool;
  errors : list jsstring;
  warnings : list jsstring
}.

(** [/^[a-z-]+$/] *)
Definition isLowerDashName (s : jsstring) : bool :=
  truthy s
  && forallb (fun c => ((97 <=? c) && (c <=? 122) || (c =? 45))%N) s.

Definition lineLabel (i : nat) : jsstring :=
  u "第 " ++ natToString (i + 1) ++ u " 行：".

(** The body of the loop of [validateFormat], for line [i]. *)
Definition validateLine (st : validation) (numbered : nat * jsstring)
  : validation :=
  let i := fst numbered in
  let line := trim (snd numbered) in
  if startsWith (u "@") line then
    mkValidation (inBlock st) true (errors st) (warnings st)
  else if inDecorationBlock st && streq line (u "}") then
    mkValidation (inBlock st) false (errors st) (warnings st)
  else if inDecorationBlock st then st
  else if endsWith (u "{") line then
    let elementName := trim (replaceFirst (u "{") [] line) in
    mkValidation true (inDecorationBlock st) (errors st)
      (if negb (lookupTruthy elementName elementMap)
          && negb (startsWith (u ".") elementName)
          && negb (startsWith (u "#") elementName)
       then warnings st
              ++ [lineLabel i ++ u "未知的元素名称 " ++ dq ++ elementName
                    ++ dq]
       else warnings st)
  else if streq line (u "}") then
    mkValidation false (inDecorationBlock st) (errors st) (warnings st)
  else if inBlock st && truthy line && negb (startsWith (u "#") line)
          && negb (startsWith (u "/*") line) then
    match indexOf (u ":") line with
    | None =>
      mkValidation (inBlock st) (inDecorationBlock st)
        (errors st ++ [lineLabel i ++ u "属性行缺少冒号"]) (warnings st)
    | Some colonIndex =>
      let propName := trim (substringTo colonIndex line) in
      if negb (lookupTruthy propName propertyMap)
         && negb (isLowerDashName propName)
      then mkValidation (inBlock st) (inDecorationBlock st) (errors st)
             (warnings st
                ++ [lineLabel i ++ u "未知的属性名 " ++ dq ++ propName
                      ++ dq])
      else st
    end
  else st.

Fixpoint numberFrom {A} (i : nat) (l : list A) : list (nat * A) :=
  match l with
  | [] => []
  | x :: r => (i, x) :: numberFrom (S i) r
  end.

(** [validateFormat(input)]: the errors and the warnings; the text is
    valid when there is no error. *)
Definition validateFormat (input : jsstring)
  : list jsstring * list jsstring :=
  let errors0 :=
    if negb (includes (u "{") input) || negb (includes (u "}") input)
    then [u "缺少样式块标记 { }"] else [] in
  let final :=
    fold_left validateLine (numberFrom 0 (splitChar 10%N input))
              (mkValidation false false errors0 []) in
  (errors final, warnings final).

Definition isValid (input : jsstring) : bool :=
  match fst (validateFormat input) with [] => true | _ => false end.

Record imported := mkImported {
  importedStyles : RuleMap;
  importedName : jsstring;
  importedFormat : jsstring
}.

(** [importTheme(content)] with the state of the cache; neither parser
    throws, so [success] is always true. *)
Definition importTheme (cache : table RuleMap) (content : jsstring)
  : imported * table RuleMap :=
  let (styles, cache') := parseChineseFormat cache content in
  match styles with
  | [] =>
    (mkImported (CssParser.parseCSSText content) (u "导入的样式") (u "css"),
     cache')
  | _ => (mkImported styles (u "导入的中文样式") (u "chinese"), cache')
  end.

Record exported := mkExported {
  exportedCss : jsstring;
  exportedStyles : RuleMap;
  exportedFilename : jsstring
}.

(** [exportTheme(styles, metadata)]; [today] is
    [new Date().toISOString().slice(0, 10)] and [name] is
    [metadata.name]. *)
Definition exportTheme (today : jsstring) (styles : RuleMap)
  (name : option jsstring) : exported :=
  mkExported (generateChineseFormat styles) styles
    (u "视觉主题-"
       ++ match name with
          | Some n => if truthy n then n else u "自定义"
          | None => u "自定义"
          end
       ++ u "-" ++ today ++ u ".css").

End Themes.

(* ===================================================================== *)
(** ** visual-editor-main.js *)
(* ===================================================================== *)

(** The step of the editor that writes the styles back. *)
Module Editor.

Import FormatParser Generator.

(** What [applyStylesToCSS] writes: [chineseCSS] to the settings and to
    the input box, [standardCSS] to the style element. *)
Record applied := mkApplied {
  chineseCSS : jsstring;
  standardCSS : jsstring
}.

(** [new Map([...existingStyles, ...pendingStyles])] *)
Definition mergedStyles (existingStyles pendingStyles : RuleMap) : RuleMap :=
  fold_left (fun m e => set (fst e) (snd e) m)
            (existingStyles ++ pendingStyles) [].

(** The options that [applyStylesToCSS] passes to [generate], over the
    defaults. *)
Definition applyConfig : config :=
  mkConfig false true (groupBySelector defaultConfig)
           (sortPropertiesFlag defaultConfig) false
           (indentSize defaultConfig).

Section WithHost.

Variable localeCompare : jsstring -> jsstring -> Z.
Variable now : jsstring.

(** [applyStylesToCSS()] when the settings are there: [currentCSS] is the
    text read from the input box or the settings, [cache] the cache of the
    format parser. *)
Definition applyStylesToCSS (cache : table RuleMap) (currentCSS : jsstring)
  (pendingStyles : RuleMap) : applied * table RuleMap :=
  let parsed := parseChineseFormat cache currentCSS in
  let merged := mergedStyles (fst parsed) pendingStyles in
  (mkApplied (generateChineseFormat merged)
             (generate localeCompare now merged applyConfig),
   snd parsed).

End WithHost.

End Editor.

(* ===================================================================== *)
(** ** visual-editor-css-preprocessor.js *)
(* ===================================================================== *)

Module Preprocessor.

Import FormatParser.

(** [/^[a-z-]+$/.test(prop)] *)
Definition isPlainPropertyName (prop : jsstring) : bool :=
  truthy prop
  && forallb (fun c => ((97 <=? c) && (c <=? 122) || (c =? 45))%N) prop.

Definition decorationSpecificProps : table jsstring :=
  Eval vm_compute in literal
  [(u "是否超出父元素显示", u "decoration-overflow-mode");
   (u "超出父元素", u "decoration-overflow-mode")].

(** [translateProperty]; [None] is [null].  The module's format parser is
    present. *)
Definition translateProperty (prop : jsstring) : option jsstring :=
  let result := getProperty prop in
  if negb (streq result prop) then Some result
  else if lookupTruthy prop decorationSpecificProps
  then get prop decorationSpecificProps
  else if isPlainPropertyName prop then Some prop
  else None.

Definition positionValues : table jsstring :=
  Eval vm_compute in literal
  [(u "绝对", u "absolute"); (u "相对", u "relative"); (u "固定", u "fixed");
   (u "静态", u "static"); (u "粘性", u "sticky");
   (u "相对定位", u "relative"); (u "绝对定位", u "absolute");
   (u "固定定位", u "fixed")].

Definition repeatMap : table jsstring :=
  Eval vm_compute in literal
  [(u "重复", u "repeat"); (u "不重复", u "no-repeat");
   (u "横向重复", u "repeat-x"); (u "纵向重复", u "repeat-y");
   (u "重复横向", u "repeat-x"); (u "重复纵向", u "repeat-y");
   (u "空间", u "space"); (u "圆形", u "round")].

Definition sizeMap : table jsstring :=
  Eval vm_compute in literal
  [(u "包含", u "contain"); (u "覆盖", u "cover"); (u "自动", u "auto");
   (u "原始", u "auto")].

Definition positionValueMap : table jsstring :=
  Eval vm_compute in literal
  [(u "居中", u "center"); (u "中心", u "center"); (u "左侧", u "left");
   (u "右侧", u "right"); (u "顶部", u "top"); (u "底部", u "bottom");
   (u "左上", u "left top"); (u "右上", u "right top");
   (u "左下", u "left bottom"); (u "右下", u "right bottom");
   (u "中上", u "center top"); (u "中下", u "center bottom");
   (u "左中", u "left center"); (u "右中", u "right center")].

Definition attachmentMap : table jsstring :=
  Eval vm_compute in literal
  [(u "固定", u "fixed"); (u "滚动", u "scroll"); (u "本地", u "local")].

Definition pointerMap : table jsstring :=
  Eval vm_compute in literal
  [(u "无", u "none"); (u "自动", u "auto"); (u "禁用", u "none");
   (u "启用", u "auto")].

(** [s.replace(/cn\((.*?)\)/, 'css($1)')]: at the leftmost place where
    [cn] is followed by a parenthesised run without line terminator, the
    name is replaced and the argument kept. *)
Fixpoint replaceCall (cn css s : jsstring) : jsstring :=
  if startsWith (cn ++ [40%N]) s
     && match lazyInner (skipn (length cn + 1) s) with
        | Some _ => true
        | None => false
        end
  then css ++ skipn (length cn) s
  else match s with
       | [] => []
       | c :: r => c :: replaceCall cn css r
       end.

Definition replaceCalls (pairs : list (jsstring * jsstring)) (s : jsstring)
  : jsstring :=
  fold_left (fun acc p => replaceCall (fst p) (snd p) acc) pairs s.

Definition transformCalls : list (jsstring * jsstring) :=
  Eval vm_compute in
  [(u "旋转", u "rotate"); (u "缩放", u "scale"); (u "偏移", u "translate");
   (u "移动", u "translate"); (u "倾斜", u "skew")].

Definition filterCalls : list (jsstring * jsstring) :=
  Eval vm_compute in
  [(u "模糊", u "blur"); (u "亮度", u "brightness");
   (u "对比度", u "contrast"); (u "灰度", u "grayscale");
   (u "色相旋转", u "hue-rotate"); (u "饱和度", u "saturate");
   (u "反转", u "invert"); (u "透明度", u "opacity");
   (u "褐色", u "sepia")].

(** The chain of global unit replacements at the head of
    [translateValue]. *)
Definition replaceUnits (value : jsstring) : jsstring :=
  replaceAll (u "度") (u "deg")
    (replaceAll (u "毫秒") (u "ms")
      (replaceAll (u "秒") (u "s")
        (replaceAll (u "百分号") (u "%")
          (replaceAll (u "百分比") (u "%")
            (replaceAll (u "像素") (u "px") value))))).

(** [translateValue(value, property)] with [property] possibly [null]. *)
Definition translateValue (value : jsstring) (property : option jsstring)
  : jsstring :=
  let prop_is p :=
    match property with Some q => streq q p | None => false end in
  if prop_is (u "decoration-overflow-mode") then
    if streq value (u "超出") || streq value (u "允许超出")
       || streq value (u "是")
    then u "allow-overflow"
    else u "contain"
  else if prop_is (u "content") then
    if negb (truthy value) || streq value (u "空") || streq value (u "无")
    then sq ++ sq
    else value
  else
    let processedValue := replaceUnits value in
    let found m := lookupTruthy processedValue m in
    let entry m := getOr processedValue m processedValue in
    if prop_is (u "position") && found positionValues then entry positionValues
    else if prop_is (u "background-repeat") && found repeatMap
    then entry repeatMap
    else if prop_is (u "background-size") then entry sizeMap
    else if prop_is (u "background-position") then entry positionValueMap
    else if prop_is (u "background-attachment") && found attachmentMap
    then entry attachmentMap
    else if prop_is (u "pointer-events") && found pointerMap
    then entry pointerMap
    else if prop_is (u "transform")
    then replaceCalls transformCalls processedValue
    else if prop_is (u "filter") then replaceCalls filterCalls processedValue
    else if startsWith (u "rgb") processedValue then processedValue
    else
      let result :=
        match property with
        | Some p => parseValue processedValue p
        | None => processedValue
        end in
      if truthy result then result else processedValue.

(** [declaration.indexOf(':')], or [declaration.indexOf('：')] when there
    is no ASCII colon. *)
Definition findColon (declaration : jsstring) : option nat :=
  match indexOf (u ":") declaration with
  | Some i => Some i
  | None => indexOf (u "：") declaration
  end.

(** The body of the loop of [parseStyles]. *)
Definition parseStyleDeclaration (styles : PropertyMap)
  (declaration : jsstring) : PropertyMap :=
  if negb (truthy (trim declaration)) then styles
  else
    match findColon declaration with
    | None => styles
    | Some colonIndex =>
      let prop := trim (substringTo colonIndex declaration) in
      let value := trim (substringFrom (colonIndex + 1) declaration) in
      let cssProp := translateProperty prop in
      let cssValue := translateValue value cssProp in
      match cssProp with
      | Some p =>
        if truthy p && truthy cssValue then set p cssValue styles else styles
      | None => styles
      end
    end.

(** [styleText.split(/[;；\n]/)] *)
Definition isDeclarationSeparator (c : jschar) : bool :=
  ((c =? 59) || (c =? 65307) || (c =? 10))%N.

Definition parseStyles (styleText : jsstring) : PropertyMap :=
  fold_left parseStyleDeclaration
    (splitClass isDeclarationSeparator styleText) [].

Definition resolveSelector (elementName : jsstring) : jsstring :=
  let selector := getSelector elementName in
  if negb (streq selector elementName) then selector
  else if includes (u ".") elementName || includes (u "#") elementName
          || includes (u "[") elementName
  then elementName
  else u "." ++ elementName.



(* --------------------------------------------------------------------- *)
(** *** Decoration rules *)

Record rule := mkRule {
  ruleId : jsstring;
  ruleSelector : jsstring;
  elementName : jsstring;
  decorationName : jsstring;
  ruleStyles : PropertyMap;
  className : jsstring
}.

(** [this.decorationRules]: a [Map] from rule id to rule. *)
Definition RuleTable := table rule.

Definition isColon (c : jschar) : bool := ((c =? 58) || (c =? 65306))%N.

(** One match of
    [/@([^:：{]+)[：:]([^{]+)\s*\{([^}]+)\}/] tried right after an at sign:
    the three capture groups and the colon matched.  The second group is
    greedy and takes everything up to the opening brace, blanks
    included. *)
Definition matchDecoration (s : jsstring)
  : option (jsstring * jschar * jsstring * jsstring) :=
  let inName c := negb (isColon c) && negb (c =? 123)%N in
  let name := takeWhile inName s in
  match name, dropWhile inName s with
  | _ :: _, colon :: afterColon =>
    if isColon colon then
      let notOpen c := negb (c =? 123)%N in
      let decoration := takeWhile notOpen afterColon in
      match decoration, dropWhile notOpen afterColon with
      | _ :: _, _ :: afterOpen =>
        let notClose c := negb (c =? 125)%N in
        let body := takeWhile notClose afterOpen in
        match body, dropWhile notClose afterOpen with
        | _ :: _, _ :: _ => Some (name, colon, decoration, body)
        | _, _ => None
        end
      | _, _ => None
      end
    else None
  | _, _ => None
  end.

(** The text matched, [match[0]]. *)
Definition fullMatch (m : jsstring * jschar * jsstring * jsstring)
  : jsstring :=
  let '(name, colon, decoration, body) := m in
  (64%N :: name) ++ (colon :: decoration) ++ (123%N :: body) ++ [125%N].

(** Successive matches of the global pattern, left to right. *)
Fixpoint scanDecorations (skip : nat) (s : jsstring)
  : list (jsstring * jschar * jsstring * jsstring) :=
  match s with
  | [] => []
  | c :: r =>
    match skip with
    | S k => scanDecorations k r
    | O =>
      if (c =? 64)%N then
        match matchDecoration r with
        | Some m => m :: scanDecorations (length (fullMatch m) - 1) r
        | None => scanDecorations 0 r
        end
      else scanDecorations 0 r
    end
  end.

(** The rule built from one match. *)
Definition ruleOfMatch (m : jsstring * jschar * jsstring * jsstring) : rule :=
  let '(name, _, decoration, body) := m in
  mkRule (trim name ++ u "-" ++ trim decoration)
         (resolveSelector (trim name))
         (trim name) (trim decoration)
         (parseStyles body)
         (u "ve-decoration-" ++ collapseBlanks (u "-") false (trim decoration)).

(* --------------------------------------------------------------------- *)
(** *** [JSON.stringify] of a style object *)

Definition hexDigit (n : N) : jschar :=
  if (n <? 10)%N then (48 + n)%N else (87 + n)%N.

(** [\uXXXX] with four lowercase hexadecimal digits. *)
Definition unicodeEscape (c : jschar) : jsstring :=
  [92%N; 117%N; hexDigit (c / 4096); hexDigit ((c / 256) mod 16);
   hexDigit ((c / 16) mod 16); hexDigit (c mod 16)].

Definition isHighSurrogate (c : jschar) : bool :=
  ((55296 <=? c) && (c <=? 56319))%N.
Definition isLowSurrogate (c : jschar) : bool :=
  ((56320 <=? c) && (c <=? 57343))%N.

(** A code unit other than a surrogate. *)
Definition escapeUnit (c : jschar) : jsstring :=
  if (c =? 8)%N then [92%N; 98%N]
  else if (c =? 9)%N then [92%N; 116%N]
  else if (c =? 10)%N then [92%N; 110%N]
  else if (c =? 12)%N then [92%N; 102%N]
  else if (c =? 13)%N then [92%N; 114%N]
  else if (c =? 34)%N then [92%N; 34%N]
  else if (c =? 92)%N then [92%N; 92%N]
  else if (c <? 32)%N then unicodeEscape c
  else [c].

(** [QuoteJSONString] without the surrounding quotes: a surrogate pair is
    kept, a lone surrogate is escaped. *)
Fixpoint escapeJSON (s : jsstring) : jsstring :=
  match s with
  | [] => []
  | c :: r =>
    if isHighSurrogate c then
      match r with
      | d :: r' =>
        if isLowSurrogate d then c :: d :: escapeJSON r'
        else unicodeEscape c ++ escapeJSON r
      | [] => unicodeEscape c
      end
    else if isLowSurrogate c then unicodeEscape c ++ escapeJSON r
    else escapeUnit c ++ escapeJSON r
  end.

Definition quoteJSON (s : jsstring) : jsstring :=
  34%N :: escapeJSON s ++ [34%N].

Fixpoint membersJSON (o : PropertyMap) : jsstring :=
  match o with
  | [] => []
  | (k, v) :: r =>
    quoteJSON k ++ 58%N :: quoteJSON v
      ++ match r with [] => [] | _ => 44%N :: membersJSON r end
  end.

(** [JSON.stringify(o)] for an object whose values are strings. *)
Definition stringifyJSON (o : PropertyMap) : jsstring :=
  123%N :: membersJSON o ++ [125%N].

(* --------------------------------------------------------------------- *)
(** *** The page: anchor elements and synthetic decoration nodes

    The anchor elements of the document are identified by numbers.  What
    the selector engine answers is a parameter of the model:
    [matchesSelector sel e] tells whether element [e] is in
    [document.querySelectorAll(sel)].  Rule selectors are assumed to select
    anchor elements only, and an anchor element is assumed not to lie
    inside another for the queries made on it.  The query of
    [removeDecoration], [.cls[data-decoration-id="id"]], is built from the
    class name and the id of the rule as they are: it selects the synthetic
    nodes of class [cls] and id [id] when neither needs escaping
    ([plainQuery]), and [removeDecoration] is followed for such rules
    only.  A synthetic node also carries the fixed class [ve-decoration];
    [nodeClass] is the class that its rule gives it. *)

Record decoration := mkDecoration {
  nodeId : nat;
  nodeParent : nat;
  nodeClass : jsstring;
  decorationId : jsstring;
  nodeName : jsstring;
  nodeStyle : PropertyMap
}.

Record page := mkPage {
  (** the synthetic nodes attached to the document, oldest first *)
  decorations : list decoration;
  (** [appliedDecorations]: element to the set of rule ids applied *)
  applied : list (nat * list jsstring);
  (** [allDecorationElements] *)
  tracked : list nat;
  (** inline style written on anchor elements *)
  elementStyle : list (nat * PropertyMap);
  (** supply of identities for created nodes *)
  nextNode : nat
}.

Fixpoint lookupNat {V} (e : nat) (l : list (nat * V)) : option V :=
  match l with
  | [] => None
  | (e', v) :: r => if Nat.eqb e e' then Some v else lookupNat e r
  end.

Fixpoint storeNat {V} (e : nat) (v : V) (l : list (nat * V))
  : list (nat * V) :=
  match l with
  | [] => [(e, v)]
  | (e', v') :: r =>
    if Nat.eqb e e' then (e, v) :: r else (e', v') :: storeNat e v r
  end.

Definition dropNat {V} (e : nat) (l : list (nat * V)) : list (nat * V) :=
  filter (fun p => negb (Nat.eqb e (fst p))) l.

(** [decorations.has(id)] for [decorations] a possibly absent set. *)
Definition isApplied (pg : page) (e : nat) (id : jsstring) : bool :=
  match lookupNat e (applied pg) with
  | Some ids => existsb (streq id) ids
  | None => false
  end.

Definition setAdd (id : jsstring) (ids : list jsstring) : list jsstring :=
  if existsb (streq id) ids then ids else ids ++ [id].

Definition setDelete (id : jsstring) (ids : list jsstring) : list jsstring :=
  filter (fun x => negb (streq id x)) ids.

(** What [applyStylesToElement] leaves as the style of a node: the given
    declarations, and [pointer-events: none] unless the styles say
    otherwise.  Which declarations the browser accepts is outside the
    model. *)
Definition appliedStyle (styles0 : PropertyMap) : PropertyMap :=
  if Generator.optTruthy (get (u "pointer-events") styles0) then styles0
  else set (u "pointer-events") (u "none") styles0.

(** [createDecorationElement]: the control property is filtered out. *)
Definition filteredStyles (styles0 : PropertyMap) : PropertyMap :=
  filter (fun d => negb (streq (fst d) (u "decoration-overflow-mode")))
         styles0.

Definition createDecorationElement (r : rule) (e : nat) (id : nat)
  : decoration :=
  mkDecoration id e (className r) (ruleId r) (decorationName r)
               (appliedStyle (filteredStyles (ruleStyles r))).

Definition setElementStyle (e : nat) (prop value : jsstring)
  (l : list (nat * PropertyMap)) : list (nat * PropertyMap) :=
  storeNat e (set prop value
                  (match lookupNat e l with Some s => s | None => [] end)) l.

(** Restyling of the first node of class [cls] under [e], if any. *)
Fixpoint restyleFirst (e : nat) (cls : jsstring) (style : PropertyMap)
  (ds : list decoration) : list decoration :=
  match ds with
  | [] => []
  | d :: r =>
    if Nat.eqb (nodeParent d) e && streq (nodeClass d) cls
    then mkDecoration (nodeId d) (nodeParent d) (nodeClass d)
                      (decorationId d) (nodeName d) style :: r
    else d :: restyleFirst e cls style r
  end.

(** The text that [removeDecoration] hands to [querySelectorAll]:
    [`.${rule.className}[data-decoration-id="${rule.id}"]`], with the class
    name and the id put in as they are. *)
Definition decorationQuery (r : rule) : jsstring :=
  u "." ++ className r ++ u "[data-decoration-id=" ++ dq ++ ruleId r
    ++ dq ++ u "]".

(** Code units that a CSS identifier can hold unescaped: ASCII letters and
    digits, hyphen, underscore, and the code units from U+3001 up to the
    surrogates. *)
Definition identStart (c : jschar) : bool :=
  ((65 <=? c) && (c <=? 90))%N || ((97 <=? c) && (c <=? 122))%N
  || (c =? 95)%N || ((12289 <=? c) && (c <=? 55295))%N.

Definition identUnit (c : jschar) : bool :=
  identStart c || ((48 <=? c) && (c <=? 57))%N || (c =? 45)%N.

(** Code units that a double-quoted CSS string can hold unescaped: not the
    quote, the backslash, a line break or NUL, and no surrogate. *)
Definition stringUnit (c : jschar) : bool :=
  negb ((c =? 34)%N || (c =? 92)%N || (c =? 10)%N || (c =? 12)%N
        || (c =? 13)%N || (c =? 0)%N
        || ((55296 <=? c) && (c <=? 57343))%N).

(** The query text of the rule is a class selector followed by an
    attribute selector whose string is the id: the class name is an
    identifier and the id needs no escaping. *)
Definition plainQuery (r : rule) : bool :=
  match className r with
  | [] => false
  | c :: rest => identStart c && forallb identUnit rest
  end
  && forallb stringUnit (ruleId r).

(** [list.forEach(x => f(x))] for a body that may raise: the loop stops at
    the first call that gives no state. *)
Fixpoint forEach {S A} (f : S -> A -> option S) (l : list A) (s : S)
  : option S :=
  match l with
  | [] => Some s
  | a :: rest =>
    match f s a with
    | Some s' => forEach f rest s'
    | None => None
    end
  end.

Section Page.

(** The anchor elements, in document order, and the selector engine. *)
Variable elements : list nat.
Variable matchesSelector : jsstring -> nat -> bool.
(** [getComputedStyle(e).position], which the host computes from the style
    sheets and the inline styles written so far. *)
Variable computedPosition : list (nat * PropertyMap) -> nat -> jsstring.

Definition querySelectorAll (selector : jsstring) : list nat :=
  filter (matchesSelector selector) elements.

(** The body of the loop of [applyDecoration]. *)
Definition applyToElement (r : rule) (pg : page) (e : nat) : page :=
  if isApplied pg e (ruleId r) then
    mkPage (restyleFirst e (className r) (appliedStyle (ruleStyles r))
                         (decorations pg))
           (applied pg) (tracked pg) (elementStyle pg) (nextNode pg)
  else
    let d := createDecorationElement r e (nextNode pg) in
    let overflowMode :=
      getOr (u "decoration-overflow-mode") (ruleStyles r) (u "contain") in
    let style1 :=
      if streq overflowMode (u "allow-overflow")
      then setElementStyle e (u "overflow") (u "visible") (elementStyle pg)
      else
        setElementStyle e (u "overflow") (u "hidden")
          (if Generator.optIs (get (u "position") (ruleStyles r))
                              (u "absolute")
              && streq (computedPosition (elementStyle pg) e) (u "static")
           then setElementStyle e (u "position") (u "relative")
                                (elementStyle pg)
           else elementStyle pg) in
    let ids := match lookupNat e (applied pg) with
               | Some ids => ids
               | None => []
               end in
    mkPage (decorations pg ++ [d])
           (storeNat e (setAdd (ruleId r) ids) (applied pg))
           (tracked pg ++ [nextNode pg])
           style1 (S (nextNode pg)).

Definition applyDecoration (pg : page) (r : rule) : page :=
  fold_left (applyToElement r) (querySelectorAll (ruleSelector r)) pg.

(** The nodes selected by
    [`.${rule.className}[data-decoration-id="${rule.id}"]`]. *)
Definition isDecorationOf (r : rule) (d : decoration) : bool :=
  streq (nodeClass d) (className r) && streq (decorationId d) (ruleId r).

(** The second loop of [removeDecoration], for one element. *)
Definition forgetOn (r : rule) (ap : list (nat * list jsstring)) (e : nat)
  : list (nat * list jsstring) :=
  match lookupNat e ap with
  | Some ids =>
    match setDelete (ruleId r) ids with
    | [] => dropNat e ap
    | ids' => storeNat e ids' ap
    end
  | None => ap
  end.

(** The two loops of [removeDecoration], once its first query has been
    read as "the nodes of class [rule.className] whose data-decoration-id
    is [rule.id]". *)
Definition removeSelected (pg : page) (r : rule) : page :=
  let gone := filter (isDecorationOf r) (decorations pg) in
  mkPage (filter (fun d => negb (isDecorationOf r d)) (decorations pg))
         (fold_left (forgetOn r) (querySelectorAll (ruleSelector r))
                    (applied pg))
         (filter (fun n => negb (existsb (fun d => Nat.eqb (nodeId d) n) gone))
                 (tracked pg))
         (elementStyle pg) (nextNode pg).

(** [removeDecoration(rule)].  The query text is read as the selector of
    [isDecorationOf] only for a rule with a plain query; for any other
    rule the host raises a SyntaxError or selects by another reading of
    the text, which the model does not follow: no page is given. *)
Definition removeDecoration (pg : page) (r : rule) : option page :=
  if plainQuery r then Some (removeSelected pg r) else None.

(** [JSON.stringify(oldRule.styles) !== JSON.stringify(rule.styles)] *)
Definition stylesChanged (oldRule newRule : rule) : bool :=
  negb (streq (stringifyJSON (ruleStyles oldRule))
              (stringifyJSON (ruleStyles newRule))).

Definition toRemove (oldRules newRules : RuleTable) : list rule :=
  map snd (filter (fun p => negb (has (fst p) newRules)) oldRules).

Definition toAdd (oldRules newRules : RuleTable) : list rule :=
  map snd (filter (fun p => negb (has (fst p) oldRules)) newRules).

Definition toUpdate (oldRules newRules : RuleTable) : list rule :=
  map snd
    (filter (fun p => match get (fst p) oldRules with
                      | Some oldRule => stylesChanged oldRule (snd p)
                      | None => false
                      end) newRules).

(** [reconcileDecorations(oldRules)] with [this.decorationRules] being
    [newRules]. *)
Definition reconcileDecorations (oldRules newRules : RuleTable) (pg : page)
  : option page :=
  match forEach removeDecoration (toRemove oldRules newRules) pg with
  | None => None
  | Some removed =>
    match forEach (fun p r => match removeDecoration p r with
                              | Some p' => Some (applyDecoration p' r)
                              | None => None
                              end)
                  (toUpdate oldRules newRules) removed with
    | None => None
    | Some updated =>
      Some (fold_left applyDecoration (toAdd oldRules newRules) updated)
    end
  end.

Record engine := mkEngine {
  lastProcessedCSS : jsstring;
  decorationRules : RuleTable;
  enginePage : page
}.

(** The rule table and the text that the loop of [processCSS] builds. *)
Definition scannedRules (cssText : jsstring) : RuleTable :=
  fold_left (fun t m => set (ruleId (ruleOfMatch m)) (ruleOfMatch m) t)
            (scanDecorations 0 cssText) [].

Definition cleanedCSS (cssText : jsstring) : jsstring :=
  fold_left (fun css m => replaceFirst (fullMatch m) [] css)
            (scanDecorations 0 cssText) cssText.

(** [processCSS(cssText)]: the text returned and the state left, when
    reconciliation comes to its end. *)
Definition processCSS (en : engine) (cssText : jsstring)
  : option (jsstring * engine) :=
  if streq cssText (lastProcessedCSS en) then Some (cssText, en)
  else
    let oldRules := decorationRules en in
    let newRules := scannedRules cssText in
    let cleanCSS := cleanedCSS cssText in
    match reconcileDecorations oldRules newRules (enginePage en) with
    | Some pg => Some (cleanCSS, mkEngine cssText newRules pg)
    | None => None
    end.

(** The body of the loop of [processNewNodes], once the animation frame
    runs: a node that the rule selects and that does not record it gets a
    new decoration, as in [applyDecoration]; nothing is restyled. *)
Definition processNewNode (r : rule) (pg : page) (node : nat) : page :=
  if matchesSelector (ruleSelector r) node
     && negb (isApplied pg node (ruleId r))
  then
    let d := createDecorationElement r node (nextNode pg) in
    let overflowMode :=
      getOr (u "decoration-overflow-mode") (ruleStyles r) (u "contain") in
    let style1 :=
      if streq overflowMode (u "allow-overflow")
      then setElementStyle node (u "overflow") (u "visible")
                           (elementStyle pg)
      else
        setElementStyle node (u "overflow") (u "hidden")
          (if Generator.optIs (get (u "position") (ruleStyles r))
                              (u "absolute")
              && streq (computedPosition (elementStyle pg) node)
                       (u "static")
           then setElementStyle node (u "position") (u "relative")
                                (elementStyle pg)
           else elementStyle pg) in
    let ids := match lookupNat node (applied pg) with
               | Some ids => ids
               | None => []
               end in
    mkPage (decorations pg ++ [d])
           (storeNat node (setAdd (ruleId r) ids) (applied pg))
           (tracked pg ++ [nextNode pg])
           style1 (S (nextNode pg))
  else pg.

Definition processNewNodes (en : engine) (nodes : list nat) : engine :=
  mkEngine (lastProcessedCSS en) (decorationRules en)
    (fold_left (fun pg r => fold_left (processNewNode r) nodes pg)
               (map snd (decorationRules en)) (enginePage en)).

(** [applyAllDecorations], once the animation frame runs. *)
Definition applyAllDecorations (en : engine) : engine :=
  mkEngine (lastProcessedCSS en) (decorationRules en)
    (fold_left applyDecoration (map snd (decorationRules en))
               (enginePage en)).

End Page.

(** [clearAllDecorations]: the tracked nodes that are attached are removed,
    the tracking set, the membership records and the rule table are
    emptied.  [lastProcessedCSS] is not touched. *)
Definition clearAllDecorations (en : engine) : engine :=
  let pg := enginePage en in
  mkEngine (lastProcessedCSS en) []
    (mkPage (filter (fun d => negb (existsb (Nat.eqb (nodeId d))
                                            (tracked pg)))
                    (decorations pg))
            [] [] (elementStyle pg) (nextNode pg)).

(** [hasDecorationSyntax]: whether the decoration pattern matches
    somewhere in the text. *)
Fixpoint hasDecorationSyntax (cssText : jsstring) : bool :=
  match cssText with
  | [] => false
  | c :: r =>
    ((c =? 64)%N && match matchDecoration r with
                    | Some _ => true
                    | None => false
                    end)
    || hasDecorationSyntax r
  end.

End Preprocessor.

(* ===================================================================== *)
(** ** Notions used to state the properties *)
(* ===================================================================== *)

Module Props.

Import FormatParser.

(** The three marker substrings of the parser's skip test. *)
Definition hasMarker (line : jsstring) : bool :=
  includes (u "undefined") line || includes (u "✨") line
  || includes (u "视觉样式配置") line.

(** No key occurs twice: the shape of every object and [Map]. *)
Fixpoint uniqueKeys {V} (o : table V) : bool :=
  match o with
  | [] => true
  | (k, _) :: r => negb (has k r) && uniqueKeys r
  end.

(** The transform that a squeeze-mode container must carry for rotation
    [rotate]. *)
Definition squeezeTransform (rotate : jsstring) : jsstring :=
  if streq rotate (u "0deg") then u "none"
  else u "rotate(" ++ rotate ++ u ")".

(** The transform outside overlay mode: set in squeeze mode, a bare
    rotation otherwise, absent when there is nothing to rotate. *)
Definition plainTransform (layoutMode : option jsstring) (rotate : jsstring)
  : option jsstring :=
  if Generator.optIs layoutMode (u "squeeze")
  then Some (squeezeTransform rotate)
  else if streq rotate (u "0deg") then None
  else Some (u "rotate(" ++ rotate ++ u ")").

(** The transform of an information element outside overlay mode: a bare
    rotation, absent when there is nothing to rotate. *)
Definition elementTransform (rotate : jsstring) : option jsstring :=
  if streq rotate (u "0deg") then None
  else Some (u "rotate(" ++ rotate ++ u ")").

(** The selectors under which one round of the loop of
    [preprocessAvatarLayout], respectively [preprocessInfoLayout], can
    store a rule when it handles the rule of [selector]. *)
Definition avatarTargets (selector : jsstring) : list jsstring :=
  [selector; selector ++ u " img";
   Generator.getMessageContainerSelector selector;
   Generator.getMessageContainerSelector selector
     ++ u " > .mesAvatarWrapper"].

Definition infoTargets (selector : jsstring) : list jsstring :=
  [selector; Generator.getMessageContainerSelector selector].

(** None of the rules handled later stores anything under [selector]. *)
Definition untouchedBy (targets : jsstring -> list jsstring)
  (selector : jsstring) (later : RuleMap) : bool :=
  forallb (fun rule : jsstring * PropertyMap =>
             negb (Generator.memStr selector (targets (fst rule)))) later.

(** The transform in overlay mode: the centring transform of the position,
    if any, with the rotation appended to it. *)
Definition overlayTransform (base : option jsstring) (rotate : jsstring)
  : option jsstring :=
  if streq rotate (u "0deg") then base
  else match base with
       | Some t => Some (t ++ u " rotate(" ++ rotate ++ u ")")
       | None => Some (u "rotate(" ++ rotate ++ u ")")
       end.

Definition marginLonghands : list jsstring :=
  [u "margin-top"; u "margin-right"; u "margin-bottom"; u "margin-left"].

(** All four margin sides are present with the value "4px". *)
Definition allMargins4px (props : PropertyMap) : bool :=
  forallb (fun k => Generator.optIs (get k props) (u "4px")) marginLonghands.

(** Exactly one declaration [margin: 4px] and no margin longhand. *)
Definition mergedMarginOnly (decls : list (jsstring * jsstring)) : Prop :=
  filter (fun d => streq (fst d) (u "margin")) decls = [(u "margin", u "4px")]
  /\ forall k, In k marginLonghands -> ~ In k (map fst decls).

(** The declarations that [generate] writes in the block of [selector]:
    [generateRule] is called on each rule of the preprocessed map. *)
Definition generatedDeclarations (localeCompare : jsstring -> jsstring -> Z)
  (styleRules : RuleMap) (cfg : Generator.config) (selector : jsstring)
  : list (jsstring * jsstring) :=
  match get selector
          (Generator.preprocessInfoLayout
             (Generator.preprocessAvatarLayout styleRules)) with
  | Some properties => Generator.ruleDeclarations localeCompare properties cfg
  | None => []
  end.

(** The first localized alias, in the enumeration order of the forward
    table, that is mapped onto [token]. *)
Definition firstAlias (token : jsstring) (forward : table jsstring)
  : option jsstring :=
  match find (fun e => streq (snd e) token) forward with
  | Some e => Some (fst e)
  | None => None
  end.

(** The pairs of an object literal that register an alias: a pair written
    for a key that a later pair of the literal overwrites is not in force
    in the object and registers nothing. *)
Definition registered (entries : list (jsstring * jsstring))
  : list (jsstring * jsstring) :=
  let forward := literal entries in
  filter (fun e => match get (fst e) forward with
                   | Some v => streq v (snd e)
                   | None => false
                   end) entries.

(** The alias of the first of [pairs] that is for [token]. *)
Definition firstFor (token : jsstring) (pairs : list (jsstring * jsstring))
  : option jsstring :=
  match find (fun e => streq (snd e) token) pairs with
  | Some e => Some (fst e)
  | None => None
  end.

(** The alias of the first pair, in the order in which the literal is
    written, that registers an alias for [token]. *)
Definition firstRegistered (token : jsstring)
  (entries : list (jsstring * jsstring)) : option jsstring :=
  firstFor token (registered entries).

Definition sameAnswer (a b : option jsstring) : bool :=
  match a, b with
  | Some x, Some y => streq x y
  | None, None => true
  | _, _ => false
  end.

(** The aliases mapped onto [token], in enumeration order. *)
Definition aliasesOf (token : jsstring) (forward : table jsstring)
  : list jsstring :=
  map fst (filter (fun e => streq (snd e) token) forward).

(** The cache after the calls [parseCSS(x, f)] for the inputs of
    [history], oldest first, starting from the empty cache of the
    constructor. *)
Definition cacheAfter {R} (f : jsstring -> R) (history : list jsstring)
  : table R :=
  fold_left (fun cache x => snd (parseCSS cache x f)) history [].

(** Two inputs have the same signature. *)
Definition sameSignature (a b : jsstring) : Prop :=
  slice0 100 a = slice0 100 b /\ length a = length b.

(** Properties without a value table of their own in [parseValue] and
    [formatValue]: number-and-unit values take the plain path. *)
Definition plainProperty (property : jsstring) : bool :=
  truthy property
  && negb (endsWith (u "-enabled") property)
  && negb (existsb (streq property)
             [u "avatar-layout-mode"; u "info-layout-mode";
              u "info-direction"; u "info-position"; u "avatar-position"]).

(** [formatValue(parseValue(value, P), P)] *)
Definition unitRoundTrip (value property : jsstring) : jsstring :=
  formatValue (parseValue value property) property.

(** The declaration that the property branch of the parser reads from a
    trimmed line. *)
Definition declarationOf (line : jsstring) : option (jsstring * jsstring) :=
  match indexOf (u ":") line with
  | None => None
  | Some colonIndex =>
    let propName := trim (substringTo colonIndex line) in
    let propValue := trim (substringFrom (colonIndex + 1) line) in
    if negb (truthy propName) || negb (truthy propValue) then None
    else
      let cssProp := getProperty propName in
      if truthy cssProp then Some (cssProp, parseValue propValue cssProp)
      else None
  end.

Definition noNewline (s : jsstring) : bool :=
  negb (existsb (fun c => (c =? 10)%N) s).

(** The trimmed line passes the decoration test and the skip test. *)
Definition plainLine (line : jsstring) : bool :=
  negb (startsWith (u "@") line) && negb (isSkippedLine line).

(** The header written for [selector] is one line that the parser takes
    as the opening of a block for that very selector. *)
Definition headerReadBack (selector : jsstring) : bool :=
  let line := trim (headerLine selector) in
  noNewline (headerLine selector) && plainLine line
  && endsWith (u "{") line
  && streq (getSelector (trim (replaceFirst (u "{") [] line))) selector
  && truthy selector.

(** The line written for a declaration is one line that the parser takes
    as that very declaration. *)
Definition declarationReadBack (decl : jsstring * jsstring) : bool :=
  let line := trim (declarationLine decl) in
  noNewline (declarationLine decl) && plainLine line
  && negb (endsWith (u "{") line) && negb (streq line (u "}"))
  && includes (u ":") line
  && match declarationOf line with
     | Some d => streq (fst d) (fst decl) && streq (snd d) (snd decl)
     | None => false
     end.

Definition ruleReadBack (rule : jsstring * PropertyMap) : bool :=
  headerReadBack (fst rule) && Generator.nonEmpty (snd rule)
  && uniqueKeys (snd rule) && forallb declarationReadBack (snd rule).

(** Every line that [generateChineseFormat] writes for the RuleMap is, on
    its own, read back by the parser as what it was written from. *)
Definition roundTripSafe (rm : RuleMap) : bool :=
  uniqueKeys rm && forallb ruleReadBack rm.

(** The text of [generateChineseFormat] before the final trim, as a list
    of lines. *)
Definition unlines (ls : list jsstring) : jsstring :=
  concat (map (fun l => l ++ nl) ls).

Definition blockLines (rule : jsstring * PropertyMap) : list jsstring :=
  headerLine (fst rule) :: map declarationLine (snd rule) ++ [u "}"].

Definition categoryLines (cr : category * RuleMap) : list jsstring :=
  match snd cr with
  | [] => []
  | rules =>
    (u "# " ++ getCategoryTitle (fst cr))
      :: concat (map blockLines rules) ++ [[]]
  end.

Definition documentLines (rm : RuleMap) : list jsstring :=
  concat (map categoryLines (categorizeStyles rm)).

(** The rules in the order in which the text lists them. *)
Definition rulesInTextOrder (rm : RuleMap) : RuleMap :=
  concat (map (fun c => rulesOf c rm) categoryOrder).

(** *** Notions used in the proofs *)

(** Every selector of the table maps to a non-empty PropertyMap. *)
Definition allNonEmpty (rules : RuleMap) : Prop :=
  forall sel props, In (sel, props) rules -> props <> [].

(** Every value stored in the table is a non-empty string. *)
Definition valuesTruthy (o : table jsstring) : Prop :=
  forall k v, get k o = Some v -> truthy v = true.

(** The state of a PropertyMap once the margins are merged. *)
Definition marginMerged (m : PropertyMap) : Prop :=
  uniqueKeys m = true
  /\ get (u "margin") m = Some (u "4px")
  /\ forall k, In k marginLonghands -> get k m = None.

(** A PropertyMap with the four margins at 4px. *)
Definition fourMargins : PropertyMap :=
  [(u "margin-top", u "4px"); (u "margin-right", u "4px");
   (u "margin-bottom", u "4px"); (u "margin-left", u "4px")].

(** The two colon glyphs. *)
Definition asciiColon : jschar := 58%N.
Definition fullWidthColon : jschar := 65306%N.

(** Every entry of the cache is the result of [f] on an input of the
    history with that key. *)
Definition entriesFrom {R : Type} (f : jsstring -> R)
  (history : list jsstring) (cache : table R) : Prop :=
  forall k r, In (k, r) cache ->
              exists y, In y history /\ cacheKey y = k /\ r = f y.

(** The code units a decimal integer can start with. *)
Definition lead (c : jschar) : bool := isDigit c || (c =? 45)%N.

(** Starting with such a code unit. *)
Definition headLead (s : jsstring) : bool :=
  match s with c :: _ => lead c | [] => false end.

(** Empty, or starting with a code unit no integer starts with. *)
Definition otherHead (s : jsstring) : bool :=
  match s with c :: _ => negb (lead c) | [] => true end.

(** Empty, or not starting with a digit. *)
Definition nonDigitHead (s : jsstring) : bool :=
  match s with c :: _ => negb (isDigit c) | [] => true end.

(** Not empty and not ending with a quote. *)
Definition lastOk (s : jsstring) : bool :=
  match rev s with c :: _ => negb (isQuote c) | [] => false end.

(** Not starting with a dot. *)
Definition notDot (s : jsstring) : bool :=
  match s with c :: _ => negb (c =? 46)%N | [] => true end.

(** What [parseUnitValue] does to the bare unit. *)
Definition translatedUnit (cn : jsstring) : jsstring :=
  match find (fun e => endsWith (fst e) cn) unitMap with
  | Some e => replaceFirst (fst e) [] cn ++ snd e
  | None => cn
  end.

(** A unit that passes the test of [parseValue], is translated, and is
    translated back by [formatValue]. *)
Definition gateOk (cn : jsstring) : bool :=
  existsb (streq cn) gateUnits
  && nonDigitHead (translatedUnit cn) && notDot (translatedUnit cn)
  && existsb (streq (translatedUnit cn)) cssUnits
  && streq (getOr (translatedUnit cn) cnUnitMap (translatedUnit cn)) cn.

(** A unit that neither [parseValue] nor [formatValue] recognises behind
    a number. *)
Definition passOk (cn : jsstring) : bool :=
  negb (existsb (streq cn) gateUnits) && negb (existsb (streq cn) cssUnits).

(** What is asked of every localized unit. *)
Definition unitOk (cn : jsstring) : bool :=
  lastOk cn && nonDigitHead cn && notDot cn
  && negb (includes (u "gradient") cn)
  && negb (includes (u "drop-shadow") cn).

(** [styles.set(selector, properties)] on a pair. *)
Definition setRule (s : RuleMap) (rule : jsstring * PropertyMap) : RuleMap :=
  set (fst rule) (snd rule) s.

(** A line that can stand in the text: no line feed in it, and its
    trimmed form does not start a decoration. *)
Definition textLine (l : jsstring) : bool :=
  noNewline l && negb (startsWith (u "@") (trim l)).

(** *** Decoration reconciliation *)

(** Every entry of the rule table sits under the id of its rule. *)
Definition keyedById (rules : Preprocessor.RuleTable) : bool :=
  forallb (fun p => streq (fst p) (Preprocessor.ruleId (snd p))) rules.

(** Whether the membership record [ap] of element [e] holds [id]. *)
Definition appliedIn (ap : list (nat * list jsstring)) (e : nat)
  (id : jsstring) : bool :=
  match Preprocessor.lookupNat e ap with
  | Some ids => existsb (streq id) ids
  | None => false
  end.

(** Whether a synthetic node sits under [e] with class [cls] and rule id
    [id]. *)
Definition taggedAt (cls id : jsstring) (e : nat)
  (d : Preprocessor.decoration) : bool :=
  Nat.eqb (Preprocessor.nodeParent d) e
  && streq (Preprocessor.nodeClass d) cls
  && streq (Preprocessor.decorationId d) id.

(** The identities of the synthetic nodes under [e] tagged with [cls] and
    [id]. *)
Definition nodeIdsAt (cls id : jsstring) (e : nat) (pg : Preprocessor.page)
  : list nat :=
  map Preprocessor.nodeId
      (filter (taggedAt cls id e) (Preprocessor.decorations pg)).

(** The calls that reconciliation makes, one after the other. *)
Inductive action :=
| Remove (r : Preprocessor.rule)
| Apply (r : Preprocessor.rule).

Definition ruleOf (a : action) : Preprocessor.rule :=
  match a with Remove r => r | Apply r => r end.

Definition script (oldRules newRules : Preprocessor.RuleTable)
  : list action :=
  map Remove (Preprocessor.toRemove oldRules newRules)
  ++ flat_map (fun r => [Remove r; Apply r])
              (Preprocessor.toUpdate oldRules newRules)
  ++ map Apply (Preprocessor.toAdd oldRules newRules).

Section Scripts.

Variable elements : list nat.
Variable matchesSelector : jsstring -> nat -> bool.
Variable computedPosition
  : list (nat * PropertyMap) -> nat -> jsstring.

(** One call of reconciliation, and a sequence of them. *)
Definition act (pg : Preprocessor.page) (a : action) : Preprocessor.page :=
  match a with
  | Remove r => Preprocessor.removeSelected elements matchesSelector pg r
  | Apply r =>
    Preprocessor.applyDecoration elements matchesSelector computedPosition
                                 pg r
  end.

Definition run (s : list action) (pg : Preprocessor.page)
  : Preprocessor.page :=
  fold_left act s pg.

(** The page that the calls of reconciliation leave. *)
Definition reconciled (oldRules newRules : Preprocessor.RuleTable)
  (pg : Preprocessor.page) : Preprocessor.page :=
  run (script oldRules newRules) pg.

(** Every rule that reconciliation removes, alone or to replace it, has a
    plain query. *)
Definition plainRemovals (oldRules newRules : Preprocessor.RuleTable)
  : bool :=
  forallb Preprocessor.plainQuery
          (Preprocessor.toRemove oldRules newRules
           ++ Preprocessor.toUpdate oldRules newRules).

End Scripts.

(** *** Reading back [JSON.stringify] *)

Definition hexDigitValue (h : jschar) : N :=
  if (h <? 58)%N then (h - 48)%N else (h - 87)%N.

Definition hexValue (hs : list jschar) : N :=
  fold_left (fun acc h => (acc * 16 + hexDigitValue h)%N) hs 0%N.

Definition unescapeUnit (x : jschar) : jschar :=
  if (x =? 98)%N then 8%N
  else if (x =? 116)%N then 9%N
  else if (x =? 110)%N then 10%N
  else if (x =? 102)%N then 12%N
  else if (x =? 114)%N then 13%N
  else x.

(** Reading a JSON string literal after its opening quote: the string
    denoted and the text after the closing quote. *)
Fixpoint readString (skip : nat) (t : jsstring) : jsstring * jsstring :=
  match t with
  | [] => ([], [])
  | c :: r =>
    match skip with
    | S k => readString k r
    | O =>
      if (c =? 34)%N then ([], r)
      else if (c =? 92)%N then
        match r with
        | [] => ([], [])
        | x :: r' =>
          if (x =? 117)%N
          then let (s, rest) := readString 5 r in
               (hexValue (firstn 4 r') :: s, rest)
          else let (s, rest) := readString 1 r in
               (unescapeUnit x :: s, rest)
        end
      else let (s, rest) := readString 0 r in (c :: s, rest)
    end
  end.

(** *** Notions for the generator *)

(** The place of a property in [propertyOrder]; the length of the list for
    a property that is not in it. *)
Definition rankOf (prop : jsstring) : nat :=
  match arrayIndexOf prop Generator.propertyOrder with
  | Some i => i
  | None => length Generator.propertyOrder
  end.

Fixpoint nondecreasing (l : list nat) : bool :=
  match l with
  | a :: (b :: _) as r => Nat.leb a b && nondecreasing r
  | _ => true
  end.

(** The properties that [mergeProperties] reads or writes. *)
Definition mergedNames : list jsstring :=
  Eval vm_compute in
  map u ["margin"; "margin-top"; "margin-right"; "margin-bottom";
         "margin-left"; "padding"; "padding-top"; "padding-right";
         "padding-bottom"; "padding-left"; "border"; "border-width";
         "border-style"; "border-color"]%string.

(** No selector of the RuleMap is one that the layout preprocessing of
    the generator rewrites. *)
Definition noLayoutSelector (rules : RuleMap) : bool :=
  forallb (fun r => negb (Generator.isAvatarSelector (fst r))
                    && negb (Generator.isInfoElementSelector (fst r)))
          rules.

(** Whether [prop] is a longhand that a shorthand present in [properties]
    makes redundant for [removeRedundant]. *)
Definition redundantIn (properties : PropertyMap) (prop : jsstring) : bool :=
  (Generator.optTruthy (get (u "border") properties)
   && existsb (streq prop)
        [u "border-width"; u "border-style"; u "border-color";
         u "border-top"; u "border-right"; u "border-bottom";
         u "border-left"])
  || (Generator.optTruthy (get (u "margin") properties)
      && existsb (streq prop)
           [u "margin-top"; u "margin-right"; u "margin-bottom";
            u "margin-left"])
  || (Generator.optTruthy (get (u "padding") properties)
      && existsb (streq prop)
           [u "padding-top"; u "padding-right"; u "padding-bottom";
            u "padding-left"])
  || (match get (u "background") properties with
      | Some bg => truthy bg && negb (includes (u "gradient") bg)
      | None => false
      end
      && existsb (streq prop)
           [u "background-color"; u "background-image";
            u "background-repeat"; u "background-position";
            u "background-size"]).

(** *** The generated stylesheet read by the CSS parser *)

(** A key that a plain object lists where it was inserted: not an integer
    index (those start with a digit) and not the prototype accessor. *)
Definition plainKey (k : jsstring) : bool :=
  nonDigitHead k && negb (streq k (u "__proto__")).

(** Whether the text holds the name of a member of [Object.prototype]
    somewhere. *)
Definition mentionsInherited (s : jsstring) : bool :=
  existsb (fun n => includes n s) prototypeNames.

(** Nothing that the writer and the reader of the localized format look up
    in a table for this RuleMap is an inherited name, and no property name
    is a key that a plain object files out of order: no selector, property
    name or value holds an inherited name, nor does a line written for
    them, and the property names are plain keys. *)
Definition ownNamesOnly (rm : RuleMap) : bool :=
  forallb (fun rule : jsstring * PropertyMap =>
    negb (mentionsInherited (fst rule))
    && negb (mentionsInherited (headerLine (fst rule)))
    && forallb (fun decl : jsstring * jsstring =>
         plainKey (fst decl)
         && negb (mentionsInherited (fst decl))
         && negb (mentionsInherited (snd decl))
         && negb (mentionsInherited (declarationLine decl)))
       (snd rule)) rm.

(** A selector that the CSS parser can read back: not empty, no blank at
    either end, no opening brace. *)
Definition cssSelectorOk (selector : jsstring) : bool :=
  truthy selector && streq (trim selector) selector
  && forallb (fun c => negb (c =? 123)%N) selector.

(** The text that [generateRule] writes after the colon of a declaration,
    up to the semicolon. *)
Definition writtenValue (cfg : Generator.config) (value : jsstring)
  : jsstring :=
  u " " ++ value ++ (if Generator.useImportant cfg then u " !important"
                     else []).

(** A declaration that the CSS parser can read back: a property name that
    is not empty, has no blank at either end and no colon, semicolon or
    closing brace, and is a plain key; a value that is not empty, has no
    semicolon or closing brace, and that [normalizeValue] gives back from
    what is written. *)
Definition cssDeclarationOk (cfg : Generator.config)
  (decl : jsstring * jsstring) : bool :=
  truthy (fst decl) && streq (trim (fst decl)) (fst decl)
  && forallb (fun c => negb ((c =? 58) || (c =? 59) || (c =? 125))%N)
             (fst decl)
  && truthy (snd decl)
  && forallb (fun c => negb ((c =? 59) || (c =? 125))%N) (snd decl)
  && streq (CssParser.normalizeValue (trim (writtenValue cfg (snd decl))))
           (snd decl)
  && plainKey (fst decl).

Definition cssRuleOk (cfg : Generator.config)
  (rule : jsstring * PropertyMap) : bool :=
  cssSelectorOk (fst rule) && Generator.nonEmpty (snd rule)
  && uniqueKeys (snd rule) && forallb (cssDeclarationOk cfg) (snd rule).

(** The rules in the order in which [generate] writes them. *)
Definition writtenOrder (cfg : Generator.config) (rules : RuleMap)
  : RuleMap :=
  if Generator.groupBySelector cfg
  then concat (map snd (Generator.categorizeRules rules))
  else rules.

(** *** Colours *)

(** A hexadecimal digit in lower case. *)
Definition lowerHexDigit (c : jschar) : jschar :=
  if ((65 <=? c) && (c <=? 70))%N then (c + 32)%N else c.

(** The 22 code units that are hexadecimal digits. *)
Definition hexDigitUnits : jsstring :=
  Eval vm_compute in u "0123456789abcdefABCDEF".

(** The channel written by two hexadecimal digits. *)
Definition channelOf (high low : jschar) : N :=
  (16 * FormatParser.hexDigitValue high + FormatParser.hexDigitValue low)%N.

(** *** What the CSS parser returns *)

(** Every blank is a single space: a code unit that [\s] matches is
    U+0020 and no blank follows it. *)
Fixpoint singleSpaced (v : jsstring) : bool :=
  match v with
  | [] => true
  | c :: r =>
    (negb (isWhiteSpace c)
     || ((c =? 32)%N
         && match r with d :: _ => negb (isWhiteSpace d) | [] => true end))
    && singleSpaced r
  end.

(** A value as [normalizeValue] leaves it inside a declaration: single
    spaces, no blank at either end, no single quote, no semicolon and no
    closing brace. *)
Definition parsedValueOk (v : jsstring) : bool :=
  singleSpaced v && streq (trim v) v
  && forallb (fun c => negb ((c =? 39) || (c =? 59) || (c =? 125))%N) v.

(** A property name as [parseDeclarations] stores it. *)
Definition parsedNameOk (p : jsstring) : bool :=
  truthy p && streq (trim p) p
  && forallb (fun c => negb ((c =? 58) || (c =? 59) || (c =? 125))%N) p.

(** A rule as [parseCSSText] stores it. *)
Definition parsedRuleOk (rule : jsstring * PropertyMap) : bool :=
  cssSelectorOk (fst rule) && Generator.nonEmpty (snd rule)
  && uniqueKeys (snd rule)
  && forallb (fun d => parsedNameOk (fst d) && parsedValueOk (snd d))
             (snd rule).

End Props.

(* ===================================================================== *)
(** ** Basic facts about strings and tables *)
(* ===================================================================== *)

Import FormatParser Props.

Arguments isDigit : simpl never.
Arguments isWhiteSpace : simpl never.
Arguments isLineTerminator : simpl never.
Arguments isQuote : simpl never.
Arguments u : simpl never.

Lemma streq_refl (a : jsstring) : streq a a = true.
Proof.
  induction a as [|x a IH]; simpl; [reflexivity|].
  now rewrite N.eqb_refl, IH.
Qed.

Lemma streq_eq (a b : jsstring) : streq a b = true <-> a = b.
Proof.
  split.
  - revert b; induction a as [|x a IH]; intros [|y b] H;
      simpl in H; try discriminate; [reflexivity|].
    apply andb_true_iff in H as [Hxy Hab].
    apply N.eqb_eq in Hxy. apply IH in Hab. now subst.
  - intros ->. apply streq_refl.
Qed.

Lemma streq_neq (a b : jsstring) : streq a b = false <-> a <> b.
Proof.
  split.
  - intros H E. apply streq_eq in E. congruence.
  - intros H. destruct (streq a b) eqn:E; [|reflexivity].
    apply streq_eq in E. contradiction.
Qed.

Lemma streq_sym (a b : jsstring) : streq a b = streq b a.
Proof.
  destruct (streq a b) eqn:E.
  - apply streq_eq in E. subst. symmetry. apply streq_refl.
  - symmetry. apply streq_neq. apply streq_neq in E. congruence.
Qed.

(* --------------------------------------------------------------------- *)
(** *** Tables *)

Section TableFacts.

Context {V : Type}.
Implicit Types (o t s : table V) (k : jsstring) (v : V).

Lemma get_set_same k v o : get k (set k v o) = Some v.
Proof.
  induction o as [|[k0 v0] o IH]; simpl.
  - now rewrite streq_refl.
  - destruct (streq k k0) eqn:E; simpl.
    + now rewrite streq_refl.
    + now rewrite E.
Qed.

Lemma get_set_other k k' v o :
  streq k k' = false -> get k (set k' v o) = get k o.
Proof.
  intros H. induction o as [|[k0 v0] o IH]; simpl.
  - now rewrite H.
  - destruct (streq k' k0) eqn:E; simpl.
    + apply streq_eq in E. subst k0. now rewrite H.
    + destruct (streq k k0); [reflexivity | exact IH].
Qed.

Lemma get_set k k' v o :
  get k (set k' v o) = if streq k k' then Some v else get k o.
Proof.
  destruct (streq k k') eqn:E.
  - apply streq_eq in E. subst. apply get_set_same.
  - now apply get_set_other.
Qed.

Lemma get_delete k k' o :
  get k (delete k' o) = if streq k k' then None else get k o.
Proof.
  induction o as [|[k0 v0] o IH]; simpl.
  - now destruct (streq k k').
  - destruct (streq k' k0) eqn:E; simpl.
    + rewrite IH. apply streq_eq in E. subst k0.
      destruct (streq k k'); reflexivity.
    + destruct (streq k k0) eqn:E0.
      * apply streq_eq in E0. subst k0.
        rewrite streq_sym, E. reflexivity.
      * exact IH.
Qed.

Lemma has_set k k' v o : has k (set k' v o) = streq k k' || has k o.
Proof.
  unfold has. rewrite get_set. destruct (streq k k'); reflexivity.
Qed.

Lemma has_delete k k' o :
  has k (delete k' o) = negb (streq k k') && has k o.
Proof.
  unfold has. rewrite get_delete. destruct (streq k k'); reflexivity.
Qed.

Lemma has_in_keys k o : has k o = true <-> In k (keys o).
Proof.
  unfold has. induction o as [|[k0 v0] o IH]; simpl.
  - split; [discriminate | intros []].
  - destruct (streq k k0) eqn:E.
    + apply streq_eq in E. subst. split; auto.
    + rewrite IH. split; [auto|]. intros [H|H]; [|exact H].
      subst. rewrite streq_refl in E. discriminate.
Qed.

Lemma get_none_not_in k o : get k o = None <-> ~ In k (keys o).
Proof.
  rewrite <- has_in_keys. unfold has. destruct (get k o); split.
  - discriminate.
  - intros H. contradiction H. reflexivity.
  - intros _. discriminate.
  - reflexivity.
Qed.

Lemma get_in k v o : get k o = Some v -> In (k, v) o.
Proof.
  induction o as [|[k0 v0] o IH]; simpl; [discriminate|].
  destruct (streq k k0) eqn:E.
  - apply streq_eq in E. intros [= <-]. subst. now left.
  - intros H. right. exact (IH H).
Qed.

Lemma uniqueKeys_NoDup o : uniqueKeys o = true <-> NoDup (keys o).
Proof.
  induction o as [|[k0 v0] o IH]; simpl.
  - split; [constructor | reflexivity].
  - rewrite andb_true_iff, negb_true_iff, IH. split.
    + intros [H1 H2]. constructor; [|exact H2].
      rewrite <- has_in_keys. rewrite H1. discriminate.
    + intros H. inversion H as [|? ? Hn Hd]; subst. split; [|exact Hd].
      destruct (has k0 o) eqn:E; [|reflexivity].
      apply has_in_keys in E. contradiction.
Qed.

Lemma in_get_unique k v o :
  uniqueKeys o = true -> In (k, v) o -> get k o = Some v.
Proof.
  induction o as [|[k0 v0] o IH]; simpl; [intros _ []|].
  rewrite andb_true_iff, negb_true_iff. intros [Hn Hu] [E|Hin].
  - inversion E; subst. now rewrite streq_refl.
  - destruct (streq k k0) eqn:E.
    + apply streq_eq in E. subst k0.
      assert (has k o = true) as Hh
        by (apply has_in_keys; apply (in_map fst) in Hin; exact Hin).
      congruence.
    + now apply IH.
Qed.

Lemma keys_set_in k v o : has k o = true -> keys (set k v o) = keys o.
Proof.
  unfold keys. induction o as [|[k0 v0] o IH]; simpl; [discriminate|].
  unfold has in *. simpl. destruct (streq k k0) eqn:E; simpl.
  - apply streq_eq in E. now subst.
  - intros H. now rewrite IH.
Qed.

Lemma keys_set_notin k v o :
  has k o = false -> keys (set k v o) = keys o ++ [k].
Proof.
  unfold keys. induction o as [|[k0 v0] o IH]; simpl; [reflexivity|].
  unfold has in *. simpl. destruct (streq k k0) eqn:E; simpl.
  - discriminate.
  - intros H. now rewrite IH.
Qed.

Lemma set_notin k v o : has k o = false -> set k v o = o ++ [(k, v)].
Proof.
  induction o as [|[k0 v0] o IH]; simpl; [reflexivity|].
  unfold has in *. simpl. destruct (streq k k0) eqn:E; simpl.
  - discriminate.
  - intros H. now rewrite IH.
Qed.

Lemma uniqueKeys_set k v o :
  uniqueKeys o = true -> uniqueKeys (set k v o) = true.
Proof.
  intros H. apply uniqueKeys_NoDup. apply uniqueKeys_NoDup in H.
  destruct (has k o) eqn:E.
  - now rewrite keys_set_in.
  - rewrite keys_set_notin by exact E.
    apply NoDup_app; [exact H | repeat constructor; intros [] | ].
    intros x Hx [<-|[]]. apply has_in_keys in Hx. congruence.
Qed.

Lemma keys_delete k o :
  keys (delete k o) = filter (fun x => negb (streq k x)) (keys o).
Proof.
  unfold keys. induction o as [|[k0 v0] o IH]; simpl; [reflexivity|].
  destruct (streq k k0); simpl; now rewrite IH.
Qed.

Lemma uniqueKeys_delete k o :
  uniqueKeys o = true -> uniqueKeys (delete k o) = true.
Proof.
  intros H. apply uniqueKeys_NoDup. apply uniqueKeys_NoDup in H.
  rewrite keys_delete. now apply NoDup_filter.
Qed.

Lemma uniqueKeys_assign t s :
  uniqueKeys t = true -> uniqueKeys (assign t s) = true.
Proof.
  unfold assign. revert t. induction s as [|[k v] s IH]; intros t H; simpl;
    [exact H|].
  apply IH. now apply uniqueKeys_set.
Qed.

Lemma get_app k o1 o2 :
  get k (o1 ++ o2) = match get k o1 with
                     | Some v => Some v
                     | None => get k o2
                     end.
Proof.
  induction o1 as [|[k0 v0] o1 IH]; simpl; [reflexivity|].
  destruct (streq k k0); [reflexivity | exact IH].
Qed.

(** [Object.assign]: the last binding of the source wins. *)
Lemma get_assign_last k t s :
  get k (assign t s) = match get k (rev s) with
                       | Some v => Some v
                       | None => get k t
                       end.
Proof.
  unfold assign. revert t. induction s as [|[k0 v0] s IH]; intros t; simpl;
    [reflexivity|].
  rewrite IH, get_app, get_set. simpl.
  destruct (get k (rev s)); [reflexivity|].
  destruct (streq k k0); reflexivity.
Qed.

Lemma get_rev_unique k o :
  uniqueKeys o = true -> get k (rev o) = get k o.
Proof.
  induction o as [|[k0 v0] o IH]; simpl; [reflexivity|].
  rewrite andb_true_iff, negb_true_iff. intros [Hn Hu].
  rewrite get_app, (IH Hu). simpl.
  destruct (streq k k0) eqn:E.
  - apply streq_eq in E. subst k0. unfold has in Hn.
    destruct (get k o); [discriminate | reflexivity].
  - destruct (get k o); reflexivity.
Qed.

Lemma get_assign k t s :
  uniqueKeys s = true ->
  get k (assign t s) = match get k s with
                       | Some v => Some v
                       | None => get k t
                       end.
Proof.
  intros H. now rewrite get_assign_last, get_rev_unique.
Qed.

End TableFacts.

(* ===================================================================== *)
(** ** Marked lines are dropped by the localized-format parser *)
(* ===================================================================== *)

Lemma hasMarker_skipped (line : jsstring) :
  hasMarker line = true -> isSkippedLine line = true.
Proof.
  unfold hasMarker, isSkippedLine. intros H.
  apply orb_true_iff in H as [H|H]; [apply orb_true_iff in H as [H|H]|];
    rewrite H; repeat rewrite orb_true_r; reflexivity.
Qed.

Lemma skipped_line_step (lines : list jsstring) (st : pstate)
  (rawLine : jsstring) :
  isSkippedLine (trim rawLine) = true -> parseLine lines st rawLine = st.
Proof.
  intros H. unfold parseLine. cbv zeta. rewrite H.
  destruct (startsWith (u "@") (trim rawLine) && blockEndFound lines (trim rawLine));
    reflexivity.
Qed.

(** C10.  A line whose trimmed text contains "undefined", the sparkle sign
    or "视觉样式配置" leaves the parser's loop variables (the RuleMap, the
    current element and the collected declarations) untouched, wherever it
    stands and whatever else it contains; hence parsing the same array of
    lines with that line left out of the loop ends in the same state. *)
Theorem marker_line_contributes_nothing
  (lines : list jsstring) (st : pstate) (rawLine : jsstring) :
  hasMarker (trim rawLine) = true ->
  parseLine lines st rawLine = st
  /\ forall before after st0,
       fold_left (parseLine lines) (before ++ rawLine :: after) st0
       = fold_left (parseLine lines) (before ++ after) st0.
Proof.
  intros H. apply hasMarker_skipped in H.
  split.
  - now apply skipped_line_step.
  - intros before after st0. rewrite !fold_left_app. simpl.
    now rewrite skipped_line_step.
Qed.

(** A declaration line inside a block whose value merely contains
    "undefined": the block stays empty and no rule is produced. *)
Lemma marker_line_contributes_nothing_witness :
  hasMarker (trim (u "  内容: undefined-ish")) = true
  /\ parseLine [] (mkPstate [] (Some (u ".x")) []) (u "  内容: undefined-ish")
     = mkPstate [] (Some (u ".x")) []
  /\ _actualParseChineseFormat
       (u ".x {" ++ nl ++ u "  内容: undefined-ish" ++ nl ++ u "}") = [].
Proof.
  split; [vm_compute; reflexivity|].
  split.
  - apply (marker_line_contributes_nothing []
             (mkPstate [] (Some (u ".x")) []) (u "  内容: undefined-ish")).
    vm_compute; reflexivity.
  - vm_compute; reflexivity.
Defined.

(* ===================================================================== *)
(** ** Empty rules are pruned by both parsers *)
(* ===================================================================== *)

Lemma in_set_inv {V} (k k' : jsstring) (v v' : V) (o : table V) :
  In (k, v) (set k' v' o) -> (k, v) = (k', v') \/ In (k, v) o.
Proof.
  induction o as [|[k0 v0] o IH]; simpl.
  - intros [H|[]]; left; congruence.
  - destruct (streq k' k0); simpl.
    + intros [H|H]; [left; congruence | right; right; exact H].
    + intros [H|H]; [right; left; exact H|].
      destruct (IH H) as [E|E]; [left; exact E | right; right; exact E].
Qed.

Lemma allNonEmpty_set (sel : jsstring) (props : PropertyMap) (rules : RuleMap) :
  props <> [] -> allNonEmpty rules -> allNonEmpty (set sel props rules).
Proof.
  intros Hp Hr s p Hin. apply in_set_inv in Hin as [E|Hin].
  - now inversion E; subst.
  - exact (Hr s p Hin).
Qed.

Lemma addRule_allNonEmpty (rules : RuleMap) (m : jsstring * jsstring) :
  allNonEmpty rules -> allNonEmpty (CssParser.addRule rules m).
Proof.
  intros H. unfold CssParser.addRule.
  destruct (truthy (trim (fst m)) && truthy (trim (snd m))); [|exact H].
  destruct (CssParser.parseDeclarations (trim (snd m))) as [|d ds] eqn:E;
    [exact H|].
  apply allNonEmpty_set; [discriminate | exact H].
Qed.

Lemma fold_addRule_allNonEmpty (ms : list (jsstring * jsstring))
  (rules : RuleMap) :
  allNonEmpty rules -> allNonEmpty (fold_left CssParser.addRule ms rules).
Proof.
  revert rules; induction ms as [|m ms IH]; intros rules H; simpl;
    [exact H|].
  apply IH. now apply addRule_allNonEmpty.
Qed.

Lemma saveCurrent_allNonEmpty (st : pstate) :
  allNonEmpty (styles st) -> allNonEmpty (saveCurrent st).
Proof.
  intros H. unfold saveCurrent.
  destruct (currentElement st) as [e|] eqn:He; [|exact H].
  destruct (canSave st) eqn:Hc; [|exact H].
  apply allNonEmpty_set; [|exact H].
  unfold canSave in Hc. rewrite He in Hc.
  destruct (currentStyles st); [discriminate|discriminate].
Qed.

Lemma parseDeclarationLine_styles (st : pstate) (line : jsstring) :
  styles (parseDeclarationLine st line) = styles st.
Proof.
  unfold parseDeclarationLine.
  destruct (indexOf (u ":") line); [|reflexivity].
  destruct (_ || _); [reflexivity|].
  destruct (truthy _); reflexivity.
Qed.

Lemma parseLine_allNonEmpty (lines : list jsstring) (st : pstate)
  (rawLine : jsstring) :
  allNonEmpty (styles st) ->
  allNonEmpty (styles (parseLine lines st rawLine)).
Proof.
  intros H. unfold parseLine. cbv zeta.
  destruct (_ && blockEndFound _ _); [exact H|].
  destruct (isSkippedLine _); [exact H|].
  destruct (endsWith _ _); [now apply saveCurrent_allNonEmpty|].
  destruct (streq _ _); [now apply saveCurrent_allNonEmpty|].
  destruct (_ && _); [|exact H].
  now rewrite parseDeclarationLine_styles.
Qed.

Lemma fold_parseLine_allNonEmpty (lines ls : list jsstring) (st : pstate) :
  allNonEmpty (styles st) ->
  allNonEmpty (styles (fold_left (parseLine lines) ls st)).
Proof.
  revert st; induction ls as [|l ls IH]; intros st H; simpl; [exact H|].
  apply IH. now apply parseLine_allNonEmpty.
Qed.

(** C9.  In the RuleMap returned by [parseCSSText] and in the one returned
    by the localized-format parser every selector maps to a PropertyMap
    with at least one entry.  A block from which no declaration is
    obtained adds nothing: in [parseCSSText] the match is dropped, in the
    localized-format parser saving a block with no collected declaration
    leaves the RuleMap as it was. *)
Theorem parsed_rule_maps_have_no_empty_rule :
  (forall cssText sel props,
      In (sel, props) (CssParser.parseCSSText cssText) -> props <> [])
  /\ (forall input sel props,
         In (sel, props) (_actualParseChineseFormat input) -> props <> [])
  /\ (forall rules m,
         CssParser.parseDeclarations (trim (snd m)) = [] ->
         CssParser.addRule rules m = rules)
  /\ (forall st, currentStyles st = [] -> saveCurrent st = styles st).
Proof.
  repeat split.
  - intros cssText. unfold CssParser.parseCSSText.
    apply fold_addRule_allNonEmpty. intros s p [].
  - intros input. unfold _actualParseChineseFormat, parseLines.
    apply saveCurrent_allNonEmpty, fold_parseLine_allNonEmpty.
    intros s p [].
  - intros rules m E. unfold CssParser.addRule. rewrite E.
    destruct (_ && _); reflexivity.
  - intros st E. unfold saveCurrent, canSave. rewrite E.
    destruct (currentElement st); reflexivity.
Qed.

(** Two rules are written, the block of the second holds no declaration:
    only the first one is in the result, for either parser. *)
Lemma parsed_rule_maps_have_no_empty_rule_witness :
  CssParser.parseCSSText (u ".a { color: red } .b { nothing }")
  = [(u ".a", [(u "color", u "red")])]
  /\ _actualParseChineseFormat
       (u ".a {" ++ nl ++ u "文字颜色: red" ++ nl ++ u "}" ++ nl
          ++ u ".b {" ++ nl ++ u "nothing" ++ nl ++ u "}")
     = [(u ".a", [(u "color", u "red")])]
  /\ (u "color", u "red") :: nil <> nil.
Proof.
  split; [vm_compute; reflexivity|].
  split; [vm_compute; reflexivity|].
  apply (proj1 parsed_rule_maps_have_no_empty_rule
           (u ".a { color: red } .b { nothing }") (u ".a")).
  vm_compute. left. reflexivity.
Defined.

(* ===================================================================== *)
(** ** Squeeze mode replaces the transform *)
(* ===================================================================== *)

Import Generator.

Lemma applyRotation_squeeze (rotate : jsstring) (css : PropertyMap) :
  get (u "transform") (applyRotation (Some (u "squeeze")) rotate css)
  = Some (squeezeTransform rotate).
Proof.
  unfold applyRotation, squeezeTransform. simpl optIs.
  destruct (streq rotate (u "0deg")); simpl negb; cbv iota;
    apply get_set_same.
Qed.

Lemma applyRotation_uniqueKeys (m : option jsstring) (rotate : jsstring)
  (css : PropertyMap) :
  uniqueKeys css = true -> uniqueKeys (applyRotation m rotate css) = true.
Proof.
  intros H. unfold applyRotation.
  destruct (optIs m (u "squeeze")).
  - destruct (negb _); now apply uniqueKeys_set.
  - destruct (negb _); [now apply uniqueKeys_set | exact H].
Qed.

Lemma generateAvatarLayoutCSS_uniqueKeys (properties : PropertyMap) :
  uniqueKeys (generateAvatarLayoutCSS properties) = true.
Proof.
  unfold generateAvatarLayoutCSS. cbv zeta.
  apply applyRotation_uniqueKeys.
  destruct (optIs _ (u "overlay")); [now apply uniqueKeys_assign|].
  destruct (optIs _ (u "squeeze")); [now apply uniqueKeys_assign|].
  reflexivity.
Qed.

Lemma applyRotation_empty (m : option jsstring) (rotate : jsstring) :
  optIs m (u "squeeze") = false ->
  get (u "transform") (applyRotation m rotate [])
  = if streq rotate (u "0deg") then None
    else Some (u "rotate(" ++ rotate ++ u ")").
Proof.
  intros H. unfold applyRotation. rewrite H.
  destruct (streq rotate (u "0deg")); reflexivity.
Qed.

Lemma optIs_some (x : option jsstring) (lit : jsstring) :
  optIs x lit = true -> x = Some lit.
Proof.
  destruct x as [v|]; simpl; [|discriminate].
  intros H. apply streq_eq in H. now subst.
Qed.

Lemma getOverlayPositions_uniqueKeys (position : option jsstring)
  (offsetX offsetY : jsstring) :
  uniqueKeys (getOverlayPositions position offsetX offsetY) = true.
Proof.
  unfold getOverlayPositions. cbv zeta.
  repeat match goal with
         | |- context [if optIs ?a ?b then _ else _] => destruct (optIs a b)
         end; reflexivity.
Qed.

Lemma getOverlayPositions_transform (position : option jsstring)
  (offsetX offsetY : jsstring) :
  match get (u "transform") (getOverlayPositions position offsetX offsetY) with
  | Some t => truthy t = true
  | None => True
  end.
Proof.
  unfold getOverlayPositions. cbv zeta.
  repeat match goal with
         | |- context [if optIs ?a ?b then _ else _] => destruct (optIs a b)
         end; simpl; exact I || reflexivity.
Qed.

Lemma applyRotation_overlay (m : option jsstring) (rotate : jsstring)
  (css : PropertyMap) :
  optIs m (u "squeeze") = false ->
  match get (u "transform") css with
  | Some t => truthy t = true
  | None => True
  end ->
  get (u "transform") (applyRotation m rotate css)
  = overlayTransform (get (u "transform") css) rotate.
Proof.
  intros Hs Ht. unfold applyRotation, overlayTransform. rewrite Hs.
  destruct (streq rotate (u "0deg")); simpl negb; cbv iota; [reflexivity|].
  rewrite get_set_same.
  destruct (get (u "transform") css) as [t|]; simpl.
  - now rewrite Ht.
  - reflexivity.
Qed.

Lemma get_assign_fresh (k : jsstring) (base positions : PropertyMap) :
  uniqueKeys positions = true -> get k base = None ->
  get k (assign base positions) = get k positions.
Proof.
  intros Hu Hb. rewrite get_assign by exact Hu. rewrite Hb.
  destruct (get k positions); reflexivity.
Qed.

Lemma optIs_overlay_not_squeeze (m : option jsstring) :
  optIs m (u "overlay") = true -> optIs m (u "squeeze") = false.
Proof.
  intros H. apply optIs_some in H. subst. reflexivity.
Qed.

(** *** The two halves of a separated PropertyMap *)

Lemma separateWith_parts (names : list jsstring) (properties : PropertyMap)
  (a b : PropertyMap) :
  fold_left
    (fun acc kv =>
       if memStr (fst kv) names
       then (set (fst kv) (snd kv) (fst acc), snd acc)
       else (fst acc, set (fst kv) (snd kv) (snd acc)))
    properties (a, b)
  = (assign a (filter (fun kv => memStr (fst kv) names) properties),
     assign b (filter (fun kv => negb (memStr (fst kv) names)) properties)).
Proof.
  revert a b. induction properties as [|[k v] properties IH]; intros a b;
    [reflexivity|].
  cbn [fold_left filter fst snd].
  destruct (memStr k names); cbn [negb fst snd]; rewrite IH; reflexivity.
Qed.

Lemma get_filter_keys (p : jsstring -> bool) (k : jsstring)
  (o : PropertyMap) :
  get k (filter (fun kv => p (fst kv)) o) = if p k then get k o else None.
Proof.
  induction o as [|[k0 v0] o IH]; cbn [filter fst].
  - simpl. now destruct (p k).
  - destruct (p k0) eqn:P0; simpl; destruct (streq k k0) eqn:E.
    + apply streq_eq in E. subst k0. now rewrite P0.
    + exact IH.
    + apply streq_eq in E. subst k0. rewrite P0 in IH |- *. exact IH.
    + exact IH.
Qed.

Lemma get_rev_none {V} (k : jsstring) (o : table V) :
  get k o = None -> get k (rev o) = None.
Proof.
  induction o as [|[k0 v0] o IH]; simpl; [reflexivity|].
  destruct (streq k k0) eqn:E; [discriminate|]. intros H.
  rewrite get_app, (IH H). simpl. now rewrite E.
Qed.

(** A layout property is read from the layout half as from the rule. *)
Lemma get_layout_part (names : list jsstring) (properties : PropertyMap)
  (k : jsstring) :
  uniqueKeys properties = true -> memStr k names = true ->
  get k (fst (separateWith names properties)) = get k properties.
Proof.
  intros Hu Hk. unfold separateWith. rewrite separateWith_parts. cbn [fst].
  rewrite get_assign_last, <- filter_rev.
  rewrite (get_filter_keys (fun x => memStr x names)), Hk.
  rewrite (get_rev_unique k properties Hu).
  destruct (get k properties); reflexivity.
Qed.

(** The style half holds no layout property. *)
Lemma get_style_part (names : list jsstring) (properties : PropertyMap)
  (k : jsstring) :
  memStr k names = true ->
  get k (rev (snd (separateWith names properties))) = None.
Proof.
  intros Hk. apply get_rev_none. unfold separateWith.
  rewrite separateWith_parts. cbn [snd].
  rewrite get_assign_last, <- filter_rev.
  rewrite (get_filter_keys (fun x => negb (memStr x names))), Hk.
  reflexivity.
Qed.

Lemma get_some_nonEmpty {V} (k : jsstring) (o : table V) (v : V) :
  get k o = Some v -> nonEmpty o = true.
Proof. destruct o; [discriminate | reflexivity]. Qed.

Lemma nonEmpty_set {V} (k : jsstring) (v : V) (o : table V) :
  nonEmpty (set k v o) = true.
Proof.
  destruct o as [|[k0 v0] o]; simpl; [reflexivity|].
  destruct (streq k k0); reflexivity.
Qed.

Lemma nonEmpty_assign {V} (t s : table V) :
  nonEmpty t = true -> nonEmpty (assign t s) = true.
Proof.
  unfold assign. revert t. induction s as [|[k v] s IH]; intros t H;
    [exact H|].
  simpl. apply IH, nonEmpty_set.
Qed.

Lemma app_not_self {A} (l x : list A) : x <> [] -> l ++ x <> l.
Proof.
  intros Hx E. apply (f_equal (@length A)) in E.
  rewrite length_app in E. destruct x; [contradiction | simpl in E; lia].
Qed.

(** *** What one round of each loop stores *)

Lemma getSqueezePositions_facts (position : option jsstring)
  (offsetX offsetY : jsstring) :
  uniqueKeys (getSqueezePositions position offsetX offsetY) = true
  /\ get (u "transform") (getSqueezePositions position offsetX offsetY)
     = None.
Proof.
  unfold getSqueezePositions. cbv zeta.
  destruct position as [p|];
    repeat match goal with
           | |- context [if ?c then _ else _] => destruct c
           end; split; reflexivity.
Qed.

Lemma generateInfoElementCSS_uniqueKeys (layoutProps : PropertyMap) :
  uniqueKeys (generateInfoElementCSS layoutProps) = true.
Proof.
  unfold generateInfoElementCSS. cbv zeta.
  assert (forall css : PropertyMap, uniqueKeys css = true ->
          forall r : jsstring,
          uniqueKeys
            (if negb (streq r (u "0deg"))
             then set (u "transform")
                      (if optTruthy (get (u "transform") css)
                       then optText (get (u "transform") css)
                              ++ u " rotate(" ++ r ++ u ")"
                       else u "rotate(" ++ r ++ u ")") css
             else css) = true) as R.
  { intros css H r. destruct (negb _); [now apply uniqueKeys_set | exact H]. }
  apply R.
  destruct (optIs _ (u "overlay")); [now apply uniqueKeys_assign|].
  destruct (optIs _ (u "squeeze")); [now apply uniqueKeys_assign|].
  reflexivity.
Qed.

(** The transform that [generateInfoElementCSS] writes outside overlay
    mode: nothing is composed, and squeeze mode without rotation writes no
    transform at all. *)
Lemma generateInfoElementCSS_plain (layoutProps : PropertyMap) :
  optIs (get (u "info-layout-mode") layoutProps) (u "overlay") = false ->
  get (u "transform") (generateInfoElementCSS layoutProps)
  = elementTransform (getOr (u "info-rotate") layoutProps (u "0deg")).
Proof.
  intros H. unfold generateInfoElementCSS. cbv zeta. rewrite H.
  set (r := getOr (u "info-rotate") layoutProps (u "0deg")).
  match goal with
  | |- get _ (if _ then set _ _ ?c else _) = _ => set (css := c)
  end.
  assert (get (u "transform") css = None) as N.
  { subst css. destruct (optIs _ (u "squeeze")); [|reflexivity].
    rewrite get_assign_fresh; [| |reflexivity];
      apply getSqueezePositions_facts. }
  unfold elementTransform. rewrite N.
  destruct (streq r (u "0deg")); simpl negb; cbv iota; [exact N|].
  apply get_set_same.
Qed.

Lemma generateInfoElementCSS_overlay (layoutProps : PropertyMap) :
  optIs (get (u "info-layout-mode") layoutProps) (u "overlay") = true ->
  get (u "transform") (generateInfoElementCSS layoutProps)
  = overlayTransform
      (get (u "transform")
         (getOverlayPositions (get (u "info-position") layoutProps)
            (getOr (u "info-offset-x") layoutProps (u "0px"))
            (getOr (u "info-offset-y") layoutProps (u "0px"))))
      (getOr (u "info-rotate") layoutProps (u "0deg")).
Proof.
  intros H. unfold generateInfoElementCSS. cbv zeta. rewrite H.
  match goal with
  | |- get _ (if _ then set _ _ ?c else _) = _ => set (css := c)
  end.
  assert (get (u "transform") css
          = get (u "transform")
              (getOverlayPositions (get (u "info-position") layoutProps)
                 (getOr (u "info-offset-x") layoutProps (u "0px"))
                 (getOr (u "info-offset-y") layoutProps (u "0px")))) as E.
  { subst css. rewrite get_assign_fresh;
      [reflexivity | apply getOverlayPositions_uniqueKeys | reflexivity]. }
  rewrite <- E.
  apply (applyRotation_overlay None); [reflexivity|].
  rewrite E. apply getOverlayPositions_transform.
Qed.

Lemma avatarContainerProps_squeeze (layoutProps : PropertyMap) :
  optIs (get (u "avatar-layout-mode") layoutProps) (u "squeeze") = true ->
  get (u "transform") (avatarContainerProps layoutProps)
  = Some (squeezeTransform
            (getOr (u "avatar-rotate") layoutProps (u "0deg"))).
Proof.
  intros H. unfold avatarContainerProps. cbv zeta.
  rewrite get_assign by apply generateAvatarLayoutCSS_uniqueKeys.
  apply optIs_some in H. unfold generateAvatarLayoutCSS. cbv zeta.
  rewrite H. now rewrite applyRotation_squeeze.
Qed.

Lemma getOr_same (k : jsstring) (a b : PropertyMap) (d : jsstring) :
  get k a = get k b -> getOr k a d = getOr k b d.
Proof. unfold getOr. now intros ->. Qed.

(** The round of [preprocessAvatarLayout] for an avatar rule in squeeze
    mode stores the container rule under the selector, over whatever the
    earlier rounds left. *)
Lemma preprocessAvatarRule_squeeze (processedRules : RuleMap)
  (selector : jsstring) (properties : PropertyMap) :
  uniqueKeys properties = true ->
  isAvatarSelector selector = true ->
  optIs (get (u "avatar-layout-mode") properties) (u "squeeze") = true ->
  exists container,
    get selector (preprocessAvatarRule processedRules (selector, properties))
    = Some container
    /\ get (u "transform") container
       = Some (squeezeTransform
                 (getOr (u "avatar-rotate") properties (u "0deg"))).
Proof.
  intros Hu Ha Hm.
  pose proof (get_layout_part avatarLayoutAttributes properties
                (u "avatar-layout-mode") Hu eq_refl) as Gm.
  pose proof (get_layout_part avatarLayoutAttributes properties
                (u "avatar-rotate") Hu eq_refl) as Gr.
  unfold preprocessAvatarRule. cbn [fst snd]. rewrite Ha.
  unfold separateAvatarProperties in *.
  destruct (separateWith avatarLayoutAttributes properties)
    as [layoutProps styleProps]. cbn [fst] in Gm, Gr. cbv zeta.
  rewrite <- Gm in Hm.
  pose proof (avatarContainerProps_squeeze layoutProps Hm) as T.
  rewrite (getOr_same _ _ _ _ Gr) in T.
  assert (optIs (get (u "avatar-layout-mode") layoutProps) (u "none")
          = false) as Hn.
  { apply optIs_some in Hm. rewrite Hm. reflexivity. }
  rewrite Hn.
  assert (nonEmpty layoutProps = true) as Nl.
  { apply optIs_some in Hm. exact (get_some_nonEmpty _ _ _ Hm). }
  rewrite Nl, (get_some_nonEmpty _ _ _ T). cbn [orb].
  exists (avatarContainerProps layoutProps). split; [|exact T].
  assert (streq selector (selector ++ u " img") = false) as Ni.
  { apply streq_neq. intros E. symmetry in E. revert E.
    apply app_not_self. discriminate. }
  destruct (nonEmpty styleProps).
  - rewrite get_set, Ni. apply get_set_same.
  - apply get_set_same.
Qed.

(** The round of [preprocessInfoLayout] for an information element in
    squeeze mode with a position stores, under the selector, a rule whose
    transform is the one of [generateInfoElementCSS]: the style half
    cannot bring one, since transform is a layout property. *)
Lemma preprocessInfoRule_squeeze (processedRules : RuleMap)
  (selector : jsstring) (properties : PropertyMap) :
  uniqueKeys properties = true ->
  isInfoElementSelector selector = true ->
  optIs (get (u "info-layout-mode") properties) (u "squeeze") = true ->
  optTruthy (get (u "info-position") properties) = true ->
  exists element,
    get selector (preprocessInfoRule processedRules (selector, properties))
    = Some element
    /\ get (u "transform") element
       = elementTransform (getOr (u "info-rotate") properties (u "0deg")).
Proof.
  intros Hu Hi Hm Hp.
  pose proof (get_layout_part infoLayoutPropertyNames properties
                (u "info-layout-mode") Hu eq_refl) as Gm.
  pose proof (get_layout_part infoLayoutPropertyNames properties
                (u "info-position") Hu eq_refl) as Gp.
  pose proof (get_layout_part infoLayoutPropertyNames properties
                (u "info-rotate") Hu eq_refl) as Gr.
  pose proof (get_style_part infoLayoutPropertyNames properties
                (u "transform") eq_refl) as Gs.
  unfold preprocessInfoRule. cbn [fst snd]. rewrite Hi.
  unfold separateInfoProperties in *.
  destruct (separateWith infoLayoutPropertyNames properties)
    as [layoutProps styleProps]. cbn [fst snd] in Gm, Gp, Gr, Gs. cbv zeta.
  rewrite <- Gm in Hm. rewrite <- Gp in Hp.
  pose proof (optIs_some _ _ Hm) as Em.
  assert (optIs (get (u "info-layout-mode") layoutProps) (u "none") = false)
    as Hn by (rewrite Em; reflexivity).
  assert (optTruthy (get (u "info-layout-mode") layoutProps) = true)
    as Ht by (rewrite Em; reflexivity).
  rewrite Hn, Ht, Hp, Hm. cbn [andb].
  set (elementCSS := generateInfoElementCSS layoutProps).
  set (finalCSS := assign (assign [] elementCSS) styleProps).
  assert (get (u "transform") finalCSS
          = elementTransform (getOr (u "info-rotate") properties (u "0deg")))
    as T.
  { subst finalCSS. rewrite get_assign_last, Gs.
    rewrite get_assign by apply generateInfoElementCSS_uniqueKeys.
    subst elementCSS. rewrite generateInfoElementCSS_plain
      by (rewrite Em; reflexivity).
    rewrite (getOr_same _ _ _ _ Gr).
    destruct (elementTransform _); reflexivity. }
  assert (nonEmpty finalCSS = true) as N.
  { subst finalCSS. apply nonEmpty_assign.
    assert (nonEmpty elementCSS = true) as Ne.
    { subst elementCSS. unfold generateInfoElementCSS. cbv zeta.
      rewrite Em. cbn [optIs]. 
      replace (streq (u "squeeze") (u "overlay")) with false by reflexivity.
      replace (streq (u "squeeze") (u "squeeze")) with true by reflexivity.
      destruct (negb _); [apply nonEmpty_set|].
      now apply nonEmpty_assign. }
    destruct elementCSS as [|[k v] rest]; [discriminate|].
    unfold assign. simpl fold_left.
    apply (nonEmpty_assign (set k v []) rest), nonEmpty_set. }
  rewrite N. exists finalCSS. split; [apply get_set_same | exact T].
Qed.

(** *** The rounds that follow *)

Lemma not_memStr_cons (x a : jsstring) (l : list jsstring) :
  memStr x (a :: l) = false -> streq x a = false /\ memStr x l = false.
Proof. unfold memStr. simpl. apply orb_false_iff. Qed.

Ltac split_ifs :=
  repeat match goal with
         | |- context [if ?c then _ else _] => destruct c
         end.

Lemma preprocessAvatarRule_frame (processedRules : RuleMap)
  (rule : jsstring * PropertyMap) (k : jsstring) :
  memStr k (avatarTargets (fst rule)) = false ->
  get k (preprocessAvatarRule processedRules rule) = get k processedRules.
Proof.
  unfold avatarTargets. intros H.
  apply not_memStr_cons in H as [H1 H].
  apply not_memStr_cons in H as [H2 H].
  apply not_memStr_cons in H as [H3 H].
  apply not_memStr_cons in H as [H4 _].
  unfold preprocessAvatarRule.
  destruct (separateAvatarProperties (snd rule)) as [layoutProps styleProps].
  cbv zeta. split_ifs; rewrite ?get_set, ?H1, ?H2, ?H3, ?H4; reflexivity.
Qed.

Lemma preprocessInfoRule_frame (processedRules : RuleMap)
  (rule : jsstring * PropertyMap) (k : jsstring) :
  memStr k (infoTargets (fst rule)) = false ->
  get k (preprocessInfoRule processedRules rule) = get k processedRules.
Proof.
  unfold infoTargets. intros H.
  apply not_memStr_cons in H as [H1 H].
  apply not_memStr_cons in H as [H2 _].
  unfold preprocessInfoRule.
  destruct (separateInfoProperties (snd rule)) as [layoutProps styleProps].
  cbv zeta. split_ifs; rewrite ?get_set, ?H1, ?H2; reflexivity.
Qed.

Lemma later_rounds_frame (round : RuleMap -> jsstring * PropertyMap -> RuleMap)
  (targets : jsstring -> list jsstring) (selector : jsstring)
  (later processedRules : RuleMap) :
  (forall acc rule, memStr selector (targets (fst rule)) = false ->
                    get selector (round acc rule) = get selector acc) ->
  untouchedBy targets selector later = true ->
  get selector (fold_left round later processedRules)
  = get selector processedRules.
Proof.
  intros Hf. revert processedRules.
  induction later as [|rule later IH]; intros acc H; [reflexivity|].
  simpl in H. apply andb_true_iff in H as [Hr Hl].
  apply negb_true_iff in Hr. simpl. rewrite (IH _ Hl). now apply Hf.
Qed.




(* ===================================================================== *)
(** ** Shorthand merging of the four margins *)
(* ===================================================================== *)

Lemma insertSorted_perm lc (x : jsstring * jsstring) l :
  Permutation (x :: l) (insertSorted lc x l).
Proof.
  induction l as [|y l IH]; simpl; [apply Permutation_refl|].
  destruct (compareProps lc (fst x) (fst y) <? 0)%Z;
    [apply Permutation_refl|].
  eapply perm_trans; [apply perm_swap|]. now apply perm_skip.
Qed.

Lemma sortProperties_perm lc (properties : PropertyMap) :
  Permutation properties (sortProperties lc properties).
Proof.
  unfold sortProperties.
  enough (forall acc, Permutation (acc ++ properties)
                        (fold_left (fun a x => insertSorted lc x a)
                                   properties acc)) as H by apply (H []).
  induction properties as [|x l IH]; intros acc; simpl.
  - rewrite app_nil_r. apply Permutation_refl.
  - eapply perm_trans; [|apply IH].
    eapply perm_trans; [apply Permutation_sym, Permutation_middle|].
    apply (Permutation_app_tail l (insertSorted_perm lc x acc)).
Qed.

Lemma ruleDeclarations_perm lc (properties : PropertyMap) cfg :
  Permutation properties (ruleDeclarations lc properties cfg).
Proof.
  unfold ruleDeclarations. destruct (sortPropertiesFlag cfg);
    [apply sortProperties_perm | apply Permutation_refl].
Qed.

Lemma filter_key_unique (k : jsstring) (v : jsstring) (o : PropertyMap) :
  uniqueKeys o = true -> get k o = Some v ->
  filter (fun d => streq (fst d) k) o = [(k, v)].
Proof.
  induction o as [|[k0 v0] o IH]; simpl; [discriminate|].
  rewrite andb_true_iff, negb_true_iff. intros [Hn Hu].
  rewrite (streq_sym k0 k). destruct (streq k k0) eqn:E.
  - apply streq_eq in E. subst k0. intros [= ->]. f_equal.
    clear IH Hu. unfold has in Hn.
    induction o as [|[k1 v1] o IH]; simpl; [reflexivity|].
    simpl in Hn. rewrite (streq_sym k1 k).
    destruct (streq k k1); [discriminate|]. now apply IH.
  - intros H. now apply IH.
Qed.

Lemma marginMerged_set (k v : jsstring) (m : PropertyMap) :
  streq (u "margin") k = false ->
  forallb (fun s => negb (streq s k)) marginLonghands = true ->
  marginMerged m -> marginMerged (set k v m).
Proof.
  intros Hk Hs (Hu & Hm & Hl). split; [now apply uniqueKeys_set|]. split.
  - now rewrite get_set, Hk.
  - intros s Hin. rewrite get_set.
    rewrite forallb_forall in Hs. specialize (Hs s Hin).
    apply negb_true_iff in Hs. rewrite Hs. now apply Hl.
Qed.

Lemma marginMerged_delete (k : jsstring) (m : PropertyMap) :
  streq (u "margin") k = false ->
  marginMerged m -> marginMerged (delete k m).
Proof.
  intros Hk (Hu & Hm & Hl). split; [now apply uniqueKeys_delete|]. split.
  - now rewrite get_delete, Hk.
  - intros s Hin. rewrite get_delete. destruct (streq s k); [reflexivity|].
    now apply Hl.
Qed.

Ltac margin_steps :=
  repeat first
    [ apply marginMerged_delete; [reflexivity|]
    | apply marginMerged_set; [reflexivity|reflexivity|] ].

Lemma allMargins4px_get (props : PropertyMap) :
  allMargins4px props = true ->
  forall k, In k marginLonghands -> get k props = Some (u "4px").
Proof.
  unfold allMargins4px. rewrite forallb_forall. intros H k Hin.
  now apply optIs_some, H.
Qed.

Lemma get_delete_other {V} (k k' : jsstring) (o : table V) :
  streq k k' = false -> get k (delete k' o) = get k o.
Proof. intros H. now rewrite get_delete, H. Qed.

Lemma get_delete_same {V} (k : jsstring) (o : table V) :
  get k (delete k o) = None.
Proof. now rewrite get_delete, streq_refl. Qed.

Lemma mergeBoxInto_margin_eq (props : PropertyMap) :
  allMargins4px props = true ->
  mergeBoxInto (u "margin") props
  = deleteSides (u "margin") (set (u "margin") (u "4px") props).
Proof.
  intros H4. pose proof (allMargins4px_get props H4) as G.
  assert (get (u "margin-top") props = Some (u "4px")) as Gt
    by (apply G; simpl; auto).
  assert (get (u "margin-right") props = Some (u "4px")) as Gr
    by (apply G; simpl; auto).
  assert (get (u "margin-bottom") props = Some (u "4px")) as Gb
    by (apply G; simpl; auto).
  assert (get (u "margin-left") props = Some (u "4px")) as Gl
    by (apply G; simpl; auto 6).
  unfold mergeBoxInto, canMergeBox, mergeBox, has. cbv zeta.
  cbv [forallb].
  change (u "margin" ++ u "-" ++ u "top") with (u "margin-top").
  change (u "margin" ++ u "-top") with (u "margin-top").
  change (u "margin" ++ u "-" ++ u "right") with (u "margin-right").
  change (u "margin" ++ u "-right") with (u "margin-right").
  change (u "margin" ++ u "-" ++ u "bottom") with (u "margin-bottom").
  change (u "margin" ++ u "-bottom") with (u "margin-bottom").
  change (u "margin" ++ u "-" ++ u "left") with (u "margin-left").
  change (u "margin" ++ u "-left") with (u "margin-left").
  rewrite Gt, Gr, Gb, Gl.
  reflexivity.
Qed.

Lemma mergeBoxInto_margin (props : PropertyMap) :
  uniqueKeys props = true -> allMargins4px props = true ->
  marginMerged (mergeBoxInto (u "margin") props).
Proof.
  intros Hu H4. rewrite (mergeBoxInto_margin_eq props H4).
  unfold deleteSides.
  change (u "margin" ++ u "-top") with (u "margin-top").
  change (u "margin" ++ u "-right") with (u "margin-right").
  change (u "margin" ++ u "-bottom") with (u "margin-bottom").
  change (u "margin" ++ u "-left") with (u "margin-left").
  split; [|split].
  - now repeat apply uniqueKeys_delete; apply uniqueKeys_set.
  - rewrite !get_delete_other by reflexivity. apply get_set_same.
  - intros k Hin. simpl in Hin.
    destruct Hin as [<-|[<-|[<-|[<-|[]]]]];
      repeat (rewrite get_delete_other by reflexivity);
      apply get_delete_same.
Qed.

Lemma mergeBoxInto_padding (m : PropertyMap) :
  marginMerged m -> marginMerged (mergeBoxInto (u "padding") m).
Proof.
  intros H. unfold mergeBoxInto.
  destruct (canMergeBox m (u "padding")); [|exact H].
  destruct (mergeBox m (u "padding")) as [value|]; [|exact H].
  destruct (truthy value); [|exact H].
  unfold deleteSides. margin_steps. exact H.
Qed.

Lemma mergeProperties_margin (props : PropertyMap) :
  uniqueKeys props = true -> allMargins4px props = true ->
  marginMerged (mergeProperties props).
Proof.
  intros Hu H4. unfold mergeProperties. cbv zeta.
  pose proof (mergeBoxInto_padding _ (mergeBoxInto_margin props Hu H4)) as H.
  destruct (canMergeBorder _); [|exact H].
  destruct (mergeBorder _) as [value|]; [|exact H].
  destruct (truthy value); [|exact H].
  unfold deleteBorderParts. margin_steps. exact H.
Qed.

Lemma removeRedundant_margin (m : PropertyMap) :
  marginMerged m -> marginMerged (removeRedundant m).
Proof.
  intros H. unfold removeRedundant, deleteBorderParts, deleteSides.
  cbv zeta.
  repeat first
    [ apply marginMerged_delete; [reflexivity|]
    | match goal with
      | |- marginMerged (if ?c then _ else _) => destruct c
      | |- marginMerged (match ?g with Some _ => _ | None => _ end) =>
        destruct g
      end ];
    exact H.
Qed.

Lemma marginMerged_declarations lc cfg (m : PropertyMap) :
  marginMerged m -> mergedMarginOnly (ruleDeclarations lc m cfg).
Proof.
  intros (Hu & Hm & Hl). pose proof (ruleDeclarations_perm lc m cfg) as P.
  split.
  - pose proof (filter_key_unique _ _ m Hu Hm) as F.
    assert (Permutation
              (filter (fun d => streq (fst d) (u "margin")) m)
              (filter (fun d => streq (fst d) (u "margin"))
                      (ruleDeclarations lc m cfg))) as PF.
    { clear - P. induction P; simpl.
      - constructor.
      - destruct (streq (fst x) (u "margin")); [now constructor | assumption].
      - destruct (streq (fst x) (u "margin")), (streq (fst y) (u "margin"));
          try apply Permutation_refl. apply perm_swap.
      - eapply perm_trans; eassumption. }
    rewrite F in PF. now apply Permutation_length_1_inv in PF.
  - intros k Hin Hk.
    apply (Permutation_in _ (Permutation_sym (Permutation_map fst P))) in Hk.
    apply (proj1 (get_none_not_in k m) (Hl k Hin)). exact Hk.
Qed.

(** C3, as the code has it.  [generate] does not run the shorthand merge:
    that is the work of [optimize], through [mergeProperties] and
    [removeRedundant].  For every PropertyMap whose four margin sides are
    all "4px", the merged map, and the map [optimize] stores, are written
    by [generateRule] with exactly one declaration margin: 4px and without
    any of the four longhands. *)
Theorem merge_then_generate_margin_shorthand
  (localeCompare : jsstring -> jsstring -> Z) (cfg : config)
  (props : PropertyMap) :
  uniqueKeys props = true ->
  allMargins4px props = true ->
  mergedMarginOnly
    (ruleDeclarations localeCompare (mergeProperties props) cfg)
  /\ mergedMarginOnly
       (ruleDeclarations localeCompare
          (removeRedundant (mergeProperties props)) cfg).
Proof.
  intros Hu H4. pose proof (mergeProperties_margin props Hu H4) as H.
  split; apply marginMerged_declarations;
    [exact H | now apply removeRedundant_margin].
Qed.

Lemma merge_then_generate_margin_shorthand_witness :
  uniqueKeys fourMargins = true
  /\ allMargins4px fourMargins = true
  /\ mergedMarginOnly
      (ruleDeclarations (fun _ _ => 0%Z) (mergeProperties fourMargins)
         defaultConfig)
  /\ generateRule (fun _ _ => 0%Z) (u ".x") (mergeProperties fourMargins)
       defaultConfig
     = u ".x {" ++ nl ++ u "  margin: 4px !important;" ++ nl ++ u "}" ++ nl.
Proof.
  split; [vm_compute; reflexivity|].
  split; [vm_compute; reflexivity|].
  split.
  - apply (merge_then_generate_margin_shorthand (fun _ _ => 0%Z)
             defaultConfig fourMargins); vm_compute; reflexivity.
  - vm_compute; reflexivity.
Defined.

(** C3, as stated, fails: for a rule whose four margins are "4px",
    [generate] writes the four longhands and no [margin] declaration. *)
Lemma generate_keeps_margin_longhands :
  let cfg := mkConfig false true true true false 2 in
  allMargins4px fourMargins = true
  /\ generate (fun _ _ => 0%Z) (u "now") [(u ".x", fourMargins)] cfg
     = u ".x {" ++ nl
         ++ u "  margin-top: 4px !important;" ++ nl
         ++ u "  margin-right: 4px !important;" ++ nl
         ++ u "  margin-bottom: 4px !important;" ++ nl
         ++ u "  margin-left: 4px !important;" ++ nl
         ++ u "}" ++ nl ++ nl
  /\ generatedDeclarations (fun _ _ => 0%Z) [(u ".x", fourMargins)] cfg
       (u ".x") = fourMargins
  /\ ~ mergedMarginOnly
         (generatedDeclarations (fun _ _ => 0%Z) [(u ".x", fourMargins)] cfg
            (u ".x")).
Proof.
  intros cfg.
  split; [vm_compute; reflexivity|].
  split; [vm_compute; reflexivity|].
  split; [vm_compute; reflexivity|].
  intros [H _]. vm_compute in H. discriminate H.
Qed.

(* ===================================================================== *)
(** ** Reverse alias maps *)
(* ===================================================================== *)

Lemma reverse_property_step (tok : jsstring) (m acc : table jsstring) :
  (forall e, In e m -> truthy (fst e) = true) ->
  valuesTruthy acc ->
  get tok
    (fold_left
       (fun acc e =>
          if negb (lookupTruthy (snd e) acc) then set (snd e) (fst e) acc
          else acc) m acc)
  = match get tok acc with
    | Some v => Some v
    | None => firstAlias tok m
    end.
Proof.
  revert acc. induction m as [|[cn prop] m IH]; intros acc Hm Hacc.
  - simpl. destruct (get tok acc); reflexivity.
  - simpl fold_left. cbn [fst snd].
    assert (forall e, In e m -> truthy (fst e) = true) as Hm'
      by (intros e He; apply Hm; now right).
    unfold firstAlias. simpl find. cbn [snd].
    destruct (lookupTruthy prop acc) eqn:L; simpl negb; cbv iota.
    + rewrite (IH acc Hm' Hacc).
      destruct (get tok acc) as [w|] eqn:Gt; [reflexivity|].
      destruct (streq prop tok) eqn:E; [|reflexivity].
      apply streq_eq in E. subst. unfold lookupTruthy in L.
      rewrite Gt in L. discriminate.
    + assert (get prop acc = None) as G.
      { unfold lookupTruthy in L. destruct (get prop acc) as [v|] eqn:G;
          [|reflexivity]. rewrite (Hacc prop v G) in L. discriminate. }
      rewrite IH; [|exact Hm'|].
      * rewrite get_set. rewrite (streq_sym tok prop).
        destruct (streq prop tok) eqn:E.
        -- apply streq_eq in E. subst tok. now rewrite G.
        -- reflexivity.
      * intros k w. rewrite get_set.
        destruct (streq k prop); [|apply Hacc].
        intros [= <-]. apply (Hm (cn, prop)). now left.
Qed.

(** The guarded loop that builds [reversePropertyMap] keeps, for every
    canonical property, the first alias of the forward table. *)
Lemma buildReversePropertyMap_first (m : table jsstring) (tok : jsstring) :
  (forall e, In e m -> truthy (fst e) = true) ->
  get tok (buildReversePropertyMap m) = firstAlias tok m.
Proof.
  intros Hm. unfold buildReversePropertyMap.
  rewrite reverse_property_step; [reflexivity | exact Hm |].
  intros k v. discriminate.
Qed.

Lemma propertyMap_aliases_truthy :
  forall e, In e propertyMap -> truthy (fst e) = true.
Proof.
  intros e He.
  assert (forallb (fun e => truthy (fst e)) propertyMap = true) as F
    by (vm_compute; reflexivity).
  rewrite forallb_forall in F. now apply F.
Qed.

(** The property half of the first-registered rule: [getPropertyName]
    answers with the first alias registered for the property, for instance
    "过渡效果" and not "过渡" for [transition]. *)
Lemma reverse_property_map_keeps_first_alias (prop : jsstring) :
  get prop reversePropertyMap = firstAlias prop propertyMap
  /\ aliasesOf (u "transition") propertyMap = [u "过渡效果"; u "过渡"]
  /\ getPropertyName (u "transition") = u "过渡效果".
Proof.
  split; [|split; vm_compute; reflexivity].
  change reversePropertyMap with (buildReversePropertyMap propertyMap).
  apply buildReversePropertyMap_first, propertyMap_aliases_truthy.
Qed.

(** The order of enumeration and the order of writing differ for the
    avatar of a character message.  The key "角色头像" is created by the
    pair of line 68, for another selector, and the pair of line 103 gives
    it this selector: [Object.entries] enumerates it before "AI角色头像",
    whose pair is written at line 102.  The loop that builds
    [reverseElementMap] has no guard, so the alias enumerated last stays,
    and that is the alias whose pair is written first. *)
Lemma avatar_aliases_of_a_character_message :
  let selector := u ".mes[is_user=" ++ dq ++ u "false" ++ dq ++ u "] .avatar" in
  aliasesOf selector elementMap = [u "角色头像"; u "AI角色头像"]
  /\ map fst (filter (fun e => streq (snd e) selector)
                     (registered elementMapEntries))
     = [u "AI角色头像"; u "角色头像"]
  /\ get selector reverseElementMap = Some (u "AI角色头像")
  /\ getElementName selector = u "AI角色头像".
Proof.
  intros selector. repeat split; vm_compute; reflexivity.
Qed.

Lemma find_absent_token (token : jsstring) (l : list (jsstring * jsstring)) :
  existsb (fun e => streq (snd e) token) l = false ->
  find (fun e => streq (snd e) token) l = None.
Proof.
  induction l as [|e l IH]; simpl; [reflexivity|].
  destruct (streq (snd e) token); simpl; [discriminate | exact IH].
Qed.

Lemma existsb_filter_false {A} (p q : A -> bool) (l : list A) :
  existsb p l = false -> existsb p (filter q l) = false.
Proof.
  induction l as [|a l IH]; simpl; [reflexivity|].
  intros H. apply orb_false_iff in H as [Ha Hl].
  destruct (q a); simpl; [rewrite Ha|]; now apply IH.
Qed.

(** A reverse table answers as [firstRegistered] for every token as soon as
    it does for the tokens of the literal and has no other key. *)
Lemma reverse_table_by_inspection (reverse : table jsstring)
  (entries : list (jsstring * jsstring)) (token : jsstring) :
  (let pairs := registered entries in
   forallb (fun e => sameAnswer (get (snd e) reverse)
                                (firstFor (snd e) pairs))
           entries) = true ->
  forallb (fun k => existsb (fun e => streq (snd e) k) entries)
          (keys reverse) = true ->
  get token reverse = firstRegistered token entries.
Proof.
  cbv zeta. intros Hin Hkeys. unfold firstRegistered.
  destruct (existsb (fun e => streq (snd e) token) entries) eqn:E.
  - apply existsb_exists in E as [e [He Et]]. apply streq_eq in Et.
    subst token. rewrite forallb_forall in Hin. specialize (Hin e He).
    destruct (get (snd e) reverse) as [a|],
             (firstFor (snd e) (registered entries)) as [b|];
      simpl in Hin; try discriminate; [|reflexivity].
    apply streq_eq in Hin. now subst.
  - unfold firstFor, registered. cbv zeta.
    rewrite find_absent_token by (now apply existsb_filter_false).
    apply get_none_not_in. intros Hk.
    rewrite forallb_forall in Hkeys. specialize (Hkeys token Hk).
    apply existsb_exists in Hkeys as [e [He Et]].
    assert (existsb (fun e => streq (snd e) token) entries = true) as T
      by (apply existsb_exists; now exists e).
    rewrite T in E. discriminate.
Qed.

(** C6.  For every canonical token, the reverse element table and the
    reverse property table answer with the alias of the first pair written
    for that token in the literal of the forward table (among the pairs in
    force: a pair whose key a later pair overwrites registers nothing), and
    with nothing for a token that no pair of the literal maps onto. *)
Theorem reverse_maps_keep_first_registered_alias (token : jsstring) :
  get token reverseElementMap = firstRegistered token elementMapEntries
  /\ get token reversePropertyMap = firstRegistered token propertyMapEntries.
Proof.
  split; apply reverse_table_by_inspection; vm_compute; reflexivity.
Qed.

(* ===================================================================== *)
(** ** The colon glyphs *)
(* ===================================================================== *)

Import Preprocessor.

Lemma includes_char (c : jschar) (s : jsstring) :
  includes [c] s = existsb (fun x => (c =? x)%N) s.
Proof.
  induction s as [|x s IH]; [reflexivity|].
  simpl. rewrite <- IH. destruct (c =? x)%N; simpl; [reflexivity|].
  destruct s; reflexivity.
Qed.

Lemma includes_char_app (c : jschar) (a b : jsstring) :
  includes [c] (a ++ b) = includes [c] a || includes [c] b.
Proof. rewrite !includes_char. apply existsb_app. Qed.

Lemma indexOf_char_none (c : jschar) (s : jsstring) :
  includes [c] s = false -> indexOf [c] s = None.
Proof.
  rewrite includes_char. induction s as [|x s IH]; [reflexivity|].
  simpl. intros H. apply orb_false_iff in H as [H1 H2]. rewrite H1. simpl.
  now rewrite (IH H2).
Qed.

Lemma indexOf_char_first (c : jschar) (a b : jsstring) :
  includes [c] a = false -> indexOf [c] (a ++ c :: b) = Some (length a).
Proof.
  rewrite includes_char. induction a as [|x a IH]; simpl.
  - intros _. now rewrite N.eqb_refl.
  - intros H. apply orb_false_iff in H as [H1 H2]. rewrite H1. simpl.
    now rewrite (IH H2).
Qed.

Lemma firstn_length_app {A} (a b : list A) : firstn (length a) (a ++ b) = a.
Proof.
  induction a as [|x a IH]; simpl; [now destruct b | now rewrite IH].
Qed.

Lemma skipn_length_app {A} (a b : list A) : skipn (length a) (a ++ b) = b.
Proof. induction a as [|x a IH]; simpl; [reflexivity | exact IH]. Qed.

Lemma skipn_succ_length_app {A} (a b : list A) (x : A) :
  skipn (length a + 1) (a ++ x :: b) = b.
Proof.
  rewrite Nat.add_1_r. induction a as [|y a IH]; simpl; [reflexivity|exact IH].
Qed.

Lemma dropWhile_incl {A} (p : A -> bool) (l : list A) (y : A) :
  In y (dropWhile p l) -> In y l.
Proof.
  induction l as [|w l IH]; simpl; [auto|].
  destruct (p w); simpl; auto.
Qed.

Lemma dropWhile_keeps_in {A} (p : A -> bool) (l : list A) (x : A) :
  In x l -> p x = false -> In x (dropWhile p l).
Proof.
  intros Hin Hx. induction l as [|w l IH]; simpl; [contradiction|].
  destruct (p w) eqn:W.
  - destruct Hin as [->|Hin]; [congruence | now apply IH].
  - exact Hin.
Qed.

Lemma trim_incl (s : jsstring) (y : jschar) : In y (trim s) -> In y s.
Proof.
  unfold trim, trimEnd, trimStart. intros H.
  apply in_rev in H. apply dropWhile_incl in H. apply in_rev in H.
  now apply dropWhile_incl in H.
Qed.

(** A code unit that is not blank survives trimming. *)
Lemma trim_keeps (s : jsstring) (x : jschar) :
  In x s -> isWhiteSpace x = false -> In x (trim s).
Proof.
  unfold trim, trimEnd, trimStart. intros Hin Hx.
  apply in_rev. rewrite rev_involutive.
  apply dropWhile_keeps_in; [|exact Hx].
  apply in_rev. rewrite rev_involutive.
  now apply dropWhile_keeps_in.
Qed.

Lemma trim_truthy (a b : jsstring) (x : jschar) :
  isWhiteSpace x = false -> truthy (trim (a ++ x :: b)) = true.
Proof.
  intros H.
  assert (In x (trim (a ++ x :: b))) as Hin
    by (apply trim_keeps; [apply in_elt | exact H]).
  destruct (trim (a ++ x :: b)); [contradiction | reflexivity].
Qed.

Lemma includes_char_in (c : jschar) (s : jsstring) :
  includes [c] s = true <-> In c s.
Proof.
  rewrite includes_char, existsb_exists. split.
  - intros (x & Hin & E). apply N.eqb_eq in E. now subst.
  - intros H. exists c. split; [exact H | apply N.eqb_refl].
Qed.

Lemma includes_char_trim (c : jschar) (s : jsstring) :
  includes [c] s = false -> includes [c] (trim s) = false.
Proof.
  intros H. apply not_true_is_false. intros T.
  apply includes_char_in, trim_incl, includes_char_in in T. congruence.
Qed.

Lemma findColon_ascii (prop value : jsstring) :
  includes (u ":") prop = false ->
  findColon (prop ++ asciiColon :: value) = Some (length prop).
Proof.
  intros H. unfold findColon.
  change (u ":") with [asciiColon] in *.
  now rewrite indexOf_char_first.
Qed.

Lemma findColon_fullWidth (prop value : jsstring) :
  includes (u ":") prop = false -> includes (u ":") value = false ->
  includes (u "：") prop = false ->
  findColon (prop ++ fullWidthColon :: value) = Some (length prop).
Proof.
  intros Hp Hv Hf. unfold findColon.
  change (u ":") with [asciiColon] in *.
  change (u "：") with [fullWidthColon] in *.
  rewrite indexOf_char_none.
  - now apply indexOf_char_first.
  - rewrite includes_char_app, Hp.
    change (fullWidthColon :: value) with ([fullWidthColon] ++ value).
    now rewrite includes_char_app, Hv.
Qed.

(** A line of the loop in which no ASCII colon occurs and which neither
    opens nor closes a block leaves the parser state unchanged. *)
Lemma line_without_ascii_colon (lines : list jsstring) (st : pstate)
  (rawLine : jsstring) :
  includes (u ":") (trim rawLine) = false ->
  endsWith (u "{") (trim rawLine) = false ->
  streq (trim rawLine) (u "}") = false ->
  parseLine lines st rawLine = st.
Proof.
  intros Hc Ho Hb. unfold parseLine. cbv zeta. rewrite Hc, Ho, Hb.
  destruct (_ && blockEndFound _ _); [reflexivity|].
  destruct (isSkippedLine _); reflexivity.
Qed.

(** C7, as the code has it.  Inside an element block the localized-format
    parser takes the ASCII colon only: a line in which none occurs (and
    which neither opens nor closes a block) contributes nothing.  Either
    glyph is accepted in the body of a decoration block: there a
    declaration written with the full-width colon is read as the same
    declaration written with the ASCII colon, provided that no ASCII colon
    occurs in the property or the value (it is looked for first) and no
    full-width colon in the property. *)
Theorem colon_glyphs
  (lines : list jsstring) (st : pstate) (styles0 : PropertyMap)
  (prop value : jsstring) :
  includes (u ":") prop = false ->
  includes (u ":") value = false ->
  includes (u "：") prop = false ->
  endsWith (u "{") (trim (prop ++ fullWidthColon :: value)) = false ->
  parseLine lines st (prop ++ fullWidthColon :: value) = st
  /\ parseStyleDeclaration styles0 (prop ++ fullWidthColon :: value)
     = parseStyleDeclaration styles0 (prop ++ asciiColon :: value).
Proof.
  intros Hp Hv Hf Ho. split.
  - apply line_without_ascii_colon; [| exact Ho |].
    + change (u ":") with [asciiColon] in *.
      apply includes_char_trim. rewrite includes_char_app, Hp.
      change (fullWidthColon :: value) with ([fullWidthColon] ++ value).
      now rewrite includes_char_app, Hv.
    + apply streq_neq. intros E.
      assert (In fullWidthColon (trim (prop ++ fullWidthColon :: value)))
        as Hin by (apply trim_keeps; [apply in_elt | reflexivity]).
      rewrite E in Hin. simpl in Hin. destruct Hin as [C|[]]. discriminate C.
  - unfold parseStyleDeclaration.
    rewrite (trim_truthy prop value fullWidthColon) by reflexivity.
    rewrite (trim_truthy prop value asciiColon) by reflexivity.
    rewrite findColon_fullWidth, findColon_ascii by assumption.
    unfold substringTo, substringFrom.
    now rewrite !firstn_length_app, !skipn_succ_length_app.
Qed.

Lemma colon_glyphs_witness :
  let prop := u "背景颜色" in
  let value := u "透明" in
  includes (u ":") prop = false
  /\ includes (u "：") prop = false
  /\ parseLine [] (mkPstate [] (Some (u ".x")) [])
       (prop ++ fullWidthColon :: value)
     = mkPstate [] (Some (u ".x")) []
  /\ parseStyleDeclaration [] (prop ++ fullWidthColon :: value)
     = [(u "background-color", u "transparent")].
Proof.
  intros prop value.
  split; [vm_compute; reflexivity|].
  split; [vm_compute; reflexivity|].
  assert (H := colon_glyphs [] (mkPstate [] (Some (u ".x")) []) []
                 prop value).
  destruct H as [H1 H2]; try (vm_compute; reflexivity).
  split; [exact H1|].
  rewrite H2. vm_compute; reflexivity.
Defined.

(** C7, as stated, fails: inside an element block the same declaration is
    kept when written with the ASCII colon and lost when written with the
    full-width colon. *)
Lemma full_width_colon_line_is_dropped :
  _actualParseChineseFormat
    (u ".x {" ++ nl ++ u "背景颜色:透明" ++ nl ++ u "}")
  = [(u ".x", [(u "background-color", u "transparent")])]
  /\ _actualParseChineseFormat
       (u ".x {" ++ nl ++ u "背景颜色：透明" ++ nl ++ u "}")
     = [].
Proof. split; vm_compute; reflexivity. Qed.

(* ===================================================================== *)
(** ** The result cache *)
(* ===================================================================== *)

Lemma split_at_first {A} (x : A) (l1 l2 r1 r2 : list A) :
  ~ In x l1 -> ~ In x l2 -> l1 ++ x :: r1 = l2 ++ x :: r2 ->
  l1 = l2 /\ r1 = r2.
Proof.
  revert l2. induction l1 as [|a l1 IH]; intros [|b l2] H1 H2 E; simpl in *.
  - inversion E. auto.
  - inversion E; subst. exfalso. apply H2. now left.
  - inversion E; subst. exfalso. apply H1. now left.
  - inversion E; subst.
    destruct (IH l2) as [-> ->]; auto.
Qed.

Lemma digitsOf_digits (d : Decimal.uint) : forallb isDigit (digitsOf d) = true.
Proof. induction d; simpl; auto. Qed.

Lemma digitsOf_inj (d1 d2 : Decimal.uint) :
  digitsOf d1 = digitsOf d2 -> d1 = d2.
Proof.
  revert d2. induction d1; intros d2 H; destruct d2; simpl in H;
    try discriminate H; try reflexivity;
    inversion H; f_equal; auto.
Qed.

Lemma numberToString_nonneg (z : Z) :
  (0 <= z)%Z ->
  exists d, Z.to_int z = Decimal.Pos d /\ numberToString z = digitsOf d.
Proof.
  intros H. unfold numberToString. destruct z as [|p|p]; simpl.
  - eexists; split; reflexivity.
  - eexists; split; reflexivity.
  - lia.
Qed.

Lemma natToString_inj (n m : nat) : natToString n = natToString m -> n = m.
Proof.
  unfold natToString. intros H.
  destruct (numberToString_nonneg (Z.of_nat n)) as (d1 & E1 & S1); [lia|].
  destruct (numberToString_nonneg (Z.of_nat m)) as (d2 & E2 & S2); [lia|].
  rewrite S1, S2 in H. apply digitsOf_inj in H. subst d2.
  apply Nat2Z.inj, DecimalZ.to_int_inj. congruence.
Qed.

Lemma natToString_digits (n : nat) : forallb isDigit (natToString n) = true.
Proof.
  unfold natToString.
  destruct (numberToString_nonneg (Z.of_nat n)) as (d & _ & S); [lia|].
  rewrite S. apply digitsOf_digits.
Qed.

Lemma digits_no_underscore (s : jsstring) :
  forallb isDigit s = true -> ~ In 95%N s.
Proof.
  rewrite forallb_forall. intros H Hin. now apply H in Hin.
Qed.

(** The signature determines the first 100 code units and the length. *)
Lemma cacheKey_sameSignature (a b : jsstring) :
  cacheKey a = cacheKey b <-> sameSignature a b.
Proof.
  unfold cacheKey, sameSignature. split.
  - intros H. change (u "_") with [95%N] in H. simpl app in H.
    apply (f_equal (@rev jschar)) in H.
    rewrite !rev_app_distr in H. simpl rev in H.
    rewrite <- !app_assoc in H. simpl app in H.
    apply split_at_first in H.
    + destruct H as [H1 H2].
      apply (f_equal (@rev jschar)) in H1, H2.
      rewrite !rev_involutive in H1, H2.
      split; [exact H2 | now apply natToString_inj].
    + rewrite <- in_rev. apply digits_no_underscore, natToString_digits.
    + rewrite <- in_rev. apply digits_no_underscore, natToString_digits.
  - intros [H1 H2]. now rewrite H1, H2.
Qed.

Lemma in_delete_inv {V} (k : jsstring) (e : jsstring * V) (o : table V) :
  In e (delete k o) -> In e o.
Proof.
  induction o as [|[k0 v0] o IH]; simpl; [auto|].
  destruct (streq k k0); simpl; intuition.
Qed.

Lemma length_delete_head {V} (k : jsstring) (v : V) (o : table V) :
  length (delete k ((k, v) :: o)) <= length o.
Proof.
  simpl. rewrite streq_refl.
  induction o as [|[k0 v0] o IH]; simpl; [lia|].
  destruct (streq k k0); simpl; lia.
Qed.

Lemma length_set {V} (k : jsstring) (v : V) (o : table V) :
  length (set k v o) <= S (length o).
Proof.
  induction o as [|[k0 v0] o IH]; simpl; [lia|].
  destruct (streq k k0); simpl; lia.
Qed.

Section Cache.

Context {R : Type} (f : jsstring -> R).

Lemma parseCSS_entries (history : list jsstring) (cache : table R)
  (x : jsstring) :
  entriesFrom f history cache ->
  entriesFrom f (history ++ [x]) (snd (parseCSS cache x f)).
Proof.
  intros H. unfold parseCSS. cbv zeta.
  assert (entriesFrom f (history ++ [x]) cache) as H0.
  { intros k r Hin. destruct (H k r Hin) as (y & Hy & E).
    exists y. split; [apply in_or_app; now left | exact E]. }
  destruct (get (cacheKey x) cache) eqn:G; simpl; [exact H0|].
  assert (entriesFrom f (history ++ [x]) (set (cacheKey x) (f x) cache)) as H1.
  { intros k r Hin. apply in_set_inv in Hin as [E|Hin]; [|now apply H0].
    inversion E; subst. exists x. split; [|split; reflexivity].
    apply in_or_app. right. now left. }
  destruct (maxSize <? _)%nat; [|exact H1].
  destruct (keys _) as [|oldestKey ks]; [exact H1|].
  intros k r Hin. apply in_delete_inv in Hin. now apply H1.
Qed.

Lemma cacheAfter_snoc (history : list jsstring) (x : jsstring) :
  cacheAfter f (history ++ [x]) = snd (parseCSS (cacheAfter f history) x f).
Proof. unfold cacheAfter. now rewrite fold_left_app. Qed.

Lemma cacheAfter_entries (history : list jsstring) :
  entriesFrom f history (cacheAfter f history).
Proof.
  induction history as [|x history IH] using rev_ind.
  - intros k r [].
  - rewrite cacheAfter_snoc. now apply parseCSS_entries.
Qed.

Lemma parseCSS_bounded (cache : table R) (x : jsstring) :
  length cache <= maxSize -> length (snd (parseCSS cache x f)) <= maxSize.
Proof.
  intros H. unfold parseCSS. cbv zeta.
  destruct (get (cacheKey x) cache); simpl; [exact H|].
  destruct (maxSize <? length (set (cacheKey x) (f x) cache))%nat eqn:L.
  - pose proof (length_set (cacheKey x) (f x) cache) as Ls.
    destruct (set (cacheKey x) (f x) cache) as [|[k0 v0] o] eqn:E.
    + simpl. unfold maxSize. lia.
    + cbn [keys map fst].
      pose proof (length_delete_head k0 v0 o). simpl length in Ls. lia.
  - apply Nat.ltb_ge in L. exact L.
Qed.

Lemma cacheAfter_bounded (history : list jsstring) :
  length (cacheAfter f history) <= maxSize.
Proof.
  induction history as [|x history IH] using rev_ind.
  - unfold maxSize. simpl. lia.
  - rewrite cacheAfter_snoc. now apply parseCSS_bounded.
Qed.

Lemma parseCSS_result (cache : table R) (x : jsstring) :
  fst (parseCSS cache x f)
  = match get (cacheKey x) cache with
    | Some r => r
    | None => f x
    end.
Proof. unfold parseCSS. destruct (get _ _); reflexivity. Qed.

End Cache.

(** C4, as the code has it.  After any sequence of calls, starting from
    the empty cache, [parseChineseFormat(input)] returns what the uncached
    parser yields for the input itself or for an earlier input with the
    same signature, that is the same first 100 code units and the same
    length.  It therefore agrees with the uncached parser whenever every
    earlier input with that signature parses to the same RuleMap, and
    always when the input is at most 100 code units long.  The cache never
    holds more than ten entries. *)
Theorem cache_answers_for_the_signature
  (history : list jsstring) (input : jsstring) :
  let cache := cacheAfter _actualParseChineseFormat history in
  let answer := fst (parseChineseFormat cache input) in
  (exists y, (y = input \/ In y history) /\ sameSignature y input
             /\ answer = _actualParseChineseFormat y)
  /\ ((forall y, In y history -> sameSignature y input ->
                 _actualParseChineseFormat y = _actualParseChineseFormat input)
      -> answer = _actualParseChineseFormat input)
  /\ (length input <= 100 -> answer = _actualParseChineseFormat input)
  /\ length cache <= maxSize.
Proof.
  intros cache answer.
  assert (exists y, (y = input \/ In y history) /\ sameSignature y input
                    /\ answer = _actualParseChineseFormat y) as Hex.
  { subst answer. unfold parseChineseFormat. rewrite parseCSS_result.
    destruct (get (cacheKey input) cache) as [r|] eqn:G.
    - apply get_in in G.
      destruct (cacheAfter_entries _actualParseChineseFormat history _ _ G)
        as (y & Hy & Hk & Hr).
      exists y. split; [now right|]. split; [|exact Hr].
      now apply cacheKey_sameSignature.
    - exists input. split; [now left|]. split; [split; reflexivity|].
      reflexivity. }
  split; [exact Hex|]. split; [|split].
  - intros H. destruct Hex as (y & [->|Hy] & Hs & Ha); [exact Ha|].
    rewrite Ha. now apply H.
  - intros Hlen. destruct Hex as (y & _ & [Hp Hl] & Ha).
    rewrite Ha. f_equal. unfold slice0 in Hp.
    rewrite !firstn_all2 in Hp by lia. exact Hp.
  - apply cacheAfter_bounded.
Qed.

Lemma cache_answers_for_the_signature_witness :
  let input := u ".x {" ++ nl ++ u "宽度: 1像素" ++ nl ++ u "}" in
  let history := [u ".y {" ++ nl ++ u "高度: 2像素" ++ nl ++ u "}"; input] in
  length input <= 100
  /\ fst (parseChineseFormat
            (cacheAfter _actualParseChineseFormat history) input)
     = _actualParseChineseFormat input.
Proof.
  intros input history.
  assert (length input <= 100) as L by (vm_compute; lia).
  split; [exact L|].
  apply (cache_answers_for_the_signature history input). exact L.
Defined.

(** C4, as stated, fails: two inputs that agree on their first 100 code
    units and on their length share one cache entry, so the second call
    returns the RuleMap of the first input. *)
Lemma cache_collision :
  let head := u ".x {" ++ nl ++ repeat 32%N 95 in
  let first := head ++ u "宽度: 1像素" ++ nl ++ u "}" in
  let second := head ++ u "宽度: 2像素" ++ nl ++ u "}" in
  length head = 100
  /\ cacheKey first = cacheKey second
  /\ fst (parseChineseFormat
            (cacheAfter _actualParseChineseFormat [first]) second)
     = [(u ".x", [(u "width", u "1px")])]
  /\ _actualParseChineseFormat second = [(u ".x", [(u "width", u "2px")])].
Proof. intros head first second. repeat split; vm_compute; reflexivity. Qed.

(* ===================================================================== *)
(** ** Number-and-unit values through the value translator *)
(* ===================================================================== *)

Lemma lead_neq (c x : jschar) :
  lead c = true -> lead x = false -> (c =? x)%N = false.
Proof.
  intros Hc Hx. destruct (c =? x)%N eqn:E; [|reflexivity].
  apply N.eqb_eq in E. congruence.
Qed.

Lemma streq_lead (v l : jsstring) :
  headLead v = true -> otherHead l = true -> streq v l = false.
Proof.
  destruct v as [|c v]; [discriminate|]. destruct l as [|x l];
    [reflexivity|]. simpl. intros Hc Hx. apply negb_true_iff in Hx.
  now rewrite (lead_neq c x Hc Hx).
Qed.

Lemma startsWith_lead (l v : jsstring) :
  headLead v = true -> otherHead l = true -> truthy l = true ->
  startsWith l v = false.
Proof.
  destruct v as [|c v]; [discriminate|]. destruct l as [|x l];
    [discriminate|]. simpl. intros Hc Hx _. apply negb_true_iff in Hx.
  rewrite N.eqb_sym. now rewrite (lead_neq c x Hc Hx).
Qed.

Lemma get_lead {V} (v : jsstring) (tbl : table V) :
  headLead v = true ->
  forallb (fun e => otherHead (fst e)) tbl = true ->
  get v tbl = None.
Proof.
  intros Hv. induction tbl as [|[k w] tbl IH]; simpl; [reflexivity|].
  intros H. apply andb_true_iff in H as [Hk Ht].
  rewrite (streq_lead v k Hv Hk). now apply IH.
Qed.

Lemma includes_skip_lead (p : jsstring) (c : jschar) (w : jsstring) :
  lead c = true -> otherHead p = true -> truthy p = true ->
  includes p (c :: w) = includes p w.
Proof.
  intros Hc Hp Hn. change (includes p (c :: w))
    with (startsWith p (c :: w) || includes p w).
  now rewrite startsWith_lead.
Qed.

Lemma digit_lead (c : jschar) : isDigit c = true -> lead c = true.
Proof. unfold lead. now intros ->. Qed.

Lemma includes_skip_digits (p ds t : jsstring) :
  forallb isDigit ds = true -> otherHead p = true -> truthy p = true ->
  includes p (ds ++ t) = includes p t.
Proof.
  intros Hd Hp Hn. induction ds as [|c ds IH]; [reflexivity|].
  simpl in Hd. apply andb_true_iff in Hd as [Hc Hd].
  simpl app. rewrite includes_skip_lead;
    [| now apply digit_lead | exact Hp | exact Hn].
  now apply IH.
Qed.

Lemma takeWhile_digits_app (ds t : jsstring) :
  forallb isDigit ds = true -> nonDigitHead t = true ->
  takeWhile isDigit (ds ++ t) = ds.
Proof.
  intros Hd Ht. induction ds as [|c ds IH]; simpl.
  - destruct t as [|x t]; [reflexivity|]. simpl in Ht. simpl.
    apply negb_true_iff in Ht. now rewrite Ht.
  - simpl in Hd. apply andb_true_iff in Hd as [Hc Hd]. rewrite Hc.
    now rewrite IH.
Qed.

Lemma dropWhile_digits_app (ds t : jsstring) :
  forallb isDigit ds = true -> nonDigitHead t = true ->
  dropWhile isDigit (ds ++ t) = t.
Proof.
  intros Hd Ht. induction ds as [|c ds IH]; simpl.
  - destruct t as [|x t]; [reflexivity|]. simpl in Ht. simpl.
    apply negb_true_iff in Ht. now rewrite Ht.
  - simpl in Hd. apply andb_true_iff in Hd as [Hc Hd]. rewrite Hc.
    now apply IH.
Qed.

(** A pattern without digits is matched against the non-digit part
    only. *)
Lemma startsWith_app_digits (p a b : jsstring) :
  forallb (fun x => negb (isDigit x)) p = true ->
  forallb isDigit b = true ->
  startsWith p (a ++ b) = startsWith p a.
Proof.
  revert a. induction p as [|x p IH]; intros a Hp Hb; [reflexivity|].
  simpl in Hp. apply andb_true_iff in Hp as [Hx Hp].
  destruct a as [|z a]; simpl.
  - destruct b as [|y b]; [reflexivity|]. simpl in Hb.
    apply andb_true_iff in Hb as [Hy _].
    destruct (x =? y)%N eqn:E; [|reflexivity].
    apply N.eqb_eq in E. rewrite E, Hy in Hx. discriminate.
  - now rewrite IH.
Qed.

Lemma forallb_rev {A} (f : A -> bool) (l : list A) :
  forallb f (rev l) = forallb f l.
Proof.
  induction l as [|x l IH]; [reflexivity|].
  simpl. rewrite forallb_app, IH. simpl. rewrite andb_true_r.
  apply andb_comm.
Qed.

Lemma endsWith_digits_app (p ds t : jsstring) :
  forallb (fun x => negb (isDigit x)) p = true ->
  forallb isDigit ds = true ->
  endsWith p (ds ++ t) = endsWith p t.
Proof.
  intros Hp Hd. unfold endsWith. rewrite rev_app_distr.
  apply startsWith_app_digits; now rewrite forallb_rev.
Qed.

Lemma replaceFirst_digits_app (p rep ds t : jsstring) :
  forallb isDigit ds = true -> otherHead p = true -> truthy p = true ->
  replaceFirst p rep (ds ++ t) = ds ++ replaceFirst p rep t.
Proof.
  intros Hd Hp Hn. induction ds as [|c ds IH]; [reflexivity|].
  simpl in Hd. apply andb_true_iff in Hd as [Hc Hd]. simpl app.
  change (replaceFirst p rep (c :: ds ++ t))
    with (if startsWith p (c :: ds ++ t)
          then rep ++ skipn (length p) (c :: ds ++ t)
          else c :: replaceFirst p rep (ds ++ t)).
  rewrite startsWith_lead;
    [| simpl; now apply digit_lead | exact Hp | exact Hn].
  now rewrite IH.
Qed.

Lemma parseUnitValueIn_digits (m : table jsstring) (ds cn : jsstring) :
  forallb isDigit ds = true ->
  forallb (fun e => forallb (fun x => negb (isDigit x)) (fst e)
                    && otherHead (fst e) && truthy (fst e)) m = true ->
  parseUnitValueIn m (ds ++ cn)
  = match find (fun e => endsWith (fst e) cn) m with
    | Some e => ds ++ replaceFirst (fst e) [] cn ++ snd e
    | None => ds ++ cn
    end.
Proof.
  intros Hd. induction m as [|[k c] m IH]; [reflexivity|].
  simpl. intros H. apply andb_true_iff in H as [Hk Hm].
  apply andb_true_iff in Hk as [Hk Ht].
  apply andb_true_iff in Hk as [Hk Ho].
  rewrite endsWith_digits_app by assumption.
  destruct (endsWith k cn).
  - rewrite replaceFirst_digits_app by assumption.
    now rewrite <- app_assoc.
  - now apply IH.
Qed.

Lemma stripQuotes_id (v : jsstring) :
  match v with c :: _ => isQuote c = false | [] => True end ->
  match rev v with c :: _ => isQuote c = false | [] => True end ->
  stripQuotes v = v.
Proof.
  intros Hh Hl. unfold stripQuotes. cbv zeta.
  destruct v as [|c v]; [reflexivity|]. rewrite Hh.
  destruct (rev (c :: v)) as [|z r]; [reflexivity|]. now rewrite Hl.
Qed.

Lemma parseValueFuel_unfold (fuel : nat) (value0 property : jsstring) :
  parseValueFuel fuel value0 property
  = if negb (truthy property) then value0
    else
      let value := stripQuotes value0 in
      if lookupTruthy value presetValues then getOr value presetValues value
      else
        match firstCall functionPatternNames value with
        | Some (fnName, params) =>
          match fuel with
          | O => params
          | S fuel' =>
            parseFunctionValueWith (parseValueFuel fuel') fnName params
          end
        | None => parsePlainValue value property
        end.
Proof. destruct fuel; reflexivity. Qed.

Lemma firstCall_lead (names : list jsstring) (v : jsstring) :
  headLead v = true ->
  forallb (fun n => otherHead n && truthy n) names = true ->
  firstCall names v = None.
Proof.
  intros Hv. induction names as [|n names IH]; [reflexivity|].
  simpl. intros H. apply andb_true_iff in H as [Hn Hr].
  apply andb_true_iff in Hn as [Ho Ht].
  unfold matchCall. rewrite startsWith_lead; [now apply IH | assumption | |].
  - destruct n; [discriminate | exact Ho].
  - now destruct n.
Qed.

(** For a value that starts like an integer and carries no quote at
    either end, [parseValue] is its plain part. *)
Lemma parseValue_lead (v property : jsstring) :
  headLead v = true ->
  match rev v with c :: _ => isQuote c = false | [] => True end ->
  truthy property = true ->
  parseValue v property = parsePlainValue v property.
Proof.
  intros Hv Hl Hp. unfold parseValue. rewrite parseValueFuel_unfold.
  rewrite Hp. simpl negb. cbv iota zeta.
  rewrite stripQuotes_id; [| |exact Hl].
  - unfold lookupTruthy. rewrite get_lead; [|exact Hv|vm_compute; reflexivity].
    rewrite firstCall_lead; [reflexivity | exact Hv | vm_compute; reflexivity].
  - destruct v as [|c v]; [exact I|]. simpl in Hv.
    destruct (isQuote c) eqn:Q; [|reflexivity].
    unfold isQuote in Q. apply orb_true_iff in Q as [Q|Q];
      apply N.eqb_eq in Q; subst; discriminate.
Qed.

Lemma plainProperty_spec (property : jsstring) :
  plainProperty property = true ->
  truthy property = true
  /\ endsWith (u "-enabled") property = false
  /\ streq property (u "avatar-layout-mode") = false
  /\ streq property (u "info-layout-mode") = false
  /\ streq property (u "info-direction") = false
  /\ streq property (u "info-position") = false
  /\ streq property (u "avatar-position") = false.
Proof.
  unfold plainProperty. intros H.
  apply andb_true_iff in H as [H H3]. apply andb_true_iff in H as [H1 H2].
  apply negb_true_iff in H2, H3. cbn [existsb] in H3.
  repeat (apply orb_false_iff in H3 as [? H3]). repeat split; assumption.
Qed.

Lemma not_enabled_name (property lit : jsstring) :
  endsWith (u "-enabled") property = false ->
  endsWith (u "-enabled") lit = true ->
  streq property lit = false.
Proof.
  intros Hp Hl. apply streq_neq. intros E. subst. congruence.
Qed.

Lemma isHexColor_lead (v : jsstring) : headLead v = true -> isHexColor v = false.
Proof.
  destruct v as [|c v]; [reflexivity|]. simpl. intros H.
  now rewrite (lead_neq c 35%N H).
Qed.

Lemma parsePlainValue_pass (v property : jsstring) :
  headLead v = true -> isUnitValue v = false ->
  plainProperty property = true ->
  parsePlainValue v property = v.
Proof.
  intros Hv Hu Hp.
  destruct (plainProperty_spec _ Hp) as (_ & He & H1 & H2 & H3 & H4 & H5).
  unfold parsePlainValue. rewrite Hu, He, H1, H2, H3, H4, H5.
  rewrite !startsWith_lead by (assumption || reflexivity).
  now rewrite isHexColor_lead.
Qed.

(** [formatValue] on a value that starts like an integer. *)
Lemma formatValue_lead (v property : jsstring) :
  headLead v = true -> plainProperty property = true ->
  formatValue v property
  = match unitMatch v with
    | Some (num, unit) => num ++ getOr unit cnUnitMap unit
    | None =>
      if includes (u "gradient") v then formatGradient v
      else if includes (u "drop-shadow") v
      then replaceFirst (u "drop-shadow") (u "投影") v
      else v
    end.
Proof.
  intros Hv Hp.
  destruct (plainProperty_spec _ Hp) as (Ht & He & H1 & H2 & H3 & H4 & H5).
  unfold formatValue. rewrite Ht, H1, H2, H3, H4, H5. cbn [negb].
  rewrite !(streq_lead v) by (assumption || reflexivity).
  rewrite !(not_enabled_name property) by (assumption || reflexivity).
  cbn [orb].
  rewrite !startsWith_lead by (assumption || reflexivity).
  rewrite isHexColor_lead by assumption. cbn [orb].
  destruct (unitMatch v) as [[num unit]|]; [reflexivity|].
  unfold lookupTruthy.
  rewrite !(get_lead v) by (assumption || reflexivity).
  reflexivity.
Qed.

Lemma lastOk_app (a s : jsstring) :
  lastOk s = true ->
  match rev (a ++ s) with c :: _ => isQuote c = false | [] => True end.
Proof.
  unfold lastOk. rewrite rev_app_distr.
  destruct (rev s) as [|c r]; [discriminate|]. simpl.
  now intros H%negb_true_iff.
Qed.

Lemma isUnitValue_digits (ds t : jsstring) :
  forallb isDigit ds = true -> ds <> [] -> nonDigitHead t = true ->
  notDot t = true ->
  isUnitValue (ds ++ t) = existsb (streq t) gateUnits.
Proof.
  intros Hd Hn Ht Hdot. unfold isUnitValue. cbv zeta.
  rewrite takeWhile_digits_app, dropWhile_digits_app by assumption.
  destruct ds as [|c ds]; [congruence|]. simpl truthy. simpl andb.
  destruct t as [|x t]; [now rewrite orb_false_r|].
  simpl in Hdot. apply negb_true_iff in Hdot. rewrite Hdot. simpl.
  now rewrite orb_false_r.
Qed.

Lemma unitMatch_digits (ds t : jsstring) :
  forallb isDigit ds = true -> ds <> [] -> nonDigitHead t = true ->
  notDot t = true ->
  unitMatch (ds ++ t)
  = if existsb (streq t) cssUnits then Some (ds, t) else None.
Proof.
  intros Hd Hn Ht Hdot. unfold unitMatch. cbv zeta.
  rewrite takeWhile_digits_app, dropWhile_digits_app by assumption.
  destruct ds as [|c ds]; [congruence|]. simpl truthy. simpl negb. cbv iota.
  destruct (existsb (streq t) cssUnits); [reflexivity|].
  destruct t as [|x t]; [reflexivity|].
  simpl in Hdot. apply negb_true_iff in Hdot. now rewrite Hdot.
Qed.

Lemma unitMap_keys_ok :
  forallb (fun e => forallb (fun x => negb (isDigit x)) (fst e)
                    && otherHead (fst e) && truthy (fst e)) unitMap = true.
Proof. vm_compute. reflexivity. Qed.

Lemma parseUnitValue_digits (ds cn : jsstring) :
  forallb isDigit ds = true ->
  parseUnitValue (ds ++ cn) = ds ++ translatedUnit cn.
Proof.
  intros Hd. unfold parseUnitValue, translatedUnit.
  rewrite parseUnitValueIn_digits by (exact Hd || exact unitMap_keys_ok).
  now destruct (find _ unitMap).
Qed.

Lemma round_trip_digits (ds cn property : jsstring) :
  forallb isDigit ds = true -> ds <> [] ->
  unitOk cn = true -> gateOk cn || passOk cn = true ->
  plainProperty property = true ->
  unitRoundTrip (ds ++ cn) property = ds ++ cn.
Proof.
  intros Hd Hn Hu Hgp Hp. unfold unitOk in Hu.
  repeat (apply andb_true_iff in Hu as [Hu ?]).
  assert (headLead (ds ++ cn) = true) as Hv.
  { destruct ds as [|c ds]; [congruence|]. simpl in Hd.
    apply andb_true_iff in Hd as [Hc _]. simpl. now apply digit_lead. }
  unfold unitRoundTrip.
  rewrite parseValue_lead;
    [| exact Hv | now apply lastOk_app
     | now destruct (plainProperty_spec _ Hp)].
  apply orb_true_iff in Hgp as [Hg|Hpass].
  - unfold gateOk in Hg. repeat (apply andb_true_iff in Hg as [Hg ?]).
    unfold parsePlainValue. rewrite isUnitValue_digits by assumption.
    rewrite Hg. rewrite parseUnitValue_digits by exact Hd.
    rewrite formatValue_lead; [| | exact Hp].
    + rewrite unitMatch_digits by assumption.
      match goal with H : existsb _ cssUnits = true |- _ => rewrite H end.
      f_equal. now apply streq_eq.
    + destruct ds as [|c ds]; [congruence|]. simpl in Hd.
      apply andb_true_iff in Hd as [Hc _]. simpl. now apply digit_lead.
  - unfold passOk in Hpass. apply andb_true_iff in Hpass as [Hg Hc].
    apply negb_true_iff in Hg, Hc.
    rewrite parsePlainValue_pass; [| exact Hv | | exact Hp].
    + rewrite formatValue_lead by assumption.
      rewrite unitMatch_digits by assumption. rewrite Hc.
      rewrite !includes_skip_digits by (assumption || reflexivity).
      match goal with
      | H : negb (includes (u "gradient") cn) = true |- _ =>
        apply negb_true_iff in H; rewrite H
      end.
      match goal with
      | H : negb (includes (u "drop-shadow") cn) = true |- _ =>
        apply negb_true_iff in H; rewrite H
      end.
      reflexivity.
    + rewrite isUnitValue_digits by assumption. exact Hg.
Qed.

Lemma round_trip_negative (ds cn property : jsstring) :
  forallb isDigit ds = true ->
  unitOk cn = true ->
  plainProperty property = true ->
  unitRoundTrip (45%N :: ds ++ cn) property = 45%N :: ds ++ cn.
Proof.
  intros Hd Hu Hp. unfold unitOk in Hu.
  repeat (apply andb_true_iff in Hu as [Hu ?]).
  unfold unitRoundTrip.
  rewrite parseValue_lead;
    [| reflexivity | now apply (lastOk_app (45%N :: ds))
     | now destruct (plainProperty_spec _ Hp)].
  rewrite parsePlainValue_pass; [| reflexivity | reflexivity | exact Hp].
  rewrite formatValue_lead; [| reflexivity | exact Hp].
  change (unitMatch (45%N :: ds ++ cn)) with (@None (jsstring * jsstring)).
  rewrite !includes_skip_lead by reflexivity.
  rewrite !includes_skip_digits by (assumption || reflexivity).
  match goal with
  | H : negb (includes (u "gradient") cn) = true |- _ =>
    apply negb_true_iff in H; rewrite H
  end.
  match goal with
  | H : negb (includes (u "drop-shadow") cn) = true |- _ =>
    apply negb_true_iff in H; rewrite H
  end.
  reflexivity.
Qed.

Lemma digitsOf_nonempty (d : Decimal.uint) :
  d <> Decimal.Nil -> digitsOf d <> [].
Proof. destruct d; simpl; congruence. Qed.

Lemma unitMap_units_ok :
  forallb (fun e => unitOk (fst e)
                    && (streq (fst e) (u "倍") || gateOk (fst e)
                        || passOk (fst e))) unitMap = true.
Proof. vm_compute. reflexivity. Qed.

(** C5, as the code has it.  For every (localized unit, canonical unit)
    pair of the unit table other than the multiplier 倍, whose canonical
    unit is empty, every integer n and every property P with plain
    number-and-unit formatting, [formatValue(parseValue(n + unit, P), P)]
    is [n + unit]; for 倍 this holds when n is negative. *)
Theorem unit_round_trip (cn css : jsstring) (n : Z) (property : jsstring) :
  In (cn, css) unitMap ->
  cn <> u "倍" \/ (n < 0)%Z ->
  plainProperty property = true ->
  unitRoundTrip (numberToString n ++ cn) property = numberToString n ++ cn.
Proof.
  intros Hin Hx Hp.
  pose proof unitMap_units_ok as Hall. rewrite forallb_forall in Hall.
  specialize (Hall _ Hin). cbn [fst] in Hall.
  apply andb_true_iff in Hall as [Hu Hk].
  unfold numberToString. destruct n as [|p|p]; simpl Z.to_int; cbv iota.
  - apply round_trip_digits; try assumption; [reflexivity | discriminate |].
    destruct Hx as [Hx|Hx]; [|lia].
    apply streq_neq in Hx. rewrite Hx in Hk. exact Hk.
  - apply round_trip_digits; try assumption.
    + apply digitsOf_digits.
    + apply digitsOf_nonempty, DecimalPos.Unsigned.to_uint_nonnil.
    + destruct Hx as [Hx|Hx]; [|lia].
      apply streq_neq in Hx. rewrite Hx in Hk. exact Hk.
  - apply round_trip_negative; try assumption. apply digitsOf_digits.
Qed.

Lemma unit_round_trip_witness :
  In (u "度", u "deg") unitMap
  /\ plainProperty (u "width") = true
  /\ unitRoundTrip (numberToString 45 ++ u "度") (u "width")
     = numberToString 45 ++ u "度"
  /\ parseValue (numberToString 45 ++ u "度") (u "width") = u "45deg".
Proof.
  assert (In (u "度", u "deg") unitMap) as Hin
    by (vm_compute; tauto).
  assert (plainProperty (u "width") = true) as Hp by (vm_compute; reflexivity).
  split; [exact Hin|]. split; [exact Hp|]. split.
  - apply (unit_round_trip (u "度") (u "deg") 45 (u "width") Hin);
      [left; vm_compute; discriminate | exact Hp].
  - vm_compute; reflexivity.
Defined.

(** C5, as stated, fails for the multiplier: 倍 is translated to the
    empty unit, and a bare number is not translated back. *)
Lemma multiplier_unit_is_lost :
  In (u "倍", []) unitMap
  /\ plainProperty (u "line-height") = true
  /\ parseValue (numberToString 5 ++ u "倍") (u "line-height") = u "5"
  /\ unitRoundTrip (numberToString 5 ++ u "倍") (u "line-height") = u "5"
  /\ u "5" <> numberToString 5 ++ u "倍".
Proof.
  split; [vm_compute; tauto|].
  repeat split; try (vm_compute; reflexivity).
  vm_compute. discriminate.
Qed.

(* ===================================================================== *)
(** ** The recursion of [parseValue] ends *)
(* ===================================================================== *)

(** [parseValue] calls itself on the two sides of a gradient, which are
    shorter than the value: the depth allowed by [parseValue] is never
    used up, and any larger depth gives the same result. *)

Lemma stripQuotes_length (s : jsstring) :
  length (stripQuotes s) <= length s.
Proof.
  unfold stripQuotes.
  set (s1 := match s with
             | c :: r => if isQuote c then r else s
             | [] => []
             end).
  assert (H1 : length s1 <= length s).
  { unfold s1. destruct s as [|c r]; [apply Nat.le_refl|].
    destruct (isQuote c); simpl; lia. }
  destruct (rev s1) as [|c r] eqn:E; [exact H1|].
  destruct (isQuote c); [|exact H1].
  apply (f_equal (@length _)) in E. rewrite length_rev in E. simpl in E.
  rewrite length_rev. lia.
Qed.

Lemma matchCall_shorter (name value params : jsstring) :
  matchCall name value = Some params -> length params < length value.
Proof.
  unfold matchCall. destruct (startsWith (name ++ [40%N]) value);
    [|discriminate].
  destruct (rev (skipn (length name + 1) value)) as [|c r] eqn:E;
    [discriminate|].
  destruct ((c =? 41)%N && forallb (fun x => negb (isLineTerminator x)) r);
    [|discriminate].
  intros [= <-]. apply (f_equal (@length _)) in E.
  rewrite length_rev, length_skipn in E. simpl in E. rewrite length_rev.
  lia.
Qed.

Lemma firstCall_shorter (names : list jsstring) (value fn params : jsstring) :
  firstCall names value = Some (fn, params) -> length params < length value.
Proof.
  induction names as [|n names IH]; simpl; [discriminate|].
  destruct (matchCall n value) as [p|] eqn:E; [|exact IH].
  intros [= _ <-]. now apply matchCall_shorter in E.
Qed.

Lemma splitStrAux_pieces (sep : jsstring) (s : jsstring) :
  forall skip,
    Forall (fun p => length p <= length s) (splitStrAux sep skip s).
Proof.
  induction s as [|x s IH]; intros skip; simpl.
  - constructor; [simpl; lia|constructor].
  - assert (W : forall l : list jsstring,
               Forall (fun p => length p <= length s) l ->
               Forall (fun p => length p <= S (length s)) l).
    { intros l H. eapply Forall_impl; [|exact H]. simpl. intros; lia. }
    destruct skip as [|k]; [|apply W, IH].
    destruct (startsWith sep (x :: s)).
    + constructor; [simpl; lia|apply W, IH].
    + specialize (IH 0). destruct (splitStrAux sep 0 s) as [|l ls].
      * constructor; [simpl; lia|constructor].
      * inversion IH; subst. constructor; [simpl; lia|now apply W].
Qed.

Lemma parseGradientWith_ext (pv1 pv2 : jsstring -> jsstring -> jsstring)
  (fn : jsstring) (wrap : bool) (params : jsstring) :
  (forall x p, length x <= length params -> pv1 x p = pv2 x p) ->
  parseGradientWith pv1 fn wrap params = parseGradientWith pv2 fn wrap params.
Proof.
  intros H. unfold parseGradientWith.
  pose proof (splitStrAux_pieces (u " 到 ") params 0) as P.
  fold (splitStr (u " 到 ") params) in P.
  destruct (splitStr (u " 到 ") params) as [|p0 [|p1 [|p2 l]]];
    try reflexivity.
  inversion P as [|? ? H0 P1]; subst. inversion P1 as [|? ? H1 _]; subst.
  now rewrite !H.
Qed.

Lemma parseFunctionValueWith_ext
  (pv1 pv2 : jsstring -> jsstring -> jsstring) (fn params : jsstring) :
  (forall x p, length x <= length params -> pv1 x p = pv2 x p) ->
  parseFunctionValueWith pv1 fn params = parseFunctionValueWith pv2 fn params.
Proof.
  intros H. unfold parseFunctionValueWith.
  repeat match goal with
         | |- (if ?c then _ else _) = (if ?c then _ else _) =>
           destruct c; [first [reflexivity
                              |now apply parseGradientWith_ext]|]
         end.
  reflexivity.
Qed.

Lemma parseValueFuel_enough (fuel1 : nat) :
  forall (fuel2 : nat) (value property : jsstring),
    length value <= fuel1 -> length value <= fuel2 ->
    parseValueFuel fuel1 value property
    = parseValueFuel fuel2 value property.
Proof.
  induction fuel1 as [|fuel1 IH]; intros fuel2 value property H1 H2;
    rewrite (parseValueFuel_unfold _ value), (parseValueFuel_unfold fuel2);
    destruct (negb (truthy property)); try reflexivity; cbv zeta;
    destruct (lookupTruthy (stripQuotes value) presetValues);
    try reflexivity;
    destruct (firstCall functionPatternNames (stripQuotes value))
      as [[fn params]|] eqn:E; try reflexivity;
    apply firstCall_shorter in E;
    pose proof (stripQuotes_length value) as L.
  - lia.
  - destruct fuel2 as [|fuel2]; [lia|].
    apply parseFunctionValueWith_ext. intros x p Hx. apply IH; lia.
Qed.

(** With any depth at least the length of the value, the result is that
    of [parseValue]. *)
Lemma parseValue_enough (fuel : nat) (value property : jsstring) :
  length value <= fuel ->
  parseValueFuel fuel value property = parseValue value property.
Proof.
  intros H. unfold parseValue. apply parseValueFuel_enough; [exact H|].
  apply Nat.le_refl.
Qed.

(* ===================================================================== *)
(** ** Round trip through the localized text *)
(* ===================================================================== *)

(** *** The generated text as lines *)

Lemma unlines_app (a b : list jsstring) :
  unlines (a ++ b) = unlines a ++ unlines b.
Proof. unfold unlines. now rewrite map_app, concat_app. Qed.

Lemma unlines_cons (l : jsstring) (ls : list jsstring) :
  unlines (l :: ls) = (l ++ nl) ++ unlines ls.
Proof. reflexivity. Qed.

Lemma ruleText_unlines (rule : jsstring * PropertyMap) :
  ruleText rule = unlines (blockLines rule).
Proof.
  unfold ruleText, blockLines. rewrite unlines_cons, unlines_app.
  f_equal. f_equal.
  unfold unlines, declarationText. now rewrite map_map.
Qed.

Lemma rules_unlines (rules : RuleMap) :
  concat (map ruleText rules) = unlines (concat (map blockLines rules)).
Proof.
  induction rules as [|r rules IH]; [reflexivity|].
  cbn [map concat]. now rewrite unlines_app, IH, ruleText_unlines.
Qed.

Lemma categoryText_unlines (cr : category * RuleMap) :
  categoryText cr = unlines (categoryLines cr).
Proof.
  unfold categoryText, categoryLines. destruct (snd cr) as [|r rules];
    [reflexivity|].
  rewrite unlines_cons, unlines_app, rules_unlines. reflexivity.
Qed.

Lemma document_unlines (rm : RuleMap) :
  concat (map categoryText (categorizeStyles rm)) = unlines (documentLines rm).
Proof.
  unfold documentLines. induction (categorizeStyles rm) as [|cr crs IH];
    [reflexivity|].
  cbn [map concat]. now rewrite unlines_app, IH, categoryText_unlines.
Qed.

(** *** Splitting into lines *)

Lemma splitChar_nonempty (c : jschar) (s : jsstring) : splitChar c s <> [].
Proof.
  induction s as [|x s IH]; simpl; [discriminate|].
  destruct (x =? c)%N; [discriminate|].
  destruct (splitChar c s); discriminate.
Qed.

Lemma noNewline_cons (x : jschar) (l : jsstring) :
  noNewline (x :: l) = true -> (x =? 10)%N = false /\ noNewline l = true.
Proof.
  unfold noNewline. simpl. intros H. apply negb_true_iff in H.
  apply orb_false_iff in H as [H1 H2]. split; [exact H1|].
  now apply negb_true_iff.
Qed.

Lemma splitChar_line (l rest : jsstring) :
  noNewline l = true ->
  splitChar 10%N (l ++ nl ++ rest) = l :: splitChar 10%N rest.
Proof.
  induction l as [|x l IH]; intros H.
  - reflexivity.
  - apply noNewline_cons in H as [Hx Hl]. simpl. rewrite Hx.
    change (l ++ 10%N :: rest) with (l ++ nl ++ rest). now rewrite IH.
Qed.

Lemma splitChar_single (l : jsstring) :
  noNewline l = true -> splitChar 10%N l = [l].
Proof.
  induction l as [|x l IH]; intros H; [reflexivity|].
  apply noNewline_cons in H as [Hx Hl]. simpl. rewrite Hx.
  now rewrite IH.
Qed.

Lemma splitChar_unlines (ls : list jsstring) (last : jsstring) :
  forallb noNewline ls = true -> noNewline last = true ->
  splitChar 10%N (unlines ls ++ last) = ls ++ [last].
Proof.
  intros Hls Hlast. induction ls as [|l ls IH].
  - simpl. now apply splitChar_single.
  - simpl in Hls. apply andb_true_iff in Hls as [Hl Hls].
    rewrite unlines_cons. rewrite <- !app_assoc.
    rewrite splitChar_line by exact Hl. simpl. f_equal. now apply IH.
Qed.

(** *** Trimming the text *)

Lemma trimStart_head (c : jschar) (s : jsstring) :
  isWhiteSpace c = false -> trimStart (c :: s) = c :: s.
Proof. intros H. unfold trimStart. simpl. now rewrite H. Qed.

Lemma trimEnd_snoc_blank (s : jsstring) (c : jschar) :
  isWhiteSpace c = true -> trimEnd (s ++ [c]) = trimEnd s.
Proof.
  intros H. unfold trimEnd. rewrite rev_app_distr. simpl. now rewrite H.
Qed.

Lemma trimEnd_snoc_other (s : jsstring) (c : jschar) :
  isWhiteSpace c = false -> trimEnd (s ++ [c]) = s ++ [c].
Proof.
  intros H. unfold trimEnd. rewrite rev_app_distr. simpl. rewrite H.
  simpl. now rewrite rev_involutive.
Qed.

Lemma trimEnd_brace (s : jsstring) :
  trimEnd (s ++ [125%N; 10%N; 10%N]) = s ++ [125%N].
Proof.
  replace (s ++ [125%N; 10%N; 10%N])
    with (((s ++ [125%N]) ++ [10%N]) ++ [10%N])
    by (now rewrite <- !app_assoc).
  rewrite !trimEnd_snoc_blank by reflexivity.
  now apply trimEnd_snoc_other.
Qed.

(** The text ends with a closing brace, a line feed and an empty line. *)
Lemma trim_document (c : jschar) (s : jsstring) (ls : list jsstring) :
  isWhiteSpace c = false ->
  c :: s = unlines (ls ++ [u "}"; []]) ->
  trim (c :: s) = unlines ls ++ u "}".
Proof.
  intros Hc E. unfold trim. rewrite trimStart_head by exact Hc.
  rewrite E, unlines_app.
  change (unlines [u "}"; []]) with [125%N; 10%N; 10%N].
  apply trimEnd_brace.
Qed.

(** *** The shape of the document *)

Lemma blocks_end (rules : RuleMap) :
  rules <> [] ->
  exists m, concat (map blockLines rules) = m ++ [u "}"].
Proof.
  induction rules as [|r rules IH]; [congruence|]. intros _.
  destruct rules as [|r' rules].
  - simpl. rewrite app_nil_r. unfold blockLines.
    exists (headerLine (fst r) :: map declarationLine (snd r)).
    reflexivity.
  - destruct IH as [m Hm]; [discriminate|].
    exists (blockLines r ++ m). simpl in *. rewrite Hm.
    now rewrite app_assoc.
Qed.

Lemma categoryLines_end (cr : category * RuleMap) :
  snd cr <> [] ->
  exists m, categoryLines cr = m ++ [u "}"; []].
Proof.
  intros H. unfold categoryLines.
  destruct (blocks_end (snd cr) H) as [m Hm].
  destruct (snd cr) as [|r rules]; [congruence|].
  rewrite Hm. exists ((u "# " ++ getCategoryTitle (fst cr)) :: m).
  simpl. now rewrite <- app_assoc.
Qed.

Lemma categoryLines_empty (cr : category * RuleMap) :
  snd cr = [] -> categoryLines cr = [].
Proof. unfold categoryLines. now intros ->. Qed.

Lemma categories_end_or_empty (crs : list (category * RuleMap)) :
  (forall cr, In cr crs -> snd cr = [])
  \/ exists m, concat (map categoryLines crs) = m ++ [u "}"; []].
Proof.
  induction crs as [|cr crs IH]; [left; intros cr []|].
  cbn [map concat]. destruct IH as [Hall|[m Hm]].
  - destruct (snd cr) as [|r rules] eqn:Hs.
    + left. intros x [<-|Hx]; [exact Hs | now apply Hall].
    + right. destruct (categoryLines_end cr) as [m Hm];
        [rewrite Hs; discriminate|].
      exists m. rewrite Hm.
      replace (concat (map categoryLines crs)) with (@nil jsstring);
        [now rewrite app_nil_r|].
      clear - Hall. induction crs as [|y crs IH]; [reflexivity|].
      cbn [map concat]. rewrite categoryLines_empty by (apply Hall; now left).
      apply IH. intros x Hx. apply Hall. now right.
  - right. exists (categoryLines cr ++ m). rewrite Hm. now rewrite app_assoc.
Qed.

Lemma categories_end (crs : list (category * RuleMap)) :
  (exists cr, In cr crs /\ snd cr <> []) ->
  exists m, concat (map categoryLines crs) = m ++ [u "}"; []].
Proof.
  intros (cr & Hin & Hne).
  destruct (categories_end_or_empty crs) as [Hall|H]; [|exact H].
  exfalso. apply Hne. now apply Hall.
Qed.

Lemma category_eqb_refl (c : category) : category_eqb c c = true.
Proof. now destruct c. Qed.

Lemma category_in_order (c : category) : In c categoryOrder.
Proof. destruct c; simpl; auto 7. Qed.

Lemma document_end (rm : RuleMap) :
  rm <> [] -> exists m, documentLines rm = m ++ [u "}"; []].
Proof.
  intros H. unfold documentLines. apply categories_end.
  destruct rm as [|r rm]; [congruence|].
  exists (FormatParser.detectCategory (fst r), rulesOf (FormatParser.detectCategory (fst r)) (r :: rm)).
  split.
  - unfold categorizeStyles.
    apply (in_map (fun c => (c, rulesOf c (r :: rm)))), category_in_order.
  - simpl. unfold rulesOf. simpl. rewrite category_eqb_refl. discriminate.
Qed.

Lemma categoryText_head (cr : category * RuleMap) :
  categoryText cr = [] \/ exists s, categoryText cr = 35%N :: s.
Proof.
  unfold categoryText. destruct (snd cr); [now left|]. right.
  eexists. reflexivity.
Qed.

Lemma document_head (crs : list (category * RuleMap)) :
  concat (map categoryText crs) = []
  \/ exists s, concat (map categoryText crs) = 35%N :: s.
Proof.
  induction crs as [|cr crs IH]; [now left|]. simpl.
  destruct (categoryText_head cr) as [E|[s E]]; rewrite E.
  - exact IH.
  - right. eexists. reflexivity.
Qed.

(** The lines of the generated text: those of the document without the
    empty last line. *)
Lemma generated_lines (rm : RuleMap) :
  rm <> [] ->
  forallb noNewline (documentLines rm) = true ->
  exists m,
    documentLines rm = m ++ [u "}"; []]
    /\ splitChar 10%N (generateChineseFormat rm) = m ++ [u "}"].
Proof.
  intros Hrm Hnl. destruct (document_end rm Hrm) as [m Hm].
  exists m. split; [exact Hm|].
  destruct rm as [|r rm]; [congruence|].
  change (generateChineseFormat (r :: rm))
    with (trim (concat (map categoryText (categorizeStyles (r :: rm))))).
  pose proof (document_unlines (r :: rm)) as D. rewrite Hm in D.
  destruct (document_head (categorizeStyles (r :: rm))) as [E|[s E]].
  - exfalso. rewrite E in D. rewrite unlines_app in D.
    symmetry in D. apply app_eq_nil in D as [_ D]. discriminate D.
  - rewrite E in *.
    assert (trim (35%N :: s) = unlines m ++ u "}") as T
      by (apply trim_document; [reflexivity | exact D]).
    rewrite T. rewrite Hm in Hnl. rewrite forallb_app in Hnl.
    apply andb_true_iff in Hnl as [Hnl _].
    now apply splitChar_unlines.
Qed.

(** *** Reading the lines back *)

Lemma parseLine_plain (lines : list jsstring) (st : pstate)
  (rawLine : jsstring) :
  startsWith (u "@") (trim rawLine) = false ->
  parseLine lines st rawLine = parseLine [] st rawLine.
Proof. intros H. unfold parseLine. cbv zeta. now rewrite H. Qed.

Lemma fold_parseLine_plain (lines ls : list jsstring) (st : pstate) :
  forallb (fun l => negb (startsWith (u "@") (trim l))) ls = true ->
  fold_left (parseLine lines) ls st = fold_left (parseLine []) ls st.
Proof.
  revert st. induction ls as [|l ls IH]; intros st H; [reflexivity|].
  cbn [forallb] in H. apply andb_true_iff in H as [Hl Hls].
  apply negb_true_iff in Hl. cbn [fold_left].
  rewrite (parseLine_plain lines st l Hl). now apply IH.
Qed.

Lemma parseDeclarationLine_declarationOf (st : pstate) (line : jsstring) :
  parseDeclarationLine st line
  = match declarationOf line with
    | Some d => mkPstate (styles st) (currentElement st)
                         (set (fst d) (snd d) (currentStyles st))
    | None => st
    end.
Proof.
  unfold parseDeclarationLine, declarationOf.
  destruct (indexOf (u ":") line); [|reflexivity]. cbv zeta.
  destruct (_ || _); [reflexivity|].
  destruct (truthy _); reflexivity.
Qed.

Lemma plainLine_spec (line : jsstring) :
  plainLine line = true ->
  startsWith (u "@") line = false /\ isSkippedLine line = false.
Proof.
  unfold plainLine. intros H. apply andb_true_iff in H as [H1 H2].
  now apply negb_true_iff in H1, H2.
Qed.

Lemma comment_line (lines : list jsstring) (st : pstate) (c : category) :
  parseLine lines st (u "# " ++ getCategoryTitle c) = st.
Proof. apply skipped_line_step. destruct c; vm_compute; reflexivity. Qed.

Lemma blank_line (lines : list jsstring) (st : pstate) :
  parseLine lines st [] = st.
Proof. apply skipped_line_step. reflexivity. Qed.

Lemma closing_line (st : pstate) :
  parseLine [] st (u "}") = mkPstate (saveCurrent st) None [].
Proof. reflexivity. Qed.

Lemma header_line (st : pstate) (selector : jsstring) :
  headerReadBack selector = true ->
  parseLine [] st (headerLine selector)
  = mkPstate (saveCurrent st) (Some selector) [].
Proof.
  unfold headerReadBack. cbv zeta. intros H.
  repeat (apply andb_true_iff in H as [H ?]).
  match goal with P : plainLine _ = true |- _ =>
    apply plainLine_spec in P as [Pa Ps] end.
  unfold parseLine. cbv zeta. rewrite Pa, Ps.
  match goal with E : endsWith _ _ = true |- _ => rewrite E end.
  cbn [andb]. f_equal. f_equal. now apply streq_eq.
Qed.

Lemma declaration_line (st : pstate) (e : jsstring)
  (decl : jsstring * jsstring) :
  declarationReadBack decl = true ->
  currentElement st = Some e -> truthy e = true ->
  parseLine [] st (declarationLine decl)
  = mkPstate (styles st) (Some e)
             (set (fst decl) (snd decl) (currentStyles st)).
Proof.
  unfold declarationReadBack. cbv zeta. intros H He Ht.
  repeat (apply andb_true_iff in H as [H ?]).
  match goal with P : plainLine _ = true |- _ =>
    apply plainLine_spec in P as [Pa Ps] end.
  unfold parseLine. cbv zeta. rewrite Pa, Ps.
  repeat match goal with
         | E : negb _ = true |- _ => apply negb_true_iff in E; rewrite E
         end.
  match goal with E : includes _ _ = true |- _ => rewrite E end.
  rewrite He, Ht. cbn [andb].
  rewrite parseDeclarationLine_declarationOf.
  destruct (declarationOf (trim (declarationLine decl))) as [d|];
    [|discriminate].
  match goal with E : (_ && _) = true |- _ =>
    apply andb_true_iff in E as [E1 E2] end.
  apply streq_eq in E1, E2. now rewrite He, E1, E2.
Qed.

Lemma has_app {V} (k : jsstring) (a b : table V) :
  has k (a ++ b) = has k a || has k b.
Proof.
  unfold has. rewrite get_app. destruct (get k a); [reflexivity|].
  reflexivity.
Qed.

(** Writing the entries of an object with distinct keys one after the other
    rebuilds it. *)
Lemma rebuild_unique {V} (l acc : table V) :
  uniqueKeys l = true ->
  (forall k, In k (keys l) -> has k acc = false) ->
  fold_left (fun a d => set (fst d) (snd d) a) l acc = acc ++ l.
Proof.
  revert acc. induction l as [|[k v] l IH]; intros acc Hu Hd.
  - now rewrite app_nil_r.
  - cbn [uniqueKeys] in Hu. apply andb_true_iff in Hu as [Hk Hu].
    apply negb_true_iff in Hk. cbn [fold_left fst snd].
    rewrite set_notin by (apply Hd; now left).
    rewrite IH; [now rewrite <- app_assoc | exact Hu |].
    intros k' Hin. rewrite has_app. rewrite Hd by (now right).
    unfold has. cbn [get]. destruct (streq k' k) eqn:E; [|reflexivity].
    apply streq_eq in E. subst k'. apply has_in_keys in Hin. congruence.
Qed.

Lemma declaration_lines (s : RuleMap) (e : jsstring)
  (props acc : PropertyMap) :
  forallb declarationReadBack props = true -> truthy e = true ->
  fold_left (parseLine []) (map declarationLine props)
            (mkPstate s (Some e) acc)
  = mkPstate s (Some e)
             (fold_left (fun a d => set (fst d) (snd d) a) props acc).
Proof.
  intros H He. revert acc. induction props as [|d props IH]; intros acc;
    [reflexivity|].
  cbn [forallb] in H. apply andb_true_iff in H as [Hd Hp].
  cbn [map fold_left].
  rewrite (declaration_line (mkPstate s (Some e) acc) e d Hd eq_refl He).
  cbn [styles currentStyles]. now apply IH.
Qed.

Lemma saveCurrent_idle (st : pstate) :
  currentElement st = None -> saveCurrent st = styles st.
Proof. unfold saveCurrent. now intros ->. Qed.

Lemma ruleReadBack_spec (rule : jsstring * PropertyMap) :
  ruleReadBack rule = true ->
  headerReadBack (fst rule) = true /\ snd rule <> []
  /\ uniqueKeys (snd rule) = true
  /\ forallb declarationReadBack (snd rule) = true.
Proof.
  unfold ruleReadBack. intros H.
  apply andb_true_iff in H as [H Hd]. apply andb_true_iff in H as [H Hu].
  apply andb_true_iff in H as [Hh Hn].
  split; [exact Hh|]. split; [|split; assumption].
  intros E. rewrite E in Hn. discriminate Hn.
Qed.

Lemma headerReadBack_truthy (selector : jsstring) :
  headerReadBack selector = true -> truthy selector = true.
Proof.
  unfold headerReadBack. cbv zeta. intros H.
  now apply andb_true_iff in H as [_ H].
Qed.

(** A block is read back as its rule. *)
Lemma block_lines (st : pstate) (rule : jsstring * PropertyMap) :
  ruleReadBack rule = true -> currentElement st = None ->
  fold_left (parseLine []) (blockLines rule) st
  = mkPstate (set (fst rule) (snd rule) (styles st)) None [].
Proof.
  intros H Hidle. apply ruleReadBack_spec in H as (Hh & Hne & Hu & Hd).
  pose proof (headerReadBack_truthy _ Hh) as Ht.
  unfold blockLines. cbn [fold_left].
  rewrite (header_line st (fst rule) Hh), (saveCurrent_idle st Hidle).
  rewrite fold_left_app.
  rewrite (declaration_lines (styles st) (fst rule) (snd rule) [] Hd Ht).
  rewrite rebuild_unique; [| exact Hu | reflexivity].
  cbn [app fold_left]. rewrite closing_line.
  unfold saveCurrent, canSave. cbn [currentElement currentStyles styles].
  rewrite Ht. destruct (snd rule); [congruence | reflexivity].
Qed.

Lemma blocks_lines (rules : RuleMap) (s : RuleMap) :
  forallb ruleReadBack rules = true ->
  fold_left (parseLine []) (concat (map blockLines rules))
            (mkPstate s None [])
  = mkPstate (fold_left setRule rules s) None [].
Proof.
  revert s. induction rules as [|r rules IH]; intros s H; [reflexivity|].
  cbn [forallb] in H. apply andb_true_iff in H as [Hr Hrs].
  cbn [map concat]. rewrite fold_left_app.
  rewrite (block_lines (mkPstate s None []) r Hr eq_refl).
  cbn [styles fold_left]. now apply IH.
Qed.

Lemma category_lines (cr : category * RuleMap) (s : RuleMap) :
  forallb ruleReadBack (snd cr) = true ->
  fold_left (parseLine []) (categoryLines cr) (mkPstate s None [])
  = mkPstate (fold_left setRule (snd cr) s) None [].
Proof.
  intros H. unfold categoryLines.
  destruct (snd cr) as [|r rules] eqn:E; [reflexivity|].
  cbn [fold_left]. rewrite comment_line, fold_left_app.
  rewrite (blocks_lines (r :: rules) s H).
  cbn [fold_left]. now rewrite blank_line.
Qed.

Lemma categories_lines (crs : list (category * RuleMap)) (s : RuleMap) :
  forallb (fun cr => forallb ruleReadBack (snd cr)) crs = true ->
  fold_left (parseLine []) (concat (map categoryLines crs))
            (mkPstate s None [])
  = mkPstate (fold_left setRule (concat (map snd crs)) s) None [].
Proof.
  revert s. induction crs as [|cr crs IH]; intros s H; [reflexivity|].
  cbn [forallb] in H. apply andb_true_iff in H as [Hc Hcs].
  cbn [map concat]. rewrite !fold_left_app.
  rewrite (category_lines cr s Hc). now apply IH.
Qed.

(** *** The rules in text order *)

Lemma concat_snd_categorize (rm : RuleMap) :
  concat (map snd (categorizeStyles rm)) = rulesInTextOrder rm.
Proof.
  unfold categorizeStyles, rulesInTextOrder. now rewrite map_map.
Qed.

Lemma perm_skip_app {A} (l x y : list A) (a : A) :
  Permutation (a :: x) y -> Permutation (a :: l ++ x) (l ++ y).
Proof.
  intros H. eapply perm_trans; [apply Permutation_middle|].
  now apply Permutation_app_head.
Qed.

Lemma rulesInTextOrder_cons (r : jsstring * PropertyMap) (rm : RuleMap) :
  Permutation (r :: rulesInTextOrder rm) (rulesInTextOrder (r :: rm)).
Proof.
  unfold rulesInTextOrder, rulesOf, categoryOrder. cbn [map concat filter].
  destruct (FormatParser.detectCategory (fst r)); cbn [category_eqb];
    repeat first [ apply Permutation_refl | apply perm_skip_app ].
Qed.

Lemma rulesInTextOrder_perm (rm : RuleMap) :
  Permutation rm (rulesInTextOrder rm).
Proof.
  induction rm as [|r rm IH]; [apply Permutation_refl|].
  eapply perm_trans; [|apply rulesInTextOrder_cons]. now apply perm_skip.
Qed.

Lemma uniqueKeys_perm {V} (a b : table V) :
  Permutation a b -> uniqueKeys a = true -> uniqueKeys b = true.
Proof.
  intros P H. apply uniqueKeys_NoDup. apply uniqueKeys_NoDup in H.
  eapply Permutation_NoDup; [|exact H]. now apply Permutation_map.
Qed.

Lemma get_perm {V} (k : jsstring) (a b : table V) :
  Permutation a b -> uniqueKeys a = true -> get k b = get k a.
Proof.
  intros P Ha. pose proof (uniqueKeys_perm a b P Ha) as Hb.
  destruct (get k a) as [v|] eqn:G.
  - apply in_get_unique; [exact Hb|].
    eapply Permutation_in; [exact P|]. now apply get_in.
  - apply get_none_not_in. apply get_none_not_in in G. intros Hin. apply G.
    eapply Permutation_in; [|exact Hin].
    apply Permutation_sym. now apply Permutation_map.
Qed.

Lemma forallb_filter_keeps {A} (p q : A -> bool) (l : list A) :
  forallb p l = true -> forallb p (filter q l) = true.
Proof.
  induction l as [|x l IH]; [reflexivity|]. cbn [forallb filter].
  intros H. apply andb_true_iff in H as [Hx Hl].
  destruct (q x); cbn [forallb]; [rewrite Hx|]; now apply IH.
Qed.

Lemma categories_readBack (rm : RuleMap) :
  forallb ruleReadBack rm = true ->
  forallb (fun cr => forallb ruleReadBack (snd cr)) (categorizeStyles rm)
  = true.
Proof.
  intros H. unfold categorizeStyles. rewrite forallb_forall.
  intros cr Hin. apply in_map_iff in Hin as (c & <- & _). cbn [snd].
  now apply forallb_filter_keeps.
Qed.

Lemma forallb_concat {A} (p : A -> bool) (ls : list (list A)) :
  forallb p (concat ls) = forallb (forallb p) ls.
Proof.
  induction ls as [|l ls IH]; [reflexivity|].
  cbn [concat forallb]. now rewrite forallb_app, IH.
Qed.

Lemma forallb_map {A B} (p : B -> bool) (f : A -> B) (l : list A) :
  forallb p (map f l) = forallb (fun x => p (f x)) l.
Proof.
  induction l as [|x l IH]; [reflexivity|]. cbn [map forallb].
  now rewrite IH.
Qed.

Lemma blockLines_textLines (rule : jsstring * PropertyMap) :
  ruleReadBack rule = true -> forallb textLine (blockLines rule) = true.
Proof.
  intros H. apply ruleReadBack_spec in H as (Hh & _ & _ & Hd).
  unfold blockLines. cbn [forallb]. rewrite forallb_app.
  apply andb_true_iff. split; [|apply andb_true_iff; split].
  - unfold headerReadBack in Hh. cbv zeta in Hh.
    repeat (apply andb_true_iff in Hh as [Hh ?]).
    match goal with P : plainLine _ = true |- _ =>
      apply plainLine_spec in P as [Pa _] end.
    unfold textLine. now rewrite Hh, Pa.
  - rewrite forallb_forall in *. intros l Hl.
    apply in_map_iff in Hl as (d & <- & Hin). specialize (Hd d Hin).
    unfold declarationReadBack in Hd. cbv zeta in Hd.
    repeat (apply andb_true_iff in Hd as [Hd ?]).
    match goal with P : plainLine _ = true |- _ =>
      apply plainLine_spec in P as [Pa _] end.
    unfold textLine. now rewrite Hd, Pa.
  - reflexivity.
Qed.

Lemma categoryLines_textLines (cr : category * RuleMap) :
  forallb ruleReadBack (snd cr) = true ->
  forallb textLine (categoryLines cr) = true.
Proof.
  intros H. unfold categoryLines.
  destruct (snd cr) as [|r rules]; [reflexivity|].
  cbn [forallb]. rewrite forallb_app, forallb_concat, forallb_map.
  apply andb_true_iff. split; [destruct (fst cr); vm_compute; reflexivity|].
  apply andb_true_iff. split; [|reflexivity].
  rewrite forallb_forall in *. intros x Hx.
  now apply blockLines_textLines, H.
Qed.

Lemma documentLines_textLines (rm : RuleMap) :
  forallb ruleReadBack rm = true ->
  forallb textLine (documentLines rm) = true.
Proof.
  intros H. unfold documentLines. rewrite forallb_concat, forallb_map.
  pose proof (categories_readBack rm H) as C.
  rewrite forallb_forall in *. intros cr Hin.
  now apply categoryLines_textLines, C.
Qed.

Lemma textLines_split (ls : list jsstring) :
  forallb textLine ls = true ->
  forallb noNewline ls = true
  /\ forallb (fun l => negb (startsWith (u "@") (trim l))) ls = true.
Proof.
  induction ls as [|l ls IH]; [now split|]. cbn [forallb]. intros H.
  apply andb_true_iff in H as [Hl Hls]. unfold textLine in Hl.
  apply andb_true_iff in Hl as [H1 H2]. destruct (IH Hls) as [I1 I2].
  now rewrite H1, H2, I1, I2.
Qed.

Lemma rebuild_rules (rules : RuleMap) :
  uniqueKeys rules = true -> fold_left setRule rules [] = rules.
Proof.
  intros H. exact (rebuild_unique rules [] H (fun _ _ => eq_refl)).
Qed.

(** The parser reads the generated text back as the rules in text
    order. *)
Lemma parse_generated (rm : RuleMap) :
  roundTripSafe rm = true ->
  _actualParseChineseFormat (generateChineseFormat rm) = rulesInTextOrder rm.
Proof.
  unfold roundTripSafe. intros H. apply andb_true_iff in H as [Hu Hr].
  destruct rm as [|r0 rm0] eqn:Erm; [reflexivity|]. rewrite <- Erm in *.
  assert (rm <> []) as Hne by (rewrite Erm; discriminate).
  pose proof (documentLines_textLines rm Hr) as Ht.
  destruct (textLines_split _ Ht) as [Hnl Hat].
  destruct (generated_lines rm Hne Hnl) as (m & Hm & Hs).
  unfold _actualParseChineseFormat, parseLines. rewrite Hs.
  rewrite Hm in Hat.
  assert (forallb (fun l => negb (startsWith (u "@") (trim l)))
                  (m ++ [u "}"]) = true) as Hat'.
  { rewrite forallb_app in *. apply andb_true_iff in Hat as [Ha _].
    now rewrite Ha. }
  rewrite (fold_parseLine_plain _ _ _ Hat').
  assert (fold_left (parseLine []) (m ++ [u "}"]) initialState
          = fold_left (parseLine []) (documentLines rm) initialState) as E.
  { rewrite Hm. replace (m ++ [u "}"; []]) with ((m ++ [u "}"]) ++ [[]])
      by (now rewrite <- app_assoc).
    rewrite (fold_left_app _ (m ++ [u "}"]) [[]]). cbn [fold_left].
    now rewrite blank_line. }
  rewrite E. unfold documentLines, initialState.
  rewrite categories_lines by (now apply categories_readBack).
  rewrite saveCurrent_idle by reflexivity. cbn [styles].
  rewrite concat_snd_categorize.
  rewrite rebuild_rules; [reflexivity|].
  exact (uniqueKeys_perm rm _ (rulesInTextOrder_perm rm) Hu).
Qed.

(** Where the lines read back, the rules come back.  For every RuleMap,
    free of decoration blocks, in which each header line and each declaration line that
    [generateChineseFormat] writes is a single line that the parser, taken
    alone, reads back as the selector, respectively the (property, value)
    pair, it was written from, and in which no PropertyMap is empty:
    parsing the generated text yields the same rules, grouped by category;
    so the selectors are the same and each selector has the same
    property-to-value pairs. *)
Theorem round_trip_of_readable_rule_maps (rm : RuleMap) :
  roundTripSafe rm = true ->
  let parsed := _actualParseChineseFormat (generateChineseFormat rm) in
  parsed = rulesInTextOrder rm
  /\ Permutation rm parsed
  /\ forall selector, get selector parsed = get selector rm.
Proof.
  intros H parsed. subst parsed. rewrite (parse_generated rm H).
  split; [reflexivity|]. split; [apply rulesInTextOrder_perm|].
  intros selector. apply get_perm; [apply rulesInTextOrder_perm|].
  unfold roundTripSafe in H. now apply andb_true_iff in H as [H _].
Qed.

Lemma round_trip_of_readable_rule_maps_witness :
  let rm : RuleMap :=
    [(u ".x", [(u "width", u "5px"); (u "color", u "rgb(1,2,3)")]);
     (u "#send_textarea", [(u "display", u "block")])] in
  roundTripSafe rm = true
  /\ _actualParseChineseFormat (generateChineseFormat rm)
     = [(u "#send_textarea", [(u "display", u "block")]);
        (u ".x", [(u "width", u "5px"); (u "color", u "rgb(1,2,3)")])]
  /\ get (u ".x") (_actualParseChineseFormat (generateChineseFormat rm))
     = get (u ".x") rm.
Proof.
  intros rm.
  assert (roundTripSafe rm = true) as H by (vm_compute; reflexivity).
  split; [exact H|].
  destruct (round_trip_of_readable_rule_maps rm H) as (E & _ & G).
  split; [rewrite E; vm_compute; reflexivity | apply G].
Defined.

(** [formatValue] writes a hexadecimal colour as an rgb() triplet, as it
    is meant to, so the value that comes back differs from the one that
    went in. *)
Lemma round_trip_rewrites_hex_colour :
  let rm : RuleMap := [(u ".x", [(u "color", u "#fff")])] in
  generateChineseFormat rm
  = u "# 其他样式" ++ nl ++ u ".x {" ++ nl
      ++ u "  文字颜色: rgb(255,255,255)" ++ nl ++ u "}"
  /\ _actualParseChineseFormat (generateChineseFormat rm)
     = [(u ".x", [(u "color", u "rgb(255,255,255)")])]
  /\ get (u ".x") (_actualParseChineseFormat (generateChineseFormat rm))
     <> get (u ".x") rm.
Proof.
  intros rm. split; [vm_compute; reflexivity|].
  split; [vm_compute; reflexivity|].
  vm_compute. discriminate.
Qed.

(** C1 fails on values and selectors that the writer and the reader do
    not treat alike.  A length in rem is written with the unit 根字高:
    [formatValue] translates every CSS unit, but the test of [parseValue]
    admits 像素, 百分比, 倍, 度 and 字高 only, so the value comes back as
    5根字高 and not as 5rem.  The header of a rule on an id selector that
    has no localized name is written as the bare selector, a line that
    starts with # and that the parser skips as a comment: the declarations
    of the rule are read into no rule and the rule is lost. *)
Theorem round_trip_loses_units_and_id_selectors :
  _actualParseChineseFormat
    (generateChineseFormat [(u ".x", [(u "width", u "5rem")])])
  = [(u ".x", [(u "width", u "5根字高")])]
  /\ formatValue (u "5rem") (u "width") = u "5根字高"
  /\ parseValue (u "5根字高") (u "width") = u "5根字高"
  /\ generateChineseFormat [(u "#leftNavDrawerIcon", [(u "color", u "red")])]
     = u "# 图标样式" ++ nl ++ u "#leftNavDrawerIcon {" ++ nl
         ++ u "  文字颜色: red" ++ nl ++ u "}"
  /\ _actualParseChineseFormat
       (generateChineseFormat
          [(u "#leftNavDrawerIcon", [(u "color", u "red")])])
     = [].
Proof. repeat split; vm_compute; reflexivity. Qed.
(* ===================================================================== *)
(** ** Reconciliation of decorations *)
(* ===================================================================== *)

Import Preprocessor.

(** *** Membership records *)

Lemma lookupNat_storeNat {V} (e e' : nat) (v : V) (l : list (nat * V)) :
  lookupNat e (storeNat e' v l)
  = if Nat.eqb e e' then Some v else lookupNat e l.
Proof.
  induction l as [|[e0 v0] l IH]; simpl.
  - destruct (Nat.eqb e e'); reflexivity.
  - destruct (Nat.eqb e' e0) eqn:E0; simpl.
    + apply Nat.eqb_eq in E0. subst e0.
      destruct (Nat.eqb e e'); reflexivity.
    + rewrite IH. destruct (Nat.eqb e e0) eqn:E1; [|reflexivity].
      apply Nat.eqb_eq in E1. subst e0.
      rewrite Nat.eqb_sym, E0. reflexivity.
Qed.

Lemma lookupNat_dropNat {V} (e e' : nat) (l : list (nat * V)) :
  lookupNat e (dropNat e' l)
  = if Nat.eqb e e' then None else lookupNat e l.
Proof.
  unfold dropNat. induction l as [|[e0 v0] l IH]; simpl.
  - destruct (Nat.eqb e e'); reflexivity.
  - destruct (Nat.eqb e' e0) eqn:E0; simpl.
    + rewrite IH. apply Nat.eqb_eq in E0. subst e0.
      destruct (Nat.eqb e e'); reflexivity.
    + rewrite IH. destruct (Nat.eqb e e0) eqn:E1; [|reflexivity].
      apply Nat.eqb_eq in E1. subst e0.
      rewrite Nat.eqb_sym, E0. reflexivity.
Qed.

Lemma isApplied_appliedIn (pg : page) (e : nat) (id : jsstring) :
  isApplied pg e id = appliedIn (applied pg) e id.
Proof. reflexivity. Qed.

Lemma existsb_setDelete (id rid : jsstring) (ids : list jsstring) :
  existsb (streq id) (setDelete rid ids)
  = existsb (streq id) ids && negb (streq id rid).
Proof.
  unfold setDelete. induction ids as [|x ids IH]; simpl; [reflexivity|].
  destruct (streq rid x) eqn:E; simpl.
  - rewrite IH. apply streq_eq in E. subst x.
    destruct (streq id rid); simpl; [now rewrite andb_false_r|reflexivity].
  - rewrite IH. destruct (streq id x) eqn:E1; simpl; [|reflexivity].
    apply streq_eq in E1. subst x. rewrite streq_sym, E. reflexivity.
Qed.

Lemma existsb_setAdd (id rid : jsstring) (ids : list jsstring) :
  existsb (streq id) (setAdd rid ids)
  = existsb (streq id) ids || streq id rid.
Proof.
  unfold setAdd. destruct (existsb (streq rid) ids) eqn:E.
  - destruct (streq id rid) eqn:E1; [|now rewrite orb_false_r].
    apply streq_eq in E1. subst. rewrite E. reflexivity.
  - rewrite existsb_app. simpl. now rewrite orb_false_r.
Qed.

Lemma appliedIn_forgetOn (r : rule) ap (e' e : nat) (id : jsstring) :
  appliedIn (forgetOn r ap e') e id
  = appliedIn ap e id && negb (Nat.eqb e e' && streq id (ruleId r)).
Proof.
  unfold appliedIn, forgetOn.
  destruct (lookupNat e' ap) as [ids|] eqn:L.
  - pose proof (existsb_setDelete id (ruleId r) ids) as D.
    destruct (setDelete (ruleId r) ids) as [|x xs] eqn:S.
    + rewrite lookupNat_dropNat. destruct (Nat.eqb e e') eqn:E.
      * apply Nat.eqb_eq in E. subst e'. rewrite L. simpl in D.
        cbn [andb]. exact D.
      * cbn [andb negb]. now rewrite andb_true_r.
    + rewrite lookupNat_storeNat. destruct (Nat.eqb e e') eqn:E.
      * apply Nat.eqb_eq in E. subst e'. rewrite L. cbn [andb]. exact D.
      * cbn [andb negb]. now rewrite andb_true_r.
  - destruct (Nat.eqb e e') eqn:E; cbn [andb negb].
    + apply Nat.eqb_eq in E. subst e'. rewrite L. reflexivity.
    + now rewrite andb_true_r.
Qed.

Lemma appliedIn_forget_all (r : rule) (l : list nat) ap (e : nat)
  (id : jsstring) :
  appliedIn (fold_left (forgetOn r) l ap) e id
  = appliedIn ap e id
    && negb (existsb (Nat.eqb e) l && streq id (ruleId r)).
Proof.
  revert ap. induction l as [|e' l IH]; intros ap; simpl.
  - now rewrite andb_true_r.
  - rewrite IH, appliedIn_forgetOn.
    destruct (appliedIn ap e id), (Nat.eqb e e'), (existsb (Nat.eqb e) l),
      (streq id (ruleId r)); reflexivity.
Qed.

(** *** Tagged nodes *)

Lemma nodeIds_restyleFirst cls id e e' cls' style ds :
  map nodeId (filter (taggedAt cls id e) (restyleFirst e' cls' style ds))
  = map nodeId (filter (taggedAt cls id e) ds).
Proof.
  induction ds as [|d ds IH]; simpl; [reflexivity|].
  destruct (Nat.eqb (nodeParent d) e' && streq (nodeClass d) cls'); simpl.
  - change (taggedAt cls id e
                      (mkDecoration (nodeId d) (nodeParent d) (nodeClass d)
                                    (decorationId d) (nodeName d) style))
      with (taggedAt cls id e d).
    destruct (taggedAt cls id e d); reflexivity.
  - destruct (taggedAt cls id e d); simpl; now rewrite IH.
Qed.

(** *** [JSON.stringify] tells style objects apart *)

Lemma hexDigitValue_hexDigit (n : N) : hexDigitValue (hexDigit n) = n.
Proof.
  unfold hexDigitValue, hexDigit.
  destruct (n <? 10)%N eqn:E.
  - apply N.ltb_lt in E.
    assert (H : (48 + n <? 58)%N = true) by (apply N.ltb_lt; lia).
    rewrite H. lia.
  - apply N.ltb_ge in E.
    assert (H : (87 + n <? 58)%N = false) by (apply N.ltb_ge; lia).
    rewrite H. lia.
Qed.

Lemma hexValue_unicodeEscape (c : jschar) (x : jsstring) :
  hexValue (firstn 4 (skipn 2 (unicodeEscape c ++ x))) = c.
Proof.
  unfold unicodeEscape, hexValue. simpl. rewrite !hexDigitValue_hexDigit.
  replace (c / 4096)%N with (c / 16 / 16 / 16)%N
    by (rewrite !N.Div0.div_div; reflexivity).
  replace (c / 256)%N with (c / 16 / 16)%N
    by (rewrite !N.Div0.div_div; reflexivity).
  pose proof (N.Div0.div_mod c 16) as H1.
  pose proof (N.Div0.div_mod (c / 16) 16) as H2.
  pose proof (N.Div0.div_mod (c / 16 / 16) 16) as H3.
  generalize dependent (c mod 16)%N.
  generalize dependent ((c / 16) mod 16)%N.
  generalize dependent ((c / 16 / 16) mod 16)%N.
  generalize dependent (c / 16 / 16 / 16)%N.
  generalize dependent (c / 16 / 16)%N.
  generalize dependent (c / 16)%N. intros. lia.
Qed.

Lemma readString_unicode (c : jschar) (x : jsstring) :
  readString 0 (unicodeEscape c ++ x)
  = let (s, rest) := readString 0 x in (c :: s, rest).
Proof.
  pose proof (hexValue_unicodeEscape c x) as H.
  unfold unicodeEscape in *. simpl in *. rewrite H. reflexivity.
Qed.

Lemma readString_raw (c : jschar) (x : jsstring) :
  (c =? 34)%N = false -> (c =? 92)%N = false ->
  readString 0 (c :: x)
  = let (s, rest) := readString 0 x in (c :: s, rest).
Proof. intros H1 H2. simpl. now rewrite H1, H2. Qed.

Lemma surrogate_raw (c : jschar) :
  isHighSurrogate c || isLowSurrogate c = true ->
  (c =? 34)%N = false /\ (c =? 92)%N = false.
Proof.
  unfold isHighSurrogate, isLowSurrogate. intros H.
  split; apply N.eqb_neq; intros ->; discriminate.
Qed.

Lemma readString_unit (c : jschar) (x : jsstring) :
  readString 0 (escapeUnit c ++ x)
  = let (s, rest) := readString 0 x in (c :: s, rest).
Proof.
  unfold escapeUnit.
  repeat match goal with
         | |- context [(c =? ?k)%N] =>
           destruct (c =? k)%N eqn:?;
           [match goal with H : (c =? _)%N = true |- _ =>
              apply N.eqb_eq in H; subst c; reflexivity end|]
         end.
  destruct (c <? 32)%N; [apply readString_unicode|].
  apply readString_raw; assumption.
Qed.

Lemma readString_escapeJSON (n : nat) :
  forall s x, length s <= n ->
    readString 0 (escapeJSON s ++ 34%N :: x) = (s, x).
Proof.
  induction n as [|n IH]; intros s x Hn.
  - destruct s; [reflexivity|simpl in Hn; lia].
  - destruct s as [|c s]; [reflexivity|]. simpl in Hn.
    cbn [escapeJSON].
    destruct (isHighSurrogate c) eqn:Hh.
    + destruct s as [|d s].
      * rewrite readString_unicode. reflexivity.
      * destruct (isLowSurrogate d) eqn:Hl.
        -- destruct (surrogate_raw c) as [C1 C2]; [now rewrite Hh|].
           destruct (surrogate_raw d) as [D1 D2];
             [now rewrite Hl, orb_true_r|].
           cbn [app]. rewrite readString_raw by assumption.
           rewrite readString_raw by assumption.
           rewrite IH by (simpl in Hn; lia). reflexivity.
        -- rewrite <- app_assoc, readString_unicode.
           rewrite IH by lia. reflexivity.
    + destruct (isLowSurrogate c) eqn:Hl.
      * rewrite <- app_assoc, readString_unicode.
        rewrite IH by lia. reflexivity.
      * rewrite <- app_assoc, readString_unit.
        rewrite IH by lia. reflexivity.
Qed.

Lemma readString_quoted (s x : jsstring) :
  readString 0 (escapeJSON s ++ 34%N :: x) = (s, x).
Proof. apply (readString_escapeJSON (length s)). apply Nat.le_refl. Qed.

Lemma escapeJSON_inj (s1 s2 x1 x2 : jsstring) :
  escapeJSON s1 ++ 34%N :: x1 = escapeJSON s2 ++ 34%N :: x2 ->
  s1 = s2 /\ x1 = x2.
Proof.
  intros H. apply (f_equal (readString 0)) in H.
  rewrite !readString_quoted in H. inversion H. now split.
Qed.

Lemma membersJSON_inj (a : PropertyMap) :
  forall (b : PropertyMap) (x y : jsstring),
    membersJSON a ++ 125%N :: x = membersJSON b ++ 125%N :: y -> a = b.
Proof.
  induction a as [|[k v] a IH]; intros [|[k' v'] b] x y H.
  - reflexivity.
  - discriminate H.
  - discriminate H.
  - cbn [membersJSON] in H. unfold quoteJSON in H.
    repeat (rewrite <- app_assoc in H || rewrite <- app_comm_cons in H).
    cbn [app] in H. injection H as H.
    apply escapeJSON_inj in H as [-> H]. injection H as H.
    repeat (rewrite <- app_assoc in H || rewrite <- app_comm_cons in H).
    apply escapeJSON_inj in H as [-> H].
    destruct a as [|p a], b as [|q b].
    + reflexivity.
    + discriminate H.
    + discriminate H.
    + change (44%N :: (membersJSON (p :: a) ++ 125%N :: x)
              = 44%N :: (membersJSON (q :: b) ++ 125%N :: y)) in H.
      assert (H' : membersJSON (p :: a) ++ 125%N :: x
                   = membersJSON (q :: b) ++ 125%N :: y) by congruence.
      apply IH in H'. now rewrite H'.
Qed.

Lemma stringifyJSON_inj (a b : PropertyMap) :
  stringifyJSON a = stringifyJSON b -> a = b.
Proof.
  unfold stringifyJSON. intros [= H]. now apply membersJSON_inj in H.
Qed.

Lemma stylesChanged_differ (oldRule newRule : rule) :
  stylesChanged oldRule newRule = true
  <-> ruleStyles oldRule <> ruleStyles newRule.
Proof.
  unfold stylesChanged. rewrite negb_true_iff, streq_neq. split.
  - intros H E. apply H. now rewrite E.
  - intros H E. apply H. now apply stringifyJSON_inj.
Qed.

Section Reconciliation.

Variable elements : list nat.
Variable matchesSelector : jsstring -> nat -> bool.
Variable computedPosition : list (nat * PropertyMap) -> nat -> jsstring.

Local Abbreviation qsa := (querySelectorAll elements matchesSelector).
Local Abbreviation applyTo := (applyToElement computedPosition).
Local Abbreviation applyRule :=
  (applyDecoration elements matchesSelector computedPosition).
Local Abbreviation removeRule := (removeSelected elements matchesSelector).
Local Abbreviation reconcile :=
  (Props.reconciled elements matchesSelector computedPosition).
Local Abbreviation act := (Props.act elements matchesSelector computedPosition).
Local Abbreviation run := (Props.run elements matchesSelector computedPosition).

(** **** One element of [applyDecoration] *)

Lemma applyTo_applied r pg e' e id :
  appliedIn (applied (applyTo r pg e')) e id
  = appliedIn (applied pg) e id || (Nat.eqb e e' && streq id (ruleId r)).
Proof.
  unfold applyTo, applyToElement. rewrite isApplied_appliedIn.
  destruct (appliedIn (applied pg) e' (ruleId r)) eqn:A; simpl.
  - destruct (Nat.eqb e e') eqn:E; cbn [andb]; [|now rewrite orb_false_r].
    apply Nat.eqb_eq in E. subst e'.
    destruct (streq id (ruleId r)) eqn:S; [|now rewrite orb_false_r].
    apply streq_eq in S. subst id. now rewrite A.
  - unfold appliedIn at 1. rewrite lookupNat_storeNat.
    destruct (Nat.eqb e e') eqn:E; cbn [andb]; [|now rewrite orb_false_r].
    apply Nat.eqb_eq in E. subst e'. rewrite existsb_setAdd.
    unfold appliedIn. destruct (lookupNat e (applied pg)); reflexivity.
Qed.

Lemma applyTo_nodes r pg e' cls id e :
  nodeIdsAt cls id e (applyTo r pg e')
  = nodeIdsAt cls id e pg
    ++ (if negb (isApplied pg e' (ruleId r))
           && taggedAt cls id e
                (createDecorationElement r e' (nextNode pg))
        then [nextNode pg] else []).
Proof.
  unfold applyTo, applyToElement, nodeIdsAt.
  destruct (isApplied pg e' (ruleId r)); simpl.
  - rewrite nodeIds_restyleFirst. now rewrite app_nil_r.
  - rewrite filter_app, map_app. simpl.
    destruct (taggedAt cls id e (createDecorationElement r e' (nextNode pg)));
      reflexivity.
Qed.

Lemma applyTo_next r pg e' :
  nextNode (applyTo r pg e')
  = if isApplied pg e' (ruleId r) then nextNode pg else S (nextNode pg).
Proof.
  unfold applyTo, applyToElement.
  destruct (isApplied pg e' (ruleId r)); reflexivity.
Qed.

Lemma taggedAt_created cls id e r e' n :
  taggedAt cls id e (createDecorationElement r e' n)
  = Nat.eqb e' e && streq (className r) cls && streq (ruleId r) id.
Proof. reflexivity. Qed.

(** **** [applyDecoration] *)

Lemma apply_fold_next r l pg :
  nextNode pg <= nextNode (fold_left (applyTo r) l pg).
Proof.
  revert pg. induction l as [|e' l IH]; intros pg; simpl; [lia|].
  specialize (IH (applyTo r pg e')). rewrite applyTo_next in IH.
  destruct (isApplied pg e' (ruleId r)); lia.
Qed.

Lemma apply_fold_applied r l pg e id :
  appliedIn (applied (fold_left (applyTo r) l pg)) e id
  = appliedIn (applied pg) e id
    || (existsb (Nat.eqb e) l && streq id (ruleId r)).
Proof.
  revert pg. induction l as [|e' l IH]; intros pg; simpl.
  - now rewrite orb_false_r.
  - rewrite IH, applyTo_applied.
    destruct (appliedIn (applied pg) e id), (Nat.eqb e e'),
      (existsb (Nat.eqb e) l), (streq id (ruleId r)); reflexivity.
Qed.

Lemma existsb_eqb_In (e : nat) (l : list nat) :
  existsb (Nat.eqb e) l = true <-> In e l.
Proof.
  rewrite existsb_exists. split.
  - intros [x [Hx E]]. apply Nat.eqb_eq in E. now subst.
  - intros H. exists e. split; [exact H|apply Nat.eqb_refl].
Qed.

Lemma existsb_eqb_notIn (e : nat) (l : list nat) :
  ~ In e l -> existsb (Nat.eqb e) l = false.
Proof.
  intros H. destruct (existsb (Nat.eqb e) l) eqn:E; [|reflexivity].
  apply existsb_eqb_In in E. contradiction.
Qed.

(** What [applyDecoration] adds under [e] with tag [(cls, id)]: one node
    if the rule has that tag, selects [e] and is not recorded on [e] yet;
    none otherwise. *)
Lemma apply_fold_nodes r l :
  NoDup l ->
  forall pg cls id e,
  exists extra,
    nodeIdsAt cls id e (fold_left (applyTo r) l pg)
    = nodeIdsAt cls id e pg ++ extra
    /\ (forall n, In n extra -> nextNode pg <= n)
    /\ length extra
       = if existsb (Nat.eqb e) l && streq (className r) cls
            && streq (ruleId r) id && negb (isApplied pg e (ruleId r))
         then 1 else 0.
Proof.
  induction 1 as [|e' l Hni Hnd IH]; intros pg cls id e; simpl.
  - exists []. rewrite app_nil_r. repeat split. intros n [].
  - destruct (IH (applyTo r pg e') cls id e) as [extra [Hn [Hf Hl]]].
    rewrite Hn, applyTo_nodes, taggedAt_created, <- app_assoc.
    eexists. split; [reflexivity|]. split.
    + intros n Hin. apply in_app_or in Hin as [Hin|Hin].
      * destruct (negb (isApplied pg e' (ruleId r))
                  && (Nat.eqb e' e && streq (className r) cls
                      && streq (ruleId r) id)).
        -- destruct Hin as [<-|[]]. lia.
        -- destruct Hin.
      * apply Hf in Hin. rewrite applyTo_next in Hin.
        destruct (isApplied pg e' (ruleId r)); lia.
    + rewrite length_app, Hl. rewrite !isApplied_appliedIn, applyTo_applied.
      rewrite (Nat.eqb_sym e' e).
      destruct (Nat.eqb e e') eqn:E.
      * apply Nat.eqb_eq in E. subst e'.
        rewrite (existsb_eqb_notIn e l Hni). cbn [orb andb].
        destruct (streq (className r) cls), (streq (ruleId r) id) eqn:S,
          (appliedIn (applied pg) e (ruleId r)); reflexivity.
      * cbn [orb andb]. rewrite orb_false_r, andb_false_r. reflexivity.
Qed.

(** **** The two loops of [removeDecoration] *)

Lemma remove_next pg r : nextNode (removeRule pg r) = nextNode pg.
Proof. reflexivity. Qed.

Lemma remove_applied pg r e id :
  appliedIn (applied (removeRule pg r)) e id
  = appliedIn (applied pg) e id
    && negb (existsb (Nat.eqb e) (qsa (ruleSelector r))
             && streq id (ruleId r)).
Proof. apply appliedIn_forget_all. Qed.

Lemma remove_nodes pg r cls id e :
  nodeIdsAt cls id e (removeRule pg r)
  = if streq cls (className r) && streq id (ruleId r) then []
    else nodeIdsAt cls id e pg.
Proof.
  unfold nodeIdsAt, removeRule, removeSelected. simpl.
  induction (decorations pg) as [|d ds IH]; simpl.
  - destruct (streq cls (className r) && streq id (ruleId r)); reflexivity.
  - destruct (isDecorationOf r d) eqn:D; simpl.
    + rewrite IH.
      destruct (streq cls (className r) && streq id (ruleId r)) eqn:C;
        [reflexivity|].
      destruct (taggedAt cls id e d) eqn:T; [|reflexivity].
      exfalso. unfold taggedAt in T. unfold isDecorationOf in D.
      apply andb_true_iff in T as [T T3]. apply andb_true_iff in T as [_ T2].
      apply andb_true_iff in D as [D1 D2].
      apply streq_eq in T2, T3, D1, D2.
      rewrite <- T2, <- T3, D1, D2, !streq_refl in C. discriminate.
    + destruct (taggedAt cls id e d) eqn:T; simpl; rewrite IH.
      * destruct (streq cls (className r) && streq id (ruleId r)) eqn:C;
          [|reflexivity].
        exfalso. unfold taggedAt in T. unfold isDecorationOf in D.
        apply andb_true_iff in T as [T T3].
        apply andb_true_iff in T as [_ T2].
        apply andb_true_iff in C as [C1 C2].
        apply streq_eq in T2, T3, C1, C2.
        rewrite T2, T3, C1, C2, !streq_refl in D. discriminate.
      * reflexivity.
Qed.

(** **** Sequences of calls *)

Hypothesis elements_distinct : NoDup elements.

Lemma qsa_distinct selector : NoDup (qsa selector).
Proof. apply NoDup_filter. exact elements_distinct. Qed.

Lemma run_app s1 s2 pg : run (s1 ++ s2) pg = run s2 (run s1 pg).
Proof. apply fold_left_app. Qed.

Lemma run_removes l pg :
  run (map Remove l) pg = fold_left removeRule l pg.
Proof. revert pg. induction l as [|r l IH]; intros pg; simpl; auto. Qed.

Lemma run_applies l pg :
  run (map Apply l) pg = fold_left applyRule l pg.
Proof. revert pg. induction l as [|r l IH]; intros pg; simpl; auto. Qed.

Lemma run_updates l pg :
  run (flat_map (fun r => [Remove r; Apply r]) l) pg
  = fold_left (fun p r => applyRule (removeRule p r) r) l pg.
Proof. revert pg. induction l as [|r l IH]; intros pg; simpl; auto. Qed.

Lemma reconcile_script oldRules newRules pg :
  reconcile oldRules newRules pg = run (script oldRules newRules) pg.
Proof. reflexivity. Qed.

(** **** Loops whose body may raise *)

Lemma forEach_total {S A} (f : S -> A -> option S) (g : S -> A -> S)
  (l : list A) (s : S) :
  (forall a, In a l -> forall s', f s' a = Some (g s' a)) ->
  forEach f l s = Some (fold_left g l s).
Proof.
  revert s. induction l as [|a l IH]; intros s H; [reflexivity|].
  simpl. rewrite (H a (or_introl eq_refl)). apply IH.
  intros b Hb. apply H. now right.
Qed.

Lemma forEach_stops {S A} (f : S -> A -> option S) (l : list A) (s : S)
  (a : A) :
  (forall s', f s' a = None) -> In a l -> forEach f l s = None.
Proof.
  intros Ha. revert s. induction l as [|b l IH]; intros s Hin; [destruct Hin|].
  simpl. destruct Hin as [->|Hin]; [now rewrite Ha|].
  destruct (f s b); [now apply IH | reflexivity].
Qed.

(** When every rule to remove has a plain query, reconciliation comes to
    its end and leaves the page of its calls. *)
Lemma reconcile_plain oldRules newRules pg :
  plainRemovals oldRules newRules = true ->
  reconcileDecorations elements matchesSelector computedPosition
                       oldRules newRules pg
  = Some (run (script oldRules newRules) pg).
Proof.
  unfold plainRemovals. rewrite forallb_app, andb_true_iff.
  rewrite !forallb_forall. intros [Hr Hu].
  unfold reconcileDecorations.
  rewrite (forEach_total _ removeRule).
  2:{ intros r Hin p. unfold removeDecoration. now rewrite (Hr r Hin). }
  rewrite (forEach_total _ (fun p r => applyRule (removeRule p r) r)).
  2:{ intros r Hin p. unfold removeDecoration. now rewrite (Hu r Hin). }
  unfold script. rewrite !run_app, run_removes, run_updates, run_applies.
  reflexivity.
Qed.

(** A rule without a plain query that is to be removed stops
    reconciliation. *)
Lemma reconcile_stops oldRules newRules pg r :
  In r (toRemove oldRules newRules) -> plainQuery r = false ->
  reconcileDecorations elements matchesSelector computedPosition
                       oldRules newRules pg
  = None.
Proof.
  intros Hin Hp. unfold reconcileDecorations.
  rewrite (forEach_stops _ _ _ r); [reflexivity | | exact Hin].
  intros p. unfold removeDecoration. now rewrite Hp.
Qed.

Lemma act_next pg a : nextNode pg <= nextNode (act pg a).
Proof.
  destruct a as [r|r].
  - apply Nat.le_refl.
  - apply (apply_fold_next r (qsa (ruleSelector r)) pg).
Qed.

Lemma run_next s pg : nextNode pg <= nextNode (run s pg).
Proof.
  revert pg. induction s as [|a s IH]; intros pg; [apply Nat.le_refl|].
  change (run (a :: s) pg) with (run s (act pg a)).
  etransitivity; [apply act_next|apply IH].
Qed.

(** A call for a rule with another id leaves the records and the nodes of
    [id] as they are. *)
Lemma act_other a id pg e cls :
  ruleId (ruleOf a) <> id ->
  appliedIn (applied (act pg a)) e id = appliedIn (applied pg) e id
  /\ nodeIdsAt cls id e (act pg a) = nodeIdsAt cls id e pg.
Proof.
  intros Hne. destruct a as [r|r]; simpl in Hne;
    assert (S : streq id (ruleId r) = false)
      by (apply streq_neq; congruence).
  - change (act pg (Remove r)) with (removeRule pg r). split.
    + rewrite remove_applied, S, andb_false_r. now rewrite andb_true_r.
    + rewrite remove_nodes, S, andb_false_r. reflexivity.
  - change (act pg (Apply r))
      with (fold_left (applyTo r) (qsa (ruleSelector r)) pg). split.
    + rewrite apply_fold_applied, S, andb_false_r. now rewrite orb_false_r.
    + destruct (apply_fold_nodes r _ (qsa_distinct (ruleSelector r))
                                 pg cls id e) as [extra [Hn [_ Hl]]].
      rewrite Hn. rewrite (streq_sym (ruleId r) id), S in Hl.
      rewrite andb_false_r in Hl. cbn [andb] in Hl.
      destruct extra; [now rewrite app_nil_r|discriminate].
Qed.

Lemma run_other s id e cls :
  (forall a, In a s -> ruleId (ruleOf a) <> id) ->
  forall pg,
    appliedIn (applied (run s pg)) e id = appliedIn (applied pg) e id
    /\ nodeIdsAt cls id e (run s pg) = nodeIdsAt cls id e pg.
Proof.
  induction s as [|a s IH]; intros Hs pg; [split; reflexivity|].
  change (run (a :: s) pg) with (run s (act pg a)).
  destruct (IH (fun x Hx => Hs x (or_intror Hx)) (act pg a)) as [A B].
  destruct (act_other a id pg e cls (Hs a (or_introl eq_refl))) as [C D].
  split; congruence.
Qed.

(** After [removeDecoration]: no node of the rule, no record of it on the
    elements selected. *)
Lemma remove_effect pg r e :
  nodeIdsAt (className r) (ruleId r) e (removeRule pg r) = []
  /\ (In e (qsa (ruleSelector r)) ->
      isApplied (removeRule pg r) e (ruleId r) = false).
Proof.
  split.
  - now rewrite remove_nodes, !streq_refl.
  - intros Hin. rewrite isApplied_appliedIn, remove_applied.
    apply existsb_eqb_In in Hin. rewrite Hin, streq_refl.
    now rewrite andb_false_r.
Qed.

(** After [applyDecoration] on a page with no record of the rule on [e]:
    one node more, a new one, and the record. *)
Lemma apply_effect pg r e :
  In e (qsa (ruleSelector r)) ->
  isApplied pg e (ruleId r) = false ->
  isApplied (applyRule pg r) e (ruleId r) = true
  /\ exists n,
       nodeIdsAt (className r) (ruleId r) e (applyRule pg r)
       = nodeIdsAt (className r) (ruleId r) e pg ++ [n]
       /\ nextNode pg <= n.
Proof.
  intros Hin Hno. apply existsb_eqb_In in Hin. split.
  - rewrite isApplied_appliedIn.
    change (applyRule pg r)
      with (fold_left (applyTo r) (qsa (ruleSelector r)) pg).
    rewrite apply_fold_applied, Hin, streq_refl. apply orb_true_r.
  - change (applyRule pg r)
      with (fold_left (applyTo r) (qsa (ruleSelector r)) pg).
    destruct (apply_fold_nodes r _ (qsa_distinct (ruleSelector r))
                pg (className r) (ruleId r) e) as [extra [Hn [Hf Hl]]].
    rewrite Hin, !streq_refl, Hno in Hl. cbn [andb negb] in Hl.
    destruct extra as [|n [|? ?]]; try discriminate.
    exists n. split; [exact Hn|]. apply Hf. now left.
Qed.

(** **** The three sets *)

Lemma keyed_in (rules : RuleTable) id r :
  keyedById rules = true -> In (id, r) rules -> id = ruleId r.
Proof.
  unfold keyedById. rewrite forallb_forall. intros H Hin.
  apply H in Hin. now apply streq_eq in Hin.
Qed.

Lemma in_selected (rules : RuleTable) (keep : jsstring * rule -> bool) r :
  uniqueKeys rules = true -> keyedById rules = true ->
  In r (map snd (filter keep rules))
  <-> get (ruleId r) rules = Some r /\ keep (ruleId r, r) = true.
Proof.
  intros Hu Hk. rewrite in_map_iff. split.
  - intros [[id r'] [E Hin]]. simpl in E. subst r'.
    apply filter_In in Hin as [Hin Hkeep].
    pose proof (keyed_in rules id r Hk Hin). subst id.
    split; [now apply in_get_unique|exact Hkeep].
  - intros [Hg Hkeep]. exists (ruleId r, r). split; [reflexivity|].
    apply filter_In. split; [now apply get_in|exact Hkeep].
Qed.

Lemma selected_distinct (rules : RuleTable) (keep : jsstring * rule -> bool) :
  uniqueKeys rules = true -> keyedById rules = true ->
  NoDup (map ruleId (map snd (filter keep rules))).
Proof.
  intros Hu Hk. apply uniqueKeys_NoDup in Hu. unfold keys in Hu.
  unfold keyedById in Hk.
  induction rules as [|[id r] rules IH]; simpl; [constructor|].
  simpl in Hk. apply andb_true_iff in Hk as [Hid Hk].
  apply streq_eq in Hid. simpl in Hid. subst id.
  inversion Hu as [|? ? Hni Hnd]; subst.
  destruct (keep (ruleId r, r)); simpl; [|now apply IH].
  constructor; [|now apply IH].
  intros Hin. apply Hni. rewrite map_map in Hin.
  apply in_map_iff in Hin as [[id' r'] [E Hin]]. simpl in E.
  apply filter_In in Hin as [Hin _].
  assert (id' = ruleId r').
  { rewrite forallb_forall in Hk. apply Hk in Hin.
    now apply streq_eq in Hin. }
  subst id'. rewrite <- E. apply (in_map fst) in Hin. exact Hin.
Qed.

Lemma split_distinct (l : list rule) r :
  NoDup (map ruleId l) -> In r l ->
  exists l1 l2,
    l = l1 ++ r :: l2
    /\ forall x, In x (l1 ++ l2) -> ruleId x <> ruleId r.
Proof.
  intros Hnd Hin. apply in_split in Hin as [l1 [l2 ->]].
  exists l1, l2. split; [reflexivity|].
  rewrite map_app in Hnd. simpl in Hnd. apply NoDup_remove_2 in Hnd.
  intros x Hx E. apply Hnd. rewrite <- map_app, <- E.
  now apply in_map.
Qed.

Lemma in_removes a l : In a (map Remove l) -> In (ruleOf a) l.
Proof. rewrite in_map_iff. intros [r [<- H]]. exact H. Qed.

Lemma in_applies a l : In a (map Apply l) -> In (ruleOf a) l.
Proof. rewrite in_map_iff. intros [r [<- H]]. exact H. Qed.

Lemma in_updates a l :
  In a (flat_map (fun r => [Remove r; Apply r]) l) -> In (ruleOf a) l.
Proof.
  rewrite in_flat_map. intros [r [H [<-|[<-|[]]]]]; exact H.
Qed.

Section Tables.

Variables oldRules newRules : RuleTable.
Hypothesis old_unique : uniqueKeys oldRules = true.
Hypothesis new_unique : uniqueKeys newRules = true.
Hypothesis old_keyed : keyedById oldRules = true.
Hypothesis new_keyed : keyedById newRules = true.

Lemma in_toRemove r :
  In r (toRemove oldRules newRules)
  <-> get (ruleId r) oldRules = Some r /\ has (ruleId r) newRules = false.
Proof.
  unfold toRemove. rewrite in_selected by assumption. simpl.
  now rewrite negb_true_iff.
Qed.

Lemma in_toAdd r :
  In r (toAdd oldRules newRules)
  <-> get (ruleId r) newRules = Some r /\ has (ruleId r) oldRules = false.
Proof.
  unfold toAdd. rewrite in_selected by assumption. simpl.
  now rewrite negb_true_iff.
Qed.

Lemma in_toUpdate r :
  In r (toUpdate oldRules newRules)
  <-> get (ruleId r) newRules = Some r
      /\ exists oldRule,
           get (ruleId r) oldRules = Some oldRule
           /\ stylesChanged oldRule r = true.
Proof.
  unfold toUpdate. rewrite in_selected by assumption. simpl.
  split; intros [Hg H]; (split; [exact Hg|]).
  - destruct (get (ruleId r) oldRules) as [o|]; [|discriminate].
    exists o. now split.
  - destruct H as [o [-> Hs]]. exact Hs.
Qed.

Lemma has_of_get {V} k (o : table V) v : get k o = Some v -> has k o = true.
Proof. unfold has. now intros ->. Qed.

Lemma removed_ids r :
  In r (toRemove oldRules newRules) ->
  has (ruleId r) oldRules = true /\ has (ruleId r) newRules = false.
Proof.
  intros H. apply in_toRemove in H as [Hg Hn]. split; [|exact Hn].
  eapply has_of_get, Hg.
Qed.

Lemma added_ids r :
  In r (toAdd oldRules newRules) ->
  has (ruleId r) oldRules = false /\ has (ruleId r) newRules = true.
Proof.
  intros H. apply in_toAdd in H as [Hg Hn]. split; [exact Hn|].
  eapply has_of_get, Hg.
Qed.

Lemma updated_ids r :
  In r (toUpdate oldRules newRules) ->
  has (ruleId r) oldRules = true /\ has (ruleId r) newRules = true.
Proof.
  intros H. apply in_toUpdate in H as [Hg [o [Ho _]]].
  split; eapply has_of_get; eassumption.
Qed.

(** A rule to remove: once removed, nothing brings it back. *)
Lemma removed_effect r pg e :
  In r (toRemove oldRules newRules) ->
  let final := reconcile oldRules newRules pg in
  nodeIdsAt (className r) (ruleId r) e final = []
  /\ (In e (qsa (ruleSelector r)) -> isApplied final e (ruleId r) = false).
Proof.
  intros Hin final. unfold final. rewrite reconcile_script. unfold script.
  destruct (split_distinct _ r
              (selected_distinct oldRules _ old_unique old_keyed) Hin)
    as [l1 [l2 [E Hd]]].
  fold (toRemove oldRules newRules) in E. rewrite E.
  rewrite map_app. simpl. rewrite <- app_assoc. simpl.
  rewrite run_app.
  set (p1 := run (map Remove l1) pg).
  change (run (Remove r :: ?s) p1) with (run s (removeRule p1 r)).
  match goal with |- context [run ?s (removeRule p1 r)] => set (rest := s) end.
  assert (Hrest : forall a, In a rest -> ruleId (ruleOf a) <> ruleId r).
  { intros a Ha. unfold rest in Ha. apply removed_ids in Hin as [_ Hn].
    apply in_app_or in Ha as [Ha|Ha].
    - apply in_removes in Ha. apply Hd. apply in_or_app. now right.
    - apply in_app_or in Ha as [Ha|Ha].
      + apply in_updates, updated_ids in Ha as [_ Ha]. congruence.
      + apply in_applies, added_ids in Ha as [_ Ha]. congruence. }
  destruct (run_other rest (ruleId r) e (className r) Hrest
                      (removeRule p1 r)) as [A B].
  destruct (remove_effect p1 r e) as [C D].
  split; [congruence|]. intros He. rewrite isApplied_appliedIn, A.
  apply D, He.
Qed.


(** A changed rule: its nodes are removed and made anew. *)
Lemma updated_effect r pg e :
  In r (toUpdate oldRules newRules) ->
  In e (qsa (ruleSelector r)) ->
  let final := reconcile oldRules newRules pg in
  isApplied final e (ruleId r) = true
  /\ exists n,
       nodeIdsAt (className r) (ruleId r) e final = [n]
       /\ nextNode pg <= n.
Proof.
  intros Hin He final. unfold final. rewrite reconcile_script. unfold script.
  destruct (split_distinct _ r
              (selected_distinct newRules _ new_unique new_keyed) Hin)
    as [l1 [l2 [E Hd]]].
  fold (toUpdate oldRules newRules) in E. rewrite E.
  rewrite flat_map_app. cbn [flat_map].
  rewrite <- !app_assoc, <- !app_comm_cons. cbn [app].
  rewrite app_assoc, run_app.
  match goal with |- context [run _ (run ?s pg)] =>
    set (p1 := run s pg); assert (Hp1 : nextNode pg <= nextNode p1)
      by apply run_next
  end.
  change (run (Remove r :: Apply r :: ?s) p1)
    with (run s (applyRule (removeRule p1 r) r)).
  match goal with |- context [run ?s (applyRule _ r)] => set (rest := s) end.
  assert (Hrest : forall a, In a rest -> ruleId (ruleOf a) <> ruleId r).
  { intros a Ha. unfold rest in Ha. apply updated_ids in Hin as [Ho _].
    apply in_app_or in Ha as [Ha|Ha].
    - apply in_updates in Ha. apply Hd. apply in_or_app. now right.
    - apply in_applies, added_ids in Ha as [Ha _]. congruence. }
  destruct (run_other rest (ruleId r) e (className r) Hrest
                      (applyRule (removeRule p1 r) r)) as [A B].
  destruct (remove_effect p1 r e) as [C D].
  destruct (apply_effect (removeRule p1 r) r e He (D He)) as [F [n [G Hn]]].
  split.
  - rewrite isApplied_appliedIn, A. exact F.
  - exists n. split.
    + rewrite B, G, C. reflexivity.
    + rewrite remove_next in Hn. lia.
Qed.

(** A new rule, on an element that holds nothing of it yet. *)
Lemma added_effect r pg e :
  In r (toAdd oldRules newRules) ->
  In e (qsa (ruleSelector r)) ->
  isApplied pg e (ruleId r) = false ->
  nodeIdsAt (className r) (ruleId r) e pg = [] ->
  let final := reconcile oldRules newRules pg in
  isApplied final e (ruleId r) = true
  /\ exists n,
       nodeIdsAt (className r) (ruleId r) e final = [n]
       /\ nextNode pg <= n.
Proof.
  intros Hin He Hno Hnone final. unfold final.
  rewrite reconcile_script. unfold script.
  destruct (split_distinct _ r
              (selected_distinct newRules _ new_unique new_keyed) Hin)
    as [l1 [l2 [E Hd]]].
  fold (toAdd oldRules newRules) in E. rewrite E.
  rewrite map_app. simpl. rewrite !app_assoc. rewrite run_app.
  match goal with |- context [run _ (run ?s pg)] =>
    set (before := s); set (p1 := run before pg);
    assert (Hp1 : nextNode pg <= nextNode p1) by apply run_next
  end.
  change (run (Apply r :: ?s) p1) with (run s (applyRule p1 r)).
  assert (Hbefore : forall a, In a before -> ruleId (ruleOf a) <> ruleId r).
  { intros a Ha. unfold before in Ha. apply added_ids in Hin as [Ho _].
    apply in_app_or in Ha as [Ha|Ha].
    - apply in_app_or in Ha as [Ha|Ha].
      + apply in_removes, removed_ids in Ha as [Ha _]. congruence.
      + apply in_updates, updated_ids in Ha as [Ha _]. congruence.
    - apply in_applies in Ha. apply Hd. apply in_or_app. now left. }
  assert (Hafter : forall a, In a (map Apply l2) ->
                             ruleId (ruleOf a) <> ruleId r).
  { intros a Ha. apply in_applies in Ha. apply Hd. apply in_or_app.
    now right. }
  destruct (run_other before (ruleId r) e (className r) Hbefore pg)
    as [A B].
  fold p1 in A, B.
  assert (Hno1 : isApplied p1 e (ruleId r) = false)
    by (rewrite isApplied_appliedIn, A; exact Hno).
  destruct (apply_effect p1 r e He Hno1) as [F [n [G Hn]]].
  destruct (run_other (map Apply l2) (ruleId r) e (className r) Hafter
                      (applyRule p1 r)) as [C D].
  split.
  - rewrite isApplied_appliedIn, C. exact F.
  - exists n. split.
    + rewrite D, G, B, Hnone. reflexivity.
    + lia.
Qed.

End Tables.


(** Every rule table that [processCSS] builds has one entry per id, stored
    under the id of its rule, and the page it leaves is the reconciliation
    of the previous table with it. *)
Lemma processCSS_reconciles (en : engine) (cssText : jsstring) :
  streq cssText (lastProcessedCSS en) = false ->
  uniqueKeys (scannedRules cssText) = true
  /\ keyedById (scannedRules cssText) = true
  /\ processCSS elements matchesSelector computedPosition en cssText
     = match reconcileDecorations elements matchesSelector computedPosition
               (decorationRules en) (scannedRules cssText) (enginePage en)
       with
       | Some pg =>
         Some (cleanedCSS cssText,
               mkEngine cssText (scannedRules cssText) pg)
       | None => None
       end.
Proof.
  intros Hne. unfold processCSS. rewrite Hne. unfold scannedRules.
  assert (H : forall ms (t : RuleTable),
             uniqueKeys t = true -> keyedById t = true ->
             uniqueKeys
               (fold_left (fun t m => set (ruleId (ruleOfMatch m))
                                          (ruleOfMatch m) t) ms t) = true
             /\ keyedById
                  (fold_left (fun t m => set (ruleId (ruleOfMatch m))
                                             (ruleOfMatch m) t) ms t)
                = true).
  { induction ms as [|m ms IH]; intros t Hu Hk; simpl; [now split|].
    apply IH.
    - now apply uniqueKeys_set.
    - clear IH Hu. unfold keyedById in *.
      induction t as [|[k v] t IHt]; simpl.
      + now rewrite streq_refl.
      + simpl in Hk. apply andb_true_iff in Hk as [Hk1 Hk2].
        destruct (streq (ruleId (ruleOfMatch m)) k); simpl.
        * now rewrite streq_refl, Hk2.
        * now rewrite Hk1, IHt. }
  destruct (H (scanDecorations 0 cssText) [] eq_refl eq_refl) as [A B].
  split; [exact A|]. split; [exact B | reflexivity].
Qed.

(** The node that [createDecorationElement] makes carries the styles of
    the rule without the control property, and does not take pointer
    events unless the styles ask for it. *)
Lemma created_node_style (r : rule) (e n : nat) :
  let d := createDecorationElement r e n in
  get (u "decoration-overflow-mode") (nodeStyle d) = None
  /\ (optTruthy (get (u "pointer-events") (ruleStyles r)) = false ->
      get (u "pointer-events") (nodeStyle d) = Some (u "none"))
  /\ (forall k, k <> u "decoration-overflow-mode" ->
                k <> u "pointer-events" ->
                get k (nodeStyle d) = get k (ruleStyles r)).
Proof.
  assert (F : forall k (s : PropertyMap),
             get k (filteredStyles s)
             = if streq k (u "decoration-overflow-mode") then None
               else get k s).
  { intros k s. unfold filteredStyles.
    induction s as [|[k0 v0] s IH]; simpl.
    - now destruct (streq k (u "decoration-overflow-mode")).
    - destruct (streq k0 (u "decoration-overflow-mode")) eqn:E0; simpl.
      + rewrite IH. destruct (streq k k0) eqn:E; [|reflexivity].
        apply streq_eq in E. subst k0. now rewrite E0.
      + rewrite IH. destruct (streq k k0) eqn:E; [|reflexivity].
        apply streq_eq in E. subst k0. now rewrite E0. }
  simpl. unfold appliedStyle.
  assert (P : get (u "pointer-events") (filteredStyles (ruleStyles r))
              = get (u "pointer-events") (ruleStyles r))
    by (rewrite F; reflexivity).
  rewrite P.
  destruct (optTruthy (get (u "pointer-events") (ruleStyles r))) eqn:T.
  - split; [rewrite F; now rewrite streq_refl|].
    split; [discriminate|].
    intros k Hk _. rewrite F. apply streq_neq in Hk. now rewrite Hk.
  - split.
    + rewrite get_set_other by (apply streq_neq; vm_compute; discriminate).
      rewrite F. now rewrite streq_refl.
    + split; [intros _; apply get_set_same|].
      intros k Hk Hp. rewrite get_set_other by (now apply streq_neq).
      rewrite F. apply streq_neq in Hk. now rewrite Hk.
Qed.

End Reconciliation.


(** A rule written on an attribute selector cannot be removed.  Its id
    holds the quotes of the selector, and [removeDecoration] puts the id
    unescaped between the quotes of its query: the text is no selector
    (the browser raises a SyntaxError), the nodes of the rule stay, and
    [processCSS] does not come to its end. *)
Lemma removal_stops_at_a_quoted_selector :
  let elements := [1; 2] in
  let matchesSelector := fun (selector : jsstring) (e : nat) =>
    streq selector (u ".mes[is_user=" ++ dq ++ u "true" ++ dq ++ u "]") in
  let computedPosition :=
    fun (_ : list (nat * PropertyMap)) (_ : nat) => u "static" in
  let process := processCSS elements matchesSelector computedPosition in
  let start := mkEngine [] [] (mkPage [] [] [] [] 0) in
  match process start
          (u "@.mes[is_user=" ++ dq ++ u "true" ++ dq
             ++ u "]:star { color: red }") with
  | Some (_, en) =>
    map (fun p => decorationQuery (snd p)) (decorationRules en)
    = [u ".ve-decoration-star[data-decoration-id=" ++ dq
         ++ u ".mes[is_user=" ++ dq ++ u "true" ++ dq ++ u "]-star"
         ++ dq ++ u "]"]
    /\ map plainQuery (toRemove (decorationRules en) []) = [false]
    /\ length (decorations (enginePage en)) = 2
    /\ process en (u ".x { color: red }") = None
  | None => False
  end.
Proof. vm_compute. repeat split; reflexivity. Qed.

(** The comparison of the style maps is made on their JSON text, which
    lists the declarations in their order: the same declarations in
    another order count as a change. *)
Lemma reordered_declarations_count_as_changed :
  let before := [(u "color", u "red"); (u "width", u "1px")] in
  let after := [(u "width", u "1px"); (u "color", u "red")] in
  let oldRule :=
    mkRule (u "a-b") (u ".a") (u "a") (u "b") before (u "ve-decoration-b") in
  let newRule :=
    mkRule (u "a-b") (u ".a") (u "a") (u "b") after (u "ve-decoration-b") in
  (forall k, get k before = get k after)
  /\ toUpdate [(u "a-b", oldRule)] [(u "a-b", newRule)] = [newRule].
Proof.
  intros before after oldRule newRule. split; [|vm_compute; reflexivity].
  intros k. unfold before, after. cbn [get].
  destruct (streq k (u "color")) eqn:C, (streq k (u "width")) eqn:W;
    try reflexivity.
  apply streq_eq in C, W. subst k. vm_compute in W. discriminate W.
Qed.

(* ===================================================================== *)
(** ** The decoration engine beyond reconciliation *)
(* ===================================================================== *)

(** *** Matches of the decoration pattern *)

Lemma startsWith_refl (a : jsstring) : startsWith a a = true.
Proof. induction a as [|x a IH]; simpl; [reflexivity|]. now rewrite N.eqb_refl. Qed.

Lemma startsWith_app (a b c : jsstring) :
  startsWith (a ++ b) (a ++ c) = startsWith b c.
Proof.
  induction a as [|x a IH]; simpl; [reflexivity|]. now rewrite N.eqb_refl.
Qed.

Lemma startsWith_prefix (a c : jsstring) : startsWith a (a ++ c) = true.
Proof.
  rewrite <- (app_nil_r a) at 1. rewrite startsWith_app.
  destruct c; reflexivity.
Qed.

Lemma takeWhile_dropWhile {A} (p : A -> bool) (l : list A) :
  takeWhile p l ++ dropWhile p l = l.
Proof.
  induction l as [|x l IH]; simpl; [reflexivity|].
  destruct (p x); simpl; [now rewrite IH|reflexivity].
Qed.

Lemma dropWhile_head {A} (p : A -> bool) (l : list A) (x : A) (r : list A) :
  dropWhile p l = x :: r -> p x = false.
Proof.
  induction l as [|y l IH]; simpl; [discriminate|].
  destruct (p y) eqn:E; [exact IH|]. intros [= -> _]. exact E.
Qed.

(** A match is a prefix of the text from its at sign on. *)
Lemma matchDecoration_prefix (r : jsstring) m :
  matchDecoration r = Some m -> startsWith (fullMatch m) (64%N :: r) = true.
Proof.
  unfold matchDecoration. cbv zeta.
  set (inName := fun c => negb (isColon c) && negb (c =? 123)%N).
  set (notOpen := fun c : N => negb (c =? 123)%N).
  set (notClose := fun c : N => negb (c =? 125)%N).
  intros H.
  pose proof (takeWhile_dropWhile inName r) as E1.
  destruct (takeWhile inName r) as [|n0 name] eqn:Tn; [discriminate H|].
  destruct (dropWhile inName r) as [|colon afterColon] eqn:Dn;
    [discriminate H|].
  destruct (isColon colon); [|discriminate H].
  pose proof (takeWhile_dropWhile notOpen afterColon) as E2.
  destruct (takeWhile notOpen afterColon) as [|d0 decoration] eqn:Td;
    [discriminate H|].
  destruct (dropWhile notOpen afterColon) as [|open afterOpen] eqn:Dd;
    [discriminate H|].
  pose proof (dropWhile_head _ _ _ _ Dd) as Ho. unfold notOpen in Ho.
  apply negb_false_iff, N.eqb_eq in Ho. subst open.
  pose proof (takeWhile_dropWhile notClose afterOpen) as E3.
  destruct (takeWhile notClose afterOpen) as [|b0 body] eqn:Tb;
    [discriminate H|].
  destruct (dropWhile notClose afterOpen) as [|close tail] eqn:Db;
    [discriminate H|].
  pose proof (dropWhile_head _ _ _ _ Db) as Hc. unfold notClose in Hc.
  apply negb_false_iff, N.eqb_eq in Hc. subst close.
  injection H as <-. unfold fullMatch.
  rewrite <- E1, <- E2, <- E3.
  replace (64%N :: (n0 :: name)
             ++ colon :: (d0 :: decoration) ++ 123%N :: (b0 :: body)
             ++ 125%N :: tail)
    with (((64%N :: n0 :: name) ++ (colon :: d0 :: decoration)
             ++ (123%N :: b0 :: body) ++ [125%N]) ++ tail)
    by (repeat (cbn [app]; rewrite <- ?app_assoc); reflexivity).
  apply startsWith_prefix.
Qed.

Lemma fullMatch_truthy m : truthy (fullMatch m) = true.
Proof. destruct m as [[[name colon] decoration] body]. reflexivity. Qed.

Lemma includes_cons (p : jsstring) (c : jschar) (s : jsstring) :
  includes p (c :: s) = startsWith p (c :: s) || includes p s.
Proof. reflexivity. Qed.

Lemma scanDecorations_cons (c : jschar) (r : jsstring) :
  scanDecorations 0 (c :: r)
  = if (c =? 64)%N then
      match matchDecoration r with
      | Some m => m :: scanDecorations (length (fullMatch m) - 1) r
      | None => scanDecorations 0 r
      end
    else scanDecorations 0 r.
Proof. reflexivity. Qed.

Lemma hasDecorationSyntax_scan (cssText : jsstring) :
  hasDecorationSyntax cssText = true ->
  exists m rest,
    scanDecorations 0 cssText = m :: rest
    /\ includes (fullMatch m) cssText = true.
Proof.
  induction cssText as [|c r IH]; [discriminate|].
  intros H. cbn [hasDecorationSyntax] in H.
  rewrite scanDecorations_cons.
  assert (Later : hasDecorationSyntax r = true ->
                  exists m rest,
                    scanDecorations 0 r = m :: rest
                    /\ includes (fullMatch m) (c :: r) = true).
  { intros H'. destruct (IH H') as [m [rest [E I]]].
    exists m, rest. split; [exact E|].
    rewrite includes_cons, I. apply orb_true_r. }
  destruct (c =? 64)%N eqn:C; [|exact (Later H)].
  apply N.eqb_eq in C. subst c.
  destruct (matchDecoration r) as [m|] eqn:M; [|exact (Later H)].
  exists m. eexists. split; [reflexivity|].
  rewrite includes_cons. apply orb_true_iff. left.
  exact (matchDecoration_prefix r m M).
Qed.

Lemma no_syntax_no_match (cssText : jsstring) :
  hasDecorationSyntax cssText = false -> scanDecorations 0 cssText = [].
Proof.
  induction cssText as [|c r IH]; [reflexivity|].
  intros H. cbn [hasDecorationSyntax] in H. rewrite scanDecorations_cons.
  destruct (c =? 64)%N; [|exact (IH H)].
  destruct (matchDecoration r); [discriminate H|]. exact (IH H).
Qed.

Lemma replaceFirst_length (pat s : jsstring) :
  length (replaceFirst pat [] s) <= length s.
Proof.
  induction s as [|x s IH].
  - simpl. destruct (startsWith pat []); simpl; [|lia].
    rewrite skipn_nil. simpl. lia.
  - cbn [replaceFirst]. destruct (startsWith pat (x :: s)).
    + cbn [app]. rewrite length_skipn. lia.
    + simpl. lia.
Qed.

Lemma replaceFirst_shorter (pat s : jsstring) :
  truthy pat = true -> includes pat s = true ->
  length (replaceFirst pat [] s) < length s.
Proof.
  intros Hp. induction s as [|x s IH].
  - simpl. destruct pat; [discriminate|]. simpl. discriminate.
  - cbn [includes replaceFirst].
    destruct (startsWith pat (x :: s)) eqn:E.
    + intros _. cbn [app]. rewrite length_skipn.
      destruct pat; [discriminate|]. simpl. lia.
    + simpl. intros H. specialize (IH H). lia.
Qed.

Section Engine.

Variable elements : list nat.
Variable matchesSelector : jsstring -> nat -> bool.
Variable computedPosition : list (nat * PropertyMap) -> nat -> jsstring.

Local Abbreviation qsa := (querySelectorAll elements matchesSelector).
Local Abbreviation applyTo := (applyToElement computedPosition).
Local Abbreviation applyRule :=
  (applyDecoration elements matchesSelector computedPosition).
Local Abbreviation removeRule := (removeSelected elements matchesSelector).
Local Abbreviation process :=
  (processCSS elements matchesSelector computedPosition).
Local Abbreviation newNode := (processNewNode matchesSelector computedPosition).
Local Abbreviation newNodes :=
  (processNewNodes matchesSelector computedPosition).
Local Abbreviation applyAll :=
  (applyAllDecorations elements matchesSelector computedPosition).

(** *** Texts without decoration syntax *)

Lemma forEach_plain (rules : list rule) (pg : page) :
  forallb plainQuery rules = true ->
  forEach (removeDecoration elements matchesSelector) rules pg
  = Some (fold_left removeRule rules pg).
Proof.
  revert pg. induction rules as [|r rules IH]; intros pg H; [reflexivity|].
  simpl in H. apply andb_true_iff in H as [Hr H].
  simpl. unfold removeDecoration at 1. rewrite Hr. now apply IH.
Qed.

Lemma nothing_kept (oldRules : RuleTable) :
  toRemove oldRules [] = map snd oldRules
  /\ toUpdate oldRules [] = [] /\ toAdd oldRules [] = [].
Proof.
  unfold toRemove, toUpdate, toAdd. simpl. split; [|split; reflexivity].
  f_equal. induction oldRules as [|p l IH]; simpl; congruence.
Qed.

Lemma reconcile_to_nothing (oldRules : RuleTable) (pg : page) :
  forallb plainQuery (map snd oldRules) = true ->
  reconcileDecorations elements matchesSelector computedPosition
                       oldRules [] pg
  = Some (fold_left removeRule (map snd oldRules) pg).
Proof.
  intros H. unfold reconcileDecorations.
  destruct (nothing_kept oldRules) as (-> & -> & ->).
  now rewrite forEach_plain.
Qed.

Lemma scanned_rules_nonempty ms (t : RuleTable) :
  ms <> [] \/ t <> [] ->
  fold_left (fun t m => set (ruleId (ruleOfMatch m)) (ruleOfMatch m) t) ms t
  <> [].
Proof.
  revert t. induction ms as [|m ms IH]; intros t H; simpl.
  - destruct H as [H|H]; [congruence|exact H].
  - apply IH. right. destruct t as [|[k v] t]; simpl; [discriminate|].
    destruct (streq (ruleId (ruleOfMatch m)) k); discriminate.
Qed.

Lemma processCSS_rules (en : engine) (cssText : jsstring)
  (result : jsstring * engine) :
  streq cssText (lastProcessedCSS en) = false ->
  process en cssText = Some result ->
  decorationRules (snd result) = scannedRules cssText.
Proof.
  intros Hne. unfold processCSS. rewrite Hne. cbv zeta.
  destruct (reconcileDecorations _ _ _ _ _ _); [|discriminate].
  intros [= <-]. reflexivity.
Qed.


(** *** Repeated calls *)

Lemma cleaning_length ms (css : jsstring) :
  length (fold_left (fun css m => replaceFirst (fullMatch m) [] css) ms css)
  <= length css.
Proof.
  revert css. induction ms as [|m ms IH]; intros css; simpl; [lia|].
  etransitivity; [apply IH|apply replaceFirst_length].
Qed.

Lemma cleanedCSS_shorter (cssText : jsstring) :
  hasDecorationSyntax cssText = true ->
  length (cleanedCSS cssText) < length cssText.
Proof.
  intros Hs. unfold cleanedCSS.
  apply hasDecorationSyntax_scan in Hs as [m [rest [E I]]]. rewrite E.
  cbn [fold_left].
  eapply Nat.le_lt_trans; [apply cleaning_length|].
  apply replaceFirst_shorter; [apply fullMatch_truthy|exact I].
Qed.


Lemma processCSS_last (en : engine) (cssText : jsstring)
  (result : jsstring * engine) :
  process en cssText = Some result ->
  lastProcessedCSS (snd result) = cssText.
Proof.
  unfold processCSS. destruct (streq cssText (lastProcessedCSS en)) eqn:E.
  - apply streq_eq in E. intros [= <-]. simpl. congruence.
  - cbv zeta. destruct (reconcileDecorations _ _ _ _ _ _); [|discriminate].
    intros [= <-]. reflexivity.
Qed.

(** X3. after [clearAllDecorations], processing the text that was processed
    last restores nothing, whatever the state of the engine was: the call
    returns at once, the rule table stays empty and no record or tracked
    node comes back.  The text processed last is the one of the last call
    of [processCSS] that came to its end. *)
Theorem cleared_decorations_are_not_restored (en : engine) :
  let cleared := clearAllDecorations en in
  process cleared (lastProcessedCSS en)
  = Some (lastProcessedCSS en, cleared)
  /\ decorationRules cleared = []
  /\ applied (enginePage cleared) = []
  /\ tracked (enginePage cleared) = []
  /\ forall before cssText result,
       process before cssText = Some result ->
       lastProcessedCSS (snd result) = cssText.
Proof.
  intros cleared. split; [|split; [|split; [|split]]]; try reflexivity.
  - unfold processCSS. unfold cleared. cbn [lastProcessedCSS clearAllDecorations].
    now rewrite streq_refl.
  - intros before cssText result. apply processCSS_last.
Qed.

(** *** Applying a rule again *)

Lemma applyTo_recorded r pg e :
  isApplied pg e (ruleId r) = true ->
  let pg' := applyTo r pg e in
  applied pg' = applied pg /\ tracked pg' = tracked pg
  /\ elementStyle pg' = elementStyle pg /\ nextNode pg' = nextNode pg
  /\ length (decorations pg') = length (decorations pg)
  /\ forall cls id e', nodeIdsAt cls id e' pg' = nodeIdsAt cls id e' pg.
Proof.
  intros H. unfold applyToElement. rewrite H. simpl.
  do 4 (split; [reflexivity|]). split.
  - induction (decorations pg) as [|d ds IH]; simpl; [reflexivity|].
    destruct (Nat.eqb (nodeParent d) e && streq (nodeClass d) (className r));
      simpl; congruence.
  - intros cls id e'. unfold nodeIdsAt. simpl. apply nodeIds_restyleFirst.
Qed.

Lemma apply_fold_recorded r l :
  forall pg,
    (forall e, In e l -> isApplied pg e (ruleId r) = true) ->
    let pg' := fold_left (applyTo r) l pg in
    applied pg' = applied pg /\ tracked pg' = tracked pg
    /\ elementStyle pg' = elementStyle pg /\ nextNode pg' = nextNode pg
    /\ length (decorations pg') = length (decorations pg)
    /\ forall cls id e', nodeIdsAt cls id e' pg' = nodeIdsAt cls id e' pg.
Proof.
  induction l as [|e l IH]; intros pg H; simpl.
  - do 5 (split; [reflexivity|]). reflexivity.
  - destruct (applyTo_recorded r pg e (H e (or_introl eq_refl)))
      as (A1 & A2 & A3 & A4 & A5 & A6).
    destruct (IH (applyTo r pg e)) as (B1 & B2 & B3 & B4 & B5 & B6).
    { intros e' He'. rewrite isApplied_appliedIn, A1.
      apply (H e' (or_intror He')). }
    do 5 (split; [congruence|]).
    intros cls id e'. now rewrite B6, A6.
Qed.


(** *** New nodes *)

Lemma processNewNode_applyTo r pg n :
  newNode r pg n
  = if matchesSelector (ruleSelector r) n
       && negb (isApplied pg n (ruleId r))
    then applyTo r pg n else pg.
Proof.
  unfold processNewNode, applyToElement.
  destruct (matchesSelector (ruleSelector r) n); [|reflexivity].
  destruct (isApplied pg n (ruleId r)); reflexivity.
Qed.

Lemma processNewNode_applied r pg n e id :
  appliedIn (applied (newNode r pg n)) e id
  = appliedIn (applied pg) e id
    || (matchesSelector (ruleSelector r) n && Nat.eqb e n
        && streq id (ruleId r)).
Proof.
  rewrite processNewNode_applyTo.
  destruct (matchesSelector (ruleSelector r) n); cbn [andb];
    [|now rewrite orb_false_r].
  destruct (isApplied pg n (ruleId r)) eqn:A; cbn [negb].
  - destruct (Nat.eqb e n) eqn:E; cbn [andb]; [|now rewrite orb_false_r].
    apply Nat.eqb_eq in E. subst n.
    destruct (streq id (ruleId r)) eqn:S; [|now rewrite orb_false_r].
    apply streq_eq in S. subst id.
    rewrite isApplied_appliedIn in A. now rewrite A.
  - apply (applyTo_applied computedPosition).
Qed.

Lemma newNodes_fold_applied r nodes :
  forall pg e id,
    appliedIn (applied (fold_left (newNode r) nodes pg)) e id
    = appliedIn (applied pg) e id
      || (matchesSelector (ruleSelector r) e && existsb (Nat.eqb e) nodes
          && streq id (ruleId r)).
Proof.
  induction nodes as [|n nodes IH]; intros pg e id; simpl.
  - now rewrite andb_false_r, orb_false_r.
  - rewrite IH, processNewNode_applied.
    destruct (Nat.eqb e n) eqn:E.
    + apply Nat.eqb_eq in E. subst n.
      destruct (appliedIn (applied pg) e id),
        (matchesSelector (ruleSelector r) e), (existsb (Nat.eqb e) nodes),
        (streq id (ruleId r)); reflexivity.
    + destruct (appliedIn (applied pg) e id),
        (matchesSelector (ruleSelector r) n),
        (matchesSelector (ruleSelector r) e), (existsb (Nat.eqb e) nodes),
        (streq id (ruleId r)); reflexivity.
Qed.

Lemma newNodes_rules_applied rules nodes :
  forall pg e id,
    appliedIn (applied pg) e id = true
    \/ (exists r, In r rules /\ matchesSelector (ruleSelector r) e = true
                  /\ In e nodes /\ id = ruleId r) ->
    appliedIn
      (applied (fold_left (fun pg r => fold_left (newNode r) nodes pg)
                          rules pg)) e id = true.
Proof.
  induction rules as [|r rules IH]; intros pg e id H; simpl.
  - destruct H as [H|[r [[] _]]]. exact H.
  - apply IH. rewrite newNodes_fold_applied.
    destruct H as [H|[r' [[->|Hin] [Hm [He ->]]]]].
    + left. now rewrite H.
    + left. apply existsb_eqb_In in He. rewrite Hm, He, streq_refl.
      apply orb_true_r.
    + right. exists r'. repeat split; assumption.
Qed.

Lemma newNodes_nothing_to_do rules nodes pg :
  (forall r n, In r rules -> In n nodes ->
               matchesSelector (ruleSelector r) n = true ->
               isApplied pg n (ruleId r) = true) ->
  fold_left (fun pg r => fold_left (newNode r) nodes pg) rules pg = pg.
Proof.
  intros H. induction rules as [|r rules IH]; simpl; [reflexivity|].
  assert (E : fold_left (newNode r) nodes pg = pg).
  { assert (G : forall l, incl l nodes -> fold_left (newNode r) l pg = pg).
    { induction l as [|n l IHl]; intros Hl; simpl; [reflexivity|].
      rewrite processNewNode_applyTo.
      destruct (matchesSelector (ruleSelector r) n) eqn:M.
      - rewrite (H r n (or_introl eq_refl) (Hl n (or_introl eq_refl)) M).
        simpl. apply IHl. intros x Hx. apply Hl. now right.
      - simpl. apply IHl. intros x Hx. apply Hl. now right. }
    apply G, incl_refl. }
  rewrite E. apply IH. intros r' n Hr. apply H. now right.
Qed.


Lemma applyAll_applied rules :
  forall pg e id,
    appliedIn (applied pg) e id = true
    \/ (exists r, In r rules /\ In e (qsa (ruleSelector r))
                  /\ id = ruleId r) ->
    appliedIn (applied (fold_left applyRule rules pg)) e id = true.
Proof.
  induction rules as [|r rules IH]; intros pg e id H; simpl.
  - destruct H as [H|[r [[] _]]]. exact H.
  - apply IH. unfold applyDecoration at 1.
    rewrite (apply_fold_applied computedPosition).
    destruct H as [H|[r' [[->|Hin] [He ->]]]].
    + left. now rewrite H.
    + left. apply existsb_eqb_In in He. rewrite He, streq_refl.
      apply orb_true_r.
    + right. exists r'. repeat split; assumption.
Qed.


End Engine.




(* ===================================================================== *)
(** ** The alias dictionaries read both ways *)
(* ===================================================================== *)

Lemma getOr_found (k : jsstring) (o : table jsstring) (d v : jsstring) :
  get k o = Some v -> truthy v = true -> getOr k o d = v.
Proof. unfold getOr. intros -> ->. reflexivity. Qed.

Lemma getOr_missing (k : jsstring) (o : table jsstring) (d : jsstring) :
  has k o = false -> getOr k o d = d.
Proof.
  unfold getOr, has. destruct (get k o); [discriminate|reflexivity].
Qed.

(** Reading a name through a reversed table and back through the direct
    one, when every entry of the reversed table is backed by the direct
    one. *)
Lemma reverse_lookup (direct reversed : table jsstring) (k : jsstring) :
  forallb (fun e => truthy (fst e) && truthy (snd e)
                    && optIs (get (snd e) direct) (fst e))
          reversed = true ->
  has k reversed = true \/ has k direct = false ->
  getOr (getOr k reversed k) direct (getOr k reversed k) = k.
Proof.
  intros Hall Hk. destruct (get k reversed) as [a|] eqn:G.
  - rewrite forallb_forall in Hall. specialize (Hall _ (get_in _ _ _ G)).
    simpl in Hall. apply andb_true_iff in Hall as [Hall Hd].
    apply andb_true_iff in Hall as [Tk Ta].
    rewrite (getOr_found k reversed k a G Ta).
    unfold optIs in Hd.
    destruct (get a direct) as [v|] eqn:Gd; [|discriminate].
    apply streq_eq in Hd. subst v. now apply getOr_found.
  - assert (Hr : has k reversed = false) by (unfold has; now rewrite G).
    rewrite (getOr_missing k reversed k Hr).
    destruct Hk as [Hk|Hk]; [congruence|]. now apply getOr_missing.
Qed.





(* ===================================================================== *)
(** ** Style declarations of a decoration block *)
(* ===================================================================== *)

(** What every entry of a parsed style object satisfies. *)
Lemma parseStyleDeclaration_entries (P : jsstring -> jsstring -> Prop)
  (styles : PropertyMap) (declaration : jsstring) :
  (forall prop value p,
     translateProperty prop = Some p -> truthy p = true ->
     truthy (translateValue value (Some p)) = true ->
     P p (translateValue value (Some p))) ->
  (forall k v, In (k, v) styles -> P k v) ->
  forall k v, In (k, v) (parseStyleDeclaration styles declaration) -> P k v.
Proof.
  intros Hnew Hold k v. unfold parseStyleDeclaration.
  destruct (negb (truthy (trim declaration))); [apply Hold|].
  destruct (findColon declaration) as [i|]; [|apply Hold].
  destruct (translateProperty (trim (substringTo i declaration)))
    as [p|] eqn:Tp; [|apply Hold].
  destruct (truthy p) eqn:T1; [|apply Hold]. cbn [andb].
  destruct (truthy (translateValue
                      (trim (substringFrom (i + 1) declaration)) (Some p)))
    eqn:T2; [|apply Hold].
  intros Hin. apply in_set_inv in Hin as [E|Hin]; [|now apply Hold].
  injection E as -> ->. eapply Hnew; eassumption.
Qed.

Lemma parseStyles_entries (P : jsstring -> jsstring -> Prop)
  (styleText : jsstring) :
  (forall prop value p,
     translateProperty prop = Some p -> truthy p = true ->
     truthy (translateValue value (Some p)) = true ->
     P p (translateValue value (Some p))) ->
  forall k v, In (k, v) (parseStyles styleText) -> P k v.
Proof.
  intros Hnew. unfold parseStyles.
  assert (G : forall l styles,
             (forall k v, In (k, v) styles -> P k v) ->
             forall k v,
               In (k, v) (fold_left parseStyleDeclaration l styles) ->
               P k v).
  { induction l as [|d l IH]; intros styles Hs; simpl; [exact Hs|].
    apply IH. now apply parseStyleDeclaration_entries. }
  apply G. intros k v [].
Qed.

Lemma parseStyles_uniqueKeys (styleText : jsstring) :
  uniqueKeys (parseStyles styleText) = true.
Proof.
  unfold parseStyles.
  assert (G : forall l styles,
             uniqueKeys styles = true ->
             uniqueKeys (fold_left parseStyleDeclaration l styles) = true).
  { induction l as [|d l IH]; intros styles Hs; simpl; [exact Hs|].
    apply IH. unfold parseStyleDeclaration.
    destruct (negb (truthy (trim d))); [exact Hs|].
    destruct (findColon d) as [i|]; [|exact Hs].
    destruct (translateProperty (trim (substringTo i d))) as [p|];
      [|exact Hs].
    destruct (truthy p && _); [|exact Hs]. now apply uniqueKeys_set. }
  now apply G.
Qed.

(** X9. the style object that [parseStyles] builds holds each property
    once, and neither an empty property name nor an empty value. *)
Theorem parsed_styles_are_well_formed (styleText : jsstring) :
  uniqueKeys (parseStyles styleText) = true
  /\ forall prop value,
       In (prop, value) (parseStyles styleText) ->
       truthy prop = true /\ truthy value = true.
Proof.
  split; [apply parseStyles_uniqueKeys|].
  apply (parseStyles_entries
           (fun k v => truthy k = true /\ truthy v = true)).
  intros prop value p _ T1 T2. now split.
Qed.

(** X10. whatever is written for the control property of a decoration, the
    value that [parseStyles] stores for it is "allow-overflow" or
    "contain". *)
Theorem overflow_mode_has_two_values (styleText value : jsstring) :
  get (u "decoration-overflow-mode") (parseStyles styleText) = Some value ->
  value = u "allow-overflow" \/ value = u "contain".
Proof.
  intros G. apply get_in in G.
  apply (parseStyles_entries
           (fun k v => k = u "decoration-overflow-mode" ->
                       v = u "allow-overflow" \/ v = u "contain")
           styleText) with (k := u "decoration-overflow-mode");
    [|exact G|reflexivity].
  intros prop v p _ _ _ ->. unfold translateValue. rewrite streq_refl.
  destruct (streq v (u "超出") || streq v (u "允许超出") || streq v (u "是"));
    [now left|now right].
Qed.

Lemma overflow_mode_has_two_values_witness :
  let styleText := u "color: red; 超出父元素: 大概" in
  get (u "decoration-overflow-mode") (parseStyles styleText)
  = Some (u "contain")
  /\ (u "contain" = u "allow-overflow" \/ u "contain" = u "contain").
Proof.
  intros styleText.
  assert (H : get (u "decoration-overflow-mode") (parseStyles styleText)
              = Some (u "contain")) by (vm_compute; reflexivity).
  split; [exact H|].
  exact (overflow_mode_has_two_values styleText (u "contain") H).
Defined.


(* ===================================================================== *)
(** ** The generator: ordering, merging, preprocessing *)
(* ===================================================================== *)

(** *** The order of the declarations *)

Lemma arrayIndexOf_bound (x : jsstring) (l : list jsstring) (i : nat) :
  arrayIndexOf x l = Some i -> i < length l.
Proof.
  revert i. induction l as [|y l IH]; intros i; simpl; [discriminate|].
  destruct (streq y x); [intros [= <-]; lia|].
  destruct (arrayIndexOf x l) as [j|]; [|discriminate].
  intros [= <-]. specialize (IH j eq_refl). lia.
Qed.

Lemma compareProps_before lc (a b : jsstring) :
  (compareProps lc a b <? 0)%Z = true -> rankOf a <= rankOf b.
Proof.
  unfold compareProps, rankOf. intros H. apply Z.ltb_lt in H.
  destruct (arrayIndexOf a propertyOrder) as [i|] eqn:A,
           (arrayIndexOf b propertyOrder) as [j|] eqn:B; try lia.
  apply arrayIndexOf_bound in A. lia.
Qed.

Lemma compareProps_not_before lc (a b : jsstring) :
  (compareProps lc a b <? 0)%Z = false -> rankOf b <= rankOf a.
Proof.
  unfold compareProps, rankOf. intros H. apply Z.ltb_ge in H.
  destruct (arrayIndexOf a propertyOrder) as [i|] eqn:A,
           (arrayIndexOf b propertyOrder) as [j|] eqn:B; try lia.
  apply arrayIndexOf_bound in B. lia.
Qed.

Lemma nondecreasing_cons (a : nat) (l : list nat) :
  nondecreasing (a :: l)
  = match l with [] => true | b :: _ => Nat.leb a b end && nondecreasing l.
Proof. destruct l; [reflexivity|reflexivity]. Qed.

Lemma insertSorted_ranks lc (x : jsstring * jsstring) l :
  nondecreasing (map (fun e => rankOf (fst e)) l) = true ->
  nondecreasing (map (fun e => rankOf (fst e)) (insertSorted lc x l)) = true.
Proof.
  induction l as [|y l IH]; intros H; [reflexivity|].
  cbn [insertSorted].
  destruct (compareProps lc (fst x) (fst y) <? 0)%Z eqn:C.
  - cbn [map]. rewrite nondecreasing_cons. cbn [map] in H. rewrite H.
    apply compareProps_before in C. apply Nat.leb_le in C. now rewrite C.
  - cbn [map] in *. rewrite nondecreasing_cons in H.
    apply andb_true_iff in H as [Hh Ht]. rewrite nondecreasing_cons.
    rewrite (IH Ht), andb_true_r.
    apply compareProps_not_before in C.
    destruct l as [|z l]; cbn [insertSorted map].
    + now apply Nat.leb_le.
    + destruct (compareProps lc (fst x) (fst z) <? 0)%Z; cbn [map].
      * now apply Nat.leb_le.
      * exact Hh.
Qed.

(** X11. [sortProperties] returns the declarations it is given, each once,
    placed by the position of their property in [propertyOrder]: listed
    properties first, in the order of the list, the others after them.
    This holds for every collation [localeCompare]. *)
Theorem sorted_declarations_follow_propertyOrder
  (localeCompare : jsstring -> jsstring -> Z) (properties : PropertyMap) :
  let sorted := sortProperties localeCompare properties in
  Permutation properties sorted
  /\ nondecreasing (map (fun e => rankOf (fst e)) sorted) = true.
Proof.
  intros sorted. split; [apply sortProperties_perm|].
  unfold sorted, sortProperties.
  assert (G : forall l acc,
             nondecreasing (map (fun e => rankOf (fst e)) acc) = true ->
             nondecreasing
               (map (fun e => rankOf (fst e))
                    (fold_left (fun acc x => insertSorted localeCompare x acc)
                               l acc)) = true).
  { induction l as [|x l IH]; intros acc H; simpl; [exact H|].
    apply IH. now apply insertSorted_ranks. }
  now apply G.
Qed.

(** *** Merging of longhands *)

Lemma get_deleteSides (prefix k : jsstring) (o : PropertyMap) :
  streq k (prefix ++ u "-top") = false ->
  streq k (prefix ++ u "-right") = false ->
  streq k (prefix ++ u "-bottom") = false ->
  streq k (prefix ++ u "-left") = false ->
  get k (deleteSides prefix o) = get k o.
Proof.
  intros H1 H2 H3 H4. unfold deleteSides.
  now rewrite !get_delete, H1, H2, H3, H4.
Qed.

Lemma get_mergeBoxInto (prefix k : jsstring) (o : PropertyMap) :
  streq k prefix = false ->
  streq k (prefix ++ u "-top") = false ->
  streq k (prefix ++ u "-right") = false ->
  streq k (prefix ++ u "-bottom") = false ->
  streq k (prefix ++ u "-left") = false ->
  get k (mergeBoxInto prefix o) = get k o.
Proof.
  intros H0 H1 H2 H3 H4. unfold mergeBoxInto.
  destruct (canMergeBox o prefix); [|reflexivity].
  destruct (mergeBox o prefix) as [v|]; [|reflexivity].
  destruct (truthy v); [|reflexivity].
  rewrite get_deleteSides by assumption. now apply get_set_other.
Qed.

(** X12. [mergeProperties] touches the margin, padding and border properties
    only: every other property keeps its value, or stays absent. *)
Theorem merging_leaves_other_properties (properties : PropertyMap)
  (prop : jsstring) :
  existsb (streq prop) mergedNames = false ->
  get prop (mergeProperties properties) = get prop properties.
Proof.
  intros H. unfold mergedNames in H. cbn [existsb] in H.
  repeat (apply orb_false_iff in H as [? H]).
  unfold mergeProperties. cbv zeta.
  assert (E : get prop (mergeBoxInto (u "padding")
                          (mergeBoxInto (u "margin") properties))
              = get prop properties)
    by (rewrite !get_mergeBoxInto; (reflexivity || assumption)).
  destruct (canMergeBorder _); [|exact E].
  destruct (mergeBorder _) as [v|]; [|exact E].
  destruct (truthy v); [|exact E].
  unfold deleteBorderParts. rewrite !get_delete.
  repeat match goal with
         | Hs : streq prop ?n = false |- context [streq prop ?m] =>
           change (streq prop m) with (streq prop n); rewrite Hs
         end.
  rewrite get_set_other by assumption. exact E.
Qed.

Lemma merging_leaves_other_properties_witness :
  let properties :=
    [(u "color", u "red"); (u "margin-top", u "1px");
     (u "margin-right", u "1px"); (u "margin-bottom", u "1px");
     (u "margin-left", u "1px")] in
  existsb (streq (u "color")) mergedNames = false
  /\ keys (mergeProperties properties) = [u "color"; u "margin"]
  /\ get (u "color") (mergeProperties properties) = Some (u "red").
Proof.
  intros properties.
  assert (H : existsb (streq (u "color")) mergedNames = false)
    by (vm_compute; reflexivity).
  split; [exact H|]. split; [vm_compute; reflexivity|].
  rewrite (merging_leaves_other_properties properties (u "color") H).
  vm_compute. reflexivity.
Defined.

(** *** Redundant longhands *)

Lemma delete_filter {V} (k : jsstring) (o : table V) :
  delete k o = filter (fun d => negb (streq k (fst d))) o.
Proof.
  induction o as [|[k0 v0] o IH]; simpl; [reflexivity|].
  destruct (streq k k0); simpl; now rewrite IH.
Qed.

Lemma filter_filter {A} (f g : A -> bool) (l : list A) :
  filter f (filter g l) = filter (fun x => g x && f x) l.
Proof.
  induction l as [|x l IH]; simpl; [reflexivity|].
  destruct (g x); simpl; [destruct (f x)|]; now rewrite IH.
Qed.

Lemma filter_all {A} (f : A -> bool) (l : list A) :
  (forall x, In x l -> f x = true) -> filter f l = l.
Proof.
  induction l as [|x l IH]; intros H; simpl; [reflexivity|].
  rewrite (H x (or_introl eq_refl)). f_equal. apply IH.
  intros y Hy. apply H. now right.
Qed.

Lemma get_filter_kept (keep : jsstring -> bool) (k : jsstring)
  (o : PropertyMap) :
  keep k = true -> get k (filter (fun d => keep (fst d)) o) = get k o.
Proof.
  intros Hk. induction o as [|[k0 v0] o IH]; simpl; [reflexivity|].
  destruct (keep k0) eqn:K0; simpl.
  - now rewrite IH.
  - destruct (streq k k0) eqn:E; [|exact IH].
    apply streq_eq in E. congruence.
Qed.

Lemma deleteAll_filter (names : list jsstring) (o : PropertyMap) :
  fold_right (@delete jsstring) o names
  = filter (fun d => negb (existsb (streq (fst d)) names)) o.
Proof.
  induction names as [|n names IH]; simpl.
  - symmetry. apply filter_all. reflexivity.
  - rewrite IH, delete_filter, filter_filter. apply filter_ext.
    intros [k v]. cbn [fst]. rewrite (streq_sym n k).
    destruct (streq k n), (existsb (streq k) names); reflexivity.
Qed.

Lemma stage_filter (c : bool) (names : list jsstring)
  (keep : jsstring -> bool) (o properties : PropertyMap) :
  o = filter (fun d => keep (fst d)) properties ->
  (if c then fold_right (@delete jsstring) o names else o)
  = filter (fun d => keep (fst d)
                     && negb (c && existsb (streq (fst d)) names))
           properties.
Proof.
  intros ->. destruct c.
  - rewrite deleteAll_filter, filter_filter. reflexivity.
  - apply filter_ext. intros d. now rewrite andb_true_r.
Qed.

Lemma removeRedundant_stages (properties : PropertyMap) :
  removeRedundant properties
  = let c1 :=
      if optTruthy (get (u "border") properties)
      then fold_right (@delete jsstring) properties
             [u "border-left"; u "border-bottom"; u "border-right";
              u "border-top"; u "border-color"; u "border-style";
              u "border-width"]
      else properties in
    let c2 :=
      if optTruthy (get (u "margin") c1)
      then fold_right (@delete jsstring) c1
             [u "margin-left"; u "margin-bottom"; u "margin-right";
              u "margin-top"]
      else c1 in
    let c3 :=
      if optTruthy (get (u "padding") c2)
      then fold_right (@delete jsstring) c2
             [u "padding-left"; u "padding-bottom"; u "padding-right";
              u "padding-top"]
      else c2 in
    if match get (u "background") c3 with
       | Some bg => truthy bg && negb (includes (u "gradient") bg)
       | None => false
       end
    then fold_right (@delete jsstring) c3
           [u "background-size"; u "background-position";
            u "background-repeat"; u "background-image";
            u "background-color"]
    else c3.
Proof.
  unfold removeRedundant. cbv zeta.
  destruct (get (u "background") _) as [bg|]; [|reflexivity].
  destruct (truthy bg && negb (includes (u "gradient") bg)); reflexivity.
Qed.

(** [removeRedundant] keeps, in their order, the declarations that are not
    made redundant by a shorthand of the object. *)
Lemma removeRedundant_filter (properties : PropertyMap) :
  removeRedundant properties
  = filter (fun d => negb (redundantIn properties (fst d))) properties.
Proof.
  rewrite removeRedundant_stages. cbv zeta.
  set (B := optTruthy (get (u "border") properties)).
  set (L1 := [u "border-left"; u "border-bottom"; u "border-right";
              u "border-top"; u "border-color"; u "border-style";
              u "border-width"]).
  set (L2 := [u "margin-left"; u "margin-bottom"; u "margin-right";
              u "margin-top"]).
  set (L3 := [u "padding-left"; u "padding-bottom"; u "padding-right";
              u "padding-top"]).
  set (L4 := [u "background-size"; u "background-position";
              u "background-repeat"; u "background-image";
              u "background-color"]).
  set (c1 := if B then fold_right (@delete jsstring) properties L1
             else properties).
  assert (E0 : properties = filter (fun d => (fun _ => true) (fst d))
                                   properties)
    by (symmetry; apply filter_all; reflexivity).
  pose (keep1 := fun x : jsstring =>
                   true && negb (B && existsb (streq x) L1)).
  pose proof (stage_filter B L1 (fun _ => true) properties properties E0)
    as E1.
  fold c1 in E1.
  assert (G1 : forall k, existsb (streq k) L1 = false ->
                         get k c1 = get k properties).
  { intros k Hk. rewrite E1.
    apply (get_filter_kept keep1). unfold keep1.
    now rewrite Hk, andb_false_r. }
  rewrite (G1 (u "margin")) by (vm_compute; reflexivity).
  set (M := optTruthy (get (u "margin") properties)).
  set (c2 := if M then fold_right (@delete jsstring) c1 L2 else c1).
  pose (keep2 := fun x : jsstring =>
                   keep1 x && negb (M && existsb (streq x) L2)).
  pose proof (stage_filter M L2 keep1 c1 properties E1) as E2.
  fold c2 in E2.
  assert (G2 : forall k, existsb (streq k) L1 = false ->
                         existsb (streq k) L2 = false ->
                         get k c2 = get k properties).
  { intros k H1 H2. rewrite E2.
    apply (get_filter_kept keep2). unfold keep2, keep1.
    now rewrite H1, H2, !andb_false_r. }
  rewrite (G2 (u "padding")) by (vm_compute; reflexivity).
  set (P := optTruthy (get (u "padding") properties)).
  set (c3 := if P then fold_right (@delete jsstring) c2 L3 else c2).
  pose (keep3 := fun x : jsstring =>
                   keep2 x && negb (P && existsb (streq x) L3)).
  pose proof (stage_filter P L3 keep2 c2 properties E2) as E3.
  fold c3 in E3.
  assert (G3 : get (u "background") c3 = get (u "background") properties).
  { rewrite E3.
    apply (get_filter_kept keep3). unfold keep3, keep2, keep1.
    replace (existsb (streq (u "background")) L1) with false
      by (vm_compute; reflexivity).
    replace (existsb (streq (u "background")) L2) with false
      by (vm_compute; reflexivity).
    replace (existsb (streq (u "background")) L3) with false
      by (vm_compute; reflexivity).
    now rewrite !andb_false_r. }
  rewrite G3.
  set (G := match get (u "background") properties with
            | Some bg => truthy bg && negb (includes (u "gradient") bg)
            | None => false
            end).
  etransitivity; [exact (stage_filter G L4 keep3 c3 properties E3)|].
  apply filter_ext. intros [k v]. cbn [fst]. unfold redundantIn.
  unfold keep3, keep2, keep1.
  fold B M P G.
  assert (S1 : existsb (streq k) L1
               = existsb (streq k)
                   [u "border-width"; u "border-style"; u "border-color";
                    u "border-top"; u "border-right"; u "border-bottom";
                    u "border-left"]).
  { unfold L1. cbn [existsb].
    repeat match goal with
           | |- context [streq k ?a] => destruct (streq k a)
           end; reflexivity. }
  assert (S2 : existsb (streq k) L2
               = existsb (streq k)
                   [u "margin-top"; u "margin-right"; u "margin-bottom";
                    u "margin-left"]).
  { unfold L2. cbn [existsb].
    repeat match goal with
           | |- context [streq k ?a] => destruct (streq k a)
           end; reflexivity. }
  assert (S3 : existsb (streq k) L3
               = existsb (streq k)
                   [u "padding-top"; u "padding-right"; u "padding-bottom";
                    u "padding-left"]).
  { unfold L3. cbn [existsb].
    repeat match goal with
           | |- context [streq k ?a] => destruct (streq k a)
           end; reflexivity. }
  assert (S4 : existsb (streq k) L4
               = existsb (streq k)
                   [u "background-color"; u "background-image";
                    u "background-repeat"; u "background-position";
                    u "background-size"]).
  { unfold L4. cbn [existsb].
    repeat match goal with
           | |- context [streq k ?a] => destruct (streq k a)
           end; reflexivity. }
  rewrite <- S1, <- S2, <- S3, <- S4.
  destruct (B && _), (M && _), (P && _), (G && _); reflexivity.
Qed.

(** The four shorthands are never removed. *)
Lemma removeRedundant_keeps_shorthands (properties : PropertyMap)
  (shorthand : jsstring) :
  In shorthand [u "border"; u "margin"; u "padding"; u "background"] ->
  get shorthand (removeRedundant properties) = get shorthand properties.
Proof.
  intros Hk. rewrite removeRedundant_filter.
  apply (get_filter_kept (fun x => negb (redundantIn properties x))).
  unfold redundantIn.
  destruct Hk as [<-|[<-|[<-|[<-|[]]]]];
    (replace (existsb _ _) with false by (vm_compute; reflexivity));
    rewrite ?andb_false_r; reflexivity.
Qed.

Lemma removeRedundant_settled (properties : PropertyMap) :
  removeRedundant (removeRedundant properties) = removeRedundant properties.
Proof.
  rewrite (removeRedundant_filter (removeRedundant properties)).
  assert (E : forall k, redundantIn (removeRedundant properties) k
                        = redundantIn properties k).
  { intros k. unfold redundantIn.
    rewrite !removeRedundant_keeps_shorthands by (simpl; auto).
    reflexivity. }
  rewrite (filter_ext _ (fun d => negb (redundantIn properties (fst d))))
    by (intros d; now rewrite E).
  rewrite removeRedundant_filter, filter_filter.
  apply filter_ext. intros d. now destruct (negb _).
Qed.

(** X13. [removeRedundant] is idempotent, and it removes longhands only: a
    second pass finds nothing more to remove, and the shorthands border,
    margin, padding and background are never removed. *)
Theorem removeRedundant_twice (properties : PropertyMap) :
  removeRedundant (removeRedundant properties) = removeRedundant properties
  /\ forall shorthand,
       In shorthand [u "border"; u "margin"; u "padding"; u "background"] ->
       get shorthand (removeRedundant properties) = get shorthand properties.
Proof.
  split.
  - apply removeRedundant_settled.
  - apply removeRedundant_keeps_shorthands.
Qed.

(** *** Layout preprocessing *)

Lemma fold_left_agree {A B} (f g : A -> B -> A) (l : list B) (a : A) :
  (forall acc x, In x l -> f acc x = g acc x) ->
  fold_left f l a = fold_left g l a.
Proof.
  revert a. induction l as [|x l IH]; intros a H; simpl; [reflexivity|].
  rewrite (H a x (or_introl eq_refl)). apply IH.
  intros acc y Hy. apply H. now right.
Qed.

(** Rules that are not avatar rules pass the avatar pass unchanged. *)
Lemma avatar_pass_skips (styleRules : RuleMap) :
  uniqueKeys styleRules = true ->
  forallb (fun r => negb (isAvatarSelector (fst r))) styleRules = true ->
  preprocessAvatarLayout styleRules = styleRules.
Proof.
  intros Hu Hn. rewrite forallb_forall in Hn. unfold preprocessAvatarLayout.
  etransitivity;
    [apply (fold_left_agree _ (fun a d => set (fst d) (snd d) a))
    |exact (rebuild_unique styleRules [] Hu (fun _ _ => eq_refl))].
  intros acc x Hx. specialize (Hn x Hx). apply negb_true_iff in Hn.
  unfold preprocessAvatarRule. now rewrite Hn.
Qed.

(** Rules that are not info rules pass the info pass unchanged. *)
Lemma info_pass_skips (styleRules : RuleMap) :
  uniqueKeys styleRules = true ->
  forallb (fun r => negb (isInfoElementSelector (fst r))) styleRules = true ->
  preprocessInfoLayout styleRules = styleRules.
Proof.
  intros Hu Hn. rewrite forallb_forall in Hn. unfold preprocessInfoLayout.
  etransitivity;
    [apply (fold_left_agree _ (fun a d => set (fst d) (snd d) a))
    |exact (rebuild_unique styleRules [] Hu (fun _ _ => eq_refl))].
  intros acc x Hx. specialize (Hn x Hx). apply negb_true_iff in Hn.
  unfold preprocessInfoRule. now rewrite Hn.
Qed.

Lemma noLayoutSelector_parts (styleRules : RuleMap) :
  noLayoutSelector styleRules = true ->
  forallb (fun r => negb (isAvatarSelector (fst r))) styleRules = true
  /\ forallb (fun r => negb (isInfoElementSelector (fst r))) styleRules
     = true.
Proof.
  unfold noLayoutSelector. intros H. rewrite forallb_forall in H.
  split; apply forallb_forall; intros r Hr; specialize (H r Hr);
    apply andb_true_iff in H; tauto.
Qed.

Lemma layout_passes_skip (styleRules : RuleMap) :
  uniqueKeys styleRules = true ->
  noLayoutSelector styleRules = true ->
  preprocessInfoLayout (preprocessAvatarLayout styleRules) = styleRules.
Proof.
  intros Hu Hn. destruct (noLayoutSelector_parts styleRules Hn) as [A B].
  rewrite (avatar_pass_skips styleRules Hu A).
  exact (info_pass_skips styleRules Hu B).
Qed.

(** X14. the layout preprocessing that [generate] starts with leaves a
    RuleMap without avatar and info selectors exactly as it is: the rules,
    their order and their declarations. *)
Theorem preprocessing_keeps_other_rules (styleRules : RuleMap) :
  uniqueKeys styleRules = true ->
  noLayoutSelector styleRules = true ->
  preprocessInfoLayout (preprocessAvatarLayout styleRules) = styleRules.
Proof.
  intros Hu Hn. destruct (noLayoutSelector_parts styleRules Hn) as [A B].
  assert (E : preprocessAvatarLayout styleRules = styleRules)
    by exact (avatar_pass_skips styleRules Hu A).
  rewrite E. exact (info_pass_skips styleRules Hu B).
Qed.

Lemma preprocessing_keeps_other_rules_witness :
  let styleRules :=
    [(u ".mes_text", [(u "color", u "red"); (u "top", u "1px")]);
     (u "#send_but", [(u "position", u "absolute")])] in
  uniqueKeys styleRules = true
  /\ noLayoutSelector styleRules = true
  /\ preprocessInfoLayout (preprocessAvatarLayout styleRules) = styleRules.
Proof.
  intros styleRules.
  assert (H1 : uniqueKeys styleRules = true) by (vm_compute; reflexivity).
  assert (H2 : noLayoutSelector styleRules = true)
    by (vm_compute; reflexivity).
  split; [exact H1|]. split; [exact H2|].
  exact (preprocessing_keeps_other_rules styleRules H1 H2).
Defined.

(* ===================================================================== *)
(** ** Validation, import and export of themes *)
(* ===================================================================== *)

Import Themes.

(** *** Lines that give no error *)

Lemma indexOf_none_includes (c : jschar) (s : jsstring) :
  indexOf [c] s = None -> includes [c] s = false.
Proof.
  rewrite includes_char. induction s as [|x s IH]; [reflexivity|].
  simpl. destruct (c =? x)%N; [discriminate|].
  destruct (indexOf [c] s); [discriminate|]. intros _. now apply IH.
Qed.

(** The only branch of [validateLine] that reports an error. *)
Lemma validateLine_errors (st : validation) (i : nat) (l : jsstring) :
  includes (u ":") (trim l) = true
  \/ endsWith (u "{") (trim l) = true
  \/ trim l = u "}" \/ trim l = []
  \/ startsWith (u "#") (trim l) = true ->
  errors (validateLine st (i, l)) = errors st.
Proof.
  intros H. unfold validateLine. cbn [fst snd].
  destruct (startsWith (u "@") (trim l)); [reflexivity|].
  destruct (inDecorationBlock st && streq (trim l) (u "}")); [reflexivity|].
  destruct (inDecorationBlock st); [reflexivity|].
  destruct (endsWith (u "{") (trim l)) eqn:E1; [reflexivity|].
  destruct (streq (trim l) (u "}")) eqn:E2; [reflexivity|].
  destruct (inBlock st); cbn [andb]; [|reflexivity].
  destruct (truthy (trim l)) eqn:E3; cbn [andb]; [|reflexivity].
  destruct (startsWith (u "#") (trim l)) eqn:E4; cbn [andb negb];
    [reflexivity|].
  destruct (startsWith (u "/*") (trim l)); cbn [andb negb]; [reflexivity|].
  destruct (indexOf (u ":") (trim l)) as [k|] eqn:E5.
  - destruct (negb _ && negb _); reflexivity.
  - exfalso. destruct H as [H|[H|[H|[H|H]]]]; try discriminate H.
    + apply (indexOf_none_includes 58%N) in E5.
      exact (eq_true_false_abs _ H E5).
    + rewrite H in E2. discriminate E2.
    + rewrite H in E3. discriminate E3.
Qed.

Lemma validate_lines_errors (ls : list jsstring) :
  (forall l, In l ls ->
     includes (u ":") (trim l) = true
     \/ endsWith (u "{") (trim l) = true
     \/ trim l = u "}" \/ trim l = []
     \/ startsWith (u "#") (trim l) = true) ->
  forall i st,
    errors (fold_left validateLine (numberFrom i ls) st) = errors st.
Proof.
  induction ls as [|l ls IH]; intros H i st; [reflexivity|].
  cbn [numberFrom fold_left]. rewrite IH.
  - apply validateLine_errors, H. now left.
  - intros x Hx. apply H. now right.
Qed.

Lemma dropWhile_snoc_kept {A} (p : A -> bool) (s : list A) (c : A) :
  p c = false -> dropWhile p (s ++ [c]) = dropWhile p s ++ [c].
Proof.
  intros H. induction s as [|x s IH]; simpl; [now rewrite H|].
  destruct (p x); [exact IH|reflexivity].
Qed.

Lemma trim_snoc_kept (s : jsstring) (c : jschar) :
  isWhiteSpace c = false -> trim (s ++ [c]) = trimStart s ++ [c].
Proof.
  intros H. unfold trim, trimStart.
  rewrite (dropWhile_snoc_kept _ _ _ H). now apply trimEnd_snoc_other.
Qed.

Lemma endsWith_snoc (s : jsstring) (c : jschar) :
  endsWith [c] (s ++ [c]) = true.
Proof.
  unfold endsWith. rewrite rev_app_distr. simpl. now rewrite N.eqb_refl.
Qed.

Lemma trim_head_kept (c : jschar) (s : jsstring) :
  isWhiteSpace c = false -> exists t, trim (c :: s) = c :: t.
Proof.
  intros H. unfold trim. rewrite trimStart_head by exact H.
  unfold trimEnd. simpl rev.
  rewrite (dropWhile_snoc_kept _ _ _ H), rev_app_distr. simpl. eauto.
Qed.

Lemma generated_line_gives_no_error (rm : RuleMap) (l : jsstring) :
  In l (documentLines rm) ->
  includes (u ":") (trim l) = true
  \/ endsWith (u "{") (trim l) = true
  \/ trim l = u "}" \/ trim l = []
  \/ startsWith (u "#") (trim l) = true.
Proof.
  unfold documentLines. rewrite in_concat.
  intros [ls [Hls Hl]]. apply in_map_iff in Hls as [[c rules] [<- _]].
  unfold categoryLines in Hl. cbn [snd fst] in Hl.
  destruct rules as [|r rules]; [destruct Hl|].
  destruct Hl as [<-|Hl].
  - right. right. right. right.
    destruct (trim_head_kept 35%N (32%N :: getCategoryTitle c) eq_refl)
      as [t Ht].
    assert (E : trim (u "# " ++ getCategoryTitle c) = 35%N :: t)
      by exact Ht.
    rewrite E. reflexivity.
  - apply in_app_or in Hl as [Hl|[<-|[]]]; [|now right; right; right; left].
    apply in_concat in Hl as [bl [Hbl Hl]].
    apply in_map_iff in Hbl as [rule [<- _]].
    unfold blockLines in Hl. destruct Hl as [<-|Hl].
    + right. left. unfold headerLine.
      assert (E : trim (blockName (fst rule) ++ u " {")
                  = trimStart (blockName (fst rule) ++ [32%N]) ++ [123%N]).
      { rewrite <- (trim_snoc_kept _ 123%N eq_refl).
        now rewrite <- app_assoc. }
      rewrite E. apply endsWith_snoc.
    + apply in_app_or in Hl as [Hl|[<-|[]]];
        [|now right; right; left].
      apply in_map_iff in Hl as [d [<- _]]. left.
      change (u ":") with [58%N]. apply includes_char_in.
      apply trim_keeps; [|reflexivity].
      unfold declarationLine. apply in_or_app. right.
      apply in_or_app. right. apply in_or_app. left. now left.
Qed.

Lemma splitChar_elements (c : jschar) (s l : jsstring) (x : jschar) :
  In l (splitChar c s) -> In x l -> In x s.
Proof.
  revert l. induction s as [|y s IH]; intros l; simpl.
  - intros [<-|[]] [].
  - destruct (y =? c)%N.
    + intros [<-|H] Hx; [destruct Hx|]. right. eapply IH; eassumption.
    + destruct (splitChar c s) as [|h t] eqn:E.
      * intros [<-|[]] [<-|[]]. now left.
      * intros [<-|H] Hx.
        -- destruct Hx as [<-|Hx]; [now left|]. right.
           apply (IH h); [now left|exact Hx].
        -- right. apply (IH l); [now right|exact Hx].
Qed.

Lemma first_header_line (rm : RuleMap) (r : jsstring * PropertyMap) :
  In r rm -> In (headerLine (fst r)) (documentLines rm).
Proof.
  intros Hr. unfold documentLines. apply in_concat.
  exists (categoryLines (FormatParser.detectCategory (fst r),
                         rulesOf (FormatParser.detectCategory (fst r)) rm)).
  split.
  - apply in_map. unfold categorizeStyles.
    apply (in_map (fun c => (c, rulesOf c rm))). apply category_in_order.
  - assert (Hin : In r (rulesOf (FormatParser.detectCategory (fst r)) rm)).
    { unfold rulesOf. apply filter_In. split; [exact Hr|].
      apply category_eqb_refl. }
    unfold categoryLines. cbn [snd fst].
    destruct (rulesOf (FormatParser.detectCategory (fst r)) rm)
      as [|r0 rules]; [destruct Hin|].
    right. apply in_or_app. left. apply in_concat.
    exists (blockLines r). split; [now apply in_map|].
    unfold blockLines. now left.
Qed.



(** *** Import after export *)

(** X16. a theme that is exported and imported again comes back: for a
    RuleMap with at least one rule whose lines all read back and hold no
    name of a member of [Object.prototype], and a cache that holds nothing
    under the signature of the exported text, [importTheme] finds the
    localized format and returns the rules, in the order of the text. *)
Theorem exported_theme_is_imported_back
  (today : jsstring) (name : option jsstring) (rm : RuleMap)
  (cache : table RuleMap) :
  rm <> [] ->
  roundTripSafe rm = true ->
  ownNamesOnly rm = true ->
  has (cacheKey (exportedCss (exportTheme today rm name))) cache = false ->
  fst (importTheme cache (exportedCss (exportTheme today rm name)))
  = mkImported (rulesInTextOrder rm) (u "导入的中文样式") (u "chinese").
Proof.
  intros Hrm Hsafe _ Hc. cbn [exportedCss exportTheme] in *.
  unfold importTheme, parseChineseFormat, parseCSS.
  unfold has in Hc.
  destruct (get (cacheKey (generateChineseFormat rm)) cache);
    [discriminate|].
  rewrite (parse_generated rm Hsafe).
  destruct (rulesInTextOrder rm) as [|r rs] eqn:E; [|reflexivity].
  exfalso. pose proof (rulesInTextOrder_perm rm) as P. rewrite E in P.
  apply Permutation_sym, Permutation_nil in P. contradiction.
Qed.

Lemma exported_theme_is_imported_back_witness :
  let rm := [(u ".mes_text", [(u "color", u "red")])] in
  rm <> []
  /\ roundTripSafe rm = true
  /\ ownNamesOnly rm = true
  /\ importedStyles
       (fst (importTheme []
               (exportedCss (exportTheme (u "2025-01-01") rm None))))
     = rm.
Proof.
  intros rm.
  assert (H1 : rm <> []) by discriminate.
  assert (H2 : roundTripSafe rm = true) by (vm_compute; reflexivity).
  assert (H3 : ownNamesOnly rm = true) by (vm_compute; reflexivity).
  split; [exact H1|]. split; [exact H2|]. split; [exact H3|].
  rewrite (exported_theme_is_imported_back (u "2025-01-01") None rm []
             H1 H2 H3 eq_refl).
  vm_compute. reflexivity.
Defined.
(* ===================================================================== *)
(** ** The generated stylesheet read by the CSS parser *)
(* ===================================================================== *)

Import CssParser.

Lemma dropWhile_length {A} (p : A -> bool) (l : list A) :
  length (dropWhile p l) <= length l.
Proof.
  induction l as [|x l IH]; simpl; [lia|]. destruct (p x); simpl; lia.
Qed.

Lemma dropWhile_same {A} (p : A -> bool) (l : list A) :
  length (dropWhile p l) = length l -> dropWhile p l = l.
Proof.
  destruct l as [|x l]; [reflexivity|]. simpl. destruct (p x); [|reflexivity].
  intros H. pose proof (dropWhile_length p l). simpl in H. lia.
Qed.

Lemma dropWhile_all {A} (p : A -> bool) (a b : list A) :
  forallb p a = true -> dropWhile p (a ++ b) = dropWhile p b.
Proof.
  induction a as [|x a IH]; [reflexivity|]. simpl. intros H.
  apply andb_true_iff in H as [Hx Ha]. rewrite Hx. now apply IH.
Qed.

(** A text that [trim] leaves alone has no blank at its ends. *)
Lemma trim_fixed (s : jsstring) :
  trim s = s -> trimStart s = s /\ trimEnd s = s.
Proof.
  intros H.
  assert (L1 : length (trimEnd (trimStart s)) <= length (trimStart s)).
  { unfold trimEnd. rewrite length_rev.
    etransitivity; [apply dropWhile_length|]. now rewrite length_rev. }
  assert (L2 : length (trimStart s) <= length s) by apply dropWhile_length.
  assert (E : trimStart s = s).
  { apply dropWhile_same. unfold trim in H.
    assert (L : length (trimEnd (trimStart s)) = length s) by now rewrite H.
    unfold trimStart in *. lia. }
  split; [exact E|]. unfold trim in H. now rewrite E in H.
Qed.

Lemma trim_pad (a b s : jsstring) :
  forallb isWhiteSpace a = true -> forallb isWhiteSpace b = true ->
  truthy s = true -> trim s = s -> trim (a ++ s ++ b) = s.
Proof.
  intros Ha Hb Ht Hs. apply trim_fixed in Hs as [H1 H2].
  unfold trim. unfold trimStart at 1. rewrite (dropWhile_all _ _ _ Ha).
  assert (E : dropWhile isWhiteSpace (s ++ b) = s ++ b).
  { destruct s as [|c t]; [discriminate Ht|]. unfold trimStart in H1.
    simpl in H1 |- *. destruct (isWhiteSpace c); [|reflexivity].
    exfalso. pose proof (dropWhile_length isWhiteSpace t) as L.
    assert (L' : length (dropWhile isWhiteSpace t) = length (c :: t))
      by now rewrite H1.
    simpl in L'. lia. }
  rewrite E. unfold trimEnd. rewrite rev_app_distr.
  rewrite dropWhile_all by now rewrite forallb_rev.
  exact H2.
Qed.

(** *** Matching the rules *)

Lemma takeWhile_app_stop {A} (p : A -> bool) (a : list A) (x : A) (r : list A) :
  forallb p a = true -> p x = false ->
  takeWhile p (a ++ x :: r) = a /\ dropWhile p (a ++ x :: r) = x :: r.
Proof.
  intros Ha Hx. induction a as [|y a IH]; simpl.
  - now rewrite Hx.
  - simpl in Ha. apply andb_true_iff in Ha as [Hy Ha]. rewrite Hy.
    destruct (IH Ha) as [E1 E2]. now rewrite E1, E2.
Qed.

Lemma matchBody_found (body rest : jsstring) :
  truthy body = true ->
  forallb (fun c => negb (c =? 125)%N) body = true ->
  matchBody (body ++ 125%N :: rest) = Some body.
Proof.
  intros Ht Hb. unfold matchBody.
  destruct (takeWhile_app_stop (fun c => negb (c =? 125)%N) body 125%N rest Hb
              eq_refl) as [E1 E2].
  cbv zeta. unfold jsstring, jschar in *. rewrite E1, E2. now destruct body.
Qed.

Lemma scanRules_skip (a rest acc : jsstring) :
  a <> [] -> scanRules (length a) acc (a ++ rest) = scanRules 0 [] rest.
Proof.
  revert acc. induction a as [|x a IH]; intros acc Ha; [congruence|].
  simpl. destruct a as [|y a]; [reflexivity|]. now apply IH.
Qed.

(** Up to the first opening brace the scan only collects group 1. *)
Lemma scanRules_collect (pre acc s : jsstring) :
  forallb (fun c => negb (c =? 123)%N) pre = true ->
  scanRules 0 acc (pre ++ s) = scanRules 0 (rev pre ++ acc) s.
Proof.
  revert acc. induction pre as [|c pre IH]; intros acc H; [reflexivity|].
  simpl in H. apply andb_true_iff in H as [Hc H].
  apply negb_true_iff in Hc. cbn [app]. 
  change (scanRules 0 acc (c :: pre ++ s))
    with (if (c =? 123)%N then
            match acc with
            | [] => scanRules 0 [] (pre ++ s)
            | _ => match matchBody (pre ++ s) with
                   | Some body =>
                     (rev acc, body)
                       :: scanRules (S (length body)) [] (pre ++ s)
                   | None => scanRules 0 [] (pre ++ s)
                   end
            end
          else scanRules 0 (c :: acc) (pre ++ s)).
  rewrite Hc, IH by exact H. simpl. now rewrite <- app_assoc.
Qed.

Lemma scanRules_rule (acc pre body rest : jsstring) :
  forallb (fun c => negb (c =? 123)%N) pre = true ->
  truthy (rev acc ++ pre) = true ->
  truthy body = true ->
  forallb (fun c => negb (c =? 125)%N) body = true ->
  scanRules 0 acc (pre ++ 123%N :: body ++ 125%N :: rest)
  = (rev acc ++ pre, body) :: scanRules 0 [] rest.
Proof.
  intros Hp Ht Hb Hn. rewrite scanRules_collect by exact Hp.
  assert (E : rev (rev pre ++ acc) = rev acc ++ pre)
    by now rewrite rev_app_distr, rev_involutive.
  cbn [scanRules]. rewrite N.eqb_refl.
  destruct (rev pre ++ acc) as [|x l] eqn:El.
  - rewrite <- E in Ht. discriminate Ht.
  - rewrite (matchBody_found body rest Hb Hn). rewrite E. f_equal.
    replace (body ++ 125%N :: rest) with ((body ++ [125%N]) ++ rest)
      by now rewrite <- app_assoc.
    replace (S (length body)) with (length (body ++ [125%N]))
      by (rewrite length_app; simpl; lia).
    apply scanRules_skip. now destruct body.
Qed.

(** *** Reading the declarations *)

Lemma splitChar_piece (c : jschar) (l rest : jsstring) :
  forallb (fun x => negb (x =? c)%N) l = true ->
  splitChar c (l ++ c :: rest) = l :: splitChar c rest.
Proof.
  induction l as [|x l IH]; intros H.
  - simpl. now rewrite N.eqb_refl.
  - simpl in H. apply andb_true_iff in H as [Hx Hl].
    apply negb_true_iff in Hx. simpl. rewrite Hx. now rewrite IH.
Qed.

Lemma splitChar_pieces (c : jschar) (ls : list jsstring) :
  (forall l, In l ls -> forallb (fun x => negb (x =? c)%N) l = true) ->
  splitChar c (concat (map (fun l => l ++ [c]) ls)) = ls ++ [[]].
Proof.
  induction ls as [|l ls IH]; intros H; [reflexivity|].
  cbn [map concat]. rewrite <- app_assoc. cbn [app].
  rewrite splitChar_piece by (apply H; now left).
  rewrite IH by (intros x Hx; apply H; now right). reflexivity.
Qed.

Lemma normalizeValue_empty : normalizeValue [] = [].
Proof. reflexivity. Qed.

Section Declarations.

Variable cfg : config.

Local Abbreviation piece lead d :=
  (lead ++ fst d ++ u ":" ++ writtenValue cfg (snd d)).

Lemma declaration_parts (d : jsstring * jsstring) :
  cssDeclarationOk cfg d = true ->
  truthy (fst d) = true /\ trim (fst d) = fst d
  /\ forallb (fun c => negb ((c =? 58) || (c =? 59) || (c =? 125))%N) (fst d)
     = true
  /\ truthy (snd d) = true
  /\ forallb (fun c => negb ((c =? 59) || (c =? 125))%N) (snd d) = true
  /\ normalizeValue (trim (writtenValue cfg (snd d))) = snd d.
Proof.
  unfold cssDeclarationOk. intros H. apply andb_true_iff in H as [H _].
  repeat (apply andb_true_iff in H as [H ?]).
  repeat match goal with E : streq _ _ = true |- _ => apply streq_eq in E end.
  tauto.
Qed.

Lemma blank_no_colon (s : jsstring) :
  forallb isWhiteSpace s = true -> includes (u ":") s = false.
Proof.
  intros H. change (u ":") with [58%N]. rewrite includes_char.
  apply not_true_is_false. intros E. apply existsb_exists in E as (x & Hx & E).
  apply N.eqb_eq in E. subst x. rewrite forallb_forall in H.
  now specialize (H _ Hx).
Qed.

Lemma name_no_colon (s : jsstring) :
  forallb (fun c => negb ((c =? 58) || (c =? 59) || (c =? 125))%N) s = true ->
  includes (u ":") s = false.
Proof.
  intros H. change (u ":") with [58%N]. rewrite includes_char.
  apply not_true_is_false. intros E. apply existsb_exists in E as (x & Hx & E).
  apply N.eqb_eq in E. subst x. rewrite forallb_forall in H.
  now specialize (H _ Hx).
Qed.

Lemma parseDeclaration_piece (acc : PropertyMap) (lead : jsstring)
  (d : jsstring * jsstring) :
  forallb isWhiteSpace lead = true -> cssDeclarationOk cfg d = true ->
  parseDeclaration acc (piece lead d) = set (fst d) (snd d) acc.
Proof.
  intros Hl Hd.
  destruct (declaration_parts d Hd) as (Tp & Fp & Np & Tv & Nv & Ev).
  unfold parseDeclaration.
  assert (I : indexOf (u ":") (piece lead d) = Some (length (lead ++ fst d))).
  { rewrite app_assoc. change (u ":") with [58%N].
    change ([58%N] ++ writtenValue cfg (snd d))
      with (58%N :: writtenValue cfg (snd d)).
    apply indexOf_char_first. rewrite includes_char_app.
    change [58%N] with (u ":").
    now rewrite (blank_no_colon lead Hl), (name_no_colon (fst d) Np). }
  rewrite I. destruct (length (lead ++ fst d)) as [|k] eqn:L.
  { rewrite length_app in L. destruct (fst d); [discriminate Tp|].
    simpl in L. lia. }
  rewrite <- L. cbv zeta.
  assert (P : trim (substringTo (length (lead ++ fst d)) (piece lead d))
              = fst d).
  { unfold substringTo. rewrite app_assoc, firstn_length_app.
    rewrite <- (app_nil_r (fst d)) at 1.
    now apply trim_pad. }
  assert (V : substringFrom (length (lead ++ fst d) + 1) (piece lead d)
              = writtenValue cfg (snd d)).
  { unfold substringFrom. rewrite app_assoc. change (u ":") with [58%N].
    change ([58%N] ++ writtenValue cfg (snd d))
      with (58%N :: writtenValue cfg (snd d)).
    apply skipn_succ_length_app. }
  rewrite P, V, Ev, Tp.
  destruct (trim (writtenValue cfg (snd d))) eqn:E.
  - rewrite normalizeValue_empty in Ev. rewrite <- Ev in Tv.
    discriminate Tv.
  - reflexivity.
Qed.

End Declarations.

Lemma trim_ends (s r t : jsstring) (c d : jschar) :
  s = c :: r -> s = t ++ [d] ->
  isWhiteSpace c = false -> isWhiteSpace d = false -> trim s = s.
Proof.
  intros E1 E2 Hc Hd. unfold trim. rewrite E1 at 1.
  rewrite trimStart_head by exact Hc. rewrite <- E1. rewrite E2.
  now apply trimEnd_snoc_other.
Qed.

Lemma concat_snoc_end {A} (c : A) (l : list A) (ls : list (list A)) :
  exists t, concat (map (fun x => x ++ [c]) (l :: ls)) = t ++ [c].
Proof.
  revert l. induction ls as [|m ls IH]; intros l.
  - exists l. cbn [map concat]. now rewrite app_nil_r.
  - destruct (IH m) as [t E]. exists ((l ++ [c]) ++ t).
    cbn [map concat] in E |- *. rewrite E. now rewrite <- !app_assoc.
Qed.

Lemma fold_left_mapped {A B C} (f : A -> C -> A) (g : B -> C) (l : list B)
  (a : A) :
  fold_left f (map g l) a = fold_left (fun x y => f x (g y)) l a.
Proof. revert a. induction l as [|x l IH]; intros a; [reflexivity|apply IH]. Qed.

Lemma filter_keeps_all {A} (p : A -> bool) (l : list A) :
  (forall x, In x l -> p x = true) -> filter p l = l.
Proof.
  induction l as [|x l IH]; intros H; [reflexivity|]. simpl.
  rewrite (H x) by now left. f_equal. apply IH. intros y Hy. apply H.
  now right.
Qed.

Lemma gcategories_perm_cons (r : jsstring * PropertyMap) (rm : RuleMap) :
  Permutation (r :: concat (map snd (categorizeRules rm)))
              (concat (map snd (categorizeRules (r :: rm)))).
Proof.
  unfold categorizeRules, gcategoryOrder. cbn [map concat filter snd].
  destruct (detectCategory (fst r)); cbn [gcategory_eqb];
    repeat first [ apply Permutation_refl | apply perm_skip_app ].
Qed.

Lemma gcategories_perm (rm : RuleMap) :
  Permutation rm (concat (map snd (categorizeRules rm))).
Proof.
  induction rm as [|r rm IH]; [apply Permutation_refl|].
  eapply perm_trans; [|apply gcategories_perm_cons]. now apply perm_skip.
Qed.

Section RoundTrip.

Variable localeCompare : jsstring -> jsstring -> Z.
Variable cfg : config.
Hypothesis plain : minify cfg = false.

Local Abbreviation indent := (repeatStr (u " ") (indentSize cfg)).
Local Abbreviation piece lead d :=
  (lead ++ fst d ++ u ":" ++ writtenValue cfg (snd d)).
Local Abbreviation declarations properties :=
  (ruleDeclarations localeCompare properties cfg).

Lemma indent_blank : forallb isWhiteSpace indent = true.
Proof. induction (indentSize cfg) as [|n IH]; [reflexivity|exact IH]. Qed.

Lemma declarationCSS_piece (d : jsstring * jsstring) :
  declarationCSS cfg d = piece indent d ++ [59%N; 10%N].
Proof.
  unfold declarationCSS, writtenValue. rewrite plain. cbv zeta.
  repeat rewrite <- app_assoc. reflexivity.
Qed.

Lemma body_pieces (ds : list (jsstring * jsstring)) :
  nl ++ concat (map (declarationCSS cfg) ds)
  = concat (map (fun l => l ++ [59%N]) (map (fun d => piece (nl ++ indent) d) ds)) ++ nl.
Proof.
  induction ds as [|d ds IH]; [reflexivity|].
  cbn [map concat]. rewrite declarationCSS_piece.
  transitivity ((piece (nl ++ indent) d ++ [59%N])
                ++ (nl ++ concat (map (declarationCSS cfg) ds))).
  { repeat rewrite <- app_assoc. reflexivity. }
  rewrite IH. apply app_assoc.
Qed.


Lemma important_plain (c : jschar) :
  In c (if useImportant cfg then u " !important" else []) ->
  c <> 59%N /\ c <> 125%N /\ c <> 123%N.
Proof.
  destruct (useImportant cfg); [|intros []].
  intros H. cbn in H.
  repeat (destruct H as [<-|H]; [repeat split; discriminate|]).
  destruct H.
Qed.

Lemma piece_no_semicolon (lead : jsstring) (d : jsstring * jsstring) :
  forallb isWhiteSpace lead = true -> cssDeclarationOk cfg d = true ->
  forallb (fun x => negb (x =? 59)%N) (piece lead d) = true.
Proof.
  intros Hl Hd.
  destruct (declaration_parts cfg d Hd) as (Tp & Fp & Np & Tv & Nv & Ev).
  rewrite forallb_forall in *. intros c Hc.
  destruct (N.eqb_spec c 59) as [->|]; [exfalso|reflexivity].
  unfold writtenValue in Hc.
  repeat (apply in_app_or in Hc as [Hc|Hc]).
  - now specialize (Hl _ Hc).
  - now specialize (Np _ Hc).
  - cbn in Hc. destruct Hc as [Hc|[]]. discriminate Hc.
  - cbn in Hc. destruct Hc as [Hc|[]]. discriminate Hc.
  - now specialize (Nv _ Hc).
  - now apply important_plain in Hc.
Qed.

Lemma piece_no_closing (lead : jsstring) (d : jsstring * jsstring) :
  forallb isWhiteSpace lead = true -> cssDeclarationOk cfg d = true ->
  forallb (fun x => negb (x =? 125)%N) (piece lead d ++ [59%N]) = true.
Proof.
  intros Hl Hd.
  destruct (declaration_parts cfg d Hd) as (Tp & Fp & Np & Tv & Nv & Ev).
  rewrite forallb_forall in *. intros c Hc.
  destruct (N.eqb_spec c 125) as [->|]; [exfalso|reflexivity].
  unfold writtenValue in Hc.
  repeat (apply in_app_or in Hc as [Hc|Hc]).
  - now specialize (Hl _ Hc).
  - specialize (Np _ Hc). cbn in Np. discriminate Np.
  - cbn in Hc. destruct Hc as [Hc|[]]. discriminate Hc.
  - cbn in Hc. destruct Hc as [Hc|[]]. discriminate Hc.
  - specialize (Nv _ Hc). cbn in Nv. discriminate Nv.
  - now apply important_plain in Hc.
  - cbn in Hc. destruct Hc as [Hc|[]]. discriminate Hc.
Qed.

Lemma piece_truthy (lead : jsstring) (d : jsstring * jsstring) :
  cssDeclarationOk cfg d = true -> truthy (trim (piece lead d)) = true.
Proof.
  intros Hd.
  destruct (declaration_parts cfg d Hd) as (Tp & Fp & Np & Tv & Nv & Ev).
  destruct (fst d) as [|c t] eqn:E; [discriminate Tp|].
  apply trim_fixed in Fp as [Fp _]. unfold trimStart in Fp. simpl in Fp.
  destruct (isWhiteSpace c) eqn:W.
  - exfalso. pose proof (dropWhile_length isWhiteSpace t) as L.
    assert (L' : length (dropWhile isWhiteSpace t) = length (c :: t))
      by now rewrite Fp.
    simpl in L'. lia.
  - cbn [app]. now apply trim_truthy.
Qed.

Lemma parse_pieces (lds : list (jsstring * (jsstring * jsstring)))
  (acc : PropertyMap) :
  (forall x, In x lds ->
     forallb isWhiteSpace (fst x) = true
     /\ cssDeclarationOk cfg (snd x) = true) ->
  fold_left parseDeclaration (map (fun x => piece (fst x) (snd x)) lds) acc
  = fold_left (fun a d => set (fst d) (snd d) a) (map snd lds) acc.
Proof.
  revert acc. induction lds as [|x lds IH]; intros acc H; [reflexivity|].
  cbn [map fold_left]. destruct (H x (or_introl eq_refl)) as [Hl Hd].
  transitivity
    (fold_left parseDeclaration (map (fun x => piece (fst x) (snd x)) lds)
       (set (fst (snd x)) (snd (snd x)) acc)).
  { f_equal. exact (parseDeclaration_piece cfg acc (fst x) (snd x) Hl Hd). }
  apply IH. intros y Hy. apply H. now right.
Qed.


Lemma fixed_head (s : jsstring) :
  truthy s = true -> trim s = s ->
  exists c t, s = c :: t /\ isWhiteSpace c = false.
Proof.
  intros Ht Hs. destruct s as [|c t]; [discriminate Ht|].
  exists c, t. split; [reflexivity|].
  apply trim_fixed in Hs as [Hs _]. unfold trimStart in Hs. simpl in Hs.
  destruct (isWhiteSpace c); [|reflexivity].
  exfalso. pose proof (dropWhile_length isWhiteSpace t) as L.
  assert (L' : length (dropWhile isWhiteSpace t) = length (c :: t))
    by now rewrite Hs.
  simpl in L'. lia.
Qed.

(** The text between the braces of a generated rule, trimmed and read by
    [parseDeclarations], gives the declarations that were written. *)
Lemma parse_body (d : jsstring * jsstring) (ds : list (jsstring * jsstring)) :
  uniqueKeys (d :: ds) = true ->
  forallb (cssDeclarationOk cfg) (d :: ds) = true ->
  truthy (trim (nl ++ concat (map (declarationCSS cfg) (d :: ds)))) = true
  /\ parseDeclarations (trim (nl ++ concat (map (declarationCSS cfg) (d :: ds))))
     = d :: ds.
Proof.
  intros Hu Hok. rewrite forallb_forall in Hok.
  set (lds := ([], d) :: map (fun x => (nl ++ indent, x)) ds).
  set (pieces := map (fun x => piece (fst x) (snd x)) lds).
  set (S := concat (map (fun l => l ++ [59%N]) pieces)).
  assert (Hlds : forall x, In x lds ->
            forallb isWhiteSpace (fst x) = true
            /\ cssDeclarationOk cfg (snd x) = true).
  { intros x [<-|Hx].
    - split; [reflexivity|]. apply Hok. now left.
    - apply in_map_iff in Hx as (y & <- & Hy). split.
      + cbn [fst]. change (forallb isWhiteSpace (10%N :: indent) = true).
        cbn [forallb]. now rewrite indent_blank.
      + apply Hok. now right. }
  assert (B : nl ++ concat (map (declarationCSS cfg) (d :: ds))
              = (nl ++ indent) ++ S ++ nl).
  { unfold S, pieces, lds. cbn [map concat fst snd].
    rewrite !map_map. cbn [fst snd].
    rewrite declarationCSS_piece.
    transitivity ((nl ++ indent) ++ (piece [] d ++ [59%N])
                  ++ (nl ++ concat (map (declarationCSS cfg) ds))).
    { repeat rewrite <- app_assoc. reflexivity. }
    rewrite body_pieces. rewrite !map_map.
    repeat rewrite <- app_assoc. reflexivity. }
  destruct (declaration_parts cfg d (Hok d (or_introl eq_refl)))
    as (Tp & Fp & _).
  destruct (fixed_head (fst d) Tp Fp) as (c & t & Ec & Wc).
  assert (Ep : fst d ++ u ":" ++ writtenValue cfg (snd d)
               = c :: t ++ u ":" ++ writtenValue cfg (snd d)).
  { exact (f_equal (fun s => s ++ u ":" ++ writtenValue cfg (snd d)) Ec). }
  assert (TS : trim S = S).
  { destruct (concat_snoc_end 59%N (piece [] d) (tl pieces)) as [e Ee].
    eapply (trim_ends S _ e c 59%N); [|exact Ee|exact Wc|reflexivity].
    unfold S, pieces, lds. cbn [map concat fst snd app].
    unfold jsstring, jschar in Ep |- *. rewrite Ep. reflexivity. }
  assert (NS : truthy S = true).
  { unfold S, pieces, lds. cbn [map concat fst snd app].
    unfold jsstring, jschar in Ep |- *. now rewrite Ep. }
  assert (T : trim (nl ++ concat (map (declarationCSS cfg) (d :: ds))) = S).
  { rewrite B. apply trim_pad; [|reflexivity|exact NS|exact TS].
    change (forallb isWhiteSpace (10%N :: indent) = true).
    cbn [forallb]. now rewrite indent_blank. }
  rewrite T. split; [exact NS|].
  unfold parseDeclarations, S.
  rewrite splitChar_pieces.
  2:{ intros l Hl. apply in_map_iff in Hl as (x & <- & Hx).
      destruct (Hlds x Hx). now apply piece_no_semicolon. }
  rewrite filter_app. cbn [filter trim trimStart trimEnd dropWhile rev truthy].
  rewrite app_nil_r.
  rewrite filter_keeps_all.
  2:{ intros l Hl. apply in_map_iff in Hl as (x & <- & Hx).
      destruct (Hlds x Hx). now apply piece_truthy. }
  unfold pieces. rewrite (parse_pieces lds [] Hlds).
  assert (E : map snd lds = d :: ds).
  { unfold lds. cbn [map snd]. f_equal. rewrite map_map. apply map_id. }
  etransitivity;
    [|exact (rebuild_unique (d :: ds) [] Hu (fun _ _ => eq_refl))].
  f_equal. exact E.
Qed.


Lemma body_no_closing (ds : list (jsstring * jsstring)) :
  forallb (cssDeclarationOk cfg) ds = true ->
  forallb (fun x => negb (x =? 125)%N)
          (nl ++ concat (map (declarationCSS cfg) ds)) = true.
Proof.
  intros H. cbn [nl app forallb]. change (negb (10 =? 125)%N) with true.
  cbn [andb]. apply forallb_forall. intros c Hc.
  induction ds as [|d ds IH]; [destruct Hc|].
  cbn [forallb] in H. apply andb_true_iff in H as [Hd H].
  cbn [map concat] in Hc. rewrite declarationCSS_piece in Hc.
  apply in_app_or in Hc as [Hc|Hc]; [|exact (IH H Hc)].
  pose proof (piece_no_closing indent d indent_blank Hd) as P.
  rewrite forallb_forall in P.
  apply in_app_or in Hc as [Hc|Hc].
  - apply P. apply in_or_app. now left.
  - destruct Hc as [<-|[<-|[]]]; reflexivity.
Qed.

Lemma selector_parts (selector : jsstring) :
  cssSelectorOk selector = true ->
  truthy selector = true /\ trim selector = selector
  /\ forallb (fun c => negb (c =? 123)%N) selector = true.
Proof.
  unfold cssSelectorOk. intros H.
  repeat (apply andb_true_iff in H as [H ?]).
  repeat match goal with E : streq _ _ = true |- _ => apply streq_eq in E end.
  tauto.
Qed.

Lemma written_declarations_ok (properties : PropertyMap) :
  nonEmpty properties = true -> uniqueKeys properties = true ->
  forallb (cssDeclarationOk cfg) properties = true ->
  exists d ds, declarations properties = d :: ds
    /\ uniqueKeys (d :: ds) = true
    /\ forallb (cssDeclarationOk cfg) (d :: ds) = true.
Proof.
  intros Hn Hu Hok.
  pose proof (ruleDeclarations_perm localeCompare properties cfg) as P.
  destruct (declarations properties) as [|d ds] eqn:E.
  - apply Permutation_sym, Permutation_nil in P. subst properties.
    discriminate Hn.
  - exists d, ds. split; [reflexivity|]. split.
    + exact (uniqueKeys_perm _ _ P Hu).
    + rewrite forallb_forall in *. intros x Hx. apply Hok.
      eapply Permutation_in; [apply Permutation_sym; exact P|exact Hx].
Qed.

(** One generated rule is one match of the parser, which stores the
    selector with the declarations as written. *)
Lemma read_rule (r : jsstring * PropertyMap) (acc rest : jsstring)
  (rules : RuleMap) :
  forallb isWhiteSpace acc = true -> cssRuleOk cfg r = true ->
  fold_left addRule
    (scanRules 0 acc (generateRule localeCompare (fst r) (snd r) cfg ++ rest)) rules
  = fold_left addRule (scanRules 0 [10%N] rest)
      (set (fst r) (declarations (snd r)) rules).
Proof.
  intros Ha Hr. unfold cssRuleOk in Hr.
  apply andb_true_iff in Hr as [Hr Hok].
  apply andb_true_iff in Hr as [Hr Hu].
  apply andb_true_iff in Hr as [Hs Hn].
  destruct (selector_parts _ Hs) as (Ts & Fs & Ns).
  destruct (written_declarations_ok (snd r) Hn Hu Hok)
    as (d & ds & Ed & Ud & Okd).
  set (body := nl ++ concat (map (declarationCSS cfg) (d :: ds))).
  assert (G : generateRule localeCompare (fst r) (snd r) cfg ++ rest
              = (fst r ++ u " ") ++ 123%N :: body ++ 125%N :: nl ++ rest).
  { unfold generateRule. destruct (snd r) as [|p ps] eqn:Ep;
      [discriminate Hn|].
    rewrite plain. cbv zeta. rewrite Ed. unfold body.
    repeat rewrite <- app_assoc. reflexivity. }
  rewrite G. rewrite scanRules_rule.
  - cbn [fold_left]. f_equal.
    unfold addRule. cbn [fst snd].
    assert (T1 : trim (rev acc ++ fst r ++ u " ") = fst r).
    { apply trim_pad; [now rewrite forallb_rev|reflexivity|exact Ts|exact Fs]. }
    destruct (parse_body d ds Ud Okd) as [T2 T3]. fold body in T2, T3.
    rewrite T1, T2, T3, Ts. cbn [andb]. now rewrite Ed.
  - rewrite forallb_app. apply andb_true_iff. split; [exact Ns|reflexivity].
  - destruct (fst r); [discriminate Ts|]. now destruct (rev acc).
  - reflexivity.
  - apply body_no_closing. exact Okd.
Qed.


Local Abbreviation store rs rules :=
  (fold_left (fun a r => set (fst r) (declarations (snd r)) a) rs rules).

Lemma read_flat (rs : RuleMap) (acc rest : jsstring) (rules : RuleMap) :
  forallb isWhiteSpace acc = true -> forallb (cssRuleOk cfg) rs = true ->
  exists acc', forallb isWhiteSpace acc' = true
    /\ fold_left addRule
         (scanRules 0 acc (generateFlatRules localeCompare rs cfg ++ rest))
         rules
       = fold_left addRule (scanRules 0 acc' rest) (store rs rules).
Proof.
  revert acc rules. induction rs as [|r rs IH]; intros acc rules Ha Hok.
  - exists acc. now split.
  - cbn [forallb] in Hok. apply andb_true_iff in Hok as [Hr Hok].
    destruct (IH [10%N] (set (fst r) (declarations (snd r)) rules) eq_refl Hok)
      as (acc' & Ha' & E).
    exists acc'. split; [exact Ha'|].
    unfold generateFlatRules. cbn [map concat]. rewrite <- app_assoc.
    rewrite (read_rule r acc _ rules Ha Hr). exact E.
Qed.

Lemma read_grouped (text : gcategory * RuleMap -> jsstring)
  (cats : list (gcategory * RuleMap)) (acc rest : jsstring)
  (rules : RuleMap) :
  (forall cr, text cr = match snd cr with
                        | [] => []
                        | _ :: _ =>
                          generateFlatRules localeCompare (snd cr) cfg ++ nl
                        end) ->
  forallb isWhiteSpace acc = true ->
  forallb (cssRuleOk cfg) (concat (map snd cats)) = true ->
  exists acc', forallb isWhiteSpace acc' = true
    /\ fold_left addRule
         (scanRules 0 acc (concat (map text cats) ++ rest)) rules
       = fold_left addRule (scanRules 0 acc' rest)
           (store (concat (map snd cats)) rules).
Proof.
  intros Ht.
  revert acc rules. induction cats as [|cr cats IH]; intros acc rules Ha Hok.
  - exists acc. now split.
  - cbn [map concat] in Hok |- *. rewrite forallb_app in Hok.
    apply andb_true_iff in Hok as [Hcr Hok]. rewrite (Ht cr).
    destruct (snd cr) as [|r0 rs0] eqn:E.
    + cbn [app]. exact (IH acc rules Ha Hok).
    + rewrite fold_left_app. rewrite <- !app_assoc.
      destruct (read_flat (r0 :: rs0) acc
                  (nl ++ concat (map text cats) ++ rest) rules Ha Hcr)
        as (acc1 & Ha1 & E1).
      destruct (IH (10%N :: acc1) (store (r0 :: rs0) rules))
        as (acc2 & Ha2 & E2).
      { cbn [forallb]. now rewrite Ha1. }
      { exact Hok. }
      exists acc2. split; [exact Ha2|].
      etransitivity; [exact E1|]. exact E2.
Qed.

Lemma uniqueKeys_values {V W} (f : V -> W) (l : table V) :
  uniqueKeys (map (fun r => (fst r, f (snd r))) l) = uniqueKeys l.
Proof.
  apply eq_true_iff_eq. rewrite !uniqueKeys_NoDup. unfold keys.
  rewrite map_map. cbn [fst]. reflexivity.
Qed.

Lemma store_unique (rs : RuleMap) :
  uniqueKeys rs = true ->
  store rs [] = map (fun r => (fst r, declarations (snd r))) rs.
Proof.
  intros H.
  rewrite <- (fold_left_mapped (fun a d => set (fst d) (snd d) a)
                (fun r : jsstring * PropertyMap =>
                   (fst r, declarations (snd r)))).
  apply (rebuild_unique _ []); [|reflexivity].
  exact (eq_trans (uniqueKeys_values (fun p => declarations p) rs) H).
Qed.

End RoundTrip.

(** X17. a stylesheet written by [generate] without minification and without
    comments is read back by [parseCSSText] as the rules that were written:
    every selector once, in the order of writing, with the declarations as
    [generateRule] put them.  The rules must be ones the parser's two
    regular expressions can carry: no layout selector, no brace in a
    selector, no colon in a property name, no semicolon or closing brace in
    a declaration, nothing that [trim] or [normalizeValue] would change. *)
Theorem generated_css_is_parsed_back
  (localeCompare : jsstring -> jsstring -> Z) (now : jsstring)
  (styleRules : RuleMap) (cfg : config) :
  minify cfg = false -> addComments cfg = false ->
  uniqueKeys styleRules = true ->
  noLayoutSelector styleRules = true ->
  forallb (cssRuleOk cfg) styleRules = true ->
  parseCSSText (generate localeCompare now styleRules cfg)
  = map (fun r => (fst r, ruleDeclarations localeCompare (snd r) cfg))
        (writtenOrder cfg styleRules).
Proof.
  intros Hm Hc Hu Hn Hok. unfold generate.
  rewrite (layout_passes_skip styleRules Hu Hn). cbv zeta.
  destruct styleRules as [|r0 rm] eqn:E.
  { unfold writtenOrder. now destruct (groupBySelector cfg). }
  rewrite <- E in *. clear E r0 rm.
  rewrite Hm, Hc. cbn [app]. unfold parseCSSText, writtenOrder.
  destruct (groupBySelector cfg).
  - pose proof (gcategories_perm styleRules) as P.
    assert (Hok' : forallb (cssRuleOk cfg)
                     (concat (map snd (categorizeRules styleRules))) = true).
    { rewrite forallb_forall in *. intros x Hx. apply Hok.
      eapply Permutation_in; [apply Permutation_sym; exact P|exact Hx]. }
    unfold generateGroupedRules.
    match goal with
    | |- context [concat (map ?f (categorizeRules styleRules))] =>
      set (text := f)
    end.
    assert (Ht : forall cr, text cr
                   = match snd cr with
                     | [] => []
                     | _ :: _ =>
                       generateFlatRules localeCompare (snd cr) cfg ++ nl
                     end).
    { intros cr. unfold text. rewrite Hc. now destruct (snd cr). }
    destruct (read_grouped localeCompare cfg Hm text
                (categorizeRules styleRules) [] [] [] Ht eq_refl Hok')
      as (acc' & _ & R).
    rewrite app_nil_r in R.
    etransitivity; [exact R|]. cbn [scanRules fold_left].
    apply (store_unique localeCompare cfg).
    exact (uniqueKeys_perm _ _ P Hu).
  - destruct (read_flat localeCompare cfg Hm styleRules [] [] [] eq_refl Hok)
      as (acc' & _ & R).
    rewrite app_nil_r in R. etransitivity; [exact R|].
    cbn [scanRules fold_left].
    now apply (store_unique localeCompare cfg).
Qed.

Lemma generated_css_is_parsed_back_witness :
  let localeCompare := fun _ _ : jsstring => 0%Z in
  let cfg := mkConfig false true true true false 2 in
  let styleRules :=
    [(u "#send_but", [(u "color", u "red"); (u "top", u "1px")]);
     (u ".mes_text", [(u "font-family", u "Georgia, serif")])] in
  minify cfg = false /\ addComments cfg = false
  /\ uniqueKeys styleRules = true
  /\ noLayoutSelector styleRules = true
  /\ forallb (cssRuleOk cfg) styleRules = true
  /\ parseCSSText (generate localeCompare (u "2025/1/1") styleRules cfg)
     = [(u ".mes_text", [(u "font-family", u "Georgia, serif")]);
        (u "#send_but", [(u "top", u "1px"); (u "color", u "red")])].
Proof.
  intros localeCompare cfg styleRules.
  assert (H3 : uniqueKeys styleRules = true) by (vm_compute; reflexivity).
  assert (H4 : noLayoutSelector styleRules = true)
    by (vm_compute; reflexivity).
  assert (H5 : forallb (cssRuleOk cfg) styleRules = true)
    by (vm_compute; reflexivity).
  do 2 (split; [reflexivity|]).
  split; [exact H3|]. split; [exact H4|]. split; [exact H5|].
  rewrite (generated_css_is_parsed_back localeCompare (u "2025/1/1")
             styleRules cfg eq_refl eq_refl H3 H4 H5).
  vm_compute. reflexivity.
Defined.
(* ===================================================================== *)
(** ** The optimizer *)
(* ===================================================================== *)

(** *** Optimizing twice *)

Lemma get_filter_some (keep : jsstring -> bool) (k : jsstring)
  (o : PropertyMap) (v : jsstring) :
  get k (filter (fun d => keep (fst d)) o) = Some v ->
  keep k = true /\ get k o = Some v.
Proof.
  intros H. destruct (keep k) eqn:K.
  - split; [reflexivity|]. now rewrite (get_filter_kept keep k o K) in H.
  - exfalso. apply get_in in H. apply filter_In in H as [_ H].
    cbn [fst] in H. congruence.
Qed.

Section Settled.

Variable prefix : jsstring.

Local Abbreviation sideKeys :=
  [prefix ++ u "-top"; prefix ++ u "-right"; prefix ++ u "-bottom";
   prefix ++ u "-left"].

(** Nothing is left for [mergeBoxInto] to do. *)
Local Abbreviation settled o :=
  (canMergeBox o prefix = true -> optTruthy (mergeBox o prefix) = false).

Lemma mergeBoxInto_settled (o : PropertyMap) :
  settled o -> mergeBoxInto prefix o = o.
Proof.
  intros H. unfold mergeBoxInto.
  destruct (canMergeBox o prefix); [|reflexivity].
  specialize (H eq_refl). destruct (mergeBox o prefix) as [v|]; [|reflexivity].
  cbn [optTruthy] in H. now rewrite H.
Qed.

Lemma box_ext (o o' : PropertyMap) :
  (forall k, In k sideKeys -> get k o' = get k o) ->
  canMergeBox o' prefix = canMergeBox o prefix
  /\ mergeBox o' prefix = mergeBox o prefix.
Proof.
  intros H. unfold canMergeBox, mergeBox, has. cbn [forallb].
  rewrite !H by (cbn [In]; auto 6). split; reflexivity.
Qed.

Lemma settled_ext (o o' : PropertyMap) :
  (forall k, In k sideKeys -> get k o' = get k o) ->
  settled o -> settled o'.
Proof.
  intros H S. destruct (box_ext o o' H) as [E1 E2]. now rewrite E1, E2.
Qed.

Lemma settled_after (o : PropertyMap) : settled (mergeBoxInto prefix o).
Proof.
  unfold mergeBoxInto.
  destruct (canMergeBox o prefix) eqn:C; [|congruence].
  destruct (mergeBox o prefix) as [v|] eqn:M.
  - destruct (truthy v) eqn:T.
    + intros H. exfalso. unfold canMergeBox in H. cbn [forallb] in H.
      repeat (apply andb_true_iff in H as [? H]).
      unfold deleteSides in *.
      match goal with
      | X : has (prefix ++ u "-" ++ u "left") _ = true |- _ =>
        rewrite has_delete in X; rewrite streq_refl in X; discriminate X
      end.
    + intros _. now rewrite M.
  - intros _. now rewrite M.
Qed.

Lemma settled_filter (keep : jsstring -> bool) (o : PropertyMap) :
  settled o -> settled (filter (fun d => keep (fst d)) o).
Proof.
  intros S C.
  assert (G : forall k, In k sideKeys ->
                get k (filter (fun d => keep (fst d)) o) = get k o).
  { intros k Hk. unfold canMergeBox in C. cbn [forallb] in C.
    repeat (apply andb_true_iff in C as [? C]).
    assert (Hs : has k (filter (fun d => keep (fst d)) o) = true).
    { cbn [In] in Hk.
      destruct Hk as [<-|[<-|[<-|[<-|[]]]]]; assumption. }
    unfold has in Hs.
    destruct (get k (filter (fun d => keep (fst d)) o)) as [v|] eqn:E;
      [|discriminate Hs].
    destruct (get_filter_some keep k o v E) as [_ E']. now rewrite E'. }
  destruct (box_ext o _ G) as [E1 E2]. rewrite E2. apply S. now rewrite <- E1.
Qed.

End Settled.

Section Border.

Local Abbreviation borderSettled o :=
  (canMergeBorder o = true -> optTruthy (mergeBorder o) = false).

Local Abbreviation borderStep o :=
  (if canMergeBorder o then
     match mergeBorder o with
     | Some value =>
       if truthy value then deleteBorderParts (set (u "border") value o)
       else o
     | None => o
     end
   else o).

Lemma border_ext (o o' : PropertyMap) :
  (forall k, In k [u "border-width"; u "border-style"; u "border-color"] ->
             get k o' = get k o) ->
  canMergeBorder o' = canMergeBorder o /\ mergeBorder o' = mergeBorder o.
Proof.
  intros H. unfold canMergeBorder, mergeBorder, has.
  rewrite !H by (cbn [In]; auto 6). split; reflexivity.
Qed.

Lemma border_after (o : PropertyMap) : borderSettled (borderStep o).
Proof.
  destruct (canMergeBorder o) eqn:C; [|congruence].
  destruct (mergeBorder o) as [v|] eqn:M.
  - destruct (truthy v) eqn:T.
    + intros H. exfalso. unfold canMergeBorder in H.
      repeat (apply andb_true_iff in H as [H ?]).
      unfold deleteBorderParts in *.
      match goal with
      | X : has (u "border-color") _ = true |- _ =>
        rewrite has_delete in X; rewrite streq_refl in X; discriminate X
      end.
    + intros _. now rewrite M.
  - intros _. now rewrite M.
Qed.

Lemma border_filter (keep : jsstring -> bool) (o : PropertyMap) :
  borderSettled o -> borderSettled (filter (fun d => keep (fst d)) o).
Proof.
  intros S C.
  assert (G : forall k,
             In k [u "border-width"; u "border-style"; u "border-color"] ->
             get k (filter (fun d => keep (fst d)) o) = get k o).
  { intros k Hk. unfold canMergeBorder in C.
    repeat (apply andb_true_iff in C as [C ?]).
    assert (Hs : has k (filter (fun d => keep (fst d)) o) = true).
    { cbn [In] in Hk. destruct Hk as [<-|[<-|[<-|[]]]]; assumption. }
    unfold has in Hs.
    destruct (get k (filter (fun d => keep (fst d)) o)) as [v|] eqn:E;
      [|discriminate Hs].
    destruct (get_filter_some keep k o v E) as [_ E']. now rewrite E'. }
  destruct (border_ext o _ G) as [E1 E2]. rewrite E2. apply S.
  now rewrite <- E1.
Qed.

Lemma get_borderStep (k : jsstring) (o : PropertyMap) :
  existsb (streq k)
    [u "border"; u "border-width"; u "border-style"; u "border-color"]
  = false ->
  get k (borderStep o) = get k o.
Proof.
  intros H. cbn [existsb] in H.
  repeat (apply orb_false_iff in H as [? H]).
  destruct (canMergeBorder o); [|reflexivity].
  destruct (mergeBorder o) as [v|]; [|reflexivity].
  destruct (truthy v); [|reflexivity].
  unfold deleteBorderParts. rewrite !get_delete, get_set.
  repeat match goal with X : streq k _ = false |- _ => rewrite X; clear X end.
  reflexivity.
Qed.

(** What [mergeProperties] returns has nothing left to merge. *)
Lemma mergeProperties_result (properties : PropertyMap) :
  let m := mergeProperties properties in
  (canMergeBox m (u "margin") = true ->
   optTruthy (mergeBox m (u "margin")) = false)
  /\ (canMergeBox m (u "padding") = true ->
      optTruthy (mergeBox m (u "padding")) = false)
  /\ borderSettled m.
Proof.
  cbv zeta.
  set (m1 := mergeBoxInto (u "margin") properties).
  set (m2 := mergeBoxInto (u "padding") m1).
  change (mergeProperties properties) with (borderStep m2).
  assert (S1 : canMergeBox m1 (u "margin") = true ->
               optTruthy (mergeBox m1 (u "margin")) = false)
    by apply settled_after.
  assert (S2 : canMergeBox m2 (u "padding") = true ->
               optTruthy (mergeBox m2 (u "padding")) = false)
    by apply settled_after.
  assert (S1' : canMergeBox m2 (u "margin") = true ->
                optTruthy (mergeBox m2 (u "margin")) = false).
  { apply (settled_ext (u "margin") m1 m2); [|exact S1].
    intros k Hk. apply get_mergeBoxInto;
      cbn [In] in Hk; destruct Hk as [<-|[<-|[<-|[<-|[]]]]];
      vm_compute; reflexivity. }
  split; [|split].
  - apply (settled_ext (u "margin") m2); [|exact S1'].
    intros k Hk. apply get_borderStep.
    cbn [In] in Hk; destruct Hk as [<-|[<-|[<-|[<-|[]]]]];
      vm_compute; reflexivity.
  - apply (settled_ext (u "padding") m2); [|exact S2].
    intros k Hk. apply get_borderStep.
    cbn [In] in Hk; destruct Hk as [<-|[<-|[<-|[<-|[]]]]];
      vm_compute; reflexivity.
  - apply border_after.
Qed.

Lemma mergeProperties_settled (o : PropertyMap) :
  (canMergeBox o (u "margin") = true ->
   optTruthy (mergeBox o (u "margin")) = false) ->
  (canMergeBox o (u "padding") = true ->
   optTruthy (mergeBox o (u "padding")) = false) ->
  borderSettled o ->
  mergeProperties o = o.
Proof.
  intros S1 S2 S3. unfold mergeProperties. cbv zeta.
  rewrite (mergeBoxInto_settled (u "margin") o S1).
  rewrite (mergeBoxInto_settled (u "padding") o S2).
  destruct (canMergeBorder o); [|reflexivity].
  specialize (S3 eq_refl). destruct (mergeBorder o) as [v|]; [|reflexivity].
  cbn [optTruthy] in S3. now rewrite S3.
Qed.

(** The two passes that [optimize] runs on a rule find nothing to do on
    their own result. *)
Lemma cleaned_settled (properties : PropertyMap) :
  let cleaned := removeRedundant (mergeProperties properties) in
  removeRedundant (mergeProperties cleaned) = cleaned.
Proof.
  cbv zeta.
  destruct (mergeProperties_result properties) as (S1 & S2 & S3).
  cbv zeta in S1, S2, S3.
  rewrite mergeProperties_settled.
  - apply removeRedundant_settled.
  - rewrite removeRedundant_filter.
    apply (settled_filter (u "margin")
             (fun x => negb (redundantIn (mergeProperties properties) x))).
    exact S1.
  - rewrite removeRedundant_filter.
    apply (settled_filter (u "padding")
             (fun x => negb (redundantIn (mergeProperties properties) x))).
    exact S2.
  - rewrite removeRedundant_filter.
    apply (border_filter
             (fun x => negb (redundantIn (mergeProperties properties) x))).
    exact S3.
Qed.

End Border.

Lemma in_set_cases {V} (k : jsstring) (v : V) (o : table V)
  (r : jsstring * V) :
  In r (set k v o) -> r = (k, v) \/ In r o.
Proof.
  induction o as [|[k' v'] o IH]; cbn [set].
  - intros [<-|[]]. now left.
  - destruct (streq k k').
    + intros [<-|H]; [now left|right; now right].
    + intros [<-|H]; [right; now left|].
      destruct (IH H) as [E|E]; [now left|right; now right].
Qed.

Lemma optimize_rules (styleRules acc : RuleMap) :
  let clean := fun p => removeRedundant (mergeProperties p) in
  (uniqueKeys acc = true
   /\ forall r, In r acc ->
        nonEmpty (snd r) = true /\ clean (snd r) = snd r) ->
  let result :=
    fold_left
      (fun optimized rule =>
         let cleaned := removeRedundant (mergeProperties (snd rule)) in
         if nonEmpty cleaned then set (fst rule) cleaned optimized
         else optimized)
      styleRules acc in
  uniqueKeys result = true
  /\ forall r, In r result ->
       nonEmpty (snd r) = true /\ clean (snd r) = snd r.
Proof.
  cbv zeta. revert acc.
  induction styleRules as [|x l IH]; intros acc Hacc; [exact Hacc|].
  cbn [fold_left]. apply IH. destruct Hacc as [Hu Hr].
  destruct (nonEmpty (removeRedundant (mergeProperties (snd x)))) eqn:N;
    [|now split].
  split; [now apply uniqueKeys_set|].
  intros r Hin. apply in_set_cases in Hin as [->|Hin]; [|now apply Hr].
  cbn [snd]. split; [exact N|apply cleaned_settled].
Qed.

(** X18. [optimize] is idempotent, and it returns no rule without
    declarations: optimizing an optimized RuleMap gives the same rules, in
    the same order, with the same declarations. *)
Theorem optimize_twice (styleRules : RuleMap) :
  optimize (optimize styleRules) = optimize styleRules
  /\ forall selector properties,
       In (selector, properties) (optimize styleRules) ->
       nonEmpty properties = true.
Proof.
  destruct (optimize_rules styleRules [] (conj eq_refl (fun r (H : In r []) =>
                                                         match H with end)))
    as [Hu Hr].
  fold (optimize styleRules) in Hu, Hr. split.
  - unfold optimize at 1.
    etransitivity;
      [apply (fold_left_agree _ (fun a d => set (fst d) (snd d) a))
      |exact (rebuild_unique (optimize styleRules) [] Hu
                (fun _ _ => eq_refl))].
    intros acc x Hx. destruct (Hr x Hx) as [N E]. cbv zeta.
    rewrite E. now rewrite N.
  - intros selector properties Hin. exact (proj1 (Hr _ Hin)).
Qed.
(* ===================================================================== *)
(** ** SCSS export *)
(* ===================================================================== *)

Lemma buildNesting_unique (styleRules : RuleMap) :
  uniqueKeys styleRules = true ->
  buildNesting styleRules
  = map (fun r => (fst r, ScssData (snd r) [])) styleRules.
Proof.
  intros H. unfold buildNesting.
  rewrite <- (fold_left_mapped (fun a d => set (fst d) (snd d) a)
                (fun r : jsstring * PropertyMap =>
                   (fst r, ScssData (snd r) []))).
  apply (rebuild_unique _ []); [|reflexivity].
  exact (eq_trans (uniqueKeys_values (fun p => ScssData p []) styleRules) H).
Qed.

Lemma scss_rule_is_plain_rule (localeCompare : jsstring -> jsstring -> Z)
  (selector : jsstring) (properties : PropertyMap) :
  nonEmpty properties = true ->
  generateSCSSRule selector (ScssData properties []) 0
  = generateRule localeCompare selector properties
      (mkConfig false false false false false 2).
Proof.
  intros H. unfold generateRule. destruct properties as [|d ds] eqn:E;
    [discriminate H|]. rewrite <- E. clear E H.
  assert (D : map (declarationCSS (mkConfig false false false false false 2))
                properties
              = map (fun d => u "  " ++ fst d ++ u ": " ++ snd d ++ u ";"
                                ++ nl) properties).
  { apply map_ext. intros [k v]. unfold declarationCSS.
    cbn [minify useImportant indentSize repeatStr fst snd]. cbv zeta.
    repeat rewrite <- app_assoc. reflexivity. }
  cbn [generateSCSSRule repeatStr minify]. unfold ruleDeclarations.
  cbn [sortPropertiesFlag]. cbv zeta. rewrite D.
  cbn [app]. repeat rewrite <- app_assoc. reflexivity.
Qed.

(** X19. the SCSS export is the flat stylesheet: for rules that all have
    declarations, whose selectors are plain keys of the nesting object, and
    that the layout preprocessing does not rewrite,
    [generateSCSS] writes exactly the text that [generate] writes when it
    neither minifies, groups, sorts nor comments, adds no [!important] and
    indents by two. *)
Theorem scss_export_is_the_flat_stylesheet
  (localeCompare : jsstring -> jsstring -> Z) (now : jsstring)
  (styleRules : RuleMap) :
  uniqueKeys styleRules = true ->
  noLayoutSelector styleRules = true ->
  forallb (fun r => nonEmpty (snd r)) styleRules = true ->
  forallb (fun r => plainKey (fst r)) styleRules = true ->
  generateSCSS styleRules
  = generate localeCompare now styleRules
      (mkConfig false false false false false 2).
Proof.
  intros Hu Hn He _. unfold generate.
  rewrite (layout_passes_skip styleRules Hu Hn). cbv zeta.
  unfold generateSCSS. rewrite (buildNesting_unique styleRules Hu).
  destruct styleRules as [|r0 rm] eqn:E; [reflexivity|].
  rewrite <- E in *. clear E r0 rm.
  cbn [addComments groupBySelector minify app].
  unfold generateFlatRules. rewrite map_map. f_equal.
  apply map_ext_in. intros r Hr. cbn [fst snd].
  apply scss_rule_is_plain_rule.
  rewrite forallb_forall in He. exact (He r Hr).
Qed.

Lemma scss_export_is_the_flat_stylesheet_witness :
  let styleRules :=
    [(u ".mes_text", [(u "color", u "red"); (u "top", u "1px")]);
     (u "#send_but", [(u "position", u "absolute")])] in
  uniqueKeys styleRules = true
  /\ noLayoutSelector styleRules = true
  /\ forallb (fun r => nonEmpty (snd r)) styleRules = true
  /\ forallb (fun r => plainKey (fst r)) styleRules = true
  /\ generateSCSS styleRules
     = generate (fun _ _ => 0%Z) [] styleRules
         (mkConfig false false false false false 2).
Proof.
  intros styleRules.
  assert (H1 : uniqueKeys styleRules = true) by (vm_compute; reflexivity).
  assert (H2 : noLayoutSelector styleRules = true)
    by (vm_compute; reflexivity).
  assert (H3 : forallb (fun r => nonEmpty (snd r)) styleRules = true)
    by (vm_compute; reflexivity).
  assert (H4 : forallb (fun r => plainKey (fst r)) styleRules = true)
    by (vm_compute; reflexivity).
  split; [exact H1|]. split; [exact H2|]. split; [exact H3|].
  split; [exact H4|].
  exact (scss_export_is_the_flat_stylesheet (fun _ _ => 0%Z) [] styleRules
           H1 H2 H3 H4).
Defined.
(* ===================================================================== *)
(** ** Expanding and combining shorthands *)
(* ===================================================================== *)

Import CssParser.

Lemma splitBlanksFrom_word (inBlank : bool) (w : jsstring) :
  forallb (fun c => negb (isWhiteSpace c)) w = true ->
  splitBlanksFrom inBlank w = [w].
Proof.
  revert inBlank. induction w as [|c w IH]; intros inBlank H; [reflexivity|].
  cbn [forallb] in H. apply andb_true_iff in H as [Hc H].
  apply negb_true_iff in Hc. cbn [splitBlanksFrom]. rewrite Hc.
  now rewrite (IH false H).
Qed.

Lemma splitBlanks_two (a b : jsstring) :
  forallb (fun c => negb (isWhiteSpace c)) a = true ->
  forallb (fun c => negb (isWhiteSpace c)) b = true ->
  splitBlanks (a ++ u " " ++ b) = [a; b].
Proof.
  intros Ha Hb. unfold splitBlanks. change (u " " ++ b) with (32%N :: b).
  induction a as [|c a IH].
  - change (splitBlanksFrom false ([] ++ 32%N :: b))
      with ([] :: splitBlanksFrom true b).
    f_equal. exact (splitBlanksFrom_word true b Hb).
  - cbn [forallb] in Ha. apply andb_true_iff in Ha as [Hc Ha].
    apply negb_true_iff in Hc.
    change ((c :: a) ++ 32%N :: b) with (c :: (a ++ 32%N :: b)).
    cbn [splitBlanksFrom]. rewrite Hc. now rewrite (IH Ha).
Qed.


Ltac literal_keys :=
  repeat match goal with
         | |- context [u ?s] =>
           let k := eval vm_compute in (u s) in change (u s) with k
         end.

(** X20. a one-word margin or padding survives [expandShorthand] followed by
    [combineShorthand]: the four sides are combined into the shorthand
    again.  With two different words the sides stay expanded and no
    shorthand comes back. *)
Theorem shorthand_expanded_and_combined (property : jsstring) :
  In property [u "margin"; u "padding"] ->
  (forall value,
     truthy value = true ->
     forallb (fun c => negb (isWhiteSpace c)) value = true ->
     combineShorthand (expandShorthand property value) = [(property, value)])
  /\ (forall a b,
        truthy a = true -> truthy b = true ->
        forallb (fun c => negb (isWhiteSpace c)) a = true ->
        forallb (fun c => negb (isWhiteSpace c)) b = true ->
        a <> b ->
        combineShorthand (expandShorthand property (a ++ u " " ++ b))
        = [(property ++ u "-top", a); (property ++ u "-bottom", a);
           (property ++ u "-right", b); (property ++ u "-left", b)]).
Proof.
  intros Hp. split.
  - intros value Ht Hw.
    assert (E : splitBlanks value = [value])
      by exact (splitBlanksFrom_word false value Hw).
    destruct Hp as [<-|[<-|[]]]; unfold expandShorthand;
      match goal with
      | |- context [if ?c then _ else _] => change c with true
      end; cbv iota; rewrite E;
      unfold combineShorthand, combineBox, deleteSides; literal_keys; cbn;
      rewrite ?Ht, ?streq_refl; cbn; reflexivity.
  - intros a b Ta Tb Wa Wb Hab.
    apply streq_neq in Hab.
    destruct Hp as [<-|[<-|[]]]; unfold expandShorthand;
      match goal with
      | |- context [if ?c then _ else _] => change c with true
      end; cbv iota; rewrite (splitBlanks_two a b Wa Wb);
      unfold combineShorthand, combineBox, deleteSides; literal_keys; cbn;
      rewrite ?Ta, ?Tb, ?Hab; cbn; reflexivity.
Qed.

Lemma shorthand_expanded_and_combined_witness :
  In (u "margin") [u "margin"; u "padding"]
  /\ combineShorthand (expandShorthand (u "margin") (u "4px"))
     = [(u "margin", u "4px")]
  /\ combineShorthand (expandShorthand (u "margin") (u "4px 8px"))
     = [(u "margin-top", u "4px"); (u "margin-bottom", u "4px");
        (u "margin-right", u "8px"); (u "margin-left", u "8px")].
Proof.
  assert (H : In (u "margin") [u "margin"; u "padding"])
    by (left; reflexivity).
  split; [exact H|]. split.
  - exact (proj1 (shorthand_expanded_and_combined (u "margin") H)
             (u "4px") eq_refl eq_refl).
  - refine (proj2 (shorthand_expanded_and_combined (u "margin") H)
              (u "4px") (u "8px") eq_refl eq_refl eq_refl eq_refl _).
    vm_compute. discriminate.
Defined.
(* ===================================================================== *)
(** ** Colour conversions *)
(* ===================================================================== *)

Import CssParser.

Lemma hexDigit_units (c : jschar) :
  isHexDigit c = true -> In c hexDigitUnits.
Proof.
  unfold isHexDigit, isDigit. intros H.
  assert (R : (48 <= c <= 57 \/ 97 <= c <= 102 \/ 65 <= c <= 70)%N).
  { apply orb_true_iff in H as [H|H].
    - apply orb_true_iff in H as [H|H];
        apply andb_true_iff in H as [H1 H2];
        apply N.leb_le in H1; apply N.leb_le in H2; lia.
    - apply andb_true_iff in H as [H1 H2];
        apply N.leb_le in H1; apply N.leb_le in H2; lia. }
  assert (E : (c = 48 \/ c = 49 \/ c = 50 \/ c = 51 \/ c = 52 \/ c = 53
              \/ c = 54 \/ c = 55 \/ c = 56 \/ c = 57
              \/ c = 97 \/ c = 98 \/ c = 99 \/ c = 100 \/ c = 101 \/ c = 102
              \/ c = 65 \/ c = 66 \/ c = 67 \/ c = 68 \/ c = 69 \/ c = 70)%N)
    by lia.
  unfold hexDigitUnits. cbn [In].
  repeat (destruct E as [->|E]; [tauto|]). subst c. tauto.
Qed.

(** What one channel goes through: written in decimal, read back, and
    written in hexadecimal. *)
Lemma channel_facts (high low : jschar) :
  isHexDigit high = true -> isHexDigit low = true ->
  let text := numberToString (Z.of_N (channelOf high low)) in
  parseIntHex [high; low] = Some (channelOf high low)
  /\ truthy text = true
  /\ forallb isDigit text = true
  /\ parseIntDigits text = channelOf high low
  /\ toHex (channelOf high low) = [lowerHexDigit high; lowerHexDigit low].
Proof.
  intros Hh Hl.
  assert (A : forallb (fun h =>
                forallb (fun l =>
                  let text := numberToString (Z.of_N (channelOf h l)) in
                  match parseIntHex [h; l] with
                  | Some n => (n =? channelOf h l)%N
                  | None => false
                  end
                  && truthy text && forallb isDigit text
                  && (parseIntDigits text =? channelOf h l)%N
                  && streq (toHex (channelOf h l))
                           [lowerHexDigit h; lowerHexDigit l])
                  hexDigitUnits) hexDigitUnits = true)
    by (vm_compute; reflexivity).
  rewrite forallb_forall in A. specialize (A high (hexDigit_units high Hh)).
  rewrite forallb_forall in A. specialize (A low (hexDigit_units low Hl)).
  cbv zeta in A |- *.
  repeat (apply andb_true_iff in A as [A ?]).
  destruct (parseIntHex [high; low]) as [n|]; [|discriminate A].
  apply N.eqb_eq in A. subst n.
  repeat match goal with
         | X : (_ =? _)%N = true |- _ => apply N.eqb_eq in X
         | X : streq _ _ = true |- _ => apply streq_eq in X
         end.
  repeat split; assumption.
Qed.

Lemma digits_not_blank (d rest : jsstring) :
  truthy d = true -> forallb isDigit d = true ->
  dropWhile isWhiteSpace (d ++ rest) = d ++ rest.
Proof.
  destruct d as [|c d]; [discriminate|]. intros _ H. cbn [forallb] in H.
  apply andb_true_iff in H as [H _]. cbn [app dropWhile].
  replace (isWhiteSpace c) with false; [reflexivity|].
  unfold isDigit in H. apply andb_true_iff in H as [H1 H2].
  apply N.leb_le in H1. apply N.leb_le in H2. unfold isWhiteSpace.
  symmetry.
  repeat match goal with
         | |- (_ || _) = false => apply orb_false_iff; split
         | |- (_ && _) = false => apply andb_false_iff
         end;
    try (apply N.eqb_neq; lia);
    try (right; apply N.leb_gt; lia);
    try (left; apply N.leb_gt; lia).
Qed.

Lemma matchRgbHere_plain (d1 d2 d3 : jsstring) :
  truthy d1 = true -> forallb isDigit d1 = true ->
  truthy d2 = true -> forallb isDigit d2 = true ->
  truthy d3 = true -> forallb isDigit d3 = true ->
  matchRgbHere (u "rgb(" ++ d1 ++ u "," ++ d2 ++ u "," ++ d3 ++ u ")")
  = Some (d1, d2, d3, None).
Proof.
  intros T1 D1 T2 D2 T3 D3.
  destruct (takeWhile_app_stop isDigit d1 44%N (d2 ++ u "," ++ d3 ++ u ")")
              D1 eq_refl) as [A1 B1].
  destruct (takeWhile_app_stop isDigit d2 44%N (d3 ++ u ")") D2 eq_refl)
    as [A2 B2].
  destruct (takeWhile_app_stop isDigit d3 41%N [] D3 eq_refl) as [A3 B3].
  unfold matchRgbHere.
  change (u "rgb(" ++ d1 ++ u "," ++ d2 ++ u "," ++ d3 ++ u ")")
    with (114%N :: 103%N :: 98%N :: 40%N
            :: (d1 ++ 44%N :: d2 ++ u "," ++ d3 ++ u ")")).
  change (startsWith (u "rgb") _) with true. cbv iota. cbn [skipn].
  cbv zeta. change (40 =? 97)%N with false. cbv iota.
  change (40 =? 40)%N with true. cbv iota.
  unfold jsstring, jschar in *. rewrite A1, B1.
  destruct d1 as [|x1 d1]; [discriminate T1|].
  change (44 =? 44)%N with true. cbv iota.
  rewrite (digits_not_blank d2 _ T2 D2).
  change (u "," ++ d3 ++ u ")") with (44%N :: d3 ++ u ")").
  unfold jsstring, jschar in *. rewrite A2, B2.
  destruct d2 as [|x2 d2]; [discriminate T2|].
  change (44 =? 44)%N with true. cbv iota.
  rewrite (digits_not_blank d3 _ T3 D3).
  change (u ")") with [41%N].
  unfold jsstring, jschar in *. rewrite A3, B3.
  destruct d3 as [|x3 d3]; [discriminate T3|].
  reflexivity.
Qed.

Lemma matchRgb_here (s : jsstring)
  (m : jsstring * jsstring * jsstring * option jsstring) :
  matchRgbHere s = Some m -> matchRgb s = Some m.
Proof. intros H. destruct s; cbn [matchRgb]; now rewrite H. Qed.

Lemma hexDigit_not_quote (c : jschar) :
  isHexDigit c = true -> isQuote c = false.
Proof.
  intros H. apply hexDigit_units in H. unfold hexDigitUnits in H.
  cbn [In] in H.
  repeat (destruct H as [<-|H]; [reflexivity|]). destruct H.
Qed.

Lemma get_other_head {V} (c : jschar) (k : jsstring) (o : table V) :
  forallb (fun e => negb (startsWith [c] (fst e))) o = true ->
  get (c :: k) o = None.
Proof.
  induction o as [|[k' v] o IH]; [reflexivity|]. cbn [forallb fst].
  intros H. apply andb_true_iff in H as [H1 H2]. cbn [get].
  replace (streq (c :: k) k') with false; [exact (IH H2)|].
  symmetry. destruct k' as [|x k']; [reflexivity|].
  cbn [startsWith] in H1. cbn [streq].
  destruct (c =? x)%N; [discriminate H1|reflexivity].
Qed.

Lemma firstCall_other_head (c : jschar) (value : jsstring)
  (names : list jsstring) :
  (c =? 40)%N = false ->
  forallb (fun n => negb (startsWith [c] n)) names = true ->
  firstCall names (c :: value) = None.
Proof.
  intros Hc. induction names as [|n names IH]; [reflexivity|].
  cbn [forallb]. intros H. apply andb_true_iff in H as [H1 H2].
  cbn [firstCall]. unfold matchCall.
  replace (startsWith (n ++ [40%N]) (c :: value)) with false;
    [exact (IH H2)|].
  symmetry. destruct n as [|x n]; cbn [app startsWith].
  - rewrite N.eqb_sym, Hc. reflexivity.
  - cbn [startsWith] in H1. rewrite N.eqb_sym.
    destruct (c =? x)%N; [discriminate H1|reflexivity].
Qed.

(** The translator hands every hexadecimal colour to [hexToRgb]. *)
Lemma parseValue_hex (hs property : jsstring) :
  truthy property = true ->
  isHexColor (35%N :: hs) = true ->
  parseValue (35%N :: hs) property = hexToRgb (35%N :: hs).
Proof.
  intros Tp H. unfold parseValue. cbn [length].
  assert (Hd : forallb isHexDigit hs = true).
  { unfold isHexColor in H. repeat (apply andb_true_iff in H as [H ?]).
    assumption. }
  assert (Hl : (3 <= length hs)%nat).
  { unfold isHexColor in H. repeat (apply andb_true_iff in H as [H ?]).
    now apply Nat.leb_le. }
  assert (Q : stripQuotes (35%N :: hs) = 35%N :: hs).
  { unfold stripQuotes. change (isQuote 35%N) with false. cbv iota.
    change (rev (35%N :: hs)) with (rev hs ++ [35%N]).
    destruct (rev hs) as [|c r] eqn:E.
    - exfalso. apply (f_equal (@length _)) in E. rewrite length_rev in E.
      simpl in E. lia.
    - cbn [app].
      assert (Hc : In c hs) by (apply in_rev; rewrite E; now left).
      rewrite forallb_forall in Hd.
      now rewrite (hexDigit_not_quote c (Hd c Hc)). }
  cbn [parseValueFuel]. rewrite Tp. cbn [negb]. cbv zeta. rewrite Q.
  assert (P : get (35%N :: hs) presetValues = None)
    by (apply get_other_head; vm_compute; reflexivity).
  unfold lookupTruthy. rewrite P.
  assert (F : firstCall functionPatternNames (35%N :: hs) = None)
    by (apply firstCall_other_head; vm_compute; reflexivity).
  unfold jsstring, jschar in *. rewrite F.
  unfold parsePlainValue.
  replace (isUnitValue (35%N :: hs)) with false by reflexivity.
  replace (startsWith (u "rgb(") (35%N :: hs)) with false by reflexivity.
  replace (startsWith (u "rgba(") (35%N :: hs)) with false by reflexivity.
  cbn [orb]. now rewrite H.
Qed.

Section Channels.

Local Abbreviation shown high low :=
  (numberToString (Z.of_N (channelOf high low))).

Lemma hexToRgb_six (h1 h2 h3 h4 h5 h6 : jschar) :
  forallb isHexDigit [h1; h2; h3; h4; h5; h6] = true ->
  hexToRgb [35%N; h1; h2; h3; h4; h5; h6]
  = u "rgb(" ++ shown h1 h2 ++ u "," ++ shown h3 h4 ++ u ","
      ++ shown h5 h6 ++ u ")".
Proof.
  intros H. cbn [forallb] in H.
  repeat (apply andb_true_iff in H as [? H]).
  unfold hexToRgb.
  change (replaceFirst (u "#") [] [35%N; h1; h2; h3; h4; h5; h6])
    with [h1; h2; h3; h4; h5; h6].
  cbv zeta iota.
  change (substring 0 2 [h1; h2; h3; h4; h5; h6]) with [h1; h2].
  change (substring 2 4 [h1; h2; h3; h4; h5; h6]) with [h3; h4].
  change (substring 4 6 [h1; h2; h3; h4; h5; h6]) with [h5; h6].
  rewrite (proj1 (channel_facts h1 h2 ltac:(assumption) ltac:(assumption))).
  rewrite (proj1 (channel_facts h3 h4 ltac:(assumption) ltac:(assumption))).
  rewrite (proj1 (channel_facts h5 h6 ltac:(assumption) ltac:(assumption))).
  reflexivity.
Qed.

Lemma rgbToHex_channels (alphaBelowOne : jsstring -> bool)
  (alphaText : jsstring -> jsstring) (h1 h2 h3 h4 h5 h6 : jschar) :
  forallb isHexDigit [h1; h2; h3; h4; h5; h6] = true ->
  rgbToHex alphaBelowOne alphaText
    (u "rgb(" ++ shown h1 h2 ++ u "," ++ shown h3 h4 ++ u ","
       ++ shown h5 h6 ++ u ")")
  = 35%N :: map lowerHexDigit [h1; h2; h3; h4; h5; h6].
Proof.
  intros H. cbn [forallb] in H.
  repeat (apply andb_true_iff in H as [? H]).
  destruct (channel_facts h1 h2 ltac:(assumption) ltac:(assumption))
    as (_ & T1 & D1 & P1 & X1).
  destruct (channel_facts h3 h4 ltac:(assumption) ltac:(assumption))
    as (_ & T2 & D2 & P2 & X2).
  destruct (channel_facts h5 h6 ltac:(assumption) ltac:(assumption))
    as (_ & T3 & D3 & P3 & X3).
  cbv zeta in *. unfold rgbToHex.
  rewrite (matchRgb_here _ _
             (matchRgbHere_plain _ _ _ T1 D1 T2 D2 T3 D3)).
  cbv zeta. rewrite P1, P2, P3, X1, X2, X3. reflexivity.
Qed.

End Channels.

(** X21. a colour of six hexadecimal digits that the translator has turned
    into [rgb(r,g,b)] is turned back by [rgbToHex] into the same colour,
    in lower case; a colour of three digits comes back with every digit
    doubled. *)
Theorem hex_colour_round_trip (alphaBelowOne : jsstring -> bool)
  (alphaText : jsstring -> jsstring) (hs property : jsstring) :
  truthy property = true ->
  forallb isHexDigit hs = true ->
  (length hs = 6 ->
   rgbToHex alphaBelowOne alphaText (parseValue (u "#" ++ hs) property)
   = u "#" ++ map lowerHexDigit hs)
  /\ (length hs = 3 ->
      rgbToHex alphaBelowOne alphaText (parseValue (u "#" ++ hs) property)
      = u "#" ++ concat (map (fun c => [lowerHexDigit c; lowerHexDigit c])
                             hs)).
Proof.
  intros Tp Hd. change (u "#" ++ hs) with (35%N :: hs). split; intros Hl.
  - destruct hs as [|h1 [|h2 [|h3 [|h4 [|h5 [|h6 [|h7 hs]]]]]]];
      try discriminate Hl.
    rewrite parseValue_hex; [|exact Tp|].
    + rewrite (hexToRgb_six _ _ _ _ _ _ Hd).
      exact (rgbToHex_channels alphaBelowOne alphaText _ _ _ _ _ _ Hd).
    + unfold isHexColor. now rewrite Hd.
  - destruct hs as [|h1 [|h2 [|h3 [|h4 hs]]]]; try discriminate Hl.
    rewrite parseValue_hex; [|exact Tp|].
    + change (hexToRgb [35%N; h1; h2; h3])
        with (hexToRgb [35%N; h1; h1; h2; h2; h3; h3]).
      assert (Hd' : forallb isHexDigit [h1; h1; h2; h2; h3; h3] = true).
      { cbn [forallb] in Hd |- *.
        repeat (apply andb_true_iff in Hd as [? Hd]).
        repeat (apply andb_true_iff; split); assumption. }
      rewrite (hexToRgb_six _ _ _ _ _ _ Hd').
      exact (rgbToHex_channels alphaBelowOne alphaText _ _ _ _ _ _ Hd').
    + unfold isHexColor. now rewrite Hd.
Qed.

Lemma hex_colour_round_trip_witness :
  let alphaBelowOne := fun _ : jsstring => false in
  let alphaText := fun text : jsstring => text in
  truthy (u "color") = true
  /\ forallb isHexDigit (u "FFaa00") = true
  /\ length (u "FFaa00") = 6
  /\ parseValue (u "#FFaa00") (u "color") = u "rgb(255,170,0)"
  /\ rgbToHex alphaBelowOne alphaText (parseValue (u "#FFaa00") (u "color"))
     = u "#ffaa00".
Proof.
  intros alphaBelowOne alphaText.
  do 3 (split; [reflexivity|]). split; [vm_compute; reflexivity|].
  exact (proj1 (hex_colour_round_trip alphaBelowOne alphaText (u "FFaa00")
                  (u "color") eq_refl eq_refl) eq_refl).
Defined.

(** X22. the translator takes three to six hexadecimal digits for a colour,
    but [hexToRgb] reads six: with four digits the blue channel is [NaN],
    with five it is the value of the fifth digit alone. *)
Theorem short_hex_colour_channels (a b c d e : jschar)
  (property : jsstring) :
  truthy property = true ->
  forallb isHexDigit [a; b; c; d; e] = true ->
  parseValue [35%N; a; b; c; d] property
  = u "rgb(" ++ numberToString (Z.of_N (channelOf a b)) ++ u ","
      ++ numberToString (Z.of_N (channelOf c d)) ++ u ",NaN)"
  /\ parseValue [35%N; a; b; c; d; e] property
     = u "rgb(" ++ numberToString (Z.of_N (channelOf a b)) ++ u ","
         ++ numberToString (Z.of_N (channelOf c d)) ++ u ","
         ++ numberToString (Z.of_N (FormatParser.hexDigitValue e)) ++ u ")".
Proof.
  intros Tp H.
  assert (H4 : isHexColor [35%N; a; b; c; d] = true).
  { unfold isHexColor. cbn [forallb] in H |- *.
    repeat (apply andb_true_iff in H as [? H]).
    repeat (apply andb_true_iff; split); try assumption; reflexivity. }
  assert (H5 : isHexColor [35%N; a; b; c; d; e] = true).
  { unfold isHexColor. now rewrite H. }
  cbn [forallb] in H. repeat (apply andb_true_iff in H as [? H]).
  pose proof (proj1 (channel_facts a b ltac:(assumption) ltac:(assumption)))
    as E1.
  pose proof (proj1 (channel_facts c d ltac:(assumption) ltac:(assumption)))
    as E2.
  split.
  - rewrite (parseValue_hex _ _ Tp H4). unfold hexToRgb.
    change (replaceFirst (u "#") [] [35%N; a; b; c; d]) with [a; b; c; d].
    cbv zeta iota.
    change (substring 0 2 [a; b; c; d]) with [a; b].
    change (substring 2 4 [a; b; c; d]) with [c; d].
    change (substring 4 6 [a; b; c; d]) with (@nil jschar).
    rewrite E1, E2. reflexivity.
  - rewrite (parseValue_hex _ _ Tp H5). unfold hexToRgb.
    change (replaceFirst (u "#") [] [35%N; a; b; c; d; e])
      with [a; b; c; d; e].
    cbv zeta iota.
    change (substring 0 2 [a; b; c; d; e]) with [a; b].
    change (substring 2 4 [a; b; c; d; e]) with [c; d].
    change (substring 4 6 [a; b; c; d; e]) with [e].
    rewrite E1, E2.
    assert (E3 : parseIntHex [e] = Some (FormatParser.hexDigitValue e)).
    { unfold parseIntHex. cbn [takeWhile].
      replace (isHexDigit e) with true by (symmetry; assumption).
      reflexivity. }
    rewrite E3. reflexivity.
Qed.

Lemma short_hex_colour_channels_witness :
  truthy (u "color") = true
  /\ forallb isHexDigit (u "abcd8") = true
  /\ parseValue (u "#abcd") (u "color") = u "rgb(171,205,NaN)"
  /\ parseValue (u "#abcd8") (u "color") = u "rgb(171,205,8)".
Proof.
  do 2 (split; [reflexivity|]).
  exact (short_hex_colour_channels 97%N 98%N 99%N 100%N 56%N (u "color")
           eq_refl eq_refl).
Defined.
(* ===================================================================== *)
(** ** What the CSS parser returns *)
(* ===================================================================== *)

Import CssParser.

Lemma dropWhile_fixed {A} (p : A -> bool) (l : list A) :
  match l with x :: _ => p x = false | [] => True end ->
  dropWhile p l = l.
Proof. destruct l as [|x l]; [reflexivity|]. simpl. now intros ->. Qed.

(** [trim] leaves nothing for a second [trim]. *)
Lemma trim_trim (s : jsstring) : trim (trim s) = trim s.
Proof.
  unfold trim, trimEnd, trimStart.
  set (A := dropWhile isWhiteSpace s).
  set (B := dropWhile isWhiteSpace (rev A)).
  destruct B as [|d B'] eqn:EB; [reflexivity|].
  assert (Hd : isWhiteSpace d = false) by exact (dropWhile_head _ _ _ _ EB).
  assert (S1 : dropWhile isWhiteSpace (rev (d :: B')) = rev (d :: B')).
  { pose proof (takeWhile_dropWhile isWhiteSpace (rev A)) as E.
    fold B in E. rewrite EB in E.
    apply (f_equal (@rev _)) in E. rewrite rev_involutive, rev_app_distr in E.
    apply dropWhile_fixed.
    destruct (rev (d :: B')) as [|x t] eqn:Er.
    - exact I.
    - destruct A as [|a A'] eqn:EA.
      + cbn [app] in E. discriminate E.
      + cbn [app] in E. injection E as E1 E2. subst x.
        exact (dropWhile_head isWhiteSpace s a A' EA). }
  rewrite S1, rev_involutive. cbn [dropWhile]. now rewrite Hd.
Qed.

Lemma collapseBlanks_head (s : jsstring) :
  match collapseBlanks (u " ") true s with
  | d :: _ => negb (isWhiteSpace d)
  | [] => true
  end = true.
Proof.
  induction s as [|c s IH]; [reflexivity|]. cbn [collapseBlanks].
  destruct (isWhiteSpace c) eqn:E; [exact IH|]. now rewrite E.
Qed.

Lemma collapseBlanks_singleSpaced (inRun : bool) (s : jsstring) :
  singleSpaced (collapseBlanks (u " ") inRun s) = true.
Proof.
  revert inRun. induction s as [|c s IH]; intros inRun; [reflexivity|].
  cbn [collapseBlanks]. destruct (isWhiteSpace c) eqn:E.
  - destruct inRun; [apply IH|].
    change (u " " ++ collapseBlanks (u " ") true s)
      with (32%N :: collapseBlanks (u " ") true s).
    cbn [singleSpaced]. rewrite IH, andb_true_r.
    change (isWhiteSpace 32%N) with true. cbn [negb orb].
    change (32 =? 32)%N with true. cbn [andb].
    apply collapseBlanks_head.
  - cbn [singleSpaced]. rewrite E, IH. reflexivity.
Qed.

Lemma collapseBlanks_snoc (inRun : bool) (s : jsstring) (d : jschar) :
  isWhiteSpace d = false ->
  collapseBlanks (u " ") inRun (s ++ [d])
  = collapseBlanks (u " ") inRun s ++ [d].
Proof.
  intros Hd. revert inRun. induction s as [|c s IH]; intros inRun.
  - cbn [app collapseBlanks]. now rewrite Hd.
  - cbn [app collapseBlanks]. destruct (isWhiteSpace c).
    + destruct inRun; [apply IH|]. rewrite IH. now rewrite app_assoc.
    + now rewrite IH.
Qed.

Lemma collapseBlanks_incl (inRun : bool) (s : jsstring) (c : jschar) :
  In c (collapseBlanks (u " ") inRun s) -> c = 32%N \/ In c s.
Proof.
  revert inRun. induction s as [|x s IH]; intros inRun; [intros []|].
  cbn [collapseBlanks]. destruct (isWhiteSpace x).
  - destruct inRun.
    + intros H. destruct (IH _ H) as [E|E]; [now left|right; now right].
    + intros [<-|H]; [now left|].
      destruct (IH _ H) as [E|E]; [now left|right; now right].
  - intros [<-|H]; [right; now left|].
    destruct (IH _ H) as [E|E]; [now left|right; now right].
Qed.

Lemma stripImportant_incl (s : jsstring) (c : jschar) :
  In c (stripImportant s) -> In c s.
Proof.
  induction s as [|x s IH]; cbn [stripImportant].
  - now destruct (importantTail []).
  - destruct (importantTail (x :: s)); [intros []|].
    intros [<-|H]; [now left|right; now apply IH].
Qed.

Lemma fixed_last (s : jsstring) :
  truthy s = true -> trim s = s ->
  exists t d, s = t ++ [d] /\ isWhiteSpace d = false.
Proof.
  intros Ht Hs. apply trim_fixed in Hs as [_ Hs]. unfold trimEnd in Hs.
  apply (f_equal (@rev _)) in Hs. rewrite rev_involutive in Hs.
  destruct (rev s) as [|d t] eqn:E.
  - apply (f_equal (@rev _)) in E. rewrite rev_involutive in E. subst s.
    discriminate Ht.
  - exists (rev t), d. split.
    + apply (f_equal (@rev _)) in E. rewrite rev_involutive in E.
      exact E.
    + exact (dropWhile_head _ _ _ _ Hs).
Qed.

Section Quotes.

Local Abbreviation requote :=
  (fun c : jschar => if FormatParser.isQuote c then 34%N else c).

Lemma requote_blank (c : jschar) :
  isWhiteSpace (requote c) = isWhiteSpace c
  /\ (requote c =? 32)%N = (c =? 32)%N.
Proof.
  unfold isQuote. destruct (N.eqb_spec c 34) as [->|N1]; [now split|].
  destruct (N.eqb_spec c 39) as [->|N2]; [now split|]. now split.
Qed.

Lemma requote_singleSpaced (w : jsstring) :
  singleSpaced (map requote w) = singleSpaced w.
Proof.
  induction w as [|c w IH]; [reflexivity|]. cbn [map singleSpaced].
  rewrite IH. destruct (requote_blank c) as [E1 E2]. rewrite E1, E2.
  destruct w as [|d w]; [reflexivity|]. cbn [map].
  now rewrite (proj1 (requote_blank d)).
Qed.

Lemma normalizeValue_shape (v : jsstring) :
  singleSpaced (normalizeValue v) = true
  /\ trim (normalizeValue v) = normalizeValue v
  /\ forall c, In c (normalizeValue v) ->
       c <> 39%N /\ (c = 32%N \/ c = 34%N \/ In c v).
Proof.
  unfold normalizeValue.
  set (t := trim (stripImportant v)).
  assert (Ft : trim t = t) by apply trim_trim.
  split; [|split].
  - rewrite requote_singleSpaced. apply collapseBlanks_singleSpaced.
  - destruct (truthy t) eqn:Tt.
    + destruct (fixed_head t Tt Ft) as (c & r & Ec & Wc).
      destruct (fixed_last t Tt Ft) as (t' & d & Ed & Wd).
      eapply (trim_ends _ _ _ (requote c) (requote d)).
      * rewrite Ec. cbn [collapseBlanks]. rewrite Wc. cbn [map].
        reflexivity.
      * rewrite Ed. rewrite (collapseBlanks_snoc false t' d Wd).
        rewrite map_app. reflexivity.
      * now rewrite (proj1 (requote_blank c)).
      * now rewrite (proj1 (requote_blank d)).
    + destruct t; [reflexivity|discriminate Tt].
  - intros c Hc. apply in_map_iff in Hc as (x & Ex & Hx).
    destruct (isQuote x) eqn:Q.
    + subst c. split; [discriminate|]. right. now left.
    + subst c. split.
      * intros ->. discriminate Q.
      * apply collapseBlanks_incl in Hx as [E|Hx]; [now left|].
        right. right. apply stripImportant_incl. now apply trim_incl.
Qed.

End Quotes.

Lemma splitChar_no_separator (c : jschar) (s l : jsstring) :
  In l (splitChar c s) -> ~ In c l.
Proof.
  revert l. induction s as [|x s IH]; intros l; cbn [splitChar].
  - intros [<-|[]] [].
  - destruct (N.eqb_spec x c) as [E|E].
    + intros [<-|H]; [intros []|now apply IH].
    + destruct (splitChar c s) as [|h t] eqn:Es.
      * intros [<-|[]] [F|[]]. congruence.
      * intros [<-|H].
        -- intros [F|F]; [congruence|]. apply (IH h); [now left|exact F].
        -- apply IH. now right.
Qed.

Lemma indexOf_char_prefix (c : jschar) (s : jsstring) (n : nat) :
  indexOf [c] s = Some n -> ~ In c (firstn n s).
Proof.
  revert n. induction s as [|x s IH]; intros n; cbn [indexOf startsWith].
  - discriminate.
  - destruct (N.eqb_spec c x) as [E|E]; cbn [andb].
    + intros [= <-]. intros [].
    + destruct (indexOf [c] s) as [k|] eqn:Ek; [|discriminate].
      cbn [option_map]. intros [= <-]. cbn [firstn].
      intros [F|F]; [congruence|]. exact (IH k eq_refl F).
Qed.

Lemma firstn_incl_in {A} (n : nat) (l : list A) (x : A) :
  In x (firstn n l) -> In x l.
Proof.
  intros H. rewrite <- (firstn_skipn n l). apply in_or_app. now left.
Qed.

Lemma skipn_incl_in {A} (n : nat) (l : list A) (x : A) :
  In x (skipn n l) -> In x l.
Proof.
  intros H. rewrite <- (firstn_skipn n l). apply in_or_app. now right.
Qed.

Section Stored.

Local Abbreviation declarationsOk props :=
  (uniqueKeys props%list = true
   /\ forall d, In d props ->
        parsedNameOk (fst d) && parsedValueOk (snd d) = true).

Lemma parseDeclaration_ok (properties : PropertyMap) (part : jsstring) :
  ~ In 59%N part -> ~ In 125%N part ->
  declarationsOk properties ->
  declarationsOk (parseDeclaration properties part).
Proof.
  intros N1 N2 [Hu Hd]. unfold parseDeclaration.
  destruct (indexOf (u ":") part) as [[|k]|] eqn:I; [now split| |now split].
  cbv zeta.
  set (name := trim (substringTo (S k) part)).
  set (value := trim (substringFrom (S k + 1) part)).
  destruct (truthy name && truthy value) eqn:T; [|now split].
  apply andb_true_iff in T as [Tn Tv].
  split; [now apply uniqueKeys_set|].
  intros d Hin. apply in_set_cases in Hin as [->|Hin]; [|now apply Hd].
  cbn [fst snd].
  destruct (normalizeValue_shape value) as (V1 & V2 & V3).
  apply andb_true_iff. split.
  - unfold parsedNameOk. rewrite Tn. cbn [andb].
    apply andb_true_iff. split.
    + apply streq_eq. apply trim_trim.
    + apply forallb_forall. intros c Hc. apply trim_incl in Hc.
      unfold substringTo in Hc.
      destruct (N.eqb_spec c 58) as [->|]; [|cbn [orb]].
      { exfalso. exact (indexOf_char_prefix 58%N part (S k) I Hc). }
      apply firstn_incl_in in Hc.
      destruct (N.eqb_spec c 59) as [->|]; [contradiction|].
      destruct (N.eqb_spec c 125) as [->|]; [contradiction|reflexivity].
  - unfold parsedValueOk. rewrite V1. cbn [andb].
    apply andb_true_iff. split.
    + now apply streq_eq.
    + apply forallb_forall. intros c Hc. destruct (V3 c Hc) as [Q P].
      destruct (N.eqb_spec c 39) as [->|]; [contradiction|cbn [orb]].
      destruct P as [->|[->|P]]; [reflexivity|reflexivity|].
      apply trim_incl in P. unfold substringFrom in P.
      apply skipn_incl_in in P.
      destruct (N.eqb_spec c 59) as [->|]; [contradiction|].
      destruct (N.eqb_spec c 125) as [->|]; [contradiction|reflexivity].
Qed.

Lemma parseDeclarations_ok (declarations : jsstring) :
  ~ In 125%N declarations ->
  declarationsOk (parseDeclarations declarations).
Proof.
  intros N2. unfold parseDeclarations.
  set (parts := filter (fun p => truthy (trim p))
                       (splitChar 59%N declarations)).
  assert (Hp : forall part, In part parts ->
                 ~ In 59%N part /\ ~ In 125%N part).
  { intros part Hin. apply filter_In in Hin as [Hin _]. split.
    - exact (splitChar_no_separator _ _ _ Hin).
    - intros F. apply N2.
      exact (splitChar_elements _ _ _ _ Hin F). }
  assert (G : forall acc : PropertyMap,
             declarationsOk acc ->
             declarationsOk (fold_left parseDeclaration parts acc)).
  { induction parts as [|part parts IH]; intros acc Hacc; [exact Hacc|].
    cbn [fold_left]. apply IH.
    - intros q Hq. apply Hp. now right.
    - destruct (Hp part (or_introl eq_refl)) as [A B].
      now apply parseDeclaration_ok. }
  apply G. split; [reflexivity|intros d []].
Qed.

End Stored.

Lemma takeWhile_all {A} (p : A -> bool) (l : list A) :
  forallb p (takeWhile p l) = true.
Proof.
  induction l as [|x l IH]; [reflexivity|]. cbn [takeWhile].
  destruct (p x) eqn:E; [|reflexivity]. cbn [forallb]. now rewrite E.
Qed.

(** Group 1 of a match holds no opening brace, group 2 no closing one. *)
Lemma scanRules_groups (s : jsstring) (skip : nat) (acc : jsstring)
  (m : jsstring * jsstring) :
  forallb (fun c => negb (c =? 123)%N) acc = true ->
  In m (scanRules skip acc s) ->
  forallb (fun c => negb (c =? 123)%N) (fst m) = true
  /\ forallb (fun c => negb (c =? 125)%N) (snd m) = true.
Proof.
  revert skip acc. induction s as [|c s IH]; intros skip acc Ha;
    [intros []|].
  cbn [scanRules]. destruct skip as [|k]; [|now apply IH].
  destruct (c =? 123)%N eqn:E.
  - destruct acc as [|a acc']; [now apply IH|].
    destruct (matchBody s) as [body|] eqn:M; [|now apply IH].
    intros [<-|H]; [|exact (IH (S (length body)) [] eq_refl H)].
    cbn [fst snd]. split; [now rewrite forallb_rev|].
    unfold matchBody in M. cbv zeta in M.
    match type of M with
    | context [takeWhile ?p s] =>
      pose proof (takeWhile_all p s) as T;
      destruct (takeWhile p s) as [|b bs]; [discriminate M|];
      destruct (dropWhile p s); [discriminate M|]
    end.
    injection M as <-. exact T.
  - apply IH. cbn [forallb]. now rewrite E, Ha.
Qed.

(** X23. whatever text [parseCSSText] is given, the rules it returns are
    well formed.  Every selector occurs once, is not empty, has no blank
    at either end and no opening brace.  Every rule has at least one
    declaration and each property once.  Every property name is not
    empty, has no blank at either end and no colon, semicolon or closing
    brace.  Every value has only single spaces for blanks, none at either
    end, and no single quote, semicolon or closing brace. *)
Theorem parsed_css_is_well_formed (cssText : jsstring) :
  uniqueKeys (parseCSSText cssText) = true
  /\ forallb parsedRuleOk (parseCSSText cssText) = true.
Proof.
  unfold parseCSSText.
  set (matches := scanRules 0 [] cssText).
  assert (Hm : forall m, In m matches ->
                 forallb (fun c => negb (c =? 123)%N) (fst m) = true
                 /\ forallb (fun c => negb (c =? 125)%N) (snd m) = true)
    by (intros m; apply scanRules_groups; reflexivity).
  assert (G : forall rules : RuleMap,
             uniqueKeys rules = true /\ forallb parsedRuleOk rules = true ->
             uniqueKeys (fold_left addRule matches rules) = true
             /\ forallb parsedRuleOk (fold_left addRule matches rules)
                = true).
  { induction matches as [|m ms IH]; intros rules Hr; [exact Hr|].
    cbn [fold_left]. apply IH; [intros q Hq; apply Hm; now right|].
    destruct Hr as [Hu Hok]. destruct (Hm m (or_introl eq_refl)) as [M1 M2].
    unfold addRule. cbv zeta.
    destruct (truthy (trim (fst m)) && truthy (trim (snd m))) eqn:T;
      [|now split].
    apply andb_true_iff in T as [T1 T2].
    assert (D : ~ In 125%N (trim (snd m))).
    { intros F. apply trim_incl in F. rewrite forallb_forall in M2.
      specialize (M2 _ F). discriminate M2. }
    destruct (parseDeclarations_ok (trim (snd m)) D) as [Du Dd].
    destruct (parseDeclarations (trim (snd m))) as [|d ds] eqn:Ep;
      [now split|].
    split; [now apply uniqueKeys_set|].
    apply forallb_forall. intros r Hin.
    apply in_set_cases in Hin as [->|Hin];
      [|rewrite forallb_forall in Hok; now apply Hok].
    unfold parsedRuleOk. cbn [fst snd nonEmpty].
    rewrite Du, !andb_true_r. apply andb_true_iff. split.
    - unfold cssSelectorOk. rewrite T1. cbn [andb].
      apply andb_true_iff. split.
      + apply streq_eq. apply trim_trim.
      + apply forallb_forall. intros c Hc. apply trim_incl in Hc.
        rewrite forallb_forall in M1. exact (M1 c Hc).
    - apply forallb_forall. exact Dd. }
  apply G. now split.
Qed.
(* ===================================================================== *)
(** ** Writing the styles back *)
(* ===================================================================== *)

Import Editor.

Lemma set_same {V} (k : jsstring) (v : V) (o : table V) :
  get k o = Some v -> set k v o = o.
Proof.
  induction o as [|[k' v'] o IH]; [discriminate|]. cbn [get set].
  destruct (streq k k') eqn:E.
  - intros [= ->]. apply streq_eq in E. now subst k'.
  - intros H. now rewrite (IH H).
Qed.

Lemma rulesOf_rulesOf (c c' : category) (rm : RuleMap) :
  rulesOf c (rulesOf c' rm)
  = if category_eqb c' c then rulesOf c rm else [].
Proof.
  unfold rulesOf. rewrite filter_filter.
  induction rm as [|r rm IH]; [now destruct (category_eqb c' c)|].
  cbn [filter]. rewrite IH.
  destruct (FormatParser.detectCategory (fst r)), c, c'; reflexivity.
Qed.

Lemma rulesOf_app (c : category) (a b : RuleMap) :
  rulesOf c (a ++ b) = rulesOf c a ++ rulesOf c b.
Proof. apply filter_app. Qed.

Lemma rulesOf_textOrder (c : category) (rm : RuleMap) :
  rulesOf c (rulesInTextOrder rm) = rulesOf c rm.
Proof.
  unfold rulesInTextOrder, categoryOrder. cbn [map concat].
  rewrite !rulesOf_app, !rulesOf_rulesOf.
  destruct c; cbn [category_eqb app rulesOf filter];
    now rewrite ?app_nil_r.
Qed.

(** The text does not depend on the order in which the categories' rules
    reach the generator. *)
Lemma generateChineseFormat_textOrder (rm : RuleMap) :
  generateChineseFormat (rulesInTextOrder rm) = generateChineseFormat rm.
Proof.
  unfold generateChineseFormat.
  assert (C : categorizeStyles (rulesInTextOrder rm) = categorizeStyles rm).
  { unfold categorizeStyles. apply map_ext. intros c.
    now rewrite rulesOf_textOrder. }
  rewrite C. pose proof (rulesInTextOrder_perm rm) as P.
  destruct rm as [|r rm].
  - apply Permutation_nil in P. now rewrite P.
  - destruct (rulesInTextOrder (r :: rm)) as [|x l] eqn:E; [|reflexivity].
    apply Permutation_sym, Permutation_nil in P. discriminate P.
Qed.

Lemma fold_set_same {V} (l o : table V) :
  (forall d, In d l -> get (fst d) o = Some (snd d)) ->
  fold_left (fun m e => set (fst e) (snd e) m) l o = o.
Proof.
  induction l as [|d l IH]; intros H; [reflexivity|]. cbn [fold_left].
  rewrite (set_same _ _ _ (H d (or_introl eq_refl))).
  apply IH. intros e He. apply H. now right.
Qed.

Lemma mergedStyles_pending (existingStyles pendingStyles : RuleMap)
  (k : jsstring) (v : PropertyMap) :
  uniqueKeys pendingStyles = true -> In (k, v) pendingStyles ->
  get k (mergedStyles existingStyles pendingStyles) = Some v.
Proof.
  intros Hu Hin. unfold mergedStyles.
  change (fold_left (fun m e => set (fst e) (snd e) m)
            (existingStyles ++ pendingStyles) [])
    with (assign [] (existingStyles ++ pendingStyles)).
  rewrite get_assign_last, rev_app_distr, get_app.
  rewrite (get_rev_unique k pendingStyles Hu).
  now rewrite (in_get_unique k v pendingStyles Hu Hin).
Qed.

(** X24. writing the styles back is idempotent on the text: when
    [applyStylesToCSS] runs again on the text it has just written, with
    the same pending styles, it writes the same localized text.  The
    merged rules must be ones whose lines read back, neither the current
    text nor the merged rules may hold the name of a member of
    [Object.prototype], and the cache of the parser must not answer for
    the new text. *)
Theorem applying_again_keeps_the_text
  (localeCompare : jsstring -> jsstring -> Z) (now : jsstring)
  (cache : table RuleMap) (currentCSS : jsstring)
  (pendingStyles : RuleMap) :
  let first := applyStylesToCSS localeCompare now cache currentCSS
                 pendingStyles in
  uniqueKeys pendingStyles = true ->
  mentionsInherited currentCSS = false ->
  ownNamesOnly
    (mergedStyles (fst (parseChineseFormat cache currentCSS)) pendingStyles)
  = true ->
  roundTripSafe
    (mergedStyles (fst (parseChineseFormat cache currentCSS)) pendingStyles)
  = true ->
  has (cacheKey (chineseCSS (fst first))) (snd first) = false ->
  chineseCSS
    (fst (applyStylesToCSS localeCompare now (snd first)
            (chineseCSS (fst first)) pendingStyles))
  = chineseCSS (fst first).
Proof.
  cbv zeta. intros Hp _ _ Hs Hc.
  unfold applyStylesToCSS in *. cbn [fst snd chineseCSS] in *.
  set (merged := mergedStyles (fst (parseChineseFormat cache currentCSS))
                   pendingStyles) in *.
  set (cache1 := snd (parseChineseFormat cache currentCSS)) in *.
  assert (Hu : uniqueKeys merged = true).
  { unfold roundTripSafe in Hs. now apply andb_true_iff in Hs as [Hs _]. }
  assert (E : fst (parseChineseFormat cache1 (generateChineseFormat merged))
              = rulesInTextOrder merged).
  { unfold parseChineseFormat, parseCSS. unfold has in Hc.
    destruct (get (cacheKey (generateChineseFormat merged)) cache1);
      [discriminate Hc|].
    cbn [fst]. now apply parse_generated. }
  rewrite E. pose proof (rulesInTextOrder_perm merged) as P.
  assert (M : mergedStyles (rulesInTextOrder merged) pendingStyles
              = rulesInTextOrder merged).
  { unfold mergedStyles. rewrite fold_left_app.
    rewrite (rebuild_unique (rulesInTextOrder merged) []
               (uniqueKeys_perm _ _ P Hu) (fun _ _ => eq_refl)).
    cbn [app]. apply fold_set_same. intros [k v] Hin. cbn [fst snd].
    rewrite (get_perm k _ _ P Hu).
    now apply mergedStyles_pending. }
  rewrite M. apply generateChineseFormat_textOrder.
Qed.

Lemma applying_again_keeps_the_text_witness :
  let localeCompare := fun _ _ : jsstring => 0%Z in
  let pendingStyles := [(u ".mes_text", [(u "color", u "red")])] in
  let first := applyStylesToCSS localeCompare [] [] [] pendingStyles in
  uniqueKeys pendingStyles = true
  /\ mentionsInherited [] = false
  /\ ownNamesOnly (mergedStyles (fst (parseChineseFormat [] []))
                     pendingStyles) = true
  /\ roundTripSafe (mergedStyles (fst (parseChineseFormat [] []))
                      pendingStyles) = true
  /\ has (cacheKey (chineseCSS (fst first))) (snd first) = false
  /\ chineseCSS
       (fst (applyStylesToCSS localeCompare [] (snd first)
               (chineseCSS (fst first)) pendingStyles))
     = chineseCSS (fst first).
Proof.
  intros localeCompare pendingStyles first.
  assert (H1 : uniqueKeys pendingStyles = true) by reflexivity.
  assert (H2 : roundTripSafe (mergedStyles (fst (parseChineseFormat [] []))
                                pendingStyles) = true)
    by (vm_compute; reflexivity).
  assert (H3 : has (cacheKey (chineseCSS (fst first))) (snd first) = false)
    by (vm_compute; reflexivity).
  assert (H4 : mentionsInherited [] = false) by reflexivity.
  assert (H5 : ownNamesOnly (mergedStyles (fst (parseChineseFormat [] []))
                               pendingStyles) = true)
    by (vm_compute; reflexivity).
  split; [exact H1|]. split; [exact H4|]. split; [exact H5|].
  split; [exact H2|]. split; [exact H3|].
  exact (applying_again_keeps_the_text localeCompare [] [] [] pendingStyles
           H1 H4 H5 H2 H3).
Defined.
